(** * uint64set: a shallow embedding of lib/uint64set/uint64set.go

    The set stores uint64 values in a three-level structure:
    [Set] -> [bucket32] (keyed by bits 32..63) -> [bucket16] (keyed by
    bits 16..31) holding the low 16 bits either in a small pool of at
    most 56 values or in a 65536-bit bitmap.

    Machine integers are modelled as [Z] restricted to their range,
    slice indices and lengths as [nat]. *)

From Stdlib Require Import ZArith Lia Bool ZifyBool.
From stdpp Require Import base list sorting.

Local Open Scope Z_scope.

(** ** Machine integers *)

Definition u16 (x : Z) : Prop := 0 <= x < 65536.
Definition u32 (x : Z) : Prop := 0 <= x < 4294967296.
Definition u64 (x : Z) : Prop := 0 <= x < 18446744073709551616.

(** Go conversions [uint16(x)] and [uint32(x)] truncate. *)
Definition to_u16 (x : Z) : Z := x mod 65536.
Definition to_u32 (x : Z) : Z := x mod 4294967296.

(** [bits.TrailingZeros64] of the Go standard library: the number of
    trailing zero bits of a 64-bit word, 64 for the zero word. *)
Fixpoint tz_from (n : nat) (i : Z) (w : Z) : Z :=
  match n with
  | O => i
  | S n' => if Z.testbit w i then i else tz_from n' (i + 1) w
  end.

Definition TrailingZeros64 (w : Z) : Z := tz_from 64 0 w.

(** [bits.OnesCount64] of the Go standard library: the population count
    of a 64-bit word. *)
Fixpoint ones_from (n : nat) (i : Z) (w : Z) : Z :=
  match n with
  | O => 0
  | S n' => (if Z.testbit w i then 1 else 0) + ones_from n' (i + 1) w
  end.

Definition OnesCount64 (w : Z) : Z := ones_from 64 0 w.

(** ** Sorting

    [sort.Sort] and [sort.Slice] belong to the Go standard library.
    They are modelled by insertion on a [Z]-valued key.  All the sorted
    sequences of this development have pairwise distinct keys, for which
    every sorting permutation gives this same result. *)
Section Sorting.
Context {A : Type} (key : A -> Z).

Fixpoint insert_by (x : A) (l : list A) : list A :=
  match l with
  | [] => [x]
  | y :: l' => if key x <=? key y then x :: l else y :: insert_by x l'
  end.

Fixpoint sort_by (l : list A) : list A :=
  match l with
  | [] => []
  | x :: l' => insert_by x (sort_by l')
  end.

(** [sort.IsSorted]: no element is less than its predecessor. *)
Fixpoint is_sorted_by (l : list A) : bool :=
  match l with
  | [] => true
  | x :: l' =>
      match l' with
      | [] => true
      | y :: _ => negb (key y <? key x) && is_sorted_by l'
      end
  end.
End Sorting.

(** ** Leaf bucket: [bucket16] *)

Definition bitsPerBucket : Z := 65536.
Definition wordsPerBucket : nat := 1024.
Definition smallPoolCap : nat := 56.

(** [bits] is [None] for the nil pointer; [smallPool] is the inline
    array of 56 slots, of which the first [smallPoolLen] are in use. *)
Record bucket16 := Bucket16 {
  bits : option (list Z);
  smallPoolLen : nat;
  smallPool : list Z
}.

(** The zero value [bucket16{}]. *)
Definition bucket16_zero : bucket16 :=
  Bucket16 None 0 (replicate smallPoolCap 0).

Definition getWordNumBitMask (x : Z) : nat * Z :=
  (Z.to_nat (x / 64), Z.shiftl 1 (Z.land x 63)).

Definition word_at (ws : list Z) (n : nat) : Z := default 0 (ws !! n).

(** Loop of [hasInSmallPool] over the used part of the pool. *)
Fixpoint has_in_slice (a : list Z) (x : Z) : bool :=
  match a with
  | [] => false
  | v :: a' => if v =? x then true else has_in_slice a' x
  end.

Definition hasInSmallPool (b : bucket16) (x : Z) : bool :=
  has_in_slice (take (smallPoolLen b) (smallPool b)) x.

(** Bitmap branch of [bucket16.add]. *)
Definition add_bit (ws : list Z) (x : Z) : bool * list Z :=
  let '(wordNum, bitMask) := getWordNumBitMask x in
  let word := word_at ws wordNum in
  (Z.land word bitMask =? 0, <[wordNum := Z.lor word bitMask]> ws).

(** The promotion loop: every listed value is set in the bitmap. *)
Definition add_bits (ws : list Z) (l : list Z) : list Z :=
  foldl (fun ws v => snd (add_bit ws v)) ws l.

(** [addToSmallPool]: when the pool is full the bucket is promoted: a
    fresh bitmap receives the 56 pool slots and then [x]. *)
Definition addToSmallPool (b : bucket16) (x : Z) : bool * bucket16 :=
  if hasInSmallPool b x then (false, b)
  else if (smallPoolLen b <? length (smallPool b))%nat then
    (true, Bucket16 (bits b) (S (smallPoolLen b))
                    (<[smallPoolLen b := x]> (smallPool b)))
  else
    let ws0 := replicate wordsPerBucket 0 in
    let ws1 := add_bits ws0 (smallPool b) in
    (true, Bucket16 (Some (snd (add_bit ws1 x))) 0 (smallPool b)).

Definition bucket16_add (b : bucket16) (x : Z) : bool * bucket16 :=
  match bits b with
  | None => addToSmallPool b x
  | Some ws =>
      let '(ok, ws') := add_bit ws x in
      (ok, Bucket16 (Some ws') (smallPoolLen b) (smallPool b))
  end.

Definition bucket16_has (b : bucket16) (x : Z) : bool :=
  match bits b with
  | None => hasInSmallPool b x
  | Some ws =>
      let '(wordNum, bitMask) := getWordNumBitMask x in
      negb (Z.land (word_at ws wordNum) bitMask =? 0)
  end.

(** Index of the first occurrence of [x], as found by the [range] loops. *)
Fixpoint index_of (a : list Z) (x : Z) : option nat :=
  match a with
  | [] => None
  | v :: a' => if v =? x then Some O else S <$> index_of a' x
  end.

(** [delFromSmallPool]: [copy(pool[i:], pool[i+1:])] shifts the tail
    down by one and leaves the last slot as it was. *)
Definition delFromSmallPool (b : bucket16) (x : Z) : bool * bucket16 :=
  match index_of (take (smallPoolLen b) (smallPool b)) x with
  | Some i =>
      let p := smallPool b in
      (true, Bucket16 (bits b) (pred (smallPoolLen b))
                      (take i p ++ drop (S i) p ++ drop (pred (length p)) p))
  | None => (false, b)
  end.

(** Bitmap branch of [bucket16.del]; [&^] is and-not. *)
Definition del_bit (ws : list Z) (x : Z) : bool * list Z :=
  let '(wordNum, bitMask) := getWordNumBitMask x in
  let word := word_at ws wordNum in
  (negb (Z.land word bitMask =? 0), <[wordNum := Z.ldiff word bitMask]> ws).

Definition bucket16_del (b : bucket16) (x : Z) : bool * bucket16 :=
  match bits b with
  | None => delFromSmallPool b x
  | Some ws =>
      let '(ok, ws') := del_bit ws x in
      (ok, Bucket16 (Some ws') (smallPoolLen b) (smallPool b))
  end.

(** The 64-bit prefix [uint64(hi)<<32 | uint64(hi16)<<16]. *)
Definition hi64_of (hi hi16 : Z) : Z :=
  Z.lor (Z.shiftl hi 32) (Z.shiftl hi16 16).

(** Inner loop of [bucket16.appendTo] over one bitmap word: the lowest
    set bit is emitted and cleared until the word is zero.  A 64-bit
    word leaves the loop after at most 64 rounds, see [emit_bits_fuel]. *)
Fixpoint emit_bits (fuel : nat) (x64 word : Z) (dst : list Z) : list Z :=
  match fuel with
  | O => dst
  | S fuel' =>
      let tzn := TrailingZeros64 word in
      if 64 <=? tzn then dst
      else emit_bits fuel' x64 (Z.ldiff word (Z.shiftl 1 tzn))
                     (dst ++ [Z.lor x64 tzn])
  end.

(** Outer loop of [bucket16.appendTo] over the bitmap words. *)
Fixpoint appendTo_words (ws : list Z) (wordNum : Z) (hi64 : Z)
    (dst : list Z) : list Z :=
  match ws with
  | [] => dst
  | word :: ws' =>
      if word =? 0 then appendTo_words ws' (wordNum + 1) hi64 dst
      else appendTo_words ws' (wordNum + 1) hi64
             (emit_bits 64 (Z.lor hi64 (wordNum * 64)) word dst)
  end.

(** [bucket16.appendTo]: returns the extended [dst] and the bucket,
    whose used pool slots have been sorted in place. *)
Definition bucket16_appendTo (b : bucket16) (dst : list Z) (hi hi16 : Z)
    : list Z * bucket16 :=
  let hi64 := hi64_of hi hi16 in
  match bits b with
  | None =>
      let a := take (smallPoolLen b) (smallPool b) in
      let a' := if (1 <? length a)%nat then sort_by id a else a in
      (dst ++ map (fun v => Z.lor hi64 v) a',
       Bucket16 None (smallPoolLen b) (a' ++ drop (smallPoolLen b) (smallPool b)))
  | Some ws => (appendTo_words ws 0 hi64 dst, b)
  end.

(** Fast path of [bucket16.intersect]: word-wise and, counting bits. *)
Fixpoint intersect_words (bws aws : list Z) : Z * list Z :=
  match aws, bws with
  | ax :: aws', bx :: bws' =>
      let bx' := Z.land bx ax in
      let c := if 0 <? bx' then OnesCount64 bx' else 0 in
      let '(n, r) := intersect_words bws' aws' in
      (c + n, bx' :: r)
  | _, _ => (0, bws)
  end.

(** Slow path of [bucket16.intersect]: every listed member of [b] that
    [a] misses is deleted from [b]. *)
Fixpoint intersect_slow (buf : list Z) (a : bucket16) (b : bucket16)
    (itemsCount : Z) : Z * bucket16 :=
  match buf with
  | [] => (itemsCount, b)
  | x :: buf' =>
      let x16 := to_u16 x in
      if bucket16_has a x16 then intersect_slow buf' a b itemsCount
      else intersect_slow buf' a (snd (bucket16_del b x16)) (itemsCount - 1)
  end.

Definition bucket16_intersect (b a : bucket16) : Z * bucket16 :=
  match bits a, bits b with
  | Some aws, Some bws =>
      let '(n, r) := intersect_words bws aws in
      (n, Bucket16 (Some r) (smallPoolLen b) (smallPool b))
  | _, _ =>
      let '(buf, b1) := bucket16_appendTo b [] 0 0 in
      intersect_slow buf a b1 (Z.of_nat (length buf))
  end.

(** ** Mid bucket: [bucket32] *)

Definition maxUnsortedBuckets : nat := 32.

Record bucket32 := Bucket32 {
  hi : Z;
  b16his : list Z;
  buckets : list bucket16;
  hint : nat
}.

(** The zero value [bucket32{}]. *)
Definition bucket32_zero : bucket32 := Bucket32 0 [] [] 0.

Definition set_hint (b : bucket32) (n : nat) : bucket32 :=
  Bucket32 (hi b) (b16his b) (buckets b) n.

(** Loop of [binarySearch16]; the interval [i, j) shrinks at every
    round, so [length u16] rounds are enough. *)
Fixpoint binarySearch16_loop (fuel : nat) (u16s : list Z) (x : Z)
    (i j : nat) : nat :=
  match fuel with
  | O => i
  | S fuel' =>
      if (i <? j)%nat then
        let h := ((i + j) / 2)%nat in
        match u16s !! h with
        | Some v =>
            if v <? x then binarySearch16_loop fuel' u16s x (S h) j
            else binarySearch16_loop fuel' u16s x i h
        | None => binarySearch16_loop fuel' u16s x i h
        end
      else i
  end.

Definition binarySearch16 (u16s : list Z) (x : Z) : nat :=
  binarySearch16_loop (length u16s) u16s x 0 (length u16s).

(** [sort.Sort(b)]: the parallel arrays are permuted together. *)
Definition bucket32_Sort (b : bucket32) : bucket32 :=
  let ps := sort_by fst (zip (b16his b) (buckets b)) in
  Bucket32 (hi b) (ps.*1) (ps.*2) (hint b).

(** [bucket32.sort]: sort unless already sorted. *)
Definition bucket32_sort (b : bucket32) : bucket32 :=
  if is_sorted_by id (b16his b) then b else bucket32_Sort b.

(** [n < len(b.buckets) && b.buckets[n].add(lo)], the common tail of
    the lookup paths of [add]. *)
Definition add_at (b : bucket32) (n : nat) (lo : Z) : bool * bucket32 :=
  match buckets b !! n with
  | Some b16 =>
      let '(ok, b16') := bucket16_add b16 lo in
      (ok, Bucket32 (hi b) (b16his b) (<[n := b16']> (buckets b)) (hint b))
  | None => (false, b)
  end.

Definition del_at (b : bucket32) (n : nat) (lo : Z) : bool * bucket32 :=
  match buckets b !! n with
  | Some b16 =>
      let '(ok, b16') := bucket16_del b16 lo in
      (ok, Bucket32 (hi b) (b16his b) (<[n := b16']> (buckets b)) (hint b))
  | None => (false, b)
  end.

Definition has_at (b : bucket32) (n : nat) (lo : Z) : bool :=
  match buckets b !! n with
  | Some b16 => bucket16_has b16 lo
  | None => false
  end.

(** [addBucket16] followed by [b16.add(lo)] on the fresh bucket. *)
Definition fresh16 (lo : Z) : bucket16 := snd (bucket16_add bucket16_zero lo).

Definition addAllocSmall (b : bucket32) (hi16 lo : Z) : bucket32 :=
  let b' := Bucket32 (hi b) (b16his b ++ [hi16])
                     (buckets b ++ [fresh16 lo]) (hint b) in
  if (maxUnsortedBuckets <? length (buckets b'))%nat
  then bucket32_Sort b' else b'.

(** [addAllocBig]: append when [n] is past the end, otherwise open a
    slot at [n] by [append(a[:n+1], a[n:]...)] and fill it. *)
Definition addAllocBig (b : bucket32) (hi16 lo : Z) (n : nat) : bucket32 :=
  if (length (b16his b) <=? n)%nat then
    Bucket32 (hi b) (b16his b ++ [hi16]) (buckets b ++ [fresh16 lo]) (hint b)
  else
    Bucket32 (hi b)
             (take n (b16his b) ++ hi16 :: drop n (b16his b))
             (take n (buckets b) ++ fresh16 lo :: drop n (buckets b))
             (hint b).

Definition addSlow (b : bucket32) (hi16 lo : Z) : bool * bucket32 :=
  if (maxUnsortedBuckets <? length (buckets b))%nat then
    let n := binarySearch16 (b16his b) hi16 in
    let b := set_hint b n in
    match b16his b !! n with
    | Some v =>
        if v =? hi16 then add_at b n lo
        else (true, addAllocBig b hi16 lo n)
    | None => (true, addAllocBig b hi16 lo n)
    end
  else
    match index_of (b16his b) hi16 with
    | Some i => add_at (set_hint b i) i lo
    | None => (true, addAllocSmall b hi16 lo)
    end.

(** [b.hint < len(b.b16his) && b.b16his[b.hint] == hi]. *)
Definition hint_hits (b : bucket32) (hi16 : Z) : bool :=
  match b16his b !! hint b with
  | Some v => v =? hi16
  | None => false
  end.

Definition bucket32_add (b : bucket32) (x : Z) : bool * bucket32 :=
  let hi16 := to_u16 (Z.shiftr x 16) in
  let lo := to_u16 x in
  if hint_hits b hi16 then add_at b (hint b) lo
  else addSlow b hi16 lo.

Definition hasSlow (b : bucket32) (hi16 lo : Z) : bool :=
  let n := binarySearch16 (b16his b) hi16 in
  match b16his b !! n with
  | Some v => if v =? hi16 then has_at b n lo else false
  | None => false
  end.

Definition bucket32_has (b : bucket32) (x : Z) : bool :=
  let hi16 := to_u16 (Z.shiftr x 16) in
  let lo := to_u16 x in
  if (maxUnsortedBuckets <? length (buckets b))%nat then hasSlow b hi16 lo
  else
    match index_of (b16his b) hi16 with
    | Some i => has_at b i lo
    | None => false
    end.

Definition delSlow (b : bucket32) (hi16 lo : Z) : bool * bucket32 :=
  if (maxUnsortedBuckets <? length (buckets b))%nat then
    let n := binarySearch16 (b16his b) hi16 in
    let b := set_hint b n in
    match b16his b !! n with
    | Some v => if v =? hi16 then del_at b n lo else (false, b)
    | None => (false, b)
    end
  else
    match index_of (b16his b) hi16 with
    | Some i => del_at (set_hint b i) i lo
    | None => (false, b)
    end.

Definition bucket32_del (b : bucket32) (x : Z) : bool * bucket32 :=
  let hi16 := to_u16 (Z.shiftr x 16) in
  let lo := to_u16 x in
  if hint_hits b hi16 then del_at b (hint b) lo
  else delSlow b hi16 lo.

(** Loop of [bucket32.appendTo] over the parallel arrays; the leaf
    buckets are returned as [bucket16.appendTo] leaves them. *)
Fixpoint appendTo_buckets (hi32 : Z) (ps : list (Z * bucket16))
    (dst : list Z) : list Z * list bucket16 :=
  match ps with
  | [] => (dst, [])
  | (hi16, b16) :: ps' =>
      let '(dst1, b16') := bucket16_appendTo b16 dst hi32 hi16 in
      let '(dst2, bs') := appendTo_buckets hi32 ps' dst1 in
      (dst2, b16' :: bs')
  end.

Definition bucket32_appendTo (b : bucket32) (dst : list Z)
    : list Z * bucket32 :=
  let b := if (length (buckets b) <=? maxUnsortedBuckets)%nat
           then bucket32_sort b else b in
  let '(dst', bs') := appendTo_buckets (hi b) (zip (b16his b) (buckets b)) dst in
  (dst', Bucket32 (hi b) (b16his b) bs' (hint b)).

(** Loop of [bucket32.forEach]: [f] receives each part together with a
    state it may update, and stops the iteration by returning [false].
    The leaf buckets not reached keep their contents. *)
Fixpoint forEach_buckets {St : Type} (f : list Z -> St -> bool * St)
    (hi32 : Z) (ps : list (Z * bucket16)) (st : St)
    : bool * list bucket16 * St :=
  match ps with
  | [] => (true, [], st)
  | (hi16, b16) :: ps' =>
      let '(buf, b16') := bucket16_appendTo b16 [] hi32 hi16 in
      let '(go, st1) := f buf st in
      if go then
        let '(r, bs', st2) := forEach_buckets f hi32 ps' st1 in
        (r, b16' :: bs', st2)
      else (false, b16' :: ps'.*2, st1)
  end.

Definition bucket32_forEach {St : Type} (f : list Z -> St -> bool * St)
    (b : bucket32) (st : St) : bool * bucket32 * St :=
  let '(r, bs', st') :=
    forEach_buckets f (hi b) (zip (b16his b) (buckets b)) st in
  (r, Bucket32 (hi b) (b16his b) bs' (hint b), st').

(** Merge loop of [bucket32.intersect] over the sorted entries of the
    receiver ([bps], from index [i] on) and of the operand ([aps], from
    [j] on).  It returns the accumulated count and the receiver's leaf
    buckets from [i] on.  Every round advances [i] or [j]. *)
Fixpoint intersect16_loop (fuel : nat) (bps aps : list (Z * bucket16))
    : Z * list bucket16 :=
  match fuel with
  | O => (0, bps.*2)
  | S fuel' =>
      match bps, aps with
      | [], _ => (0, [])
      | _ :: _, [] => (0, (fun _ => bucket16_zero) <$> bps)
      | (kb, bb) :: bps', (ka, ab) :: aps' =>
          if kb <? ka then
            let '(n, r) := intersect16_loop fuel' bps' aps in
            (n, bucket16_zero :: r)
          else if ka <? kb then intersect16_loop fuel' bps aps'
          else
            let '(c, bb') := bucket16_intersect bb ab in
            let '(n, r) := intersect16_loop fuel' bps' aps' in
            (c + n, bb' :: r)
      end
  end.

Definition bucket32_intersect (b a : bucket32) : Z * bucket32 :=
  let a := bucket32_sort a in
  let b := bucket32_sort b in
  let bps := zip (b16his b) (buckets b) in
  let aps := zip (b16his a) (buckets a) in
  let '(n, bs') := intersect16_loop (length bps + length aps) bps aps in
  (n, Bucket32 (hi b) (b16his b) bs' (hint b)).

(** ** Top-level set

    [Set] is a reserved word, the record is named [Set64]; its slice
    of mid buckets is [buckets32]. *)
Record Set64 := MkSet {
  itemsCount : Z;
  buckets32 : list bucket32
}.

(** The zero value [Set{}]. *)
Definition Set_zero : Set64 := MkSet 0 [].

(** A [*Set] is [None] when nil.  A call either returns or panics. *)
Inductive outcome (A : Type) : Type :=
  | Ok (a : A)
  | Panic.
Arguments Ok {A} a.
Arguments Panic {A}.

Definition hi32_of (x : Z) : Z := to_u32 (Z.shiftr x 32).
Definition lo32_of (x : Z) : Z := to_u32 x.

(** Loop of [Set.Add]: [None] when no mid bucket has the prefix. *)
Fixpoint Add_loop (bs : list bucket32) (h lo : Z)
    : option (bool * list bucket32) :=
  match bs with
  | [] => None
  | b32 :: bs' =>
      if hi b32 =? h then
        let '(ok, b32') := bucket32_add b32 lo in Some (ok, b32' :: bs')
      else (fun r => (r.1, b32 :: r.2)) <$> Add_loop bs' h lo
  end.

Definition addAlloc (s : Set64) (h lo : Z) : Set64 :=
  let b32 := Bucket32 h [] [] 0 in
  MkSet (itemsCount s + 1) (buckets32 s ++ [snd (bucket32_add b32 lo)]).

Definition Set_Add (s : Set64) (x : Z) : Set64 :=
  match Add_loop (buckets32 s) (hi32_of x) (lo32_of x) with
  | Some (ok, bs') => MkSet (if ok then itemsCount s + 1 else itemsCount s) bs'
  | None => addAlloc s (hi32_of x) (lo32_of x)
  end.

Fixpoint Has_loop (bs : list bucket32) (h lo : Z) : bool :=
  match bs with
  | [] => false
  | b32 :: bs' => if hi b32 =? h then bucket32_has b32 lo else Has_loop bs' h lo
  end.

Definition Set_Has (s : Set64) (x : Z) : bool :=
  Has_loop (buckets32 s) (hi32_of x) (lo32_of x).

Fixpoint Del_loop (bs : list bucket32) (h lo : Z)
    : option (bool * list bucket32) :=
  match bs with
  | [] => None
  | b32 :: bs' =>
      if hi b32 =? h then
        let '(ok, b32') := bucket32_del b32 lo in Some (ok, b32' :: bs')
      else (fun r => (r.1, b32 :: r.2)) <$> Del_loop bs' h lo
  end.

Definition Set_Del (s : Set64) (x : Z) : Set64 :=
  match Del_loop (buckets32 s) (hi32_of x) (lo32_of x) with
  | Some (ok, bs') => MkSet (if ok then itemsCount s - 1 else itemsCount s) bs'
  | None => s
  end.

(** [Set.sort]: sort the mid buckets by prefix unless already sorted. *)
Definition Set_sort (s : Set64) : Set64 :=
  if is_sorted_by hi (buckets32 s) then s
  else MkSet (itemsCount s) (sort_by hi (buckets32 s)).

Fixpoint AppendTo_loop (bs : list bucket32) (dst : list Z)
    : list Z * list bucket32 :=
  match bs with
  | [] => (dst, [])
  | b32 :: bs' =>
      let '(dst1, b32') := bucket32_appendTo b32 dst in
      let '(dst2, r) := AppendTo_loop bs' dst1 in
      (dst2, b32' :: r)
  end.

(** [Set.AppendTo] on a non-nil set.  The capacity reserved for [dst]
    beforehand does not show in its contents. *)
Definition Set_AppendTo (s : Set64) (dst : list Z) : list Z * Set64 :=
  let s := Set_sort s in
  let '(dst', bs') := AppendTo_loop (buckets32 s) dst in
  (dst', MkSet (itemsCount s) bs').

Fixpoint ForEach_loop {St : Type} (f : list Z -> St -> bool * St)
    (bs : list bucket32) (st : St) : list bucket32 * St :=
  match bs with
  | [] => ([], st)
  | b32 :: bs' =>
      let '(go, b32', st1) := bucket32_forEach f b32 st in
      if go then
        let '(r, st2) := ForEach_loop f bs' st1 in (b32' :: r, st2)
      else (b32' :: bs', st1)
  end.

Definition Set_ForEach {St : Type} (f : list Z -> St -> bool * St)
    (s : Set64) (st : St) : Set64 * St :=
  let '(bs', st') := ForEach_loop f (buckets32 s) st in
  (MkSet (itemsCount s) bs', st').

(** [Set.Len], [Set.Has], [Set.Clone], [Set.AppendTo] and [Set.ForEach]
    test the receiver for nil. *)
Definition Len (p : option Set64) : Z :=
  match p with
  | None => 0
  | Some s => itemsCount s
  end.

Definition Has (p : option Set64) (x : Z) : bool :=
  match p with
  | None => false
  | Some s => Set_Has s x
  end.

(** [Clone] copies every array and bitmap; as a value the copy is the
    source. *)
Definition Clone (p : option Set64) : Set64 :=
  match p with
  | None => Set_zero
  | Some s => if itemsCount s =? 0 then Set_zero else s
  end.

Definition AppendTo (p : option Set64) (dst : list Z)
    : list Z * option Set64 :=
  match p with
  | None => (dst, None)
  | Some s => let '(dst', s') := Set_AppendTo s dst in (dst', Some s')
  end.

Definition ForEach {St : Type} (f : list Z -> St -> bool * St)
    (p : option Set64) (st : St) : option Set64 * St :=
  match p with
  | None => (None, st)
  | Some s => let '(s', st') := Set_ForEach f s st in (Some s', st')
  end.

(** [Set.Add] and [Set.Del] read [s.buckets] without a nil test. *)
Definition Add (p : option Set64) (x : Z) : outcome Set64 :=
  match p with
  | None => Panic
  | Some s => Ok (Set_Add s x)
  end.

Definition Del (p : option Set64) (x : Z) : outcome Set64 :=
  match p with
  | None => Panic
  | Some s => Ok (Set_Del s x)
  end.

(** The callback of [union]: every item of the part is added to [s]. *)
Definition add_part (part : list Z) (s : Set64) : bool * Set64 :=
  (true, foldl Set_Add s part).

(** [Set.union] on two distinct non-nil sets; the result is the pair of
    the receiver and the operand as the call leaves them. *)
Definition Set_union (s a : Set64) (mayOwn : bool) : Set64 * Set64 :=
  let '(s, a) := if mayOwn && (itemsCount s <? itemsCount a)
                 then (a, s) else (s, a) in
  if itemsCount a =? 0 then (s, a)
  else if itemsCount s =? 0 then (Clone (Some a), a)
  else let '(a', s') := Set_ForEach add_part a s in (s', a').

Definition Set_Union (s a : Set64) : Set64 * Set64 := Set_union s a false.

(** Merge loop of [Set.Intersect], as [intersect16_loop] one level up. *)
Fixpoint Intersect_loop (fuel : nat) (sbs abs : list bucket32)
    : Z * list bucket32 :=
  match fuel with
  | O => (0, sbs)
  | S fuel' =>
      match sbs, abs with
      | [], _ => (0, [])
      | _ :: _, [] => (0, (fun _ => bucket32_zero) <$> sbs)
      | sb :: sbs', ab :: abs' =>
          if hi sb <? hi ab then
            let '(n, r) := Intersect_loop fuel' sbs' abs in
            (n, bucket32_zero :: r)
          else if hi ab <? hi sb then Intersect_loop fuel' sbs abs'
          else
            let '(c, sb') := bucket32_intersect sb ab in
            let '(n, r) := Intersect_loop fuel' sbs' abs' in
            (c + n, sb' :: r)
      end
  end.

(** [Set.Intersect] on two non-nil sets; the operand is only read
    through its shallow copy. *)
Definition Set_Intersect (s a : Set64) : Set64 :=
  if (itemsCount s =? 0) || (itemsCount a =? 0) then Set_zero
  else
    let a := Set_sort a in
    let s := Set_sort s in
    let '(n, bs') :=
      Intersect_loop (length (buckets32 s) + length (buckets32 a))
                     (buckets32 s) (buckets32 a) in
    MkSet n bs'.

(** ** Well-formed states

    The predicates below describe the states the package builds from
    the empty set; [bm_test] reads one bit of a bitmap. *)

Definition bm_test (ws : list Z) (v : Z) : bool :=
  Z.testbit (word_at ws (Z.to_nat (v / 64))) (v mod 64).

Definition sum_ones (ws : list Z) : Z :=
  foldr (fun w n => OnesCount64 w + n) 0 ws.

(** Number of members of a leaf bucket. *)
Definition count16 (b : bucket16) : Z :=
  match bits b with
  | None => Z.of_nat (smallPoolLen b)
  | Some ws => sum_ones ws
  end.

Definition wf16 (b : bucket16) : Prop :=
  length (smallPool b) = smallPoolCap /\
  Forall u16 (smallPool b) /\
  match bits b with
  | None => (smallPoolLen b <= smallPoolCap)%nat /\
            NoDup (take (smallPoolLen b) (smallPool b))
  | Some ws => length ws = wordsPerBucket /\ Forall u64 ws
  end.

Definition count_buckets16 (bs : list bucket16) : Z :=
  foldr (fun b n => count16 b + n) 0 bs.

Definition count32 (b : bucket32) : Z := count_buckets16 (buckets b).

(** Order of two entries by key. *)
Definition le_key {A : Type} (key : A -> Z) (a b : A) : Prop :=
  key a <= key b.

(** Keys strictly ascending. *)
Definition ascending (l : list Z) : Prop := StronglySorted Z.lt l.

Definition wf32 (b : bucket32) : Prop :=
  u32 (hi b) /\
  length (b16his b) = length (buckets b) /\
  Forall u16 (b16his b) /\
  NoDup (b16his b) /\
  Forall wf16 (buckets b) /\
  ((maxUnsortedBuckets < length (buckets b))%nat -> ascending (b16his b)).

Definition count_buckets32 (bs : list bucket32) : Z :=
  foldr (fun b n => count32 b + n) 0 bs.

Definition wfSet (s : Set64) : Prop :=
  NoDup (hi <$> buckets32 s) /\
  Forall wf32 (buckets32 s) /\
  itemsCount s = count_buckets32 (buckets32 s).

Arguments add_bit : simpl never.
Arguments del_bit : simpl never.
Arguments add_bits : simpl never.
Arguments bm_test : simpl never.
Arguments OnesCount64 : simpl never.
Arguments TrailingZeros64 : simpl never.

(** The predicates are decidable, so that they can be evaluated on
    concrete states. *)
#[global] Instance u16_dec x : Decision (u16 x).
Proof. unfold u16. apply _. Defined.

#[global] Instance u32_dec x : Decision (u32 x).
Proof. unfold u32. apply _. Defined.

#[global] Instance u64_dec x : Decision (u64 x).
Proof. unfold u64. apply _. Defined.

#[global] Instance wf16_dec b : Decision (wf16 b).
Proof. unfold wf16. destruct (bits b); apply _. Defined.

#[global] Instance ascending_dec l : Decision (ascending l).
Proof. unfold ascending. apply _. Defined.

#[global] Instance wf32_dec b : Decision (wf32 b).
Proof. unfold wf32. apply _. Defined.

#[global] Instance wfSet_dec s : Decision (wfSet s).
Proof. unfold wfSet. apply _. Defined.

(** Evaluates a decidable proposition on closed terms. *)
Ltac by_eval := apply (bool_decide_unpack _); vm_compute; exact I.

(** Case analysis on integer comparisons, and unfolding of record
    projections only. *)
Ltac bool_cases :=
  repeat match goal with
  | |- context [?a <=? ?b] => destruct (Z.leb_spec a b)
  | |- context [?a <? ?b] => destruct (Z.ltb_spec a b)
  | |- context [?a =? ?b] => destruct (Z.eqb_spec a b)
  end; simpl; try lia.

Ltac simp_rec :=
  cbn [fst snd bits smallPoolLen smallPool hi b16his buckets hint
       itemsCount buckets32] in *.

(** ** Views used in the statements

    The leaf bucket a mid bucket holds for a key, and the mid bucket a
    set holds for a prefix: the first entry with that key, as the
    lookup loops find it. *)
Fixpoint assoc_get (ps : list (Z * bucket16)) (k : Z) : option bucket16 :=
  match ps with
  | [] => None
  | (k', b) :: ps' => if k' =? k then Some b else assoc_get ps' k
  end.

Definition entries (b : bucket32) : list (Z * bucket16) :=
  zip (b16his b) (buckets b).

Definition get16 (b : bucket32) (k : Z) : option bucket16 :=
  assoc_get (entries b) k.

Definition has_entry (o : option bucket16) (lo : Z) : bool :=
  match o with
  | Some b16 => bucket16_has b16 lo
  | None => false
  end.

Definition hi16_of (x : Z) : Z := to_u16 (Z.shiftr x 16).
Definition lo16_of (x : Z) : Z := to_u16 x.

(** What [add] and [del] of the low half [lo] under key [k] make of a
    mid bucket [b]: [r] is the returned flag and the bucket afterwards. *)
Definition add_result (b : bucket32) (k lo : Z) (r : bool * bucket32) : Prop :=
  wf32 (snd r) /\
  hi (snd r) = hi b /\
  fst r = negb (has_entry (get16 b k) lo) /\
  (forall k', get16 (snd r) k' =
     if k' =? k
     then Some (snd (bucket16_add (default bucket16_zero (get16 b k)) lo))
     else get16 b k') /\
  count32 (snd r) = count32 b + (if fst r then 1 else 0).

Definition del_result (b : bucket32) (k lo : Z) (r : bool * bucket32) : Prop :=
  wf32 (snd r) /\
  hi (snd r) = hi b /\
  fst r = has_entry (get16 b k) lo /\
  (forall k', get16 (snd r) k' =
     if k' =? k
     then (fun b16 => snd (bucket16_del b16 lo)) <$> get16 b k
     else get16 b k') /\
  count32 (snd r) = count32 b - (if fst r then 1 else 0).

(** Two mid buckets that differ at most in the hint. *)
Definition same_arrays (b1 b2 : bucket32) : Prop :=
  hi b1 = hi b2 /\ b16his b1 = b16his b2 /\ buckets b1 = buckets b2.

(** ** Example states *)

Definition adds32 (b : bucket32) (xs : list Z) : bucket32 :=
  foldl (fun b x => snd (bucket32_add b x)) b xs.

(** A mid bucket with four keys, and one with 33 keys. *)
Definition ex_b32 : bucket32 :=
  adds32 (Bucket32 7 [] [] 0) [1; 196610; 131072; 5; 196611].

Definition ex_b32_big : bucket32 :=
  adds32 (Bucket32 7 [] [] 0)
         (map (fun n => (Z.of_nat n * 5 mod 33) * 65536 + 9) (seq 0 33)).

(** The mid bucket a list holds for a prefix: the first one with it. *)
Fixpoint find32 (bs : list bucket32) (h : Z) : option bucket32 :=
  match bs with
  | [] => None
  | b :: bs' => if hi b =? h then Some b else find32 bs' h
  end.

Definition has32_opt (o : option bucket32) (lo : Z) : bool :=
  match o with
  | Some b => bucket32_has b lo
  | None => false
  end.

(** The common shape of the loops of [Set.Add] and [Set.Del]. *)
Fixpoint upd_loop (op : bucket32 -> Z -> bool * bucket32)
    (bs : list bucket32) (h lo : Z) : option (bool * list bucket32) :=
  match bs with
  | [] => None
  | b32 :: bs' =>
      if hi b32 =? h then
        let '(ok, b32') := op b32 lo in Some (ok, b32' :: bs')
      else (fun r => (r.1, b32 :: r.2)) <$> upd_loop op bs' h lo
  end.

(** The set of the example scenario: 1, 2, 2^32, 2^32+5 and 2^48+9. *)
Definition ex_set : Set64 :=
  foldl Set_Add Set_zero
        [1; 2; 4294967296; 4294967301; 281474976710665].

(** The set bits of a word among the positions [i .. i+n-1], ascending,
    and the low values a bitmap holds from word number [wordNum] on. *)
Fixpoint bits_from (n : nat) (i : Z) (w : Z) : list Z :=
  match n with
  | O => []
  | S n' => (if Z.testbit w i then [i] else []) ++ bits_from n' (i + 1) w
  end.

Fixpoint lows_of (ws : list Z) (wordNum : Z) : list Z :=
  match ws with
  | [] => []
  | w :: ws' =>
      map (fun t => wordNum * 64 + t) (bits_from 64 0 w)
      ++ lows_of ws' (wordNum + 1)
  end.

(** The value with prefix [hi], key [hi16] and low half zero. *)
Definition base_of (hi hi16 : Z) : Z := hi * 4294967296 + hi16 * 65536.

(** The members of a leaf bucket in ascending order. *)
Definition elems16 (b : bucket16) : list Z :=
  match bits b with
  | None => sort_by id (take (smallPoolLen b) (smallPool b))
  | Some ws => lows_of ws 0
  end.

(** The members of the entries of a mid bucket, of a mid bucket and of
    a set, each in ascending order of keys. *)
Definition elems_entry (hi32 : Z) (p : Z * bucket16) : list Z :=
  map (fun v => base_of hi32 p.1 + v) (elems16 p.2).

Definition elems_entries (hi32 : Z) (ps : list (Z * bucket16)) : list Z :=
  flat_map (elems_entry hi32) ps.

Definition elems32 (b : bucket32) : list Z :=
  elems_entries (hi b) (sort_by fst (entries b)).

Definition elemsSet (s : Set64) : list Z :=
  flat_map elems32 (sort_by hi (buckets32 s)).

(** Buckets with the same members, possibly laid out differently. *)
Definition same16 (b b' : bucket16) : Prop :=
  wf16 b' /\ elems16 b' = elems16 b /\ count16 b' = count16 b /\
  forall v, bucket16_has b' v = bucket16_has b v.

Definition same32 (b b' : bucket32) : Prop :=
  wf32 b' /\ hi b' = hi b /\ elems32 b' = elems32 b /\
  count32 b' = count32 b /\
  forall y, bucket32_has b' y = bucket32_has b y.




(** The sets of the second example scenario. *)
Definition ex_setA : Set64 := foldl Set_Add Set_zero [1; 2; 3].
Definition ex_setB : Set64 := foldl Set_Add Set_zero [2; 3; 4; 4294967297].

(** The members of a mid bucket in the order [forEach] visits them. *)
Definition stored32 (b : bucket32) : list Z :=
  elems_entries (hi b) (entries b).

(** [Set.Union] through the pointers.  An empty or nil operand returns
    at once; otherwise a nil receiver is written to. *)
Definition Union (p q : option Set64)
    : outcome (option Set64 * option Set64) :=
  if Len q =? 0 then Ok (p, q)
  else
    match p, q with
    | Some s, Some a =>
        let '(s', a') := Set_Union s a in Ok (Some s', Some a')
    | _, _ => Panic
    end.

(** ** [s.Union(s)]: the operand is the receiver

    [ForEach] then walks the arrays that the callback's [Add] updates.
    The walk is modelled on one state, by index, as the Go loops read the
    current arrays.  It is [None] where an index is out of range (a
    panic) or where an [Add] inside the walk grows [s.buckets]: the mid
    bucket the walk holds a pointer to may then have moved. *)
Definition get_leaf (s : Set64) (i j : nat) : option (bucket32 * Z * bucket16) :=
  b32 ← buckets32 s !! i;
  hi16 ← b16his b32 !! j;
  b16 ← buckets b32 !! j;
  Some (b32, hi16, b16).

Definition set_leaf (s : Set64) (i j : nat) (b16 : bucket16) : Set64 :=
  match buckets32 s !! i with
  | Some b32 =>
      MkSet (itemsCount s)
            (<[i := Bucket32 (hi b32) (b16his b32)
                             (<[j := b16]> (buckets b32)) (hint b32)]>
               (buckets32 s))
  | None => s
  end.

Definition self_add (x : Z) (s : Set64) : option Set64 :=
  let s' := Set_Add s x in
  if (length (buckets32 s') =? length (buckets32 s))%nat then Some s'
  else None.

Fixpoint self_adds (part : list Z) (s : Set64) : option Set64 :=
  match part with
  | [] => Some s
  | x :: part' => s' ← self_add x s; self_adds part' s'
  end.

(** Loop of [bucket32.forEach] on [s.buckets[i]] over the leaf indices. *)
Fixpoint self_forEach32 (i : nat) (js : list nat) (s : Set64)
    : option Set64 :=
  match js with
  | [] => Some s
  | j :: js' =>
      '(b32, hi16, b16) ← get_leaf s i j;
      let '(buf, b16') := bucket16_appendTo b16 [] (hi b32) hi16 in
      s1 ← self_adds buf (set_leaf s i j b16');
      self_forEach32 i js' s1
  end.

(** Loop of [Set.ForEach] over the indices of [s.buckets]. *)
Fixpoint self_ForEach (idxs : list nat) (s : Set64) : option Set64 :=
  match idxs with
  | [] => Some s
  | i :: idxs' =>
      b32 ← buckets32 s !! i;
      s1 ← self_forEach32 i (seq 0 (length (buckets b32))) s;
      self_ForEach idxs' s1
  end.

Definition Set_Union_self (s : Set64) : option Set64 :=
  if itemsCount s =? 0 then Some s
  else self_ForEach (seq 0 (length (buckets32 s))) s.

(** States with the same layout of keys and the same members per leaf. *)
Definition sim32 (b b' : bucket32) : Prop :=
  wf32 b' /\ hi b' = hi b /\ b16his b' = b16his b /\
  Forall2 same16 (buckets b) (buckets b').

Definition sim (s s' : Set64) : Prop :=
  wfSet s' /\ itemsCount s' = itemsCount s /\
  Forall2 sim32 (buckets32 s) (buckets32 s').

(** ** Storage sharing: the heap view of [Set.Intersect]

    The definitions above pass sets by value.  [Set.Intersect] works on
    shallow copies of its operand, whose slices and bitmaps are shared
    with the operand itself; to follow which storage is written, the
    functions on the path of [Set.Intersect] are given a second time
    over an explicit heap.  A heap cell is one Go allocation: a [Set]
    struct, the backing array of a slice, or a [*[1024]uint64] bitmap.
    A slice is the address of its backing array ([None] for a nil
    slice), the cell holding its [len] elements; the small pool is an
    array field and lives inline in its leaf. *)

Abbreviation addr := nat (only parsing).

Record hbucket16 := HBucket16 {
  h_bits : option addr;
  h_smallPoolLen : nat;
  h_smallPool : list Z
}.

Record hbucket32 := HBucket32 {
  h_hi : Z;
  h_b16his : option addr;
  h_buckets : option addr;
  h_hint : nat
}.

Record hSet := HSet {
  h_itemsCount : Z;
  h_buckets32 : option addr
}.

Inductive cell :=
  | CSet (s : hSet)
  | CMids (bs : list hbucket32)
  | CKeys (ks : list Z)
  | CLeaves (ls : list hbucket16)
  | CBits (ws : list Z).

Abbreviation heap := (list cell) (only parsing).

(** Heap computations: [None] is a run-time panic. *)
Definition M (A : Type) : Type := heap -> option (A * heap).

Definition hret {A} (a : A) : M A := fun h => Some (a, h).

Definition hbind {A B} (m : M A) (k : A -> M B) : M B :=
  fun h => match m h with
           | Some (a, h') => k a h'
           | None => None
           end.

Definition hfail {A} : M A := fun _ => None.

Notation "x <- m ;; k" := (hbind m (fun x => k))
  (at level 100, m at next level, right associativity).

Definition alloc (c : cell) : M addr := fun h => Some (length h, h ++ [c]).

Definition load (p : addr) : M cell :=
  fun h => match h !! p with
           | Some c => Some (c, h)
           | None => None
           end.

Definition store (p : addr) (c : cell) : M unit :=
  fun h => if decide (p < length h)%nat then Some (tt, <[p := c]> h)
           else None.

Definition loadSet (p : addr) : M hSet :=
  c <- load p ;; match c with CSet s => hret s | _ => hfail end.

Definition loadMids (o : option addr) : M (list hbucket32) :=
  match o with
  | None => hret []
  | Some p => c <- load p ;; match c with CMids bs => hret bs | _ => hfail end
  end.

Definition loadKeys (o : option addr) : M (list Z) :=
  match o with
  | None => hret []
  | Some p => c <- load p ;; match c with CKeys ks => hret ks | _ => hfail end
  end.

Definition loadLeaves (o : option addr) : M (list hbucket16) :=
  match o with
  | None => hret []
  | Some p =>
      c <- load p ;; match c with CLeaves ls => hret ls | _ => hfail end
  end.

Definition loadBits (p : addr) : M (list Z) :=
  c <- load p ;; match c with CBits ws => hret ws | _ => hfail end.

(** [a[i]] and [a[i] = v] on a slice: out of range panics. *)
Definition loadMid (o : option addr) (i : nat) : M hbucket32 :=
  bs <- loadMids o ;;
  match bs !! i with Some b => hret b | None => hfail end.

Definition loadLeaf (o : option addr) (i : nat) : M hbucket16 :=
  ls <- loadLeaves o ;;
  match ls !! i with Some l => hret l | None => hfail end.

Definition storeMid (o : option addr) (i : nat) (b : hbucket32) : M unit :=
  match o with
  | None => hfail
  | Some p =>
      bs <- loadMids o ;;
      if decide (i < length bs)%nat then store p (CMids (<[i := b]> bs))
      else hfail
  end.

Definition storeLeaf (o : option addr) (i : nat) (l : hbucket16) : M unit :=
  match o with
  | None => hfail
  | Some p =>
      ls <- loadLeaves o ;;
      if decide (i < length ls)%nat then store p (CLeaves (<[i := l]> ls))
      else hfail
  end.

(** [append(dst[:0], src...)] on a nil [dst]: a fresh backing array,
    or nil again when there is nothing to copy. *)
Definition alloc_slice {A} (mk : list A -> cell) (l : list A)
    : M (option addr) :=
  match l with
  | [] => hret None
  | _ => p <- alloc (mk l) ;; hret (Some p)
  end.

(** The value held by a leaf, its bitmap read through the pointer. *)
Definition leaf_value (l : hbucket16) : M bucket16 :=
  match h_bits l with
  | None => hret (Bucket16 None (h_smallPoolLen l) (h_smallPool l))
  | Some p =>
      ws <- loadBits p ;;
      hret (Bucket16 (Some ws) (h_smallPoolLen l) (h_smallPool l))
  end.

(** The writes of [bucket16.appendTo] and [bucket16.del] on the leaf at
    [(o, i)]: they go to its own fields and through its own [bits]
    pointer, which they never reassign. *)
Definition leaf_write (o : option addr) (i : nat) (l : hbucket16)
    (v : bucket16) : M unit :=
  match h_bits l, bits v with
  | Some p, Some ws =>
      _ <- store p (CBits ws) ;;
      storeLeaf o i (HBucket16 (Some p) (smallPoolLen v) (smallPool v))
  | _, _ =>
      storeLeaf o i (HBucket16 (h_bits l) (smallPoolLen v) (smallPool v))
  end.

(** [bucket16.intersect] with receiver [&b.buckets[i]] and operand
    [&a.buckets[j]]. *)
Definition h_bucket16_intersect (bl : option addr) (i : nat)
    (al : option addr) (j : nat) : M Z :=
  b <- loadLeaf bl i ;;
  a <- loadLeaf al j ;;
  match h_bits a, h_bits b with
  | Some ap, Some bp =>
      aws <- loadBits ap ;;
      bws <- loadBits bp ;;
      let '(n, r) := intersect_words bws aws in
      _ <- store bp (CBits r) ;;
      hret n
  | _, _ =>
      av <- leaf_value a ;;
      bv <- leaf_value b ;;
      let '(buf, b1) := bucket16_appendTo bv [] 0 0 in
      let '(n, b2) := intersect_slow buf av b1 (Z.of_nat (length buf)) in
      _ <- leaf_write bl i b b2 ;;
      hret n
  end.

(** [bucket32.cloneShallow]: the two slices are copied element by
    element, so the copied leaves keep their [bits] pointers.  The
    new struct is held by a local variable of the caller only and is
    passed on by value. *)
Definition h_bucket32_cloneShallow (b : hbucket32) : M hbucket32 :=
  ks <- loadKeys (h_b16his b) ;;
  ls <- loadLeaves (h_buckets b) ;;
  kq <- alloc_slice CKeys ks ;;
  lq <- alloc_slice CLeaves ls ;;
  hret (HBucket32 (h_hi b) kq lq (h_hint b)).

Definition store_slice (o : option addr) (c : cell) : M unit :=
  match o with
  | None => hret tt
  | Some p => store p c
  end.

(** [bucket32.sort]: [Swap] exchanges the elements of both backing
    arrays in place. *)
Definition h_bucket32_sort (b : hbucket32) : M unit :=
  ks <- loadKeys (h_b16his b) ;;
  ls <- loadLeaves (h_buckets b) ;;
  if is_sorted_by id ks then hret tt
  else
    let ps := sort_by fst (zip ks ls) in
    _ <- store_slice (h_b16his b) (CKeys (ps.*1)) ;;
    store_slice (h_buckets b) (CLeaves (ps.*2)).

(** [bucket16{}], the value written by [b.buckets[i] = bucket16{}]. *)
Definition hbucket16_zero : hbucket16 :=
  HBucket16 None 0 (replicate smallPoolCap 0).

(** Merge loop of [bucket32.intersect]; [bk], [bl] are the receiver's
    slices [b.b16his], [b.buckets], and [ak], [al] those of the sorted
    copy of the operand.  The slice headers are not assigned in the
    loop, the arrays are read again in every round. *)
Fixpoint h_intersect16_loop (fuel : nat) (bk bl ak al : option addr)
    (i j : nat) (itemsCount : Z) : M Z :=
  match fuel with
  | O => hfail
  | S fuel' =>
      bks <- loadKeys bk ;;
      aks <- loadKeys ak ;;
      match bks !! i with
      | None => hret itemsCount
      | Some kb =>
          match aks !! j with
          | None =>
              _ <- storeLeaf bl i hbucket16_zero ;;
              h_intersect16_loop fuel' bk bl ak al (S i) j itemsCount
          | Some ka =>
              if kb <? ka then
                _ <- storeLeaf bl i hbucket16_zero ;;
                h_intersect16_loop fuel' bk bl ak al (S i) j itemsCount
              else if ka <? kb then
                h_intersect16_loop fuel' bk bl ak al i (S j) itemsCount
              else
                n <- h_bucket16_intersect bl i al j ;;
                h_intersect16_loop fuel' bk bl ak al (S i) (S j)
                                   (itemsCount + n)
          end
      end
  end.

(** [bucket32.intersect] with receiver [&s.buckets[i]] and operand
    [&a.buckets[j]]. *)
Definition h_bucket32_intersect (sb : option addr) (i : nat)
    (ab : option addr) (j : nat) : M Z :=
  a0 <- loadMid ab j ;;
  a <- h_bucket32_cloneShallow a0 ;;
  _ <- h_bucket32_sort a ;;
  b <- loadMid sb i ;;
  _ <- h_bucket32_sort b ;;
  bks <- loadKeys (h_b16his b) ;;
  aks <- loadKeys (h_b16his a) ;;
  h_intersect16_loop (S (length bks + length aks))
    (h_b16his b) (h_buckets b) (h_b16his a) (h_buckets a) 0 0 0.

(** [Set.cloneShallow] and [Set.sort]. *)
Definition h_Set_cloneShallow (s : hSet) : M hSet :=
  bs <- loadMids (h_buckets32 s) ;;
  q <- alloc_slice CMids bs ;;
  hret (HSet (h_itemsCount s) q).

Definition h_Set_sort (s : hSet) : M unit :=
  bs <- loadMids (h_buckets32 s) ;;
  if is_sorted_by h_hi bs then hret tt
  else store_slice (h_buckets32 s) (CMids (sort_by h_hi bs)).

Definition hbucket32_zero : hbucket32 := HBucket32 0 None None 0.

(** Merge loop of [Set.Intersect] over [s.buckets] and the sorted copy
    of [a.buckets]. *)
Fixpoint h_Intersect_loop (fuel : nat) (sb ab : option addr)
    (i j : nat) (itemsCount : Z) : M Z :=
  match fuel with
  | O => hfail
  | S fuel' =>
      sbs <- loadMids sb ;;
      abs <- loadMids ab ;;
      match sbs !! i with
      | None => hret itemsCount
      | Some bi =>
          match abs !! j with
          | None =>
              _ <- storeMid sb i hbucket32_zero ;;
              h_Intersect_loop fuel' sb ab (S i) j itemsCount
          | Some aj =>
              if h_hi bi <? h_hi aj then
                _ <- storeMid sb i hbucket32_zero ;;
                h_Intersect_loop fuel' sb ab (S i) j itemsCount
              else if h_hi aj <? h_hi bi then
                h_Intersect_loop fuel' sb ab i (S j) itemsCount
              else
                n <- h_bucket32_intersect sb i ab j ;;
                h_Intersect_loop fuel' sb ab (S i) (S j) (itemsCount + n)
          end
      end
  end.

(** [Set.Len] through a pointer that may be nil. *)
Definition h_Len (p : option addr) : M Z :=
  match p with
  | None => hret 0
  | Some q => s <- loadSet q ;; hret (h_itemsCount s)
  end.

(** [Set.Intersect]: [s] and [a] are the two pointers. *)
Definition h_Intersect (s a : option addr) : M unit :=
  n <- h_Len s ;;
  m <- h_Len a ;;
  match s, a with
  | Some sp, Some ap =>
      if (n =? 0) || (m =? 0) then store sp (CSet (HSet 0 None))
      else
        a0 <- loadSet ap ;;
        ac <- h_Set_cloneShallow a0 ;;
        _ <- h_Set_sort ac ;;
        s0 <- loadSet sp ;;
        _ <- h_Set_sort s0 ;;
        sbs <- loadMids (h_buckets32 s0) ;;
        abs <- loadMids (h_buckets32 ac) ;;
        cnt <- h_Intersect_loop (S (length sbs + length abs))
                 (h_buckets32 s0) (h_buckets32 ac) 0 0 0 ;;
        s1 <- loadSet sp ;;
        store sp (CSet (HSet cnt (h_buckets32 s1)))
  | Some sp, None => store sp (CSet (HSet 0 None))
  | None, _ => hfail
  end.

(** *** Reading a set off the heap *)

Definition heap_keys (h : heap) (o : option addr) : option (list Z) :=
  match o with
  | None => Some []
  | Some p => match h !! p with Some (CKeys ks) => Some ks | _ => None end
  end.

Definition heap_leaves (h : heap) (o : option addr)
    : option (list hbucket16) :=
  match o with
  | None => Some []
  | Some p => match h !! p with Some (CLeaves ls) => Some ls | _ => None end
  end.

Definition heap_mids (h : heap) (o : option addr)
    : option (list hbucket32) :=
  match o with
  | None => Some []
  | Some p => match h !! p with Some (CMids bs) => Some bs | _ => None end
  end.

Definition read16 (h : heap) (l : hbucket16) : option bucket16 :=
  match h_bits l with
  | None => Some (Bucket16 None (h_smallPoolLen l) (h_smallPool l))
  | Some p =>
      match h !! p with
      | Some (CBits ws) =>
          Some (Bucket16 (Some ws) (h_smallPoolLen l) (h_smallPool l))
      | _ => None
      end
  end.

Definition read32 (h : heap) (b : hbucket32) : option bucket32 :=
  ks ← heap_keys h (h_b16his b);
  ls ← heap_leaves h (h_buckets b);
  bs ← mapM (read16 h) ls;
  Some (Bucket32 (h_hi b) ks bs (h_hint b)).

(** The set behind the pointer [p], with its arrays in their order. *)
Definition readSet (h : heap) (p : addr) : option Set64 :=
  match h !! p with
  | Some (CSet s) =>
      ms ← heap_mids h (h_buckets32 s);
      bs ← mapM (read32 h) ms;
      Some (MkSet (h_itemsCount s) bs)
  | _ => None
  end.

(** The cells a set owns or shares: everything [readSet] looks at. *)
Definition fp16 (l : hbucket16) : list addr := option_list (h_bits l).

Definition fp32 (h : heap) (b : hbucket32) : list addr :=
  option_list (h_b16his b) ++ option_list (h_buckets b) ++
  flat_map fp16 (default [] (heap_leaves h (h_buckets b))).

Definition fpSet (h : heap) (p : addr) : list addr :=
  match h !! p with
  | Some (CSet s) =>
      p :: option_list (h_buckets32 s) ++
      flat_map (fp32 h) (default [] (heap_mids h (h_buckets32 s)))
  | _ => [p]
  end.

(** *** Well-typed heaps *)

Inductive kind := KSet | KMids | KKeys | KLeaves | KBits.

(** The kind of a cell and, for the arrays of a mid bucket, its length. *)
Definition shape (c : cell) : kind * nat :=
  match c with
  | CSet _ => (KSet, O)
  | CMids bs => (KMids, length bs)
  | CKeys ks => (KKeys, length ks)
  | CLeaves ls => (KLeaves, length ls)
  | CBits _ => (KBits, O)
  end.

Definition shape_at (h : heap) (p : addr) : option (kind * nat) :=
  shape <$> h !! p.

Definition slice_len (h : heap) (k : kind) (o : option addr) (n : nat)
    : Prop :=
  match o with
  | None => n = O
  | Some p => shape_at h p = Some (k, n)
  end.

Definition ok_leaf (h : heap) (l : hbucket16) : Prop :=
  match h_bits l with
  | None => True
  | Some p => shape_at h p = Some (KBits, O)
  end.

Definition ok_mid (h : heap) (b : hbucket32) : Prop :=
  exists n, slice_len h KKeys (h_b16his b) n /\
            slice_len h KLeaves (h_buckets b) n.

Definition ok_cell (h : heap) (c : cell) : Prop :=
  match c with
  | CSet s => exists n, slice_len h KMids (h_buckets32 s) n
  | CMids bs => Forall (ok_mid h) bs
  | CLeaves ls => Forall (ok_leaf h) ls
  | CKeys _ | CBits _ => True
  end.

Definition wt (h : heap) : Prop := Forall (ok_cell h) h.

(** The addresses stored in a cell. *)
Definition ptrs (c : cell) : list addr :=
  match c with
  | CSet s => option_list (h_buckets32 s)
  | CMids bs =>
      flat_map (fun b => option_list (h_b16his b) ++
                         option_list (h_buckets b)) bs
  | CLeaves ls => flat_map fp16 ls
  | CKeys _ | CBits _ => []
  end.

(** [F] holds every address stored in one of its own cells. *)
Definition closed (F : list addr) (h : heap) : Prop :=
  forall p c, p ∈ F -> h !! p = Some c -> ptrs c ⊆ F.

(** An example heap: [s = {1, 2}] at address 0 with a small-pool leaf,
    and [a = {2, 3}] at address 4 with a bitmap leaf. *)
Definition ex_heap : heap :=
  [ CSet (HSet 2 (Some 1%nat));
    CMids [HBucket32 0 (Some 2%nat) (Some 3%nat) 0];
    CKeys [0];
    CLeaves [HBucket16 None 2 (1 :: 2 :: replicate 54 0)];
    CSet (HSet 2 (Some 5%nat));
    CMids [HBucket32 0 (Some 6%nat) (Some 7%nat) 0];
    CKeys [0];
    CLeaves [HBucket16 (Some 8%nat) 0 (replicate 56 0)];
    CBits (12 :: replicate 1023 0) ].

(** *** Runs of heap computations

    [ext h h']: every cell of [h] is still there in [h'], with its
    kind and length.  [total h m Q]: run on [h], the computation [m]
    does not panic and ends in a result and heap that satisfy [Q]. *)
Definition ext (h h' : heap) : Prop :=
  forall p s, shape_at h p = Some s -> shape_at h' p = Some s.

Definition total {A} (h : heap) (m : M A) (Q : A -> heap -> Prop) : Prop :=
  exists a h', m h = Some (a, h') /\ Q a h'.


(** *** The frame of a run

    [h0] is the heap at the start and [F] the storage of the receiver.
    A run may write to the cells of [F] and to cells it allocates
    itself ([W]); [Inv] says that this is all that has happened. *)
Definition Inv (h0 : heap) (F : list addr) (h : heap) : Prop :=
  (length h0 <= length h)%nat /\
  (forall p, p ∉ F -> (p < length h0)%nat -> h !! p = h0 !! p) /\
  (forall p, p ∈ F -> (p < length h0)%nat) /\
  wt h /\ closed F h.

Definition W (h0 : heap) (F : list addr) (p : addr) : Prop :=
  p ∈ F \/ (length h0 <= p)%nat.

Definition Wo (h0 : heap) (F : list addr) (o : option addr) : Prop :=
  forall p, o = Some p -> W h0 F p.

Definition Fo (F : list addr) (o : option addr) : Prop :=
  forall p, o = Some p -> p ∈ F.

(** ** Walks with a callback

    [bucket32.forEach] hands the members of one leaf bucket at a time to
    the callback and stops when it returns false.  [parts32] and
    [partsSet] list these parts in the order of the walk, [run_parts]
    is the chain of calls on them. *)
Fixpoint run_parts {St : Type} (f : list Z -> St -> bool * St)
    (parts : list (list Z)) (st : St) : bool * St :=
  match parts with
  | [] => (true, st)
  | p :: ps =>
      let '(go, st1) := f p st in
      if go then run_parts f ps st1 else (false, st1)
  end.

Definition parts32 (b : bucket32) : list (list Z) :=
  elems_entry (hi b) <$> entries b.

Definition partsSet (s : Set64) : list (list Z) :=
  flat_map parts32 (buckets32 s).

(** The callback of [Subtract]: every item of the part is deleted
    from [s]. *)
Definition del_part (part : list Z) (s : Set64) : bool * Set64 :=
  (true, foldl Set_Del s part).

(** [Set.Subtract] on two distinct non-nil sets: the pair of the
    receiver and the operand as the call leaves them. *)
Definition Set_Subtract (s a : Set64) : Set64 * Set64 :=
  if (itemsCount s =? 0) || (itemsCount a =? 0) then (s, a)
  else let '(a', s') := Set_ForEach del_part a s in (s', a').

(** [Set.Subtract] through the pointers: both [Len] calls and
    [ForEach] test for nil, and [Del] is reached on a receiver with
    items only. *)
Definition Subtract (p q : option Set64) : option Set64 * option Set64 :=
  match p, q with
  | Some s, Some a => let '(s', a') := Set_Subtract s a in (Some s', Some a')
  | _, _ => (p, q)
  end.

(** The callback of [Equal]: it stops at the first item that [s]
    misses, with [equal] set to false. *)
Definition has_part (s : Set64) (part : list Z) (equal : bool)
    : bool * bool :=
  if forallb (Set_Has s) part then (true, equal) else (false, false).

(** [Set.Equal] on two non-nil sets, with the operand as the walk
    leaves it. *)
Definition Set_Equal (s a : Set64) : bool * Set64 :=
  if negb (itemsCount s =? itemsCount a) then (false, a)
  else let '(a', equal) := Set_ForEach (has_part s) a true in (equal, a').

(** [Set.Equal] through the pointers; [Len], [Has] and [ForEach] all
    accept nil. *)
Definition Equal (p q : option Set64) : bool :=
  match p, q with
  | Some s, Some a => fst (Set_Equal s a)
  | None, Some a =>
      if negb (0 =? itemsCount a) then false
      else snd (Set_ForEach (fun part equal =>
                  if forallb (fun _ => false) part then (true, equal)
                  else (false, false)) a true)
  | Some s, None => itemsCount s =? 0
  | None, None => true
  end.

(** ** [Set.Clone] on the heap

    [copyTo] fills a zeroed destination slot; the fields of the slot
    are written in one store once the arrays behind them exist. *)
(** [bucket16.copyTo(&dst.buckets[i])]: the bitmap, if there is one, is
    copied into an array of its own. *)
Definition h_bucket16_copyTo (b : hbucket16) (dst : option addr) (i : nat)
    : M unit :=
  match h_bits b with
  | None =>
      storeLeaf dst i (HBucket16 None (h_smallPoolLen b) (h_smallPool b))
  | Some p =>
      ws <- loadBits p ;;
      q <- alloc (CBits ws) ;;
      storeLeaf dst i (HBucket16 (Some q) (h_smallPoolLen b) (h_smallPool b))
  end.

Fixpoint h_copy_leaves (src : list hbucket16) (dst : option addr) (i : nat)
    : M unit :=
  match src with
  | [] => hret tt
  | b :: src' =>
      _ <- h_bucket16_copyTo b dst i ;;
      h_copy_leaves src' dst (S i)
  end.

(** [bucket32.copyTo(&dst.buckets[i])]. *)
Definition h_bucket32_copyTo (b : hbucket32) (dst : option addr) (i : nat)
    : M unit :=
  ks <- loadKeys (h_b16his b) ;;
  kq <- alloc_slice CKeys ks ;;
  ls <- loadLeaves (h_buckets b) ;;
  lq <- match ls with
        | [] => hret None
        | _ =>
            q <- alloc (CLeaves (replicate (length ls) hbucket16_zero)) ;;
            _ <- h_copy_leaves ls (Some q) 0 ;;
            hret (Some q)
        end ;;
  storeMid dst i (HBucket32 (h_hi b) kq lq (h_hint b)).

Fixpoint h_copy_mids (src : list hbucket32) (dst : option addr) (i : nat)
    : M unit :=
  match src with
  | [] => hret tt
  | b :: src' =>
      _ <- h_bucket32_copyTo b dst i ;;
      h_copy_mids src' dst (S i)
  end.

(** [Set.Clone]: the result is the address of the new [Set]. *)
Definition h_Clone (s : option addr) : M addr :=
  match s with
  | None => alloc (CSet (HSet 0 None))
  | Some p =>
      v <- loadSet p ;;
      if h_itemsCount v =? 0 then alloc (CSet (HSet 0 None))
      else
        ms <- loadMids (h_buckets32 v) ;;
        d <- alloc (CSet (HSet 0 None)) ;;
        q <- alloc (CMids (replicate (length ms) hbucket32_zero)) ;;
        _ <- h_copy_mids ms (Some q) 0 ;;
        _ <- store d (CSet (HSet (h_itemsCount v) (Some q))) ;;
        hret d
  end.

(** ** Size estimate

    [SizeBytes] adds up [unsafe.Sizeof] values, which are compile-time
    constants of the target platform: the sizes of the three structs,
    of a pointer and of the bitmap array.  They are the fields of
    [sizes]; every addition is a [uint64] addition. *)
Record sizes := Sizes {
  size_Set : Z;
  size_ptr : Z;
  size_bucket32 : Z;
  size_bucket16 : Z;
  size_bits : Z
}.

Definition to_u64 (x : Z) : Z := x mod 18446744073709551616.

(** [bucket16.sizeBytes]: the size of the bitmap array is taken from
    the type of [b.bits], whether or not a bitmap is allocated. *)
Definition bucket16_sizeBytes (σ : sizes) (b : bucket16) : Z :=
  to_u64 (size_bucket16 σ + size_bits σ).

Definition bucket32_sizeBytes (σ : sizes) (b : bucket32) : Z :=
  foldl (fun n b16 =>
           to_u64 (to_u64 (n + size_ptr σ) + bucket16_sizeBytes σ b16))
        (to_u64 (size_bucket32 σ
                 + to_u64 (2 * Z.of_nat (length (b16his b)))))
        (buckets b).

Definition Set_SizeBytes (σ : sizes) (s : Set64) : Z :=
  foldl (fun n b32 =>
           to_u64 (to_u64 (n + size_ptr σ) + bucket32_sizeBytes σ b32))
        (size_Set σ) (buckets32 s).

Definition SizeBytes (σ : sizes) (p : option Set64) : Z :=
  match p with
  | None => 0
  | Some s => Set_SizeBytes σ s
  end.

(** The sizes on a 64-bit platform. *)
Definition sizes64 : sizes := Sizes 32 8 64 128 8192.

(** Two mid buckets with as many keys and as many leaf buckets. *)
Definition same_shape (b b' : bucket32) : Prop :=
  length (b16his b) = length (b16his b') /\
  length (buckets b) = length (buckets b').
(** * Properties *)

(** ** Bit operations on bitmap words *)

Lemma shiftl1_testbit k n : 0 <= k -> Z.testbit (Z.shiftl 1 k) n = (k =? n).
Proof. intros Hk. rewrite Z.shiftl_1_l. by apply Z.pow2_bits_eqb. Qed.

Lemma land_mask_eqb w k :
  0 <= k -> (Z.land w (Z.shiftl 1 k) =? 0) = negb (Z.testbit w k).
Proof.
  intros Hk. destruct (Z.testbit w k) eqn:Hb; simpl.
  - apply Z.eqb_neq. intros H0.
    assert (Z.testbit (Z.land w (Z.shiftl 1 k)) k = true) as Ht.
    { rewrite Z.land_spec, Hb, shiftl1_testbit, Z.eqb_refl by done. done. }
    rewrite H0, Z.bits_0 in Ht. done.
  - apply Z.eqb_eq. apply Z.bits_inj'. intros n Hn.
    rewrite Z.land_spec, Z.bits_0, shiftl1_testbit by done.
    destruct (Z.eqb_spec k n) as [->|]; [by rewrite Hb|by rewrite andb_false_r].
Qed.

Lemma land_63 x : Z.land x 63 = x mod 64.
Proof. change 63 with (Z.ones 6). by rewrite Z.land_ones. Qed.

Lemma mask_range x : 0 <= Z.land x 63 < 64.
Proof. rewrite land_63. apply Z.mod_pos_bound. lia. Qed.

Lemma has_bit_test ws x :
  negb (Z.land (word_at ws (Z.to_nat (x / 64))) (Z.shiftl 1 (Z.land x 63)) =? 0)
  = bm_test ws x.
Proof.
  rewrite land_mask_eqb by apply mask_range.
  by rewrite negb_involutive, land_63.
Qed.

Lemma word_at_insert ws n m w :
  (n < length ws)%nat ->
  word_at (<[n := w]> ws) m = if decide (n = m) then w else word_at ws m.
Proof.
  intros Hn. unfold word_at. destruct (decide (n = m)) as [->|Hne].
  - by rewrite list_lookup_insert_eq.
  - by rewrite list_lookup_insert_ne.
Qed.

Lemma u16_word x : u16 x -> (Z.to_nat (x / 64) < wordsPerBucket)%nat.
Proof. unfold u16, wordsPerBucket. intros H. 
  assert (0 <= x / 64 < 1024) by (split; [apply Z.div_pos; lia | apply Z.div_lt_upper_bound; lia]). lia. Qed.

Lemma split_eq x y : x / 64 = y / 64 -> x mod 64 = y mod 64 -> x = y.
Proof. intros H1 H2. rewrite (Z.div_mod x 64), (Z.div_mod y 64) by lia. by rewrite H1, H2. Qed.

Lemma add_bit_test ws x y :
  length ws = wordsPerBucket -> u16 x -> u16 y ->
  bm_test (snd (add_bit ws x)) y = (x =? y) || bm_test ws y.
Proof.
  intros Hl Hx Hy. unfold add_bit, getWordNumBitMask, bm_test; simpl.
  rewrite word_at_insert by (rewrite Hl; by apply u16_word).
  destruct (decide _) as [He|Hne].
  - rewrite He, Z.lor_spec, shiftl1_testbit, land_63 by apply mask_range.
    assert (x / 64 = y / 64) as Hd.
    { unfold u16 in *. apply Z2Nat.inj in He; [done| apply Z.div_pos; lia ..]. }
    destruct (Z.eqb_spec (x mod 64) (y mod 64)) as [Hm|Hm].
    + rewrite (split_eq x y Hd Hm), Z.eqb_refl. by rewrite orb_true_r.
    + destruct (Z.eqb_spec x y) as [->|]; [done|]. by rewrite orb_false_r.
  - destruct (Z.eqb_spec x y) as [->|]; done.
Qed.

Lemma del_bit_test ws x y :
  length ws = wordsPerBucket -> u16 x -> u16 y ->
  bm_test (snd (del_bit ws x)) y = negb (x =? y) && bm_test ws y.
Proof.
  intros Hl Hx Hy. unfold del_bit, getWordNumBitMask, bm_test; simpl.
  rewrite word_at_insert by (rewrite Hl; by apply u16_word).
  destruct (decide _) as [He|Hne].
  - rewrite He, Z.ldiff_spec, shiftl1_testbit, land_63 by apply mask_range.
    assert (x / 64 = y / 64) as Hd.
    { unfold u16 in *. apply Z2Nat.inj in He; [done| apply Z.div_pos; lia ..]. }
    destruct (Z.eqb_spec (x mod 64) (y mod 64)) as [Hm|Hm].
    + rewrite (split_eq x y Hd Hm), Z.eqb_refl. simpl. by rewrite andb_false_r.
    + destruct (Z.eqb_spec x y) as [->|]; [done|]. simpl. by rewrite andb_true_r.
  - destruct (Z.eqb_spec x y) as [->|]; done.
Qed.
(** ** 64-bit words: range and population count *)

Lemma u64_bits w :
  u64 w <-> 0 <= w /\ forall l, 64 <= l -> Z.testbit w l = false.
Proof.
  unfold u64. change 18446744073709551616 with (2 ^ 64). split.
  - intros [H0 H1]. split; [done|].
    by apply (Z.bounded_iff_bits_nonneg 64 w).
  - intros [H0 H1]. split; [done|].
    by apply (Z.bounded_iff_bits_nonneg 64 w).
Qed.

Lemma u64_lor a b : u64 a -> u64 b -> u64 (Z.lor a b).
Proof.
  rewrite !u64_bits. intros [Ha Ha'] [Hb Hb']. split.
  - by apply Z.lor_nonneg.
  - intros l Hl. by rewrite Z.lor_spec, Ha', Hb'.
Qed.

Lemma u64_land a b : u64 a -> u64 (Z.land a b).
Proof.
  rewrite !u64_bits. intros [Ha Ha']. split.
  - apply Z.land_nonneg. by left.
  - intros l Hl. by rewrite Z.land_spec, Ha'.
Qed.

Lemma u64_ldiff a b : u64 a -> u64 (Z.ldiff a b).
Proof.
  rewrite !u64_bits. intros [Ha Ha']. split.
  - apply Z.ldiff_nonneg. by left.
  - intros l Hl. by rewrite Z.ldiff_spec, Ha'.
Qed.

Lemma u64_mask k : 0 <= k < 64 -> u64 (Z.shiftl 1 k).
Proof.
  intros Hk. apply u64_bits. split.
  - apply Z.shiftl_nonneg. lia.
  - intros l Hl. rewrite shiftl1_testbit by lia. apply Z.eqb_neq. lia.
Qed.

Lemma ones_from_nonneg n i w : 0 <= ones_from n i w.
Proof.
  revert i. induction n as [|n IH]; intros i; simpl; [lia|].
  specialize (IH (i + 1)). destruct (Z.testbit w i); lia.
Qed.

Lemma ones_from_lor n i w k :
  0 <= i -> 0 <= k ->
  ones_from n i (Z.lor w (Z.shiftl 1 k)) =
  ones_from n i w +
  (if (i <=? k) && (k <? i + Z.of_nat n) && negb (Z.testbit w k)
   then 1 else 0).
Proof.
  revert i. induction n as [|n IH]; intros i Hi Hk.
  - simpl. bool_cases.
  - cbn [ones_from]. rewrite IH by lia.
    rewrite Z.lor_spec, shiftl1_testbit by done.
    destruct (Z.eqb_spec k i) as [->|Hne].
    + bool_cases; destruct (Z.testbit w i); simpl; lia.
    + bool_cases; destruct (Z.testbit w i), (Z.testbit w k); simpl; lia.
Qed.

Lemma ones_from_ldiff n i w k :
  0 <= i -> 0 <= k ->
  ones_from n i (Z.ldiff w (Z.shiftl 1 k)) =
  ones_from n i w -
  (if (i <=? k) && (k <? i + Z.of_nat n) && Z.testbit w k then 1 else 0).
Proof.
  revert i. induction n as [|n IH]; intros i Hi Hk.
  - simpl. bool_cases.
  - cbn [ones_from]. rewrite IH by lia.
    rewrite Z.ldiff_spec, shiftl1_testbit by done.
    destruct (Z.eqb_spec k i) as [->|Hne].
    + bool_cases; destruct (Z.testbit w i); simpl; lia.
    + bool_cases; destruct (Z.testbit w i), (Z.testbit w k); simpl; lia.
Qed.

Lemma sum_ones_nonneg ws : 0 <= sum_ones ws.
Proof.
  induction ws as [|w ws IH]; simpl; [lia|].
  pose proof (ones_from_nonneg 64 0 w). unfold OnesCount64. lia.
Qed.

Lemma sum_ones_insert ws n w :
  (n < length ws)%nat ->
  sum_ones (<[n := w]> ws) =
  sum_ones ws - OnesCount64 (word_at ws n) + OnesCount64 w.
Proof.
  revert n. induction ws as [|w0 ws IH]; intros [|n] Hn; simpl in *; try lia.
  - unfold word_at. simpl. lia.
  - rewrite IH by lia. unfold word_at. simpl. lia.
Qed.

Lemma Forall_u64_insert ws n w :
  Forall u64 ws -> u64 w -> Forall u64 (<[n := w]> ws).
Proof. intros. by apply Forall_insert. Qed.

Lemma word_at_u64 ws n : Forall u64 ws -> u64 (word_at ws n).
Proof.
  intros H. unfold word_at. destruct (ws !! n) as [w|] eqn:E; simpl.
  - by eapply Forall_lookup_1.
  - unfold u64. lia.
Qed.

(** ** Bitmap updates *)

Lemma add_bit_fst ws x : fst (add_bit ws x) = negb (bm_test ws x).
Proof.
  unfold add_bit, getWordNumBitMask, bm_test. simpl.
  rewrite land_mask_eqb by apply mask_range. by rewrite land_63.
Qed.

Lemma del_bit_fst ws x : fst (del_bit ws x) = bm_test ws x.
Proof. unfold del_bit, getWordNumBitMask. simpl. apply has_bit_test. Qed.

Lemma add_bit_length ws x : length (snd (add_bit ws x)) = length ws.
Proof. unfold add_bit, getWordNumBitMask. simpl. apply length_insert. Qed.

Lemma del_bit_length ws x : length (snd (del_bit ws x)) = length ws.
Proof. unfold del_bit, getWordNumBitMask. simpl. apply length_insert. Qed.

Lemma add_bit_u64 ws x : Forall u64 ws -> Forall u64 (snd (add_bit ws x)).
Proof.
  intros H. unfold add_bit, getWordNumBitMask. simpl.
  apply Forall_u64_insert; [done|].
  apply u64_lor; [by apply word_at_u64|]. apply u64_mask, mask_range.
Qed.

Lemma del_bit_u64 ws x : Forall u64 ws -> Forall u64 (snd (del_bit ws x)).
Proof.
  intros H. unfold del_bit, getWordNumBitMask. simpl.
  apply Forall_u64_insert; [done|]. by apply u64_ldiff, word_at_u64.
Qed.

Lemma add_bit_count ws x :
  length ws = wordsPerBucket -> u16 x ->
  sum_ones (snd (add_bit ws x)) =
  sum_ones ws + (if bm_test ws x then 0 else 1).
Proof.
  intros Hl Hx. unfold add_bit, getWordNumBitMask, bm_test. simpl.
  rewrite sum_ones_insert by (rewrite Hl; by apply u16_word).
  unfold OnesCount64. pose proof (mask_range x) as Hm.
  rewrite ones_from_lor by lia. rewrite land_63 in *.
  bool_cases; destruct (Z.testbit _ _); simpl; lia.
Qed.

Lemma del_bit_count ws x :
  length ws = wordsPerBucket -> u16 x ->
  sum_ones (snd (del_bit ws x)) =
  sum_ones ws - (if bm_test ws x then 1 else 0).
Proof.
  intros Hl Hx. unfold del_bit, getWordNumBitMask, bm_test. simpl.
  rewrite sum_ones_insert by (rewrite Hl; by apply u16_word).
  unfold OnesCount64. pose proof (mask_range x) as Hm.
  rewrite ones_from_ldiff by lia. rewrite land_63 in *.
  bool_cases; destruct (Z.testbit _ _); simpl; lia.
Qed.
(** ** Leaf bucket: membership, result and count of [add] and [del] *)

Lemma has_in_slice_spec a x : has_in_slice a x = bool_decide (x ∈ a).
Proof.
  induction a as [|v a IH]; simpl; [done|].
  destruct (Z.eqb_spec v x) as [->|Hne].
  - symmetry. apply bool_decide_eq_true. left.
  - rewrite IH. apply bool_decide_ext. rewrite elem_of_cons.
    split; [by right|]. intros [?|?]; [congruence|done].
Qed.

Lemma index_of_Some a x i :
  index_of a x = Some i -> a !! i = Some x.
Proof.
  revert i. induction a as [|v a IH]; intros i; simpl; [done|].
  destruct (Z.eqb_spec v x) as [->|Hne].
  - by intros [= <-].
  - destruct (index_of a x) as [j|]; simpl; [|done].
    intros [= <-]. simpl. by apply IH.
Qed.

Lemma index_of_None a x : index_of a x = None <-> x ∉ a.
Proof.
  induction a as [|v a IH]; simpl.
  - split; [intros _; apply not_elem_of_nil|done].
  - rewrite not_elem_of_cons. destruct (Z.eqb_spec v x) as [->|Hne].
    + split; [done|]. by intros [? _].
    + destruct (index_of a x); simpl.
      * split; [done|]. intros [_ H]. by apply IH in H.
      * split; [|done]. intros _. split; [done|]. by apply IH.
Qed.

Lemma index_of_elem a x : x ∈ a -> exists i, index_of a x = Some i.
Proof.
  intros H. destruct (index_of a x) as [i|] eqn:E; [by exists i|].
  by apply index_of_None in E.
Qed.

(** With distinct entries the first occurrence is the only one. *)
Lemma index_of_NoDup a x i :
  NoDup a -> a !! i = Some x -> index_of a x = Some i.
Proof.
  intros Hnd Hi. destruct (index_of a x) as [j|] eqn:E.
  - apply index_of_Some in E. f_equal. by eapply NoDup_lookup.
  - apply index_of_None in E. destruct E. by eapply list_elem_of_lookup_2.
Qed.

(** The members of a leaf bucket, read off its representation. *)
Lemma bucket16_has_pool b x :
  bits b = None ->
  bucket16_has b x = bool_decide (x ∈ take (smallPoolLen b) (smallPool b)).
Proof.
  intros Hb. unfold bucket16_has, hasInSmallPool. rewrite Hb.
  apply has_in_slice_spec.
Qed.

Lemma bucket16_has_bits b ws x :
  bits b = Some ws -> bucket16_has b x = bm_test ws x.
Proof.
  intros Hb. unfold bucket16_has, getWordNumBitMask. rewrite Hb.
  apply has_bit_test.
Qed.

Lemma word_at_replicate n m : word_at (replicate n 0) m = 0.
Proof.
  unfold word_at. destruct (replicate n 0 !! m) as [w|] eqn:E; [|done].
  apply lookup_replicate in E as [-> _]. done.
Qed.

Lemma bm_test_replicate n x : bm_test (replicate n 0) x = false.
Proof. unfold bm_test. rewrite word_at_replicate. apply Z.bits_0. Qed.

Lemma sum_ones_replicate n : sum_ones (replicate n 0) = 0.
Proof. induction n as [|n IH]; simpl; [done|]. by rewrite IH. Qed.

Lemma Forall_u64_replicate n : Forall u64 (replicate n 0).
Proof. apply Forall_replicate. unfold u64. lia. Qed.

Lemma add_bits_cons ws v l :
  add_bits ws (v :: l) = add_bits (snd (add_bit ws v)) l.
Proof. done. Qed.

Lemma add_bits_length ws l : length (add_bits ws l) = length ws.
Proof.
  revert ws. induction l as [|v l IH]; intros ws; [done|].
  by rewrite add_bits_cons, IH, add_bit_length.
Qed.

Lemma add_bits_u64 ws l : Forall u64 ws -> Forall u64 (add_bits ws l).
Proof.
  revert ws. induction l as [|v l IH]; intros ws H; [done|].
  rewrite add_bits_cons. apply IH. by apply add_bit_u64.
Qed.

Lemma add_bits_test ws l y :
  length ws = wordsPerBucket -> Forall u16 l -> u16 y ->
  bm_test (add_bits ws l) y = bool_decide (y ∈ l) || bm_test ws y.
Proof.
  revert ws. induction l as [|v l IH]; intros ws Hl Hf Hy.
  - done.
  - apply Forall_cons in Hf as [Hv Hf]. rewrite add_bits_cons.
    rewrite IH by (rewrite ?add_bit_length; done).
    rewrite add_bit_test by done.
    destruct (Z.eqb_spec v y) as [->|Hne]; simpl.
    + rewrite orb_true_r. symmetry. rewrite orb_true_iff. left.
      apply bool_decide_eq_true. left.
    + f_equal. apply bool_decide_ext. rewrite elem_of_cons.
      split; [by right|]. intros [?|?]; [congruence|done].
Qed.

Lemma add_bits_count ws l :
  length ws = wordsPerBucket -> Forall u16 l -> NoDup l ->
  (forall v, v ∈ l -> bm_test ws v = false) ->
  sum_ones (add_bits ws l) = sum_ones ws + Z.of_nat (length l).
Proof.
  revert ws. induction l as [|v l IH]; intros ws Hl Hf Hnd Hno.
  - unfold add_bits. simpl. lia.
  - apply Forall_cons in Hf as [Hv Hf]. apply NoDup_cons in Hnd as [Hv' Hnd].
    rewrite add_bits_cons, IH; try done.
    + rewrite add_bit_count by done. rewrite Hno by left.
      rewrite length_cons. lia.
    + by rewrite add_bit_length.
    + intros u Hu. rewrite add_bit_test; try done.
      * rewrite Hno by by right. destruct (Z.eqb_spec v u) as [->|]; done.
      * by eapply Forall_forall in Hf.
Qed.
Lemma bucket16_zero_wf : wf16 bucket16_zero.
Proof.
  unfold wf16, bucket16_zero. cbn [smallPool bits smallPoolLen].
  split; [apply length_replicate|]. split.
  - apply Forall_replicate. unfold u16. lia.
  - split; [lia|]. rewrite take_0. apply NoDup_nil_2.
Qed.

Lemma bucket16_zero_has x : bucket16_has bucket16_zero x = false.
Proof. done. Qed.

Lemma take_pool_snoc (pool : list Z) n x :
  (n < length pool)%nat ->
  take (S n) (<[n := x]> pool) = take n pool ++ [x].
Proof.
  intros Hn. rewrite (take_S_r _ _ x) by by rewrite list_lookup_insert_eq.
  by rewrite take_insert_ge.
Qed.

Lemma elem_of_snoc (l : list Z) x y : y ∈ l ++ [x] <-> y ∈ l \/ y = x.
Proof. rewrite elem_of_app, list_elem_of_singleton. done. Qed.

Lemma bool_decide_snoc (l : list Z) x y :
  bool_decide (y ∈ l ++ [x]) = (x =? y) || bool_decide (y ∈ l).
Proof.
  destruct (Z.eqb_spec x y) as [->|Hne]; simpl.
  - apply bool_decide_eq_true. apply elem_of_snoc. by right.
  - apply bool_decide_ext. rewrite elem_of_snoc.
    split; [|by left]. intros [?|?]; [done|congruence].
Qed.

Lemma has_Bits ws n p x :
  bucket16_has (Bucket16 (Some ws) n p) x = bm_test ws x.
Proof. by apply bucket16_has_bits. Qed.

Lemma has_Pool n p x :
  bucket16_has (Bucket16 None n p) x = bool_decide (x ∈ take n p).
Proof. by apply bucket16_has_pool. Qed.

Lemma bucket16_add_bits b ws x :
  bits b = Some ws ->
  bucket16_add b x =
  (fst (add_bit ws x),
   Bucket16 (Some (snd (add_bit ws x))) (smallPoolLen b) (smallPool b)).
Proof.
  intros Hb. unfold bucket16_add. rewrite Hb. by destruct (add_bit ws x).
Qed.

Lemma bucket16_del_bits b ws x :
  bits b = Some ws ->
  bucket16_del b x =
  (fst (del_bit ws x),
   Bucket16 (Some (snd (del_bit ws x))) (smallPoolLen b) (smallPool b)).
Proof.
  intros Hb. unfold bucket16_del. rewrite Hb. by destruct (del_bit ws x).
Qed.

(** [add] on a leaf bucket: the result tells whether [x] was missing,
    the count grows accordingly and exactly [x] joins the members. *)
Lemma bucket16_add_spec b x :
  wf16 b -> u16 x ->
  fst (bucket16_add b x) = negb (bucket16_has b x) /\
  wf16 (snd (bucket16_add b x)) /\
  count16 (snd (bucket16_add b x)) =
    count16 b + (if bucket16_has b x then 0 else 1) /\
  forall y, u16 y ->
    bucket16_has (snd (bucket16_add b x)) y = (x =? y) || bucket16_has b y.
Proof.
  intros (Hlen & Hpool & Hrep) Hx.
  destruct b as [[ws|] n pool]; cbn [bits smallPoolLen smallPool] in *.
  - (* bitmap *)
    destruct Hrep as [Hl Hu]. rewrite (bucket16_add_bits _ ws) by done.
    cbn [fst snd bits smallPoolLen smallPool].
    rewrite add_bit_fst. repeat split; simp_rec.
    + by rewrite has_Bits.
    + done.
    + done.
    + by rewrite add_bit_length.
    + by apply add_bit_u64.
    + unfold count16; simp_rec. rewrite add_bit_count by done.
      by rewrite has_Bits.
    + intros y Hy. rewrite !has_Bits.
      by apply add_bit_test.
  - (* small pool *)
    destruct Hrep as [Hn Hnd]. unfold bucket16_add, addToSmallPool; simp_rec.
    rewrite !has_Pool. unfold hasInSmallPool; simp_rec.
    rewrite has_in_slice_spec. case_bool_decide as Hin.
    + (* already there *)
      simp_rec. repeat split; try done.
      * lia.
      * intros y Hy. rewrite !has_Pool; simp_rec.
        destruct (Z.eqb_spec x y) as [<-|]; [|done].
        simpl. by apply bool_decide_eq_true.
    + destruct (Nat.ltb_spec n (length pool)) as [Hlt|Hge]; simp_rec.
      * (* a free slot *)
        repeat split; simp_rec.
        -- by rewrite length_insert.
        -- by apply Forall_insert.
        -- unfold smallPoolCap in *. lia.
        -- rewrite take_pool_snoc by done. apply NoDup_app.
           repeat split; [done| |apply NoDup_singleton].
           intros y Hy ->%list_elem_of_singleton. done.
        -- unfold count16; simp_rec. lia.
        -- intros y Hy. rewrite !has_Pool; simp_rec.
           rewrite take_pool_snoc by done. apply bool_decide_snoc.
      * (* promotion to a bitmap *)
        assert (take n pool = pool) as Htake by (apply take_ge; lia).
        rewrite Htake in *.
        assert (length (add_bits (replicate wordsPerBucket 0) pool)
                = wordsPerBucket) as Hl1
          by by rewrite add_bits_length, length_replicate.
        repeat split; simp_rec.
        -- done.
        -- done.
        -- by rewrite add_bit_length.
        -- apply add_bit_u64, add_bits_u64, Forall_u64_replicate.
        -- unfold count16; simp_rec. rewrite add_bit_count by done.
           rewrite add_bits_count;
             [|by rewrite length_replicate|done|done
              |intros; apply bm_test_replicate].
           rewrite add_bits_test by (rewrite ?length_replicate; done).
           rewrite bm_test_replicate, orb_false_r.
           rewrite bool_decide_eq_false_2 by done.
           rewrite sum_ones_replicate.
           unfold smallPoolCap in *. lia.
        -- intros y Hy. rewrite has_Bits.
           rewrite has_Pool; simp_rec.
           rewrite add_bit_test by done.
           rewrite add_bits_test by (rewrite ?length_replicate; done).
           by rewrite bm_test_replicate, orb_false_r, Htake.
Qed.
(** The used part of the pool after [delFromSmallPool] removed slot [i]. *)
Lemma take_pool_delete (p : list Z) n i :
  (i < n)%nat -> (n <= length p)%nat ->
  take (pred n) (take i p ++ drop (S i) p ++ drop (pred (length p)) p)
  = delete i (take n p).
Proof.
  intros Hi Hn. rewrite delete_take_drop, take_take.
  replace (i `min` n)%nat with i by lia.
  rewrite take_app_ge by (rewrite length_take; lia).
  rewrite length_take. replace (i `min` length p)%nat with i by lia.
  f_equal. rewrite take_app_le by (rewrite length_drop; lia).
  rewrite skipn_firstn_comm. f_equal. lia.
Qed.

Lemma elem_of_delete_NoDup (l : list Z) i x y :
  NoDup l -> l !! i = Some x ->
  y ∈ delete i l <-> y <> x /\ y ∈ l.
Proof.
  intros Hnd Hi. rewrite delete_take_drop.
  rewrite <- (take_drop_middle l i x Hi) in Hnd at 1.
  rewrite <- (take_drop_middle l i x Hi) at 3.
  apply NoDup_app in Hnd as (_ & Hx1 & [Hx2 _]%NoDup_cons).
  rewrite !elem_of_app, elem_of_cons. split.
  - intros [H|H].
    + split; [|by left]. intros ->. eapply Hx1; [done|left].
    + split; [|by right; right]. by intros ->.
  - intros [Hne [H|[H|H]]]; [by left|done|by right].
Qed.

Lemma bool_decide_delete (l : list Z) i x y :
  NoDup l -> l !! i = Some x ->
  bool_decide (y ∈ delete i l) = negb (x =? y) && bool_decide (y ∈ l).
Proof.
  intros Hnd Hi. destruct (Z.eqb_spec x y) as [<-|Hne]; simpl.
  - apply bool_decide_eq_false. rewrite elem_of_delete_NoDup by done.
    by intros [? _].
  - apply bool_decide_ext. rewrite elem_of_delete_NoDup by done.
    split; [by intros [_ ?]|]. intros H. split; [congruence|done].
Qed.

(** [del] on a leaf bucket: the result tells whether [x] was there, the
    count shrinks accordingly and exactly [x] leaves the members. *)
Lemma bucket16_del_spec b x :
  wf16 b -> u16 x ->
  fst (bucket16_del b x) = bucket16_has b x /\
  wf16 (snd (bucket16_del b x)) /\
  count16 (snd (bucket16_del b x)) =
    count16 b - (if bucket16_has b x then 1 else 0) /\
  forall y, u16 y ->
    bucket16_has (snd (bucket16_del b x)) y =
    negb (x =? y) && bucket16_has b y.
Proof.
  intros (Hlen & Hpool & Hrep) Hx.
  destruct b as [[ws|] n pool]; cbn [bits smallPoolLen smallPool] in *.
  - (* bitmap *)
    destruct Hrep as [Hl Hu]. rewrite (bucket16_del_bits _ ws) by done.
    simp_rec. rewrite del_bit_fst, !has_Bits. repeat split; simp_rec.
    + done.
    + done.
    + by rewrite del_bit_length.
    + by apply del_bit_u64.
    + unfold count16; simp_rec. by rewrite del_bit_count.
    + intros y Hy. rewrite !has_Bits. by apply del_bit_test.
  - (* small pool *)
    destruct Hrep as [Hn Hnd]. unfold bucket16_del, delFromSmallPool; simp_rec.
    rewrite !has_Pool.
    destruct (index_of (take n pool) x) as [i|] eqn:E.
    + pose proof (index_of_Some _ _ _ E) as Hi.
      apply lookup_take_Some in Hi as Hi'. destruct Hi' as [Hi' Hlt].
      assert (x ∈ take n pool) as Hin by by eapply list_elem_of_lookup_2.
      rewrite bool_decide_eq_true_2 by done. simp_rec.
      unfold smallPoolCap in *.
      repeat split; simp_rec.
      * rewrite !length_app, length_take, !length_drop.
        unfold smallPoolCap. lia.
      * repeat apply Forall_app_2;
          [by apply Forall_take|by apply Forall_drop..].
      * unfold smallPoolCap. lia.
      * rewrite take_pool_delete by lia.
        eapply sublist_NoDup; [done|apply sublist_delete].
      * unfold count16; simp_rec. lia.
      * intros y Hy. rewrite !has_Pool, take_pool_delete by lia.
        by apply bool_decide_delete.
    + apply index_of_None in E. rewrite bool_decide_eq_false_2 by done.
      simp_rec. repeat split; simp_rec; try done.
      * lia.
      * intros y Hy. rewrite !has_Pool.
        destruct (Z.eqb_spec x y) as [<-|]; [|done].
        simpl. by apply bool_decide_eq_false.
Qed.
(** While the pool has a free slot, [add] keeps the pool representation. *)
Lemma bucket16_add_stays_pool b x :
  wf16 b -> bits b = None -> (smallPoolLen b < smallPoolCap)%nat ->
  bits (snd (bucket16_add b x)) = None.
Proof.
  intros (Hlen & _) Hb Hn. unfold bucket16_add, addToSmallPool. rewrite Hb.
  destruct (hasInSmallPool b x); [done|].
  destruct (Nat.ltb_spec (smallPoolLen b) (length (smallPool b))); [done|lia].
Qed.

(** C7: a leaf bucket whose small pool holds 56 distinct low-16 values
    switches to the bitmap representation when a 57th distinct value is
    added; afterwards [has] is true for exactly these 57 values. *)
Theorem C7_promotion_preserves_membership b x :
  wf16 b -> bits b = None -> smallPoolLen b = smallPoolCap ->
  u16 x -> x ∉ smallPool b ->
  fst (bucket16_add b x) = true /\
  (exists ws, bits (snd (bucket16_add b x)) = Some ws) /\
  bucket16_has (snd (bucket16_add b x)) x = true /\
  (forall v, v ∈ smallPool b -> bucket16_has (snd (bucket16_add b x)) v = true) /\
  (forall y, u16 y ->
     bucket16_has (snd (bucket16_add b x)) y = true <->
     y = x \/ y ∈ smallPool b) /\
  count16 (snd (bucket16_add b x)) = 57.
Proof.
  intros Hwf Hb Hn Hx Hnin.
  destruct (bucket16_add_spec b x Hwf Hx) as (Hfst & Hwf' & Hcnt & Hhas).
  destruct Hwf as (Hlen & Hpool & Hrep). rewrite Hb in Hrep.
  assert (take (smallPoolLen b) (smallPool b) = smallPool b) as Htake
    by (apply take_ge; lia).
  assert (bucket16_has b x = false) as Hno.
  { rewrite bucket16_has_pool, Htake by done. by apply bool_decide_eq_false. }
  assert (forall y, bucket16_has b y = true <-> y ∈ smallPool b) as Hmem.
  { intros y. rewrite bucket16_has_pool, Htake by done.
    apply bool_decide_eq_true. }
  rewrite Hno in *. split; [done|]. split; [|split; [|split; [|split]]].
  - unfold bucket16_add, addToSmallPool. rewrite Hb.
    replace (hasInSmallPool b x) with false
      by (by rewrite <- Hno; unfold bucket16_has; rewrite Hb).
    destruct (Nat.ltb_spec (smallPoolLen b) (length (smallPool b))); [lia|].
    by eexists.
  - rewrite Hhas by done. by rewrite Z.eqb_refl.
  - intros v Hv. rewrite Hhas by by eapply Forall_forall in Hpool.
    apply orb_true_iff. right. by apply Hmem.
  - intros y Hy. rewrite Hhas, orb_true_iff, Hmem, Z.eqb_eq by done.
    split; (intros [?|?]; [by left|by right]).
  - rewrite Hcnt. unfold count16. rewrite Hb, Hn. done.
Qed.

Lemma C7_promotion_witness :
  let b := Bucket16 None 56 (map Z.of_nat (seq 0 56)) in
  fst (bucket16_add b 1000) = true /\
  (exists ws, bits (snd (bucket16_add b 1000)) = Some ws) /\
  bucket16_has (snd (bucket16_add b 1000)) 1000 = true /\
  (forall v, v ∈ smallPool b -> bucket16_has (snd (bucket16_add b 1000)) v = true) /\
  (forall y, u16 y ->
     bucket16_has (snd (bucket16_add b 1000)) y = true <->
     y = 1000 \/ y ∈ smallPool b) /\
  count16 (snd (bucket16_add b 1000)) = 57.
Proof.
  apply C7_promotion_preserves_membership.
  - by_eval.
  - reflexivity.
  - reflexivity.
  - by_eval.
  - by_eval.
Defined.
(** ** Sorting by key *)

Section SortingFacts.
Context {A : Type} (key : A -> Z).

Local Abbreviation lek := (le_key key).

#[local] Instance le_key_trans : Transitive lek.
Proof. unfold le_key. intros a b c. lia. Qed.

Lemma insert_by_perm x l : insert_by key x l ≡ₚ x :: l.
Proof.
  induction l as [|y l IH]; simpl; [done|].
  destruct (key x <=? key y); [done|].
  rewrite IH. apply Permutation_swap.
Qed.

Lemma sort_by_perm l : sort_by key l ≡ₚ l.
Proof.
  induction l as [|x l IH]; simpl; [done|].
  by rewrite insert_by_perm, IH.
Qed.

Lemma sort_by_length l : length (sort_by key l) = length l.
Proof. apply Permutation_length, sort_by_perm. Qed.

Lemma insert_by_sorted x l :
  StronglySorted lek l -> StronglySorted lek (insert_by key x l).
Proof.
  induction l as [|y l IH]; intros Hs; simpl.
  - by repeat constructor.
  - apply StronglySorted_cons in Hs as [Hy Hs].
    destruct (Z.leb_spec (key x) (key y)) as [Hle|Hgt].
    + apply StronglySorted_cons. split.
      * constructor; [done|].
        eapply Forall_impl; [done|]. unfold le_key. intros; lia.
      * by apply StronglySorted_cons.
    + apply StronglySorted_cons. split; [|by apply IH].
      rewrite insert_by_perm. constructor; [|done]. unfold le_key. lia.
Qed.

Lemma sort_by_sorted l : StronglySorted lek (sort_by key l).
Proof.
  induction l as [|x l IH]; simpl; [constructor|].
  by apply insert_by_sorted.
Qed.

Lemma is_sorted_by_true l :
  is_sorted_by key l = true -> StronglySorted lek l.
Proof.
  intros H. apply Sorted_StronglySorted; [apply _|].
  induction l as [|x l IH]; [constructor|].
  simpl in H. destruct l as [|y l].
  - by repeat constructor.
  - apply andb_true_iff in H as [Hxy H]. constructor; [by apply IH|].
    constructor. unfold le_key. lia.
Qed.

(** Sorting leaves a sorted sequence as it is. *)
Lemma insert_by_head x l :
  Forall (lek x) l -> insert_by key x l = x :: l.
Proof.
  intros H. destruct l as [|y l]; simpl; [done|].
  apply Forall_cons in H as [Hy _]. unfold le_key in Hy.
  by destruct (Z.leb_spec (key x) (key y)); [|lia].
Qed.

Lemma sort_by_sorted_id l : StronglySorted lek l -> sort_by key l = l.
Proof.
  induction 1 as [|x l Hs IH Hx]; simpl; [done|].
  rewrite IH. by apply insert_by_head.
Qed.

Lemma sorted_le_lt l :
  StronglySorted lek l -> NoDup (key <$> l) ->
  StronglySorted Z.lt (key <$> l).
Proof.
  induction 1 as [|x l Hs IH Hx]; intros Hnd; simpl; [constructor|].
  apply NoDup_cons in Hnd as [Hnin Hnd]. constructor; [by apply IH|].
  apply Forall_fmap, Forall_forall. intros y Hy. simpl.
  assert (key x <= key y) by by eapply Forall_forall in Hx.
  assert (key x <> key y).
  { intros E. apply Hnin. rewrite E. by apply list_elem_of_fmap_2. }
  lia.
Qed.

Lemma sorted_lt_le l :
  StronglySorted Z.lt (key <$> l) -> StronglySorted lek l.
Proof.
  induction l as [|x l IH]; simpl; intros H; [constructor|].
  apply StronglySorted_cons in H as [Hx H]. constructor; [by apply IH|].
  rewrite Forall_fmap in Hx. eapply Forall_impl; [exact Hx|].
  unfold le_key. simpl. intros; lia.
Qed.

(** The sorted sequence with distinct keys is ascending. *)
Lemma sort_by_ascending l :
  NoDup (key <$> l) -> ascending (key <$> sort_by key l).
Proof.
  intros Hnd. apply sorted_le_lt; [apply sort_by_sorted|].
  by rewrite sort_by_perm.
Qed.
End SortingFacts.

Lemma ascending_NoDup l : ascending l -> NoDup l.
Proof.
  induction 1 as [|x l Hs IH Hx]; constructor; [|done].
  intros Hin. eapply Forall_forall in Hx; [|done]. lia.
Qed.
(** ** Binary search *)

Lemma ascending_lookup l k1 k2 a b :
  ascending l -> (k1 < k2)%nat ->
  l !! k1 = Some a -> l !! k2 = Some b -> a < b.
Proof.
  intros Hs. revert k1 k2. induction Hs as [|x l Hs IH Hx]; intros k1 k2 Hk.
  - done.
  - destruct k2 as [|k2]; [lia|]. destruct k1 as [|k1]; simpl.
    + intros [= <-] Hb. eapply Forall_forall in Hx; [done|].
      by eapply list_elem_of_lookup_2.
    + apply IH. lia.
Qed.

Lemma binarySearch16_loop_spec fuel l x i j :
  ascending l -> (i <= j <= length l)%nat -> (j - i <= fuel)%nat ->
  (forall k v, (k < i)%nat -> l !! k = Some v -> v < x) ->
  (forall k v, (j <= k)%nat -> l !! k = Some v -> x <= v) ->
  let n := binarySearch16_loop fuel l x i j in
  (i <= n <= j)%nat /\
  (forall k v, (k < n)%nat -> l !! k = Some v -> v < x) /\
  (forall k v, (n <= k)%nat -> l !! k = Some v -> x <= v).
Proof.
  intros Hs. revert i j. induction fuel as [|fuel IH]; intros i j Hij Hf Hlo Hhi.
  - simpl. assert (i = j) as -> by lia. split; [lia|]. by split.
  - cbn [binarySearch16_loop]. destruct (Nat.ltb_spec i j) as [Hlt|Hge].
    + pose proof (Nat.div_mod_eq (i + j) 2) as Hdm.
      pose proof (Nat.mod_upper_bound (i + j) 2) as Hmod.
      set (h := ((i + j) / 2)%nat) in *.
      assert (i <= h < j)%nat as Hh by lia.
      destruct (l !! h) as [v|] eqn:Ev.
      * destruct (Z.ltb_spec v x) as [Hvx|Hvx].
        -- destruct (IH (S h) j) as (Hn & H1 & H2); try done; try lia.
           { intros k u Hk Hu. destruct (decide (k = h)) as [->|Hne].
             - by simplify_eq.
             - assert (u < v); [|lia].
               eapply (ascending_lookup l k h); [done|lia|done..]. }
           split; [lia|]. by split.
        -- destruct (IH i h) as (Hn & H1 & H2); try done; try lia.
           { intros k u Hk Hu. destruct (decide (k = h)) as [->|Hne].
             - by simplify_eq.
             - assert (v < u); [|lia].
               eapply (ascending_lookup l h k); [done|lia|done..]. }
           split; [lia|]. by split.
      * apply lookup_ge_None in Ev. lia.
    + assert (i = j) as -> by lia. split; [lia|]. by split.
Qed.

Lemma binarySearch16_spec l x :
  ascending l ->
  let n := binarySearch16 l x in
  (n <= length l)%nat /\
  (forall k v, (k < n)%nat -> l !! k = Some v -> v < x) /\
  (forall k v, (n <= k)%nat -> l !! k = Some v -> x <= v).
Proof.
  intros Hs. unfold binarySearch16.
  destruct (binarySearch16_loop_spec (length l) l x 0 (length l))
    as (Hn & H1 & H2); try done; try lia.
  - intros k v Hk Hv. apply lookup_lt_Some in Hv. lia.
  - split; [lia|]. by split.
Qed.

(** On ascending keys the search returns the index of [x] if [x] is
    among them. *)
Lemma binarySearch16_found l x i :
  ascending l -> l !! i = Some x -> binarySearch16 l x = i.
Proof.
  intros Hs Hi. destruct (binarySearch16_spec l x Hs) as (Hn & H1 & H2).
  set (n := binarySearch16 l x) in *.
  destruct (Nat.lt_trichotomy n i) as [Hlt|[Heq|Hgt]]; [|done|].
  - assert (is_Some (l !! n)) as [v Hv].
    { apply lookup_lt_is_Some. apply lookup_lt_Some in Hi. lia. }
    pose proof (ascending_lookup l n i v x Hs Hlt Hv Hi).
    pose proof (H2 n v (Nat.le_refl _) Hv). lia.
  - pose proof (H1 i x Hgt Hi). lia.
Qed.

Lemma binarySearch16_index_of l x :
  ascending l ->
  match index_of l x with
  | Some i => binarySearch16 l x = i
  | None => l !! binarySearch16 l x <> Some x
  end.
Proof.
  intros Hs. destruct (index_of l x) as [i|] eqn:E.
  - apply binarySearch16_found; [done|]. by apply index_of_Some.
  - apply index_of_None in E. intros H. apply E.
    by eapply list_elem_of_lookup_2.
Qed.

(** Opening a slot at the search position keeps the keys ascending. *)
Lemma ascending_insert_at l x :
  ascending l -> x ∉ l ->
  ascending (take (binarySearch16 l x) l ++ x :: drop (binarySearch16 l x) l).
Proof.
  intros Hs Hx. destruct (binarySearch16_spec l x Hs) as (Hn & H1 & H2).
  set (n := binarySearch16 l x) in *.
  rewrite <- (take_drop n l) in Hs.
  apply StronglySorted_app in Hs as (H12 & Hs1 & Hs2).
  apply StronglySorted_app_2; [|done|].
  - intros a b Ha Hb. apply elem_of_take in Ha as (k & Hk & Hlt).
    pose proof (H1 k a Hlt Hk). apply elem_of_cons in Hb as [->|Hb]; [done|].
    apply list_elem_of_lookup in Hb as (k' & Hk').
    rewrite lookup_drop in Hk'.
    pose proof (H2 (n + k')%nat b ltac:(lia) Hk'). lia.
  - constructor; [done|]. apply Forall_forall. intros b Hb.
    assert (b ∈ l) as Hbl.
    { rewrite <- (take_drop n l). apply elem_of_app. by right. }
    apply list_elem_of_lookup in Hb as (k' & Hk').
    rewrite lookup_drop in Hk'.
    pose proof (H2 (n + k')%nat b ltac:(lia) Hk').
    assert (b <> x) by (by intros ->). lia.
Qed.
(** ** Entries of a mid bucket *)

Lemma assoc_get_elem ps k b : assoc_get ps k = Some b -> (k, b) ∈ ps.
Proof.
  induction ps as [|[k' b'] ps IH]; simpl; [done|].
  destruct (Z.eqb_spec k' k) as [->|Hne].
  - intros [= ->]. left.
  - intros H. right. by apply IH.
Qed.

Lemma assoc_get_None ps k : assoc_get ps k = None <-> k ∉ ps.*1.
Proof.
  induction ps as [|[k' b'] ps IH]; simpl.
  - split; [intros _; apply not_elem_of_nil|done].
  - rewrite not_elem_of_cons. destruct (Z.eqb_spec k' k) as [->|Hne].
    + split; [done|]. by intros [? _].
    + rewrite IH. split; [by split|by intros [_ ?]].
Qed.

Lemma assoc_get_Some ps k b :
  NoDup ps.*1 -> assoc_get ps k = Some b <-> (k, b) ∈ ps.
Proof.
  intros Hnd. split; [apply assoc_get_elem|].
  induction ps as [|[k' b'] ps IH]; simpl in *.
  - by intros ?%elem_of_nil.
  - apply NoDup_cons in Hnd as [Hk Hnd].
    intros [[= -> ->]|Hin]%elem_of_cons.
    + by rewrite Z.eqb_refl.
    + destruct (Z.eqb_spec k' k) as [->|Hne]; [|by apply IH].
      destruct Hk. by apply (list_elem_of_fmap_2 fst) in Hin.
Qed.

(** With distinct keys the view does not depend on the order. *)
Lemma assoc_get_perm ps ps' k :
  NoDup ps.*1 -> ps ≡ₚ ps' -> assoc_get ps k = assoc_get ps' k.
Proof.
  intros Hnd Hp.
  assert (NoDup ps'.*1) as Hnd' by by rewrite <- Hp.
  destruct (assoc_get ps k) as [b|] eqn:E.
  - symmetry. apply assoc_get_Some; [done|]. rewrite <- Hp.
    by apply assoc_get_elem.
  - symmetry. apply assoc_get_None. rewrite <- Hp. by apply assoc_get_None.
Qed.

Lemma assoc_get_zip his (bs : list bucket16) k :
  length his = length bs ->
  assoc_get (zip his bs) k = index_of his k ≫= (bs !!.).
Proof.
  revert bs. induction his as [|h his IH]; intros [|b bs] Hl; try done.
  simpl in *. destruct (Z.eqb_spec h k) as [->|Hne]; [done|].
  rewrite IH by lia. by destruct (index_of his k).
Qed.

Lemma assoc_get_app ps1 ps2 k :
  assoc_get (ps1 ++ ps2) k =
  match assoc_get ps1 k with
  | Some b => Some b
  | None => assoc_get ps2 k
  end.
Proof.
  induction ps1 as [|[k' b'] ps1 IH]; simpl; [done|].
  by destruct (k' =? k).
Qed.

Lemma count_buckets16_app bs1 bs2 :
  count_buckets16 (bs1 ++ bs2) = count_buckets16 bs1 + count_buckets16 bs2.
Proof.
  induction bs1 as [|b bs1 IH]; simpl; [done|].
  unfold count_buckets16 in *. simpl. rewrite IH. lia.
Qed.

Lemma count_buckets16_perm bs1 bs2 :
  bs1 ≡ₚ bs2 -> count_buckets16 bs1 = count_buckets16 bs2.
Proof.
  unfold count_buckets16.
  induction 1 as [|b l1 l2 Hp IH|a b l|l1 l2 l3 H1 IH1 H2 IH2]; simpl; lia.
Qed.

Lemma count_buckets16_insert bs i b b' :
  bs !! i = Some b ->
  count_buckets16 (<[i := b']> bs) = count_buckets16 bs - count16 b + count16 b'.
Proof.
  revert i. unfold count_buckets16.
  induction bs as [|b0 bs IH]; intros [|i] Hi; simpl in *; try done.
  - simplify_eq. lia.
  - rewrite (IH i) by done. lia.
Qed.

Lemma count16_nonneg b : 0 <= count16 b.
Proof.
  unfold count16. destruct (bits b); [apply sum_ones_nonneg|lia].
Qed.

Lemma count_buckets16_nonneg bs : 0 <= count_buckets16 bs.
Proof.
  unfold count_buckets16. induction bs as [|b bs IH]; simpl; [lia|].
  pose proof (count16_nonneg b). lia.
Qed.

(** Entries and the parallel arrays. *)
Lemma entries_fst b :
  length (b16his b) = length (buckets b) -> (entries b).*1 = b16his b.
Proof. intros H. apply fst_zip. lia. Qed.

Lemma entries_snd b :
  length (b16his b) = length (buckets b) -> (entries b).*2 = buckets b.
Proof. intros H. apply snd_zip. lia. Qed.

Lemma get16_index b k :
  length (b16his b) = length (buckets b) ->
  get16 b k = index_of (b16his b) k ≫= (buckets b !!.).
Proof. apply assoc_get_zip. Qed.

Lemma get16_set_hint b n k : get16 (set_hint b n) k = get16 b k.
Proof. done. Qed.

Lemma wf32_set_hint b n : wf32 b -> wf32 (set_hint b n).
Proof. done. Qed.
(** ** Mid bucket: lookup *)

Lemma has_at_entry b i lo : has_at b i lo = has_entry (buckets b !! i) lo.
Proof. done. Qed.

Lemma wf32_lookup b i k :
  wf32 b -> b16his b !! i = Some k ->
  exists b16, buckets b !! i = Some b16 /\ get16 b k = Some b16 /\ wf16 b16.
Proof.
  intros (_ & Hlen & _ & Hnd & Hwf & _) Hi.
  assert (is_Some (buckets b !! i)) as [b16 Hb].
  { apply lookup_lt_is_Some. rewrite <- Hlen. by eapply lookup_lt_Some. }
  exists b16. split; [done|]. split.
  - rewrite get16_index by done. by rewrite (index_of_NoDup _ _ i).
  - by eapply Forall_lookup_1.
Qed.

(** The key found by the sorted or the linear search. *)
Lemma search_sorted b k :
  wf32 b -> (maxUnsortedBuckets < length (buckets b))%nat ->
  match b16his b !! binarySearch16 (b16his b) k with
  | Some v =>
      if v =? k then index_of (b16his b) k = Some (binarySearch16 (b16his b) k)
      else index_of (b16his b) k = None
  | None => index_of (b16his b) k = None
  end.
Proof.
  intros (_ & Hlen & _ & Hnd & _ & Hs) Hbig.
  pose proof (binarySearch16_index_of (b16his b) k (Hs Hbig)) as H.
  destruct (index_of (b16his b) k) as [i|] eqn:E.
  - subst i. rewrite (index_of_Some _ _ _ E). by rewrite Z.eqb_refl.
  - destruct (b16his b !! _) as [v|]; [|done].
    destruct (Z.eqb_spec v k) as [->|]; done.
Qed.

(** [has] on a mid bucket looks into the leaf bucket of the key. *)
Lemma bucket32_has_spec b x :
  wf32 b ->
  bucket32_has b x = has_entry (get16 b (hi16_of x)) (lo16_of x).
Proof.
  intros Hwf. pose proof Hwf as (_ & Hlen & _).
  unfold bucket32_has. fold (hi16_of x) (lo16_of x).
  rewrite get16_index by done.
  destruct (Nat.ltb_spec maxUnsortedBuckets (length (buckets b))) as [Hbig|_].
  - unfold hasSlow. pose proof (search_sorted b (hi16_of x) Hwf Hbig) as H.
    destruct (b16his b !! _) as [v|]; [|by rewrite H].
    destruct (v =? hi16_of x); by rewrite H.
  - by destruct (index_of (b16his b) (hi16_of x)).
Qed.

(** A valid hint names the entry of the key. *)
Lemma hint_hits_index b k :
  wf32 b -> hint_hits b k = true -> index_of (b16his b) k = Some (hint b).
Proof.
  intros (_ & _ & _ & Hnd & _) H. unfold hint_hits in H.
  destruct (b16his b !! hint b) as [v|] eqn:E; [|done].
  apply Z.eqb_eq in H as ->. by apply index_of_NoDup.
Qed.

(** ** Mid bucket: [add] into an existing entry *)

Lemma add_result_set_hint b n k lo r :
  add_result b k lo r -> add_result (set_hint b n) k lo r.
Proof. done. Qed.

Lemma get16_insert b i k b16' k' :
  wf32 b -> b16his b !! i = Some k ->
  get16 (Bucket32 (hi b) (b16his b) (<[i := b16']> (buckets b)) (hint b)) k'
  = if k' =? k then Some b16' else get16 b k'.
Proof.
  intros Hwf Hi. pose proof Hwf as (_ & Hlen & _ & Hnd & _).
  rewrite !get16_index by (simp_rec; by rewrite ?length_insert). simp_rec.
  destruct (Z.eqb_spec k' k) as [->|Hne].
  - rewrite (index_of_NoDup _ _ i) by done. simpl.
    apply list_lookup_insert_eq. rewrite <- Hlen. by eapply lookup_lt_Some.
  - destruct (index_of (b16his b) k') as [j|] eqn:E; [|done]. simpl.
    apply list_lookup_insert_ne. intros ->.
    apply index_of_Some in E. congruence.
Qed.

Lemma add_at_spec b i k lo :
  wf32 b -> u16 lo -> b16his b !! i = Some k ->
  add_result b k lo (add_at b i lo).
Proof.
  intros Hwf Hlo Hi.
  destruct (wf32_lookup b i k Hwf Hi) as (b16 & Hb & Hg & Hw16).
  destruct (bucket16_add_spec b16 lo Hw16 Hlo) as (Hfst & Hwf' & Hcnt & _).
  unfold add_at, add_result. rewrite Hb, Hg.
  destruct (bucket16_add b16 lo) as [ok b16'] eqn:Eadd. simp_rec.
  destruct Hwf as (Hhi & Hlen & Hk & Hnd & Hbs & Hs).
  split; [|split; [done|split; [done|split]]].
  - unfold wf32; simp_rec. rewrite length_insert.
    split_and!; [done..|by apply Forall_insert|done].
  - intros k'. rewrite (get16_insert b i k) by done.
    change (default bucket16_zero (Some b16)) with b16. by rewrite Eadd.
  - unfold count32; simp_rec.
    rewrite (count_buckets16_insert _ _ b16) by done.
    rewrite Hcnt, Hfst. destruct (bucket16_has b16 lo); simpl; lia.
Qed.
(** ** Mid bucket: [add] under a new key *)

Lemma fresh16_spec lo :
  u16 lo -> wf16 (fresh16 lo) /\ count16 (fresh16 lo) = 1.
Proof.
  intros Hlo.
  destruct (bucket16_add_spec bucket16_zero lo bucket16_zero_wf Hlo)
    as (_ & Hwf & Hcnt & _).
  split; [done|]. unfold fresh16. rewrite Hcnt. done.
Qed.

Lemma entries_insert_at (his : list Z) (bs : list bucket16) n k f :
  length his = length bs ->
  zip (take n his ++ k :: drop n his) (take n bs ++ f :: drop n bs)
  ≡ₚ (k, f) :: zip his bs.
Proof.
  intros Hl.
  rewrite (zip_with_app pair (take n his) _ (take n bs))
    by (rewrite !length_take; lia).
  simpl. rewrite <- Permutation_middle. constructor.
  rewrite <- zip_with_take, <- zip_with_drop. by rewrite take_drop.
Qed.

Lemma add_new_spec b b' k lo :
  wf32 b -> u16 k -> u16 lo -> k ∉ b16his b ->
  hi b' = hi b -> length (b16his b') = length (buckets b') ->
  entries b' ≡ₚ (k, fresh16 lo) :: entries b ->
  ((maxUnsortedBuckets < length (buckets b'))%nat -> ascending (b16his b')) ->
  add_result b k lo (true, b').
Proof.
  intros (Hhi & Hlen & Hk & Hnd & Hbs & Hs) Hku Hlo Hnin Hhi' Hlen' Hp Hs'.
  destruct (fresh16_spec lo Hlo) as [Hfw Hfc].
  assert (b16his b' ≡ₚ k :: b16his b) as Hkeys.
  { rewrite <- (entries_fst b'), <- (entries_fst b) by done.
    rewrite Hp. done. }
  assert (buckets b' ≡ₚ fresh16 lo :: buckets b) as Hvals.
  { rewrite <- (entries_snd b'), <- (entries_snd b) by done.
    rewrite Hp. done. }
  assert (get16 b k = None) as Hnone.
  { apply assoc_get_None. by rewrite entries_fst. }
  assert (NoDup (b16his b')) as Hnd'.
  { rewrite Hkeys. by constructor. }
  unfold add_result; simp_rec. rewrite Hnone.
  split; [|split; [done|split; [done|split]]].
  - unfold wf32. split_and!; try done.
    + by rewrite Hhi'.
    + rewrite Hkeys. by constructor.
    + rewrite Hvals. by constructor.
  - intros k'. unfold get16.
    rewrite (assoc_get_perm _ _ k' ltac:(by rewrite entries_fst) Hp).
    simpl. rewrite (Z.eqb_sym k k'). by destruct (k' =? k).
  - unfold count32. rewrite (count_buckets16_perm _ _ Hvals).
    unfold count_buckets16. simpl. lia.
Qed.

Lemma addAllocSmall_spec b k lo :
  wf32 b -> u16 k -> u16 lo -> k ∉ b16his b ->
  add_result b k lo (true, addAllocSmall b k lo).
Proof.
  intros Hwf Hk Hlo Hnin. pose proof Hwf as (_ & Hlen & _ & Hnd & _).
  unfold addAllocSmall; simp_rec.
  set (b1 := Bucket32 (hi b) (b16his b ++ [k]) (buckets b ++ [fresh16 lo])
                      (hint b)).
  assert (length (b16his b1) = length (buckets b1)) as Hlen1.
  { unfold b1; simp_rec. rewrite !length_app. simpl. lia. }
  assert (entries b1 ≡ₚ (k, fresh16 lo) :: entries b) as Hp1.
  { unfold entries, b1; simp_rec.
    rewrite (zip_with_app pair (b16his b) _ (buckets b)) by done.
    simpl. by rewrite <- Permutation_cons_append. }
  change (buckets b ++ [fresh16 lo]) with (buckets b1).
  destruct (Nat.ltb_spec maxUnsortedBuckets (length (buckets b1))) as [Hbig|Hsm].
  - assert (entries (bucket32_Sort b1) = sort_by fst (entries b1)) as He.
    { unfold entries at 1, bucket32_Sort; simp_rec. apply zip_fst_snd. }
    apply add_new_spec; try done.
    + unfold bucket32_Sort; simp_rec. by rewrite !length_fmap.
    + by rewrite He, sort_by_perm.
    + intros _. unfold bucket32_Sort; simp_rec. apply sort_by_ascending.
      fold (entries b1). rewrite entries_fst by done. unfold b1; simp_rec.
      apply NoDup_app. split_and!; [done| |apply NoDup_singleton].
      by intros x Hx ->%list_elem_of_singleton.
  - apply add_new_spec; try done. lia.
Qed.

Lemma addAllocBig_spec b k lo :
  wf32 b -> u16 k -> u16 lo -> k ∉ b16his b ->
  (maxUnsortedBuckets < length (buckets b))%nat ->
  add_result b k lo
    (true, addAllocBig b k lo (binarySearch16 (b16his b) k)).
Proof.
  intros Hwf Hk Hlo Hnin Hbig. pose proof Hwf as (_ & Hlen & _ & Hnd & _ & Hs).
  specialize (Hs Hbig).
  destruct (binarySearch16_spec (b16his b) k Hs) as (Hn & _).
  pose proof (ascending_insert_at (b16his b) k Hs Hnin) as Hasc.
  set (n := binarySearch16 (b16his b) k) in *.
  assert (addAllocBig b k lo n =
          Bucket32 (hi b) (take n (b16his b) ++ k :: drop n (b16his b))
            (take n (buckets b) ++ fresh16 lo :: drop n (buckets b)) (hint b))
    as ->.
  { unfold addAllocBig. destruct (Nat.leb_spec (length (b16his b)) n); [|done].
    rewrite !take_ge, !drop_ge by lia. done. }
  apply add_new_spec; try done; simp_rec.
  - rewrite !length_app, !length_cons, !length_take, !length_drop. lia.
  - by apply entries_insert_at.
Qed.
(** ** Mid bucket: [add] and [del] *)

Lemma to_u16_range x : u16 (to_u16 x).
Proof. unfold u16, to_u16. apply Z.mod_pos_bound. lia. Qed.

Lemma to_u32_range x : u32 (to_u32 x).
Proof. unfold u32, to_u32. apply Z.mod_pos_bound. lia. Qed.

Lemma index_of_None_search b k :
  index_of (b16his b) k = None -> k ∉ b16his b.
Proof. apply index_of_None. Qed.

Theorem bucket32_add_spec b x :
  wf32 b -> add_result b (hi16_of x) (lo16_of x) (bucket32_add b x).
Proof.
  intros Hwf. unfold bucket32_add. fold (hi16_of x) (lo16_of x).
  pose proof (to_u16_range (Z.shiftr x 16)) as Hk. fold (hi16_of x) in Hk.
  pose proof (to_u16_range x) as Hlo. fold (lo16_of x) in Hlo.
  set (k := hi16_of x) in *. set (lo := lo16_of x) in *.
  destruct (hint_hits b k) eqn:Hh.
  - apply add_at_spec; [done..|].
    by apply index_of_Some, hint_hits_index.
  - unfold addSlow.
    destruct (Nat.ltb_spec maxUnsortedBuckets (length (buckets b))) as [Hbig|_].
    + pose proof (search_sorted b k Hwf Hbig) as Hsearch.
      set (n := binarySearch16 (b16his b) k) in *.
      change (b16his (set_hint b n)) with (b16his b).
      destruct (b16his b !! n) as [v|] eqn:Ev.
      * destruct (Z.eqb_spec v k) as [->|Hne].
        -- change (add_result (set_hint b n) k lo (add_at (set_hint b n) n lo)).
           by apply add_at_spec.
        -- change (add_result (set_hint b n) k lo
             (true, addAllocBig (set_hint b n) k lo
                      (binarySearch16 (b16his (set_hint b n)) k))).
           apply addAllocBig_spec; try done. by apply index_of_None.
      * change (add_result (set_hint b n) k lo
             (true, addAllocBig (set_hint b n) k lo
                      (binarySearch16 (b16his (set_hint b n)) k))).
        apply addAllocBig_spec; try done. by apply index_of_None.
    + destruct (index_of (b16his b) k) as [i|] eqn:E.
      * change (add_result (set_hint b i) k lo (add_at (set_hint b i) i lo)).
        apply add_at_spec; try done. by apply index_of_Some.
      * apply addAllocSmall_spec; try done. by apply index_of_None.
Qed.

Lemma del_at_spec b i k lo :
  wf32 b -> u16 lo -> b16his b !! i = Some k ->
  del_result b k lo (del_at b i lo).
Proof.
  intros Hwf Hlo Hi.
  destruct (wf32_lookup b i k Hwf Hi) as (b16 & Hb & Hg & Hw16).
  destruct (bucket16_del_spec b16 lo Hw16 Hlo) as (Hfst & Hwf' & Hcnt & _).
  unfold del_at, del_result. rewrite Hb, Hg.
  destruct (bucket16_del b16 lo) as [ok b16'] eqn:Edel. simp_rec.
  destruct Hwf as (Hhi & Hlen & Hk & Hnd & Hbs & Hs).
  split; [|split; [done|split; [done|split]]].
  - unfold wf32; simp_rec. rewrite length_insert.
    split_and!; [done..|by apply Forall_insert|done].
  - intros k'. rewrite (get16_insert b i k) by done.
    simpl. by rewrite Edel.
  - unfold count32; simp_rec.
    rewrite (count_buckets16_insert _ _ b16) by done.
    rewrite Hcnt, Hfst. destruct (bucket16_has b16 lo); simpl; lia.
Qed.

Lemma del_none_spec b k lo :
  wf32 b -> index_of (b16his b) k = None -> del_result b k lo (false, b).
Proof.
  intros Hwf E. pose proof Hwf as (_ & Hlen & _).
  assert (get16 b k = None) as Hnone by by rewrite get16_index, E.
  unfold del_result; simp_rec. rewrite Hnone.
  split_and!; try done; [|lia].
  intros k'. simpl. destruct (Z.eqb_spec k' k) as [->|]; done.
Qed.

Theorem bucket32_del_spec b x :
  wf32 b -> del_result b (hi16_of x) (lo16_of x) (bucket32_del b x).
Proof.
  intros Hwf. unfold bucket32_del. fold (hi16_of x) (lo16_of x).
  pose proof (to_u16_range x) as Hlo. fold (lo16_of x) in Hlo.
  set (k := hi16_of x) in *. set (lo := lo16_of x) in *.
  destruct (hint_hits b k) eqn:Hh.
  - apply del_at_spec; [done..|].
    by apply index_of_Some, hint_hits_index.
  - unfold delSlow.
    destruct (Nat.ltb_spec maxUnsortedBuckets (length (buckets b))) as [Hbig|_].
    + pose proof (search_sorted b k Hwf Hbig) as Hsearch.
      set (n := binarySearch16 (b16his b) k) in *.
      change (b16his (set_hint b n)) with (b16his b).
      destruct (b16his b !! n) as [v|] eqn:Ev.
      * destruct (Z.eqb_spec v k) as [->|Hne].
        -- change (del_result (set_hint b n) k lo (del_at (set_hint b n) n lo)).
           by apply del_at_spec.
        -- change (del_result (set_hint b n) k lo (false, set_hint b n)).
           by apply del_none_spec.
      * change (del_result (set_hint b n) k lo (false, set_hint b n)).
        by apply del_none_spec.
    + destruct (index_of (b16his b) k) as [i|] eqn:E.
      * change (del_result (set_hint b i) k lo (del_at (set_hint b i) i lo)).
        apply del_at_spec; try done. by apply index_of_Some.
      * by apply del_none_spec.
Qed.
(** ** The hint of a mid bucket *)

Lemma same_arrays_refl b : same_arrays b b.
Proof. done. Qed.

Lemma same_arrays_trans b1 b2 b3 :
  same_arrays b1 b2 -> same_arrays b2 b3 -> same_arrays b1 b3.
Proof.
  intros (H1 & H2 & H3) (H4 & H5 & H6).
  split_and!; congruence.
Qed.

Lemma same_arrays_sym b1 b2 : same_arrays b1 b2 -> same_arrays b2 b1.
Proof. intros (H1 & H2 & H3). by split_and!. Qed.

Lemma add_at_arrays b h i lo :
  fst (add_at (set_hint b h) i lo) = fst (add_at b i lo) /\
  same_arrays (snd (add_at (set_hint b h) i lo)) (snd (add_at b i lo)).
Proof.
  destruct b as [h0 his bs hn].
  unfold add_at, same_arrays, set_hint; simp_rec. destruct (bs !! i); [|done].
  by destruct (bucket16_add _ _).
Qed.

Lemma del_at_arrays b h i lo :
  fst (del_at (set_hint b h) i lo) = fst (del_at b i lo) /\
  same_arrays (snd (del_at (set_hint b h) i lo)) (snd (del_at b i lo)).
Proof.
  destruct b as [h0 his bs hn].
  unfold del_at, same_arrays, set_hint; simp_rec. destruct (bs !! i); [|done].
  by destruct (bucket16_del _ _).
Qed.

(** The slow paths overwrite or ignore the hint they start from. *)
Lemma addSlow_hint b h k lo :
  fst (addSlow (set_hint b h) k lo) = fst (addSlow b k lo) /\
  same_arrays (snd (addSlow (set_hint b h) k lo)) (snd (addSlow b k lo)).
Proof.
  destruct b as [h0 his bs hn].
  unfold addSlow, same_arrays, set_hint; simp_rec.
  destruct (maxUnsortedBuckets <? length bs)%nat.
  - destruct (his !! _); [destruct (_ =? _)|]; simp_rec; try done.
  - destruct (index_of his k); simp_rec; [done|].
    unfold addAllocSmall; simp_rec. by destruct (_ <? _)%nat.
Qed.

Lemma delSlow_hint b h k lo :
  fst (delSlow (set_hint b h) k lo) = fst (delSlow b k lo) /\
  same_arrays (snd (delSlow (set_hint b h) k lo)) (snd (delSlow b k lo)).
Proof.
  destruct b as [h0 his bs hn].
  unfold delSlow, same_arrays, set_hint; simp_rec.
  destruct (maxUnsortedBuckets <? length bs)%nat.
  - by destruct (his !! _); [destruct (_ =? _)|].
  - by destruct (index_of his k).
Qed.

(** When the hint names the entry of the key, the slow path finds the
    same entry. *)
Lemma slow_index b k i :
  wf32 b -> b16his b !! i = Some k ->
  (if (maxUnsortedBuckets <? length (buckets b))%nat
   then binarySearch16 (b16his b) k = i
   else index_of (b16his b) k = Some i).
Proof.
  intros (_ & _ & _ & Hnd & _ & Hs) Hi.
  destruct (Nat.ltb_spec maxUnsortedBuckets (length (buckets b))) as [Hbig|_].
  - apply binarySearch16_found; [by apply Hs|done].
  - by apply index_of_NoDup.
Qed.

Lemma add_hint_free b x :
  wf32 b ->
  fst (bucket32_add b x) = fst (addSlow b (hi16_of x) (lo16_of x)) /\
  same_arrays (snd (bucket32_add b x))
              (snd (addSlow b (hi16_of x) (lo16_of x))).
Proof.
  intros Hwf. unfold bucket32_add. fold (hi16_of x) (lo16_of x).
  destruct (hint_hits b (hi16_of x)) eqn:Hh; [|done].
  apply hint_hits_index, index_of_Some in Hh; [|done].
  pose proof (slow_index b _ _ Hwf Hh) as Hslow. unfold addSlow.
  destruct (maxUnsortedBuckets <? length (buckets b))%nat.
  - rewrite Hslow. change (b16his (set_hint b (hint b))) with (b16his b).
    rewrite Hh, Z.eqb_refl.
    destruct (add_at_arrays b (hint b) (hint b) (lo16_of x)) as [H1 H2].
    split; [done|by apply same_arrays_sym].
  - rewrite Hslow.
    destruct (add_at_arrays b (hint b) (hint b) (lo16_of x)) as [H1 H2].
    split; [done|by apply same_arrays_sym].
Qed.

Lemma del_hint_free b x :
  wf32 b ->
  fst (bucket32_del b x) = fst (delSlow b (hi16_of x) (lo16_of x)) /\
  same_arrays (snd (bucket32_del b x))
              (snd (delSlow b (hi16_of x) (lo16_of x))).
Proof.
  intros Hwf. unfold bucket32_del. fold (hi16_of x) (lo16_of x).
  destruct (hint_hits b (hi16_of x)) eqn:Hh; [|done].
  apply hint_hits_index, index_of_Some in Hh; [|done].
  pose proof (slow_index b _ _ Hwf Hh) as Hslow. unfold delSlow.
  destruct (maxUnsortedBuckets <? length (buckets b))%nat.
  - rewrite Hslow. change (b16his (set_hint b (hint b))) with (b16his b).
    rewrite Hh, Z.eqb_refl.
    destruct (del_at_arrays b (hint b) (hint b) (lo16_of x)) as [H1 H2].
    split; [done|by apply same_arrays_sym].
  - rewrite Hslow.
    destruct (del_at_arrays b (hint b) (hint b) (lo16_of x)) as [H1 H2].
    split; [done|by apply same_arrays_sym].
Qed.

(** C9: the hint of a mid bucket is a cache only.  On a well-formed mid
    bucket, whatever the hint field holds, [add] and [del] return the
    boolean and build the arrays of the hint-free slow path, and so they
    agree for any two values of the hint; [has] does not read the hint. *)
Theorem C9_hint_is_only_a_cache b h1 h2 x :
  wf32 b ->
  (fst (bucket32_add (set_hint b h1) x) = fst (bucket32_add (set_hint b h2) x) /\
   same_arrays (snd (bucket32_add (set_hint b h1) x))
               (snd (bucket32_add (set_hint b h2) x))) /\
  (fst (bucket32_add (set_hint b h1) x)
     = fst (addSlow b (hi16_of x) (lo16_of x)) /\
   same_arrays (snd (bucket32_add (set_hint b h1) x))
               (snd (addSlow b (hi16_of x) (lo16_of x)))) /\
  (fst (bucket32_del (set_hint b h1) x) = fst (bucket32_del (set_hint b h2) x) /\
   same_arrays (snd (bucket32_del (set_hint b h1) x))
               (snd (bucket32_del (set_hint b h2) x))) /\
  (fst (bucket32_del (set_hint b h1) x)
     = fst (delSlow b (hi16_of x) (lo16_of x)) /\
   same_arrays (snd (bucket32_del (set_hint b h1) x))
               (snd (delSlow b (hi16_of x) (lo16_of x)))) /\
  bucket32_has (set_hint b h1) x = bucket32_has (set_hint b h2) x /\
  (forall y, bucket32_has (snd (bucket32_add (set_hint b h1) x)) y
             = bucket32_has (snd (bucket32_add (set_hint b h2) x)) y) /\
  (forall y, bucket32_has (snd (bucket32_del (set_hint b h1) x)) y
             = bucket32_has (snd (bucket32_del (set_hint b h2) x)) y).
Proof.
  intros Hwf.
  assert (forall h,
    fst (bucket32_add (set_hint b h) x) = fst (addSlow b (hi16_of x) (lo16_of x)) /\
    same_arrays (snd (bucket32_add (set_hint b h) x))
                (snd (addSlow b (hi16_of x) (lo16_of x)))) as Hadd.
  { intros h.
    destruct (add_hint_free (set_hint b h) x (wf32_set_hint b h Hwf)) as [H1 H2].
    destruct (addSlow_hint b h (hi16_of x) (lo16_of x)) as [H3 H4].
    split; [congruence|by eapply same_arrays_trans]. }
  assert (forall h,
    fst (bucket32_del (set_hint b h) x) = fst (delSlow b (hi16_of x) (lo16_of x)) /\
    same_arrays (snd (bucket32_del (set_hint b h) x))
                (snd (delSlow b (hi16_of x) (lo16_of x)))) as Hdel.
  { intros h.
    destruct (del_hint_free (set_hint b h) x (wf32_set_hint b h Hwf)) as [H1 H2].
    destruct (delSlow_hint b h (hi16_of x) (lo16_of x)) as [H3 H4].
    split; [congruence|by eapply same_arrays_trans]. }
  assert (forall b1 b2 y, same_arrays b1 b2 ->
            bucket32_has b1 y = bucket32_has b2 y) as Hhas.
  { intros b1 b2 y (_ & H2 & H3). unfold bucket32_has, hasSlow, has_at.
    by rewrite H2, H3. }
  destruct (Hadd h1) as [A1 A2], (Hadd h2) as [A3 A4].
  destruct (Hdel h1) as [D1 D2], (Hdel h2) as [D3 D4].
  split_and!; try done; try congruence.
  - eapply same_arrays_trans; [done|by apply same_arrays_sym].
  - eapply same_arrays_trans; [done|by apply same_arrays_sym].
  - intros y. apply Hhas.
    eapply same_arrays_trans; [done|by apply same_arrays_sym].
  - intros y. apply Hhas.
    eapply same_arrays_trans; [done|by apply same_arrays_sym].
Qed.
Lemma C9_hint_witness :
  wf32 ex_b32 /\
  fst (bucket32_add (set_hint ex_b32 0) 196610)
  = fst (bucket32_add (set_hint ex_b32 9) 196610).
Proof.
  split; [by_eval|].
  destruct (C9_hint_is_only_a_cache ex_b32 0 9 196610) as [[H _] _].
  - by_eval.
  - exact H.
Defined.

(** ** The sorted mode of a mid bucket *)

Lemma hint_misses b k : k ∉ b16his b -> hint_hits b k = false.
Proof.
  intros Hk. unfold hint_hits. destruct (b16his b !! hint b) as [v|] eqn:E.
  - apply Z.eqb_neq. intros ->. apply Hk. by eapply list_elem_of_lookup_2.
  - done.
Qed.

Lemma add_at_keys b i lo : b16his (snd (add_at b i lo)) = b16his b.
Proof.
  unfold add_at. destruct (buckets b !! i); [|done].
  by destruct (bucket16_add _ _).
Qed.

Lemma add_keys_existing b x :
  wf32 b -> hi16_of x ∈ b16his b ->
  b16his (snd (bucket32_add b x)) = b16his b.
Proof.
  intros Hwf Hin. destruct (add_hint_free b x Hwf) as (_ & _ & -> & _).
  pose proof Hwf as (_ & _ & _ & Hnd & _).
  apply list_elem_of_lookup in Hin as [i Hi].
  pose proof (slow_index b _ _ Hwf Hi) as Hslow. unfold addSlow.
  destruct (maxUnsortedBuckets <? length (buckets b))%nat.
  - rewrite Hslow. change (b16his (set_hint b i)) with (b16his b).
    rewrite Hi, Z.eqb_refl. by rewrite add_at_keys.
  - rewrite Hslow. by rewrite add_at_keys.
Qed.

Lemma add_keys_new b x :
  wf32 b -> hi16_of x ∉ b16his b ->
  snd (bucket32_add b x) =
  if (maxUnsortedBuckets <? length (buckets b))%nat then
    addAllocBig (set_hint b (binarySearch16 (b16his b) (hi16_of x)))
      (hi16_of x) (lo16_of x) (binarySearch16 (b16his b) (hi16_of x))
  else addAllocSmall b (hi16_of x) (lo16_of x).
Proof.
  intros Hwf Hk. unfold bucket32_add. fold (hi16_of x) (lo16_of x).
  rewrite hint_misses by done. unfold addSlow.
  destruct (Nat.ltb_spec maxUnsortedBuckets (length (buckets b))) as [Hbig|_].
  - pose proof (search_sorted b (hi16_of x) Hwf Hbig) as Hs.
    set (n := binarySearch16 (b16his b) (hi16_of x)) in *.
    change (b16his (set_hint b n)) with (b16his b).
    destruct (b16his b !! n) as [v|] eqn:Ev; [|done].
    destruct (Z.eqb_spec v (hi16_of x)) as [->|]; [|done].
    apply index_of_Some in Hs. destruct Hk. by eapply list_elem_of_lookup_2.
  - apply index_of_None in Hk. by rewrite Hk.
Qed.

Lemma ascending_le l : ascending l -> StronglySorted Z.le l.
Proof.
  induction 1 as [|x l Hs IH Hx]; constructor; [done|].
  eapply Forall_impl; [done|]. simpl. intros; lia.
Qed.

(** C8: a mid bucket with more than 32 entries has its keys sorted
    ascending and is searched by binary search.  The keys are sorted by
    the insertion that makes the 33rd entry; below that the new key is
    appended and the order left alone; above it the new key is inserted
    at its binary-search position. *)
Theorem C8_sorted_above_threshold b x :
  wf32 b ->
  let k := hi16_of x in
  let b' := snd (bucket32_add b x) in
  wf32 b' /\
  ((maxUnsortedBuckets < length (buckets b'))%nat -> ascending (b16his b')) /\
  ((maxUnsortedBuckets < length (buckets b))%nat ->
     bucket32_has b x = hasSlow b k (lo16_of x)) /\
  (k ∈ b16his b -> b16his b' = b16his b) /\
  (k ∉ b16his b -> (length (buckets b) < maxUnsortedBuckets)%nat ->
     b16his b' = b16his b ++ [k]) /\
  (k ∉ b16his b -> length (buckets b) = maxUnsortedBuckets ->
     length (b16his b') = S maxUnsortedBuckets /\ ascending (b16his b') /\
     b16his b' = sort_by id (b16his b ++ [k])) /\
  (k ∉ b16his b -> (maxUnsortedBuckets < length (buckets b))%nat ->
     b16his b' = take (binarySearch16 (b16his b) k) (b16his b)
                 ++ k :: drop (binarySearch16 (b16his b) k) (b16his b)).
Proof.
  intros Hwf k b'. subst k.
  destruct (bucket32_add_spec b x Hwf) as (Hwf' & _).
  fold b' in Hwf'. pose proof Hwf' as (_ & Hlen' & _ & _ & _ & Hs').
  pose proof Hwf as (_ & Hlen & _ & Hnd & _ & Hs).
  split; [done|]. split; [done|]. split.
  { intros Hbig. unfold bucket32_has. fold (hi16_of x) (lo16_of x).
    by destruct (Nat.ltb_spec maxUnsortedBuckets (length (buckets b))); [|lia]. }
  split; [by apply add_keys_existing|].
  split; [|split].
  - intros Hk Hsmall. unfold b'. rewrite add_keys_new by done.
    destruct (Nat.ltb_spec maxUnsortedBuckets (length (buckets b))); [lia|].
    unfold addAllocSmall; simp_rec.
    destruct (Nat.ltb_spec maxUnsortedBuckets
                (length (buckets b ++ [fresh16 (lo16_of x)]))) as [H1|_]; [|done].
    rewrite length_app in H1. simpl in H1. lia.
  - intros Hk H32. 
    assert (length (buckets b') = S maxUnsortedBuckets) as Hl33.
    { unfold b'. rewrite add_keys_new by done.
      destruct (Nat.ltb_spec maxUnsortedBuckets (length (buckets b))); [lia|].
      unfold addAllocSmall; simp_rec.
      destruct (_ <? _)%nat; unfold bucket32_Sort; simp_rec;
        rewrite ?length_fmap, ?sort_by_length, ?length_zip_with, ?length_app;
        rewrite ?Hlen, ?Nat.min_id; simpl; unfold maxUnsortedBuckets in *;
        clear - H32; lia. }
    assert (ascending (b16his b')) as Ha
      by (apply Hs'; rewrite Hl33; unfold maxUnsortedBuckets; lia).
    split; [by rewrite Hlen'|]. split; [done|].
    apply (StronglySorted_unique Z.le).
    + by apply ascending_le.
    + apply (sort_by_sorted id).
    + rewrite sort_by_perm. unfold b'. rewrite add_keys_new by done.
      destruct (Nat.ltb_spec maxUnsortedBuckets (length (buckets b))); [lia|].
      unfold addAllocSmall; simp_rec.
      set (b1 := Bucket32 _ _ _ _).
      assert (length (b16his b1) = length (buckets b1)) as Hl1.
      { unfold b1; simp_rec. rewrite !length_app. simpl. lia. }
      destruct (_ <? _)%nat; [|by unfold b1].
      unfold bucket32_Sort; simp_rec. fold (entries b1).
      rewrite sort_by_perm. by rewrite entries_fst.
  - intros Hk Hbig. unfold b'. rewrite add_keys_new by done.
    destruct (Nat.ltb_spec maxUnsortedBuckets (length (buckets b))); [|lia].
    destruct (binarySearch16_spec (b16his b) (hi16_of x) (Hs Hbig)) as (Hn & _).
    set (n := binarySearch16 (b16his b) (hi16_of x)) in *.
    unfold addAllocBig. change (b16his (set_hint b n)) with (b16his b).
    destruct (Nat.leb_spec (length (b16his b)) n); simp_rec; [|done].
    rewrite take_ge, drop_ge by lia. done.
Qed.

Lemma C8_sorted_witness :
  wf32 ex_b32_big /\
  (maxUnsortedBuckets < length (buckets ex_b32_big))%nat /\
  ascending (b16his (snd (bucket32_add ex_b32_big (40 * 65536 + 1)))).
Proof.
  split; [by_eval|]. split; [by_eval|].
  destruct (C8_sorted_above_threshold ex_b32_big (40 * 65536 + 1))
    as (_ & H & _).
  - by_eval.
  - apply H. by_eval.
Defined.
(** ** Splitting a value into prefix, key and low half *)

Lemma hi16_of_eq x : u32 x -> hi16_of x = x / 65536.
Proof.
  intros Hx. unfold hi16_of, to_u16. rewrite Z.shiftr_div_pow2 by lia.
  change (2 ^ 16) with 65536. apply Z.mod_small. unfold u32 in Hx.
  split; [apply Z.div_pos; lia|apply Z.div_lt_upper_bound; lia].
Qed.

Lemma hi32_of_eq x : u64 x -> hi32_of x = x / 4294967296.
Proof.
  intros Hx. unfold hi32_of, to_u32. rewrite Z.shiftr_div_pow2 by lia.
  change (2 ^ 32) with 4294967296. apply Z.mod_small. unfold u64 in Hx.
  split; [apply Z.div_pos; lia|apply Z.div_lt_upper_bound; lia].
Qed.

Lemma split16 x y :
  u32 x -> u32 y ->
  (x =? y) = (hi16_of x =? hi16_of y) && (lo16_of x =? lo16_of y).
Proof.
  intros Hx Hy. rewrite !hi16_of_eq by done. unfold lo16_of, to_u16.
  destruct (Z.eqb_spec x y) as [->|Hne].
  - by rewrite !Z.eqb_refl.
  - symmetry. apply andb_false_iff.
    destruct (Z.eqb_spec (x / 65536) (y / 65536)) as [Hd|]; [|by left].
    right. apply Z.eqb_neq. intros Hm. apply Hne.
    rewrite (Z.div_mod x 65536), (Z.div_mod y 65536) by lia. congruence.
Qed.

Lemma split32 x y :
  u64 x -> u64 y ->
  (x =? y) = (hi32_of x =? hi32_of y) && (lo32_of x =? lo32_of y).
Proof.
  intros Hx Hy. rewrite !hi32_of_eq by done. unfold lo32_of, to_u32.
  destruct (Z.eqb_spec x y) as [->|Hne].
  - by rewrite !Z.eqb_refl.
  - symmetry. apply andb_false_iff.
    destruct (Z.eqb_spec (x / 4294967296) (y / 4294967296)) as [Hd|]; [|by left].
    right. apply Z.eqb_neq. intros Hm. apply Hne.
    rewrite (Z.div_mod x 4294967296), (Z.div_mod y 4294967296) by lia.
    congruence.
Qed.

(** ** Mid bucket: members after [add] and [del] *)

Lemma get16_wf b k b16 : wf32 b -> get16 b k = Some b16 -> wf16 b16.
Proof.
  intros (_ & Hlen & _ & _ & Hbs & _) Hg. apply assoc_get_elem in Hg.
  eapply Forall_forall; [done|]. rewrite <- (entries_snd b) by done.
  by apply (list_elem_of_fmap_2 snd) in Hg.
Qed.

Lemma get16_default_wf b k : wf32 b -> wf16 (default bucket16_zero (get16 b k)).
Proof.
  intros Hwf. destruct (get16 b k) as [b16|] eqn:E; simpl.
  - by eapply get16_wf.
  - apply bucket16_zero_wf.
Qed.

Lemma has_entry_default o lo :
  has_entry o lo = bucket16_has (default bucket16_zero o) lo.
Proof. by destruct o. Qed.

Lemma bucket32_add_fst b x :
  wf32 b -> fst (bucket32_add b x) = negb (bucket32_has b x).
Proof.
  intros Hwf. destruct (bucket32_add_spec b x Hwf) as (_ & _ & H & _).
  rewrite H. by rewrite bucket32_has_spec.
Qed.

Lemma bucket32_add_has b x y :
  wf32 b -> u32 x -> u32 y ->
  bucket32_has (snd (bucket32_add b x)) y = (x =? y) || bucket32_has b y.
Proof.
  intros Hwf Hx Hy.
  destruct (bucket32_add_spec b x Hwf) as (Hwf' & _ & _ & Hget & _).
  rewrite !bucket32_has_spec, Hget, (split16 x y) by done.
  rewrite (Z.eqb_sym (hi16_of x)).
  destruct (Z.eqb_spec (hi16_of y) (hi16_of x)) as [->|Hne]; [|done].
  simpl.
  destruct (bucket16_add_spec _ (lo16_of x) (get16_default_wf b (hi16_of x) Hwf)
              (to_u16_range x)) as (_ & _ & _ & Hhas).
  rewrite Hhas by apply to_u16_range. by rewrite <- has_entry_default.
Qed.

Lemma bucket32_del_fst b x :
  wf32 b -> fst (bucket32_del b x) = bucket32_has b x.
Proof.
  intros Hwf. destruct (bucket32_del_spec b x Hwf) as (_ & _ & H & _).
  rewrite H. by rewrite bucket32_has_spec.
Qed.

Lemma bucket32_del_has b x y :
  wf32 b -> u32 x -> u32 y ->
  bucket32_has (snd (bucket32_del b x)) y = negb (x =? y) && bucket32_has b y.
Proof.
  intros Hwf Hx Hy.
  destruct (bucket32_del_spec b x Hwf) as (Hwf' & _ & _ & Hget & _).
  rewrite !bucket32_has_spec, Hget, (split16 x y) by done.
  rewrite (Z.eqb_sym (hi16_of x)).
  destruct (Z.eqb_spec (hi16_of y) (hi16_of x)) as [->|Hne]; [|done].
  simpl. destruct (get16 b (hi16_of x)) as [b16|] eqn:E; simpl;
    [|by rewrite andb_false_r].
  destruct (bucket16_del_spec b16 (lo16_of x) (get16_wf _ _ _  Hwf E)
              (to_u16_range x)) as (_ & _ & _ & Hhas).
  by rewrite Hhas by apply to_u16_range.
Qed.
(** ** Top-level set: lookup and update loops *)

Lemma Add_loop_upd bs h lo : Add_loop bs h lo = upd_loop bucket32_add bs h lo.
Proof. induction bs as [|b bs IH]; simpl; [done|]. by rewrite IH. Qed.

Lemma Del_loop_upd bs h lo : Del_loop bs h lo = upd_loop bucket32_del bs h lo.
Proof. induction bs as [|b bs IH]; simpl; [done|]. by rewrite IH. Qed.

Lemma Has_loop_find bs h lo : Has_loop bs h lo = has32_opt (find32 bs h) lo.
Proof. induction bs as [|b bs IH]; simpl; [done|]. by destruct (hi b =? h). Qed.

Lemma find32_Some bs h b : find32 bs h = Some b -> b ∈ bs /\ hi b = h.
Proof.
  induction bs as [|b0 bs IH]; simpl; [done|].
  destruct (Z.eqb_spec (hi b0) h) as [Hh|Hne].
  - intros [= ->]. split; [left|done].
  - intros H. destruct (IH H). split; [by right|done].
Qed.

Lemma find32_None bs h : find32 bs h = None <-> h ∉ hi <$> bs.
Proof.
  induction bs as [|b0 bs IH]; simpl.
  - split; [intros _; apply not_elem_of_nil|done].
  - rewrite not_elem_of_cons. destruct (Z.eqb_spec (hi b0) h) as [Hh|Hne].
    + split; [done|]. by intros [? _].
    + rewrite IH. split; [by split|by intros [_ ?]].
Qed.

Lemma find32_app bs1 bs2 h :
  find32 (bs1 ++ bs2) h =
  match find32 bs1 h with
  | Some b => Some b
  | None => find32 bs2 h
  end.
Proof.
  induction bs1 as [|b bs1 IH]; simpl; [done|]. by destruct (hi b =? h).
Qed.

Lemma count_buckets32_app bs1 bs2 :
  count_buckets32 (bs1 ++ bs2) = count_buckets32 bs1 + count_buckets32 bs2.
Proof.
  unfold count_buckets32.
  induction bs1 as [|b bs1 IH]; simpl; [done|]. rewrite IH. lia.
Qed.

(** An update of the mid bucket of prefix [h] by an operation that
    keeps the prefix. *)
Lemma upd_loop_spec op bs h lo :
  (forall b, wf32 b -> wf32 (snd (op b lo)) /\ hi (snd (op b lo)) = hi b) ->
  Forall wf32 bs ->
  match find32 bs h with
  | None => upd_loop op bs h lo = None
  | Some b =>
      exists bs',
        upd_loop op bs h lo = Some (fst (op b lo), bs') /\
        hi <$> bs' = hi <$> bs /\
        Forall wf32 bs' /\
        (forall h', find32 bs' h' =
           if h' =? h then Some (snd (op b lo)) else find32 bs h') /\
        count_buckets32 bs' =
          count_buckets32 bs - count32 b + count32 (snd (op b lo))
  end.
Proof.
  intros Hop. induction bs as [|b0 bs IH]; intros Hwf; simpl; [done|].
  apply Forall_cons in Hwf as [Hb0 Hwf].
  destruct (Z.eqb_spec (hi b0) h) as [Hh|Hne].
  - destruct (Hop b0 Hb0) as [Hw Hhi]. exists (snd (op b0 lo) :: bs).
    destruct (op b0 lo) as [ok b0'] eqn:E. simp_rec. split_and!.
    + done.
    + by rewrite !fmap_cons, Hhi.
    + by constructor.
    + intros h'. simpl. rewrite Hhi.
      destruct (Z.eqb_spec h' h) as [->|Hne'].
      * by rewrite Hh, Z.eqb_refl.
      * destruct (Z.eqb_spec (hi b0) h'); [congruence|done].
    + unfold count_buckets32. simpl. lia.
  - specialize (IH Hwf). destruct (find32 bs h) as [b|] eqn:Ef.
    + destruct IH as (bs' & -> & Hhis & Hwf' & Hfind & Hcnt).
      exists (b0 :: bs'). split_and!.
      * done.
      * by rewrite !fmap_cons, Hhis.
      * by constructor.
      * intros h'. simpl. rewrite Hfind.
        destruct (Z.eqb_spec (hi b0) h'), (Z.eqb_spec h' h); congruence.
      * unfold count_buckets32 in *. simpl. lia.
    + by rewrite IH.
Qed.

Lemma find32_wf bs h b : Forall wf32 bs -> find32 bs h = Some b -> wf32 b.
Proof.
  intros Hwf [Hin _]%find32_Some. by eapply Forall_forall in Hwf.
Qed.

Lemma Set_Has_find s x :
  Set_Has s x = has32_opt (find32 (buckets32 s) (hi32_of x)) (lo32_of x).
Proof. apply Has_loop_find. Qed.
(** ** Top-level set: [Add] and [Del] *)

Lemma bucket32_empty_wf h : u32 h -> wf32 (Bucket32 h [] [] 0).
Proof.
  intros Hh. unfold wf32; simp_rec. split_and!; try done.
  - apply NoDup_nil_2.
  - simpl. unfold maxUnsortedBuckets. lia.
Qed.

Lemma add_keeps b lo :
  wf32 b ->
  wf32 (snd (bucket32_add b lo)) /\ hi (snd (bucket32_add b lo)) = hi b.
Proof. intros Hwf. by destruct (bucket32_add_spec b lo Hwf) as (? & ? & _). Qed.

Lemma del_keeps b lo :
  wf32 b ->
  wf32 (snd (bucket32_del b lo)) /\ hi (snd (bucket32_del b lo)) = hi b.
Proof. intros Hwf. by destruct (bucket32_del_spec b lo Hwf) as (? & ? & _). Qed.

Lemma bucket32_add_count b lo :
  wf32 b ->
  count32 (snd (bucket32_add b lo)) =
  count32 b + (if bucket32_has b lo then 0 else 1).
Proof.
  intros Hwf. destruct (bucket32_add_spec b lo Hwf) as (_ & _ & _ & _ & ->).
  rewrite bucket32_add_fst by done. by destruct (bucket32_has b lo).
Qed.

Lemma bucket32_del_count b lo :
  wf32 b ->
  count32 (snd (bucket32_del b lo)) =
  count32 b - (if bucket32_has b lo then 1 else 0).
Proof.
  intros Hwf. destruct (bucket32_del_spec b lo Hwf) as (_ & _ & _ & _ & ->).
  by rewrite bucket32_del_fst by done.
Qed.

Theorem Set_Add_spec s x :
  wfSet s -> u64 x ->
  wfSet (Set_Add s x) /\
  itemsCount (Set_Add s x) = itemsCount s + (if Set_Has s x then 0 else 1) /\
  forall y, u64 y -> Set_Has (Set_Add s x) y = (x =? y) || Set_Has s y.
Proof.
  intros (Hnd & Hwf & Hcnt) Hx. unfold Set_Add. rewrite Add_loop_upd.
  pose proof (upd_loop_spec bucket32_add (buckets32 s) (hi32_of x) (lo32_of x)
                (fun b => add_keeps b (lo32_of x)) Hwf) as Hupd.
  rewrite (Set_Has_find s x).
  destruct (find32 (buckets32 s) (hi32_of x)) as [b|] eqn:Ef.
  - destruct Hupd as (bs' & -> & Hhis & Hwf' & Hfind & Hcnt').
    pose proof (find32_wf _ _ _ Hwf Ef) as Hb.
    rewrite bucket32_add_count in Hcnt' by done.
    rewrite bucket32_add_fst by done. simpl.
    split_and!.
    + unfold wfSet; simp_rec. split_and!; [by rewrite Hhis|done|].
      destruct (bucket32_has b (lo32_of x)); simpl; lia.
    + simp_rec. destruct (bucket32_has b (lo32_of x)); simpl; lia.
    + intros y Hy. rewrite !Set_Has_find; simp_rec. rewrite Hfind.
      rewrite (split32 x y) by done. rewrite (Z.eqb_sym (hi32_of x)).
      destruct (Z.eqb_spec (hi32_of y) (hi32_of x)) as [Heq|Hne]; [|done].
      simpl. rewrite bucket32_add_has by (done || apply to_u32_range).
      by rewrite Heq, Ef.
  - rewrite Hupd. unfold addAlloc; simp_rec.
    pose proof (bucket32_empty_wf _ (to_u32_range (Z.shiftr x 32))) as He.
    fold (hi32_of x) in He.
    set (e := Bucket32 (hi32_of x) [] [] 0) in *.
    destruct (add_keeps e (lo32_of x) He) as [Hnb Hnbhi].
    pose proof (bucket32_add_count e (lo32_of x) He) as Hnbc.
    set (nb := snd (bucket32_add e (lo32_of x))) in *.
    change (bucket32_has e (lo32_of x)) with false in Hnbc.
    change (count32 e) with 0 in Hnbc.
    assert (forall y, u32 y ->
              bucket32_has nb y = (lo32_of x =? y) || false) as Hnbhas.
    { intros y Hy. unfold nb.
      by rewrite bucket32_add_has by (done || apply to_u32_range). }
    assert (hi nb = hi32_of x) as Hnbhi' by done.
    clearbody nb. clear Hnbhi. clearbody e.
    split_and!.
    + unfold wfSet; simp_rec. split_and!.
      * rewrite fmap_app. apply NoDup_app. split_and!; [done| |].
        -- intros h Hh ->%list_elem_of_singleton.
           apply find32_None in Ef. apply Ef. by rewrite <- Hnbhi'.
        -- apply NoDup_singleton.
      * apply Forall_app. split; [done|]. by constructor.
      * rewrite count_buckets32_app. unfold count_buckets32 at 2.
        cbn [foldr]. lia.
    + cbn [has32_opt]. lia.
    + intros y Hy. rewrite !Set_Has_find; simp_rec. rewrite find32_app.
      rewrite (split32 x y) by done. cbn [find32]. rewrite Hnbhi'.
      destruct (Z.eqb_spec (hi32_of x) (hi32_of y)) as [Heq|Hne].
      * rewrite <- Heq, Ef. cbn [has32_opt andb].
        rewrite Hnbhas by apply to_u32_range. by rewrite orb_false_r.
      * cbn [andb orb]. by destruct (find32 (buckets32 s) (hi32_of y)).
Qed.

Theorem Set_Del_spec s x :
  wfSet s -> u64 x ->
  wfSet (Set_Del s x) /\
  itemsCount (Set_Del s x) = itemsCount s - (if Set_Has s x then 1 else 0) /\
  forall y, u64 y -> Set_Has (Set_Del s x) y = negb (x =? y) && Set_Has s y.
Proof.
  intros (Hnd & Hwf & Hcnt) Hx. unfold Set_Del. rewrite Del_loop_upd.
  pose proof (upd_loop_spec bucket32_del (buckets32 s) (hi32_of x) (lo32_of x)
                (fun b => del_keeps b (lo32_of x)) Hwf) as Hupd.
  rewrite (Set_Has_find s x).
  destruct (find32 (buckets32 s) (hi32_of x)) as [b|] eqn:Ef.
  - destruct Hupd as (bs' & -> & Hhis & Hwf' & Hfind & Hcnt').
    pose proof (find32_wf _ _ _ Hwf Ef) as Hb.
    rewrite bucket32_del_count in Hcnt' by done.
    rewrite bucket32_del_fst by done. simpl.
    split_and!.
    + unfold wfSet; simp_rec. split_and!; [by rewrite Hhis|done|].
      destruct (bucket32_has b (lo32_of x)); simpl; lia.
    + simp_rec. destruct (bucket32_has b (lo32_of x)); simpl; lia.
    + intros y Hy. rewrite !Set_Has_find; simp_rec. rewrite Hfind.
      rewrite (split32 x y) by done. rewrite (Z.eqb_sym (hi32_of x)).
      destruct (Z.eqb_spec (hi32_of y) (hi32_of x)) as [Heq|Hne]; [|done].
      simpl. rewrite bucket32_del_has by (done || apply to_u32_range).
      by rewrite Heq, Ef.
  - rewrite Hupd. simpl. split_and!; [done|lia|].
    intros y Hy. rewrite !Set_Has_find. rewrite (split32 x y) by done.
    destruct (Z.eqb_spec (hi32_of x) (hi32_of y)) as [Heq|Hne]; [|done].
    by rewrite <- Heq, Ef, andb_false_r.
Qed.
Lemma Set_zero_wf : wfSet Set_zero.
Proof. unfold wfSet, Set_zero; simp_rec. split_and!; [constructor|done..]. Qed.

(** C1: after [s.Add(x)], [s.Has(x)] is true; [s.Len()] grows by exactly
    one when [x] was not a member and stays when it was; no other
    membership changes. *)
Theorem C1_add_then_has s x :
  wfSet s -> u64 x ->
  exists s',
    Add (Some s) x = Ok s' /\
    wfSet s' /\
    Has (Some s') x = true /\
    Len (Some s') = (if Has (Some s) x then Len (Some s) else Len (Some s) + 1) /\
    forall y, u64 y -> y <> x -> Has (Some s') y = Has (Some s) y.
Proof.
  intros Hwf Hx. exists (Set_Add s x).
  destruct (Set_Add_spec s x Hwf Hx) as (Hwf' & Hlen & Hhas).
  split; [done|]. split; [done|]. simpl. split_and!.
  - rewrite Hhas by done. by rewrite Z.eqb_refl.
  - rewrite Hlen. destruct (Set_Has s x); lia.
  - intros y Hy Hne. rewrite Hhas by done.
    by destruct (Z.eqb_spec x y) as [->|].
Qed.

Lemma C1_add_witness :
  wfSet ex_set /\ u64 7 /\
  exists s',
    Add (Some ex_set) 7 = Ok s' /\
    wfSet s' /\
    Has (Some s') 7 = true /\
    Len (Some s') =
      (if Has (Some ex_set) 7 then Len (Some ex_set) else Len (Some ex_set) + 1) /\
    forall y, u64 y -> y <> 7 -> Has (Some s') y = Has (Some ex_set) y.
Proof.
  split; [by_eval|]. split; [by_eval|].
  apply C1_add_then_has; by_eval.
Defined.

(** C2: after [s.Del(x)], [s.Has(x)] is false; [s.Len()] drops by one
    exactly when [x] was a member, which is when [del] on the mid bucket
    of [x] returns true; no other membership changes. *)
Theorem C2_del_then_has_not s x :
  wfSet s -> u64 x ->
  exists s',
    Del (Some s) x = Ok s' /\
    wfSet s' /\
    Has (Some s') x = false /\
    Len (Some s') = (if Has (Some s) x then Len (Some s) - 1 else Len (Some s)) /\
    (forall y, u64 y -> y <> x -> Has (Some s') y = Has (Some s) y) /\
    match find32 (buckets32 s) (hi32_of x) with
    | Some b => fst (bucket32_del b (lo32_of x)) = Has (Some s) x
    | None => Has (Some s) x = false
    end.
Proof.
  intros Hwf Hx. exists (Set_Del s x).
  destruct (Set_Del_spec s x Hwf Hx) as (Hwf' & Hlen & Hhas).
  split; [done|]. split; [done|]. simpl. split_and!.
  - rewrite Hhas by done. by rewrite Z.eqb_refl.
  - rewrite Hlen. destruct (Set_Has s x); lia.
  - intros y Hy Hne. rewrite Hhas by done.
    by destruct (Z.eqb_spec x y) as [->|].
  - rewrite Set_Has_find. destruct Hwf as (_ & Hwf & _).
    destruct (find32 (buckets32 s) (hi32_of x)) as [b|] eqn:Ef; [|done].
    simpl. apply bucket32_del_fst. by eapply find32_wf.
Qed.

Lemma C2_del_witness :
  wfSet ex_set /\ u64 4294967301 /\
  exists s',
    Del (Some ex_set) 4294967301 = Ok s' /\
    wfSet s' /\
    Has (Some s') 4294967301 = false /\
    Len (Some s') = 4.
Proof.
  split; [by_eval|]. split; [by_eval|].
  destruct (C2_del_then_has_not ex_set 4294967301)
    as (s' & Hd & Hwf & Hh & Hl & _); [by_eval..|].
  exists s'. split_and!; [done..|].
  rewrite Hl. injection Hd as <-. reflexivity.
Defined.
(** ** Enumerating the set bits of a word *)

Lemma tz_from_found n s w i :
  (forall j, s <= j < i -> Z.testbit w j = false) ->
  Z.testbit w i = true -> s <= i < s + Z.of_nat n ->
  tz_from n s w = i.
Proof.
  revert s. induction n as [|n IH]; intros s Hlow Hi Hr; [lia|].
  simpl. destruct (Z.eq_dec s i) as [->|Hne]; [by rewrite Hi|].
  rewrite Hlow by lia. apply IH; [|done|lia]. intros j Hj. apply Hlow. lia.
Qed.

Lemma tz_from_none n s w :
  (forall j, s <= j < s + Z.of_nat n -> Z.testbit w j = false) ->
  tz_from n s w = s + Z.of_nat n.
Proof.
  revert s. induction n as [|n IH]; intros s Hlow; simpl; [lia|].
  rewrite Hlow by lia. rewrite IH; [lia|]. intros j Hj. apply Hlow. lia.
Qed.

Lemma bits_from_ext n i w w' :
  (forall j, i <= j -> Z.testbit w' j = Z.testbit w j) ->
  bits_from n i w' = bits_from n i w.
Proof.
  revert i. induction n as [|n IH]; intros i H; simpl; [done|].
  rewrite H by lia. f_equal. apply IH. intros j Hj. apply H. lia.
Qed.

Lemma bits_from_zero n i w :
  (forall j, i <= j < i + Z.of_nat n -> Z.testbit w j = false) ->
  bits_from n i w = [].
Proof.
  revert i. induction n as [|n IH]; intros i H; simpl; [done|].
  rewrite H by lia. simpl. apply IH. intros j Hj. apply H. lia.
Qed.

(** The loop emits the set bits from the lowest one up; [fuel] rounds are
    enough when no set bit lies below [i] and [n] positions remain. *)
Lemma emit_bits_from n : forall fuel i x64 w dst,
  u64 w -> 0 <= i -> i + Z.of_nat n = 64 -> (n <= fuel)%nat ->
  (forall j, 0 <= j < i -> Z.testbit w j = false) ->
  emit_bits fuel x64 w dst
  = dst ++ map (fun t => Z.lor x64 t) (bits_from n i w).
Proof.
  induction n as [|n IH]; intros fuel i x64 w dst Hw Hi Hn Hf Hlow.
  - assert (TrailingZeros64 w = 64) as Htz.
    { unfold TrailingZeros64. rewrite tz_from_none; [done|].
      intros j Hj. apply Hlow. lia. }
    simpl. rewrite app_nil_r. destruct fuel as [|fuel]; simpl; [done|].
    rewrite Htz. done.
  - destruct fuel as [|fuel]; [lia|]. cbn [emit_bits bits_from].
    destruct (Z.testbit w i) eqn:Hb.
    + assert (TrailingZeros64 w = i) as Htz.
      { unfold TrailingZeros64. apply tz_from_found; [|done|lia].
        intros j Hj. apply Hlow. lia. }
      rewrite Htz. destruct (Z.leb_spec 64 i); [lia|].
      rewrite (IH fuel (i + 1)); try lia.
      * rewrite <- app_assoc. simpl. do 3 f_equal.
        apply bits_from_ext. intros j Hj.
        rewrite Z.ldiff_spec, shiftl1_testbit by lia.
        destruct (Z.eqb_spec i j); [lia|]. by rewrite andb_true_r.
      * by apply u64_ldiff.
      * intros j Hj. rewrite Z.ldiff_spec, shiftl1_testbit by lia.
        destruct (Z.eqb_spec i j) as [->|]; [by rewrite andb_false_r|].
        rewrite Hlow by lia. done.
    + simpl. change (emit_bits (S fuel) x64 w dst
                     = dst ++ map (fun t => Z.lor x64 t) (bits_from n (i + 1) w)).
      apply IH; try lia; [done|].
      intros j Hj. destruct (Z.eq_dec j i) as [->|]; [done|]. apply Hlow. lia.
Qed.

Lemma emit_bits_spec x64 w dst :
  u64 w ->
  emit_bits 64 x64 w dst = dst ++ map (fun t => Z.lor x64 t) (bits_from 64 0 w).
Proof. intros Hw. apply emit_bits_from; try done; lia. Qed.

(** More rounds than 64 change nothing: the loop has left by then. *)
Lemma emit_bits_fuel fuel x64 w dst :
  u64 w -> (64 <= fuel)%nat ->
  emit_bits fuel x64 w dst = emit_bits 64 x64 w dst.
Proof.
  intros Hw Hf. rewrite emit_bits_spec by done.
  apply emit_bits_from; try done; lia.
Qed.

Lemma bits_from_length n i w :
  Z.of_nat (length (bits_from n i w)) = ones_from n i w.
Proof.
  revert i. induction n as [|n IH]; intros i; simpl; [done|].
  rewrite length_app, Nat2Z.inj_add, IH. by destruct (Z.testbit w i).
Qed.

Lemma bits_from_elem n i w t :
  t ∈ bits_from n i w <-> i <= t < i + Z.of_nat n /\ Z.testbit w t = true.
Proof.
  revert i. induction n as [|n IH]; intros i; simpl.
  - rewrite elem_of_nil. lia.
  - rewrite elem_of_app, IH. destruct (Z.testbit w i) eqn:Hb.
    + rewrite list_elem_of_singleton. split.
      * intros [->|[? ?]]; [split; [lia|done]|split; [lia|done]].
      * intros [? ?]. destruct (Z.eq_dec t i); [by left|right; split; [lia|done]].
    + rewrite elem_of_nil. split.
      * intros [[]|[? ?]]. split; [lia|done].
      * intros [? ?]. right. split; [|done].
        destruct (Z.eq_dec t i) as [->|]; [congruence|lia].
Qed.

Lemma bits_from_ascending n i w : ascending (bits_from n i w).
Proof.
  revert i. induction n as [|n IH]; intros i; simpl; [constructor|].
  destruct (Z.testbit w i); simpl; [|apply IH].
  constructor; [apply IH|]. apply Forall_forall. intros t Ht.
  apply bits_from_elem in Ht. lia.
Qed.
(** ** Or-ing disjoint bit ranges is addition *)

Lemma lor_mul_add c k b :
  0 <= k -> 0 <= b < 2 ^ k -> Z.lor (c * 2 ^ k) b = c * 2 ^ k + b.
Proof.
  intros Hk Hb. symmetry. apply Z.add_nocarry_lor.
  apply Z.bits_inj'. intros n Hn. rewrite Z.land_spec, Z.bits_0.
  destruct (Z.lt_ge_cases n k) as [Hlt|Hge].
  - by rewrite Z.mul_pow2_bits_low.
  - apply andb_false_iff. right.
    apply (proj1 (Z.bounded_iff_bits_nonneg k b Hk (proj1 Hb))); lia.
Qed.

Lemma hi64_of_base hi hi16 : u16 hi16 -> hi64_of hi hi16 = base_of hi hi16.
Proof.
  intros Hk. unfold hi64_of, base_of, u16 in *.
  rewrite !Z.shiftl_mul_pow2 by lia.
  rewrite lor_mul_add by lia. lia.
Qed.

Lemma lor_base_low hi hi16 v :
  u16 v -> Z.lor (base_of hi hi16) v = base_of hi hi16 + v.
Proof.
  intros Hv. unfold base_of, u16 in *.
  replace (hi * 4294967296 + hi16 * 65536)
    with ((hi * 65536 + hi16) * 2 ^ 16) by lia.
  apply lor_mul_add; lia.
Qed.

Lemma lor_base_word hi hi16 n t :
  0 <= n < 1024 -> 0 <= t < 64 ->
  Z.lor (Z.lor (base_of hi hi16) (n * 64)) t = base_of hi hi16 + (n * 64 + t).
Proof.
  intros Hn Ht. rewrite lor_base_low by (unfold u16; lia).
  unfold base_of.
  replace (hi * 4294967296 + hi16 * 65536 + n * 64)
    with ((hi * 67108864 + hi16 * 1024 + n) * 2 ^ 6) by lia.
  rewrite lor_mul_add by lia. lia.
Qed.

(** ** The low values of a bitmap *)

Lemma map_lor_bits hi hi16 n w :
  0 <= n < 1024 ->
  map (fun t => Z.lor (Z.lor (base_of hi hi16) (n * 64)) t) (bits_from 64 0 w)
  = map (fun v => base_of hi hi16 + v)
        (map (fun t => n * 64 + t) (bits_from 64 0 w)).
Proof.
  intros Hn. rewrite map_map. apply map_ext_in. intros t Ht.
  apply list_elem_of_In, bits_from_elem in Ht. apply lor_base_word; lia.
Qed.

Lemma appendTo_words_spec ws n hi hi16 dst :
  Forall u64 ws -> u16 hi16 -> 0 <= n -> n + Z.of_nat (length ws) <= 1024 ->
  appendTo_words ws n (hi64_of hi hi16) dst
  = dst ++ map (fun v => base_of hi hi16 + v) (lows_of ws n).
Proof.
  intros Hws Hk. rewrite hi64_of_base by done.
  revert n dst. induction Hws as [|w ws Hw Hws IH]; intros n dst Hn Hlen.
  - simpl. by rewrite app_nil_r.
  - cbn [appendTo_words lows_of]. rewrite length_cons in Hlen.
    rewrite map_app, app_assoc.
    destruct (Z.eqb_spec w 0) as [->|Hne].
    + rewrite IH by lia. do 2 f_equal.
      rewrite (bits_from_zero 64 0 0); [by rewrite app_nil_r|].
      intros j _. apply Z.bits_0.
    + rewrite IH by lia. do 2 f_equal.
      rewrite emit_bits_spec by done. f_equal. apply map_lor_bits. lia.
Qed.

Lemma lows_of_length ws n :
  Z.of_nat (length (lows_of ws n)) = sum_ones ws.
Proof.
  revert n. induction ws as [|w ws IH]; intros n; [done|].
  cbn [lows_of].
  rewrite length_app, length_map, Nat2Z.inj_add, IH, bits_from_length.
  done.
Qed.

Lemma div_mod_64 n t :
  0 <= t < 64 -> (n * 64 + t) / 64 = n /\ (n * 64 + t) mod 64 = t.
Proof.
  intros Ht. split.
  - rewrite Z.div_add_l by lia. rewrite Z.div_small by lia. lia.
  - rewrite Z.add_comm, Z.mod_add by lia. by apply Z.mod_small.
Qed.

Lemma lows_of_elem ws n v :
  0 <= n ->
  v ∈ lows_of ws n <->
  n * 64 <= v < (n + Z.of_nat (length ws)) * 64 /\
  Z.testbit (word_at ws (Z.to_nat (v / 64 - n))) (v mod 64) = true.
Proof.
  revert n. induction ws as [|w ws IH]; intros n Hn.
  - simpl. rewrite elem_of_nil. lia.
  - cbn [lows_of]. rewrite elem_of_app, IH by lia. rewrite length_cons.
    rewrite list_elem_of_fmap. split.
    + intros [(t & -> & Ht)|[Hr Hb]].
      * apply bits_from_elem in Ht as [Ht Hb].
        destruct (div_mod_64 n t ltac:(lia)) as [-> ->].
        replace (n - n) with 0 by lia. split; [lia|done].
      * assert (n + 1 <= v / 64) by (apply Z.div_le_lower_bound; lia).
        split; [lia|].
        replace (Z.to_nat (v / 64 - n)) with (S (Z.to_nat (v / 64 - (n + 1)))) by lia.
        done.
    + intros [Hr Hb].
      assert (n <= v / 64) by (apply Z.div_le_lower_bound; lia).
      pose proof (Z.mod_pos_bound v 64 ltac:(lia)) as Hm.
      pose proof (Z.div_mod v 64 ltac:(lia)) as Hdm.
      destruct (Z.eq_dec (v / 64) n) as [He|Hne].
      * left. exists (v mod 64). split; [lia|].
        apply bits_from_elem. split; [lia|].
        rewrite He in Hb. replace (n - n) with 0 in Hb by lia. done.
      * right. split; [lia|].
        replace (Z.to_nat (v / 64 - n)) with (S (Z.to_nat (v / 64 - (n + 1)))) in Hb by lia.
        done.
Qed.

Lemma lows_of_ascending ws n : 0 <= n -> ascending (lows_of ws n).
Proof.
  revert n. induction ws as [|w ws IH]; intros n Hn; cbn [lows_of].
  - constructor.
  - apply StronglySorted_app_2.
    + intros a b (t & -> & Ht)%list_elem_of_fmap Hb.
      apply bits_from_elem in Ht. apply lows_of_elem in Hb; lia.
    + apply (StronglySorted_fmap _ Z.lt); [intros; lia|].
      apply bits_from_ascending.
    + apply IH. lia.
Qed.

(** The low values of a full bitmap are its members, ascending. *)
Lemma lows_of_bitmap ws v :
  length ws = wordsPerBucket ->
  v ∈ lows_of ws 0 <-> u16 v /\ bm_test ws v = true.
Proof.
  intros Hl. rewrite lows_of_elem by lia. rewrite Hl.
  unfold u16, bm_test, wordsPerBucket. rewrite Z.sub_0_r. simpl. lia.
Qed.
(** ** Leaf bucket: [appendTo] *)

Lemma sort_by_short (l : list Z) : (length l <= 1)%nat -> sort_by id l = l.
Proof. destruct l as [|x [|y l]]; simpl; [done..|lia]. Qed.

Lemma elems16_ascending b : wf16 b -> ascending (elems16 b).
Proof.
  intros (_ & _ & Hrep). unfold elems16. destruct (bits b).
  - apply lows_of_ascending. lia.
  - destruct Hrep as [_ Hnd].
    pose proof (sort_by_ascending id (take (smallPoolLen b) (smallPool b))) as H.
    rewrite !list_fmap_id in H. by apply H.
Qed.

Lemma elems16_elem b v :
  wf16 b -> v ∈ elems16 b <-> u16 v /\ bucket16_has b v = true.
Proof.
  intros (_ & Hpool & Hrep). unfold elems16.
  destruct b as [[ws|] n pool]; simp_rec.
  - destruct Hrep as [Hl _]. rewrite has_Bits. by apply lows_of_bitmap.
  - rewrite has_Pool, sort_by_perm, bool_decide_eq_true. split; [|by intros [_ ?]].
    intros Hin. split; [|done].
    eapply Forall_forall; [|done]. by apply Forall_take.
Qed.

Lemma elems16_length b : wf16 b -> Z.of_nat (length (elems16 b)) = count16 b.
Proof.
  intros (Hlen & _ & Hrep). unfold elems16, count16.
  destruct (bits b).
  - apply lows_of_length.
  - destruct Hrep as [Hn _]. rewrite sort_by_length, length_take. lia.
Qed.

Lemma elems16_u16 b : wf16 b -> Forall u16 (elems16 b).
Proof.
  intros Hwf. apply Forall_forall. intros v Hv.
  by apply elems16_elem in Hv as [? _].
Qed.

(** [appendTo] appends the members in ascending order, each with the
    prefix and key or-ed in; the bucket keeps its members. *)
Lemma bucket16_appendTo_spec b dst hi hi16 :
  wf16 b -> u16 hi16 ->
  fst (bucket16_appendTo b dst hi hi16)
    = dst ++ map (fun v => base_of hi hi16 + v) (elems16 b) /\
  wf16 (snd (bucket16_appendTo b dst hi hi16)) /\
  elems16 (snd (bucket16_appendTo b dst hi hi16)) = elems16 b /\
  count16 (snd (bucket16_appendTo b dst hi hi16)) = count16 b /\
  forall v, bucket16_has (snd (bucket16_appendTo b dst hi hi16)) v
            = bucket16_has b v.
Proof.
  intros Hwf Hk. pose proof Hwf as (Hlen & Hpool & Hrep).
  unfold bucket16_appendTo. destruct b as [[ws|] n pool]; simp_rec.
  - destruct Hrep as [Hl Hu]. split_and!; try done.
    unfold elems16; simp_rec. apply appendTo_words_spec; try done.
    rewrite Hl. unfold wordsPerBucket. lia.
  - destruct Hrep as [Hn Hnd]. unfold smallPoolCap in *.
    set (a := take n pool) in *.
    assert (length a = n) as Hla by (unfold a; rewrite length_take; lia).
    assert ((if (1 <? length a)%nat then sort_by id a else a) = sort_by id a)
      as ->.
    { destruct (Nat.ltb_spec 1 (length a)); [done|].
      by rewrite sort_by_short by lia. }
    assert (take n (sort_by id a ++ drop n pool) = sort_by id a) as Htake.
    { apply take_app_length'. by rewrite sort_by_length. }
    assert (Forall u16 a) as Hau by by apply Forall_take.
    split_and!.
    + unfold elems16; simp_rec. fold a. f_equal. apply map_ext_in.
      intros v Hv. rewrite hi64_of_base by done. apply lor_base_low.
      apply list_elem_of_In in Hv. rewrite sort_by_perm in Hv.
      by eapply Forall_forall in Hau.
    + unfold wf16; simp_rec. split_and!.
      * rewrite length_app, sort_by_length, length_drop, Hla, Hlen.
        unfold smallPoolCap. clear - Hn. lia.
      * apply Forall_app. split; [by rewrite sort_by_perm|by apply Forall_drop].
      * unfold smallPoolCap. lia.
      * rewrite Htake. by rewrite sort_by_perm.
    + unfold elems16; simp_rec. rewrite Htake. fold a.
      apply sort_by_sorted_id, sort_by_sorted.
    + done.
    + intros v. rewrite !has_Pool, Htake. fold a.
      apply bool_decide_ext. by rewrite sort_by_perm.
Qed.
(** ** Blocks of ascending values *)

(** Blocks that are ascending and lie in consecutive disjoint ranges
    make an ascending sequence. *)
Lemma ascending_blocks {A : Type} (lb : A -> Z) (W : Z) (blk : A -> list Z)
    (l : list A) :
  StronglySorted (fun a b => lb a + W <= lb b) l ->
  (forall a, a ∈ l -> ascending (blk a) /\
                       forall v, v ∈ blk a -> lb a <= v < lb a + W) ->
  ascending (flat_map blk l).
Proof.
  induction 1 as [|a l Hs IH Ha]; intros Hblk; simpl; [constructor|].
  destruct (Hblk a ltac:(left)) as [Hasc Hr].
  apply StronglySorted_app_2; [|done|].
  - intros x y Hx Hy. apply Hr in Hx.
    apply list_elem_of_In, in_flat_map in Hy as (b & Hb%list_elem_of_In & Hy).
    apply list_elem_of_In in Hy.
    destruct (Hblk b ltac:(by right)) as [_ Hrb]. apply Hrb in Hy.
    eapply Forall_forall in Ha; [|done]. simpl in Ha. lia.
  - apply IH. intros b Hb. apply Hblk. by right.
Qed.

Lemma flat_map_length_sum {A : Type} (blk : A -> list Z) (cnt : A -> Z) l :
  (forall a, a ∈ l -> Z.of_nat (length (blk a)) = cnt a) ->
  Z.of_nat (length (flat_map blk l)) = foldr (fun a n => cnt a + n) 0 l.
Proof.
  induction l as [|a l IH]; intros H; simpl; [done|].
  rewrite length_app, Nat2Z.inj_add, IH, H; [done|left|].
  intros b Hb. apply H. by right.
Qed.

Lemma elem_of_flat_map {A : Type} (blk : A -> list Z) (l : list A) x :
  x ∈ flat_map blk l <-> exists a, a ∈ l /\ x ∈ blk a.
Proof.
  rewrite list_elem_of_In, in_flat_map. split.
  - intros (a & Ha & Hx). exists a. by rewrite !list_elem_of_In.
  - intros (a & Ha & Hx). exists a. by rewrite <- !list_elem_of_In.
Qed.

(** ** Mid bucket: the entries in key order *)

Lemma base_of_range hi32 k v :
  u16 v -> base_of hi32 k <= base_of hi32 k + v < base_of hi32 k + 65536.
Proof. unfold u16. lia. Qed.

Lemma elems_entry_spec hi32 k b16 :
  wf16 b16 ->
  ascending (elems_entry hi32 (k, b16)) /\
  (forall x, x ∈ elems_entry hi32 (k, b16) ->
     base_of hi32 k <= x < base_of hi32 k + 65536) /\
  Z.of_nat (length (elems_entry hi32 (k, b16))) = count16 b16.
Proof.
  intros Hwf. unfold elems_entry; simp_rec. split_and!.
  - apply (StronglySorted_fmap _ Z.lt); [intros; lia|].
    by apply elems16_ascending.
  - intros x (v & -> & Hv)%list_elem_of_fmap.
    apply base_of_range. by apply elems16_elem in Hv as [? _].
  - rewrite length_map. by apply elems16_length.
Qed.

Lemma entries_sorted_by_key (ps : list (Z * bucket16)) :
  ascending ps.*1 -> StronglySorted (le_key fst) ps.
Proof. apply sorted_lt_le. Qed.

Lemma entries_blocks hi32 (ps : list (Z * bucket16)) :
  ascending ps.*1 -> Forall u16 ps.*1 ->
  StronglySorted
    (fun a b => base_of hi32 a.1 + 65536 <= base_of hi32 b.1) ps.
Proof.
  intros Hs _. induction ps as [|p ps IH]; [constructor|].
  rewrite fmap_cons in Hs. apply StronglySorted_cons in Hs as [Hp Hs].
  constructor; [by apply IH|].
  rewrite Forall_fmap in Hp. eapply Forall_impl; [exact Hp|].
  intros q Hq. simpl in *. unfold base_of. lia.
Qed.

Lemma elems_entries_ascending hi32 (ps : list (Z * bucket16)) :
  ascending ps.*1 -> Forall u16 ps.*1 -> Forall wf16 ps.*2 ->
  ascending (elems_entries hi32 ps).
Proof.
  intros Hs Hk Hwf. unfold elems_entries.
  apply (ascending_blocks (fun p => base_of hi32 p.1) 65536).
  - by apply entries_blocks.
  - intros [k b16] Hin.
    assert (wf16 b16) as Hb.
    { eapply Forall_forall; [done|]. by apply (list_elem_of_fmap_2 snd) in Hin. }
    destruct (elems_entry_spec hi32 k b16 Hb) as (? & ? & _). by split.
Qed.

Lemma elems_entries_length hi32 (ps : list (Z * bucket16)) :
  Forall wf16 ps.*2 ->
  Z.of_nat (length (elems_entries hi32 ps)) = count_buckets16 ps.*2.
Proof.
  intros Hwf. unfold elems_entries.
  rewrite (flat_map_length_sum _ (fun p => count16 p.2)).
  - unfold count_buckets16. induction ps as [|p ps IH]; simpl; [done|].
    rewrite fmap_cons in Hwf. apply Forall_cons in Hwf as [_ Hwf].
    by rewrite IH.
  - intros [k b16] Hin. apply elems_entry_spec.
    eapply Forall_forall; [done|]. by apply (list_elem_of_fmap_2 snd) in Hin.
Qed.
(** ** Mid bucket: [appendTo] *)

Lemma same16_refl b : wf16 b -> same16 b b.
Proof. intros Hwf. by split_and!. Qed.

Lemma appendTo_buckets_spec hi32 ps dst :
  Forall u16 ps.*1 -> Forall wf16 ps.*2 ->
  fst (appendTo_buckets hi32 ps dst) = dst ++ elems_entries hi32 ps /\
  Forall2 same16 ps.*2 (snd (appendTo_buckets hi32 ps dst)).
Proof.
  revert dst. induction ps as [|[k b16] ps IH]; intros dst Hk Hwf.
  - simpl. by rewrite app_nil_r.
  - rewrite fmap_cons in Hk. rewrite fmap_cons in Hwf.
    apply Forall_cons in Hk as [Hk1 Hk], Hwf as [Hw1 Hwf]. simp_rec.
    cbn [appendTo_buckets].
    destruct (bucket16_appendTo_spec b16 dst hi32 k Hw1 Hk1)
      as (Hdst & Hwf' & Hel & Hcnt & Hhas).
    destruct (bucket16_appendTo b16 dst hi32 k) as [dst1 b16'] eqn:E1.
    simp_rec. destruct (IH dst1 Hk Hwf) as [Hdst2 Hsame].
    destruct (appendTo_buckets hi32 ps dst1) as [dst2 bs'] eqn:E2. simp_rec.
    split.
    + rewrite Hdst2, Hdst. unfold elems_entries. simpl.
      by rewrite app_assoc.
    + rewrite fmap_cons. constructor; [|done]. by split_and!.
Qed.

(** The view of a mid bucket after the sort that [appendTo] and
    [intersect] start with. *)
Lemma entries_self_sorted b :
  length (b16his b) = length (buckets b) -> ascending (b16his b) ->
  sort_by fst (entries b) = entries b.
Proof.
  intros Hlen Hs. apply sort_by_sorted_id, entries_sorted_by_key.
  by rewrite entries_fst.
Qed.

Lemma bucket32_Sort_view b :
  wf32 b ->
  wf32 (bucket32_Sort b) /\ hi (bucket32_Sort b) = hi b /\
  ascending (b16his (bucket32_Sort b)) /\
  entries (bucket32_Sort b) = sort_by fst (entries b).
Proof.
  intros (Hhi & Hlen & Hk & Hnd & Hbs & Hs).
  assert (entries (bucket32_Sort b) = sort_by fst (entries b)) as He.
  { unfold entries at 1, bucket32_Sort; simp_rec. apply zip_fst_snd. }
  assert (ascending (b16his (bucket32_Sort b))) as Hasc.
  { unfold bucket32_Sort; simp_rec. fold (entries b).
    apply sort_by_ascending. by rewrite entries_fst. }
  split_and!; try done.
  unfold wf32. unfold bucket32_Sort in *; simp_rec. fold (entries b) in *.
  split_and!; try done.
  - by rewrite !length_fmap.
  - by rewrite sort_by_perm, entries_fst.
  - by apply ascending_NoDup.
  - by rewrite sort_by_perm, entries_snd.
Qed.

Lemma bucket32_sort_view b :
  wf32 b ->
  wf32 (bucket32_sort b) /\ hi (bucket32_sort b) = hi b /\
  ascending (b16his (bucket32_sort b)) /\
  entries (bucket32_sort b) = sort_by fst (entries b).
Proof.
  intros Hwf. unfold bucket32_sort.
  destruct (is_sorted_by id (b16his b)) eqn:E; [|by apply bucket32_Sort_view].
  pose proof Hwf as (Hhi & Hlen & Hk & Hnd & Hbs & Hs).
  apply is_sorted_by_true in E.
  apply sorted_le_lt in E; [|by rewrite list_fmap_id].
  rewrite list_fmap_id in E.
  split_and!; try done. symmetry. by apply entries_self_sorted.
Qed.

Lemma appendTo_view b :
  wf32 b ->
  let b1 := if (length (buckets b) <=? maxUnsortedBuckets)%nat
            then bucket32_sort b else b in
  wf32 b1 /\ hi b1 = hi b /\ ascending (b16his b1) /\
  entries b1 = sort_by fst (entries b).
Proof.
  intros Hwf. simpl.
  destruct (Nat.leb_spec (length (buckets b)) maxUnsortedBuckets) as [|Hbig].
  - by apply bucket32_sort_view.
  - pose proof Hwf as (Hhi & Hlen & Hk & Hnd & Hbs & Hs).
    split_and!; try done; [by apply Hs|].
    symmetry. apply entries_self_sorted; [done|by apply Hs].
Qed.
Lemma zip_same16 hi32 (his : list Z) bs bs' :
  Forall2 same16 bs bs' ->
  elems_entries hi32 (zip his bs') = elems_entries hi32 (zip his bs) /\
  count_buckets16 bs' = count_buckets16 bs /\
  Forall wf16 bs' /\
  forall k lo, has_entry (assoc_get (zip his bs') k) lo
               = has_entry (assoc_get (zip his bs) k) lo.
Proof.
  intros H. revert his.
  induction H as [|b b' bs bs' (Hwf & Hel & Hcnt & Hhas) _ IH]; intros his.
  - by destruct his.
  - destruct his as [|h his].
    + split_and!; try done.
      * unfold count_buckets16 in *. simpl.
        destruct (IH []) as (_ & -> & _). by rewrite Hcnt.
      * constructor; [done|]. by destruct (IH []) as (_ & _ & ? & _).
    + destruct (IH his) as (IH1 & IH2 & IH3 & IH4). split_and!.
      * unfold elems_entries in *. simpl. rewrite IH1. f_equal.
        unfold elems_entry; simp_rec. by rewrite Hel.
      * unfold count_buckets16 in *. simpl. by rewrite IH2, Hcnt.
      * by constructor.
      * intros k lo. simpl. destruct (h =? k); [apply Hhas|apply IH4].
Qed.

Lemma count32_entries b :
  length (b16his b) = length (buckets b) ->
  count32 b = count_buckets16 (entries b).*2.
Proof. intros H. by rewrite entries_snd. Qed.

(** Replacing the leaf buckets of a sorted mid bucket by ones with the
    same members. *)
Lemma same_buckets_view b b1 bs' :
  wf32 b -> wf32 b1 -> hi b1 = hi b -> ascending (b16his b1) ->
  entries b1 = sort_by fst (entries b) ->
  Forall2 same16 (buckets b1) bs' ->
  same32 b (Bucket32 (hi b1) (b16his b1) bs' (hint b1)).
Proof.
  intros Hwf Hwf1 Hhi Hasc He Hsame.
  pose proof Hwf as (_ & Hlen & _ & Hnd & _).
  pose proof Hwf1 as (Hh1 & Hlen1 & Hk1 & Hnd1 & Hbs1 & Hs1).
  destruct (zip_same16 (hi b1) (b16his b1) _ _ Hsame) as (Hel & Hcnt & Hwf' & Hhas).
  pose proof (Forall2_length _ _ _ Hsame) as Hl'.
  set (b' := Bucket32 (hi b1) (b16his b1) bs' (hint b1)).
  assert (wf32 b') as Hwfb'.
  { unfold wf32, b'; simp_rec. split_and!; (done || congruence). }
  assert (forall k, get16 b1 k = get16 b k) as Hget.
  { intros k. unfold get16. rewrite He. apply assoc_get_perm.
    - rewrite sort_by_perm. by rewrite entries_fst.
    - apply sort_by_perm. }
  unfold same32. split_and!; try done.
  - unfold elems32. rewrite (entries_self_sorted b') by (unfold b'; simp_rec; congruence).
    unfold entries at 1, b'; simp_rec. rewrite Hel. fold (entries b1).
    by rewrite He, Hhi.
  - unfold count32 at 1, b'; simp_rec. rewrite Hcnt.
    rewrite <- (entries_snd b1), He, (count32_entries b) by done.
    apply count_buckets16_perm. by rewrite sort_by_perm.
  - intros y. rewrite !bucket32_has_spec by done.
    rewrite <- Hget. apply Hhas.
Qed.

Lemma bucket32_appendTo_spec b dst :
  wf32 b ->
  fst (bucket32_appendTo b dst) = dst ++ elems32 b /\
  same32 b (snd (bucket32_appendTo b dst)).
Proof.
  intros Hwf. unfold bucket32_appendTo.
  destruct (appendTo_view b Hwf) as (Hwf1 & Hhi & Hasc & He).
  set (b1 := if (length (buckets b) <=? maxUnsortedBuckets)%nat
             then bucket32_sort b else b) in *.
  pose proof Hwf1 as (_ & Hlen1 & Hk1 & _ & Hbs1 & _).
  fold (entries b1).
  destruct (appendTo_buckets_spec (hi b1) (entries b1) dst) as [Hdst Hsame].
  { by rewrite entries_fst. }
  { by rewrite entries_snd. }
  destruct (appendTo_buckets (hi b1) (entries b1) dst) as [dst' bs'].
  simp_rec. rewrite entries_snd in Hsame by done. split.
  - rewrite Hdst. unfold elems32. by rewrite He, Hhi.
  - by apply same_buckets_view.
Qed.
(** ** Mid bucket: the ascending members *)

Lemma join16 k v :
  u16 k -> u16 v ->
  u32 (k * 65536 + v) /\ hi16_of (k * 65536 + v) = k /\
  lo16_of (k * 65536 + v) = v.
Proof.
  intros Hk Hv. unfold u16 in *.
  assert (u32 (k * 65536 + v)) as Hy by (unfold u32; lia).
  split; [done|]. rewrite hi16_of_eq by done. unfold lo16_of, to_u16. split.
  - rewrite Z.div_add_l by lia. rewrite Z.div_small by lia. lia.
  - rewrite Z.add_comm, Z.mod_add by lia. by apply Z.mod_small.
Qed.

Lemma split16_eq y : u32 y -> y = hi16_of y * 65536 + lo16_of y.
Proof.
  intros Hy. rewrite hi16_of_eq by done. unfold lo16_of, to_u16.
  pose proof (Z.div_mod y 65536). lia.
Qed.

Lemma sorted_entries_facts b :
  wf32 b ->
  ascending (sort_by fst (entries b)).*1 /\
  Forall u16 (sort_by fst (entries b)).*1 /\
  Forall wf16 (sort_by fst (entries b)).*2.
Proof.
  intros (_ & Hlen & Hk & Hnd & Hbs & _). split_and!.
  - apply sort_by_ascending. by rewrite entries_fst.
  - by rewrite sort_by_perm, entries_fst.
  - by rewrite sort_by_perm, entries_snd.
Qed.

Lemma elems32_ascending b : wf32 b -> ascending (elems32 b).
Proof.
  intros Hwf. destruct (sorted_entries_facts b Hwf) as (? & ? & ?).
  by apply elems_entries_ascending.
Qed.

Lemma elems32_length b : wf32 b -> Z.of_nat (length (elems32 b)) = count32 b.
Proof.
  intros Hwf. destruct (sorted_entries_facts b Hwf) as (_ & _ & ?).
  pose proof Hwf as (_ & Hlen & _).
  unfold elems32. rewrite elems_entries_length by done.
  rewrite count32_entries by done.
  apply count_buckets16_perm. by rewrite sort_by_perm.
Qed.

Lemma elems32_elem b x :
  wf32 b ->
  x ∈ elems32 b <->
  exists y, u32 y /\ x = hi b * 4294967296 + y /\ bucket32_has b y = true.
Proof.
  intros Hwf. pose proof Hwf as (_ & Hlen & Hk & Hnd & Hbs & _).
  unfold elems32, elems_entries. rewrite elem_of_flat_map. split.
  - intros ([k b16] & Hin & Hx). rewrite sort_by_perm in Hin.
    apply list_elem_of_fmap in Hx as (v & -> & Hv). simp_rec.
    assert (u16 k) as Hku.
    { eapply Forall_forall; [done|]. rewrite <- (entries_fst b) by done.
      by apply (list_elem_of_fmap_2 fst) in Hin. }
    assert (wf16 b16) as Hw.
    { eapply Forall_forall; [done|]. rewrite <- (entries_snd b) by done.
      by apply (list_elem_of_fmap_2 snd) in Hin. }
    apply elems16_elem in Hv as [Hvu Hhas]; [|done].
    destruct (join16 k v Hku Hvu) as (Hy & Hhi & Hlo).
    exists (k * 65536 + v). split_and!; [done|unfold base_of; lia|].
    rewrite bucket32_has_spec, Hhi, Hlo by done.
    apply assoc_get_Some in Hin; [|by rewrite entries_fst].
    unfold get16. by rewrite Hin.
  - intros (y & Hy & -> & Hhas). rewrite bucket32_has_spec in Hhas by done.
    destruct (get16 b (hi16_of y)) as [b16|] eqn:Eg; [|done]. simpl in Hhas.
    exists (hi16_of y, b16). split.
    + rewrite sort_by_perm. by apply assoc_get_elem.
    + unfold elems_entry; simp_rec. apply list_elem_of_fmap.
      exists (lo16_of y). split.
      * rewrite (split16_eq y Hy) at 1. unfold base_of. lia.
      * apply elems16_elem; [by eapply get16_wf|].
        split; [apply to_u16_range|done].
Qed.

Lemma elems32_range b x :
  wf32 b -> x ∈ elems32 b ->
  hi b * 4294967296 <= x < hi b * 4294967296 + 4294967296.
Proof.
  intros Hwf (y & Hy & -> & _)%elems32_elem; [|done]. unfold u32 in Hy. lia.
Qed.
(** ** Top-level set: the mid buckets in prefix order *)

Lemma find32_elem bs b :
  NoDup (hi <$> bs) -> b ∈ bs -> find32 bs (hi b) = Some b.
Proof.
  induction bs as [|b0 bs IH]; intros Hnd Hin; [by apply elem_of_nil in Hin|].
  rewrite fmap_cons in Hnd. apply NoDup_cons in Hnd as [Hn Hnd]. simpl.
  apply elem_of_cons in Hin as [->|Hin]; [by rewrite Z.eqb_refl|].
  destruct (Z.eqb_spec (hi b0) (hi b)) as [He|]; [|by apply IH].
  destruct Hn. rewrite He. by apply list_elem_of_fmap_2.
Qed.

Lemma find32_perm bs bs' h :
  NoDup (hi <$> bs) -> bs ≡ₚ bs' -> find32 bs h = find32 bs' h.
Proof.
  intros Hnd Hp. assert (NoDup (hi <$> bs')) as Hnd' by by rewrite <- Hp.
  destruct (find32 bs h) as [b|] eqn:E.
  - apply find32_Some in E as [Hin <-]. symmetry. apply find32_elem; [done|].
    by rewrite <- Hp.
  - symmetry. apply find32_None. rewrite <- Hp. by apply find32_None.
Qed.

Lemma count_buckets32_perm bs bs' :
  bs ≡ₚ bs' -> count_buckets32 bs = count_buckets32 bs'.
Proof.
  unfold count_buckets32.
  induction 1 as [|b l1 l2 Hp IH|a b l|l1 l2 l3 H1 IH1 H2 IH2]; simpl; lia.
Qed.

Lemma Set_sort_view s :
  wfSet s ->
  buckets32 (Set_sort s) = sort_by hi (buckets32 s) /\
  itemsCount (Set_sort s) = itemsCount s.
Proof.
  intros _. unfold Set_sort.
  destruct (is_sorted_by hi (buckets32 s)) eqn:E; [|done].
  split; [|done]. symmetry. by apply sort_by_sorted_id, is_sorted_by_true.
Qed.

Lemma same32_find hi_ bs bs' lo :
  Forall2 same32 bs bs' ->
  hi <$> bs' = hi <$> bs /\
  Forall wf32 bs' /\
  count_buckets32 bs' = count_buckets32 bs /\
  flat_map elems32 bs' = flat_map elems32 bs /\
  has32_opt (find32 bs' hi_) lo = has32_opt (find32 bs hi_) lo.
Proof.
  induction 1 as [|b b' bs bs' (Hwf & Hhi & Hel & Hcnt & Hhas) _ IH].
  - done.
  - destruct IH as (IH1 & IH2 & IH3 & IH4 & IH5). split_and!.
    + by rewrite !fmap_cons, IH1, Hhi.
    + by constructor.
    + unfold count_buckets32 in *. simpl. by rewrite IH3, Hcnt.
    + simpl. by rewrite IH4, Hel.
    + simpl. rewrite Hhi. destruct (hi b =? hi_); [apply Hhas|done].
Qed.

Lemma AppendTo_loop_spec bs dst :
  Forall wf32 bs ->
  fst (AppendTo_loop bs dst) = dst ++ flat_map elems32 bs /\
  Forall2 same32 bs (snd (AppendTo_loop bs dst)).
Proof.
  revert dst. induction bs as [|b bs IH]; intros dst Hwf.
  - simpl. by rewrite app_nil_r.
  - apply Forall_cons in Hwf as [Hb Hwf]. cbn [AppendTo_loop].
    destruct (bucket32_appendTo_spec b dst Hb) as [Hdst Hsame].
    destruct (bucket32_appendTo b dst) as [dst1 b'] eqn:E1. simp_rec.
    destruct (IH dst1 Hwf) as [Hdst2 Hsame2].
    destruct (AppendTo_loop bs dst1) as [dst2 r] eqn:E2. simp_rec. split.
    + rewrite Hdst2, Hdst. simpl. by rewrite app_assoc.
    + by constructor.
Qed.

(** ** Top-level set: the ascending members *)

Lemma join32 h y :
  u32 h -> u32 y ->
  u64 (h * 4294967296 + y) /\ hi32_of (h * 4294967296 + y) = h /\
  lo32_of (h * 4294967296 + y) = y.
Proof.
  intros Hh Hy. unfold u32 in *.
  assert (u64 (h * 4294967296 + y)) as Hx by (unfold u64; lia).
  split; [done|]. rewrite hi32_of_eq by done. unfold lo32_of, to_u32. split.
  - rewrite Z.div_add_l by lia. rewrite Z.div_small by lia. lia.
  - rewrite Z.add_comm, Z.mod_add by lia. by apply Z.mod_small.
Qed.

Lemma split32_eq x : u64 x -> x = hi32_of x * 4294967296 + lo32_of x.
Proof.
  intros Hx. rewrite hi32_of_eq by done. unfold lo32_of, to_u32.
  pose proof (Z.div_mod x 4294967296). lia.
Qed.

Lemma sorted_buckets_facts s :
  wfSet s ->
  ascending (hi <$> sort_by hi (buckets32 s)) /\
  Forall wf32 (sort_by hi (buckets32 s)).
Proof.
  intros (Hnd & Hwf & _). split.
  - by apply sort_by_ascending.
  - by rewrite sort_by_perm.
Qed.

Lemma elemsSet_ascending s : wfSet s -> ascending (elemsSet s).
Proof.
  intros Hwf. destruct (sorted_buckets_facts s Hwf) as [Hasc Hwf32].
  unfold elemsSet.
  apply (ascending_blocks (fun b => hi b * 4294967296) 4294967296).
  - induction (sort_by hi (buckets32 s)) as [|b bs IH]; [constructor|].
    rewrite fmap_cons in Hasc. apply StronglySorted_cons in Hasc as [Hb Hasc].
    apply Forall_cons in Hwf32 as [_ Hwf32].
    constructor; [by apply IH|].
    rewrite Forall_fmap in Hb. eapply Forall_impl; [exact Hb|].
    intros b' Hb'. simpl in *. lia.
  - intros b Hb. eapply Forall_forall in Hwf32; [|done]. split.
    + by apply elems32_ascending.
    + intros v Hv. by apply elems32_range.
Qed.

Lemma elemsSet_length s :
  wfSet s -> Z.of_nat (length (elemsSet s)) = itemsCount s.
Proof.
  intros Hwf. destruct (sorted_buckets_facts s Hwf) as [_ Hwf32].
  destruct Hwf as (_ & _ & ->). unfold elemsSet.
  rewrite (flat_map_length_sum _ count32).
  - apply count_buckets32_perm, sort_by_perm.
  - intros b Hb. apply elems32_length. by eapply Forall_forall in Hwf32.
Qed.

Lemma elemsSet_elem s x :
  wfSet s -> x ∈ elemsSet s <-> u64 x /\ Set_Has s x = true.
Proof.
  intros (Hnd & Hwf & _). unfold elemsSet. rewrite elem_of_flat_map.
  rewrite Set_Has_find. split.
  - intros (b & Hin & Hx). rewrite sort_by_perm in Hin.
    assert (wf32 b) as Hb by by eapply Forall_forall in Hwf.
    apply elems32_elem in Hx as (y & Hy & -> & Hhas); [|done].
    destruct (join32 (hi b) y) as (Hx & Hhi & Hlo); [by destruct Hb|done|].
    split; [done|]. rewrite Hhi, Hlo, (find32_elem _ b) by done. done.
  - intros [Hx Hhas].
    destruct (find32 (buckets32 s) (hi32_of x)) as [b|] eqn:E; [|done].
    simpl in Hhas. pose proof (find32_wf _ _ _ Hwf E) as Hb.
    apply find32_Some in E as [Hin Hhi]. exists b. split.
    + by rewrite sort_by_perm.
    + apply elems32_elem; [done|]. exists (lo32_of x).
      split_and!; [apply to_u32_range| |done].
      rewrite Hhi. by apply split32_eq.
Qed.
(** ** Top-level set: [AppendTo] *)

Theorem Set_AppendTo_spec s dst :
  wfSet s ->
  fst (Set_AppendTo s dst) = dst ++ elemsSet s /\
  wfSet (snd (Set_AppendTo s dst)) /\
  itemsCount (snd (Set_AppendTo s dst)) = itemsCount s /\
  forall x, Set_Has (snd (Set_AppendTo s dst)) x = Set_Has s x.
Proof.
  intros Hwf. destruct (Set_sort_view s Hwf) as [Hbs Hic].
  destruct (sorted_buckets_facts s Hwf) as [Hasc Hwf32].
  pose proof Hwf as (Hnd & Hwfb & Hcnt).
  unfold Set_AppendTo. rewrite Hbs, Hic.
  destruct (AppendTo_loop_spec (sort_by hi (buckets32 s)) dst Hwf32)
    as [Hdst Hsame].
  destruct (AppendTo_loop (sort_by hi (buckets32 s)) dst) as [dst' bs'].
  simp_rec. split_and!.
  - done.
  - destruct (same32_find 0 _ _ 0 Hsame) as (Hhis & Hwf' & Hcnt' & _).
    unfold wfSet; simp_rec. split_and!.
    + rewrite Hhis. by rewrite sort_by_perm.
    + done.
    + rewrite Hcnt', Hcnt. symmetry. apply count_buckets32_perm, sort_by_perm.
  - done.
  - intros x. rewrite !Set_Has_find; simp_rec.
    destruct (same32_find (hi32_of x) _ _ (lo32_of x) Hsame) as (_ & _ & _ & _ & ->).
    f_equal. symmetry. apply find32_perm; [done|]. symmetry. apply sort_by_perm.
Qed.


(** ** Nil and zero-value sets *)

(** [Set.Add] has no nil guard: on a nil receiver the claim that every
    operation is a safe no-op fails. *)
Lemma C5_add_on_nil_fails :
  ~ (exists s', Add None 5 = Ok s' /\ Has (Some s') 5 = true).
Proof. intros (s' & H & _). discriminate H. Qed.

(** C5, amended: on a nil set the operations that test their receiver
    ([Len], [Has], [AppendTo], [ForEach], [Clone]) give the answer of the
    empty set; on a never-initialized zero-value set [Len] is 0, [Has] is
    false and [Add] behaves as starting from the empty set. *)
Theorem C5_nil_reads_and_zero_value_add x :
  u64 x ->
  Len None = 0 /\
  (forall y, Has None y = false) /\
  (forall dst, AppendTo None dst = (dst, None)) /\
  (forall dst, fst (ForEach (fun part acc => (true, acc ++ part)) None dst) = None
            /\ snd (ForEach (fun part acc => (true, acc ++ part)) None dst) = dst) /\
  Clone None = Set_zero /\
  Len (Some Set_zero) = 0 /\
  (forall y, Has (Some Set_zero) y = false) /\
  (forall dst, fst (AppendTo (Some Set_zero) dst) = dst) /\
  exists s',
    Add (Some Set_zero) x = Ok s' /\
    Len (Some s') = 1 /\
    Has (Some s') x = true /\
    (forall y, u64 y -> y <> x -> Has (Some s') y = false) /\
    (forall dst, fst (AppendTo (Some s') dst) = dst ++ [x]).
Proof.
  intros Hx. split_and!; try done.
  destruct (Set_Add_spec Set_zero x Set_zero_wf Hx) as (Hwf & Hlen & Hhas).
  exists (Set_Add Set_zero x). split_and!; try done.
  - simpl. rewrite Hhas by done. by rewrite Z.eqb_refl.
  - intros y Hy Hne. simpl. rewrite Hhas by done.
    by destruct (Z.eqb_spec x y) as [->|].
  - intros dst.
    destruct (Set_AppendTo_spec _ dst Hwf) as (Hdst & _).
    unfold AppendTo.
    destruct (Set_AppendTo (Set_Add Set_zero x) dst) as [d s3].
    simp_rec. rewrite Hdst. f_equal.
    pose proof (elemsSet_length _ Hwf) as Hl. rewrite Hlen in Hl.
    change (Set_Has Set_zero x) with false in Hl.
    change (itemsCount Set_zero) with 0 in Hl.
    assert (forall a, a ∈ elemsSet (Set_Add Set_zero x) -> a = x) as Hall.
    { intros a [Hau Hah]%elemsSet_elem; [|done]. rewrite Hhas in Hah by done.
      by destruct (Z.eqb_spec x a). }
    destruct (elemsSet (Set_Add Set_zero x)) as [|a [|b l]];
      cbn [length] in Hl; try lia.
    f_equal. apply Hall. left.
Qed.

Lemma C5_zero_value_witness :
  u64 9 /\ Len None = 0 /\
  exists s', Add (Some Set_zero) 9 = Ok s' /\ Len (Some s') = 1.
Proof.
  split; [by_eval|].
  destruct (C5_nil_reads_and_zero_value_add 9)
    as (H1 & _ & _ & _ & _ & _ & _ & _ & s' & Ha & Hl & _); [by_eval|].
  split; [exact H1|]. exists s'. by split.
Defined.
(** ** Ascending sequences as sets *)

Lemma ascending_filter (P : Z -> Prop) `{forall x, Decision (P x)} l :
  ascending l -> ascending (filter P l).
Proof.
  induction 1 as [|x l Hs IH Hx]; [constructor|].
  rewrite filter_cons. destruct (decide (P x)); [|done].
  constructor; [done|]. apply Forall_forall. intros y Hy.
  apply list_elem_of_filter in Hy as [_ Hy]. by eapply Forall_forall in Hx.
Qed.

Lemma ascending_unique l1 l2 :
  ascending l1 -> ascending l2 -> (forall x, x ∈ l1 <-> x ∈ l2) -> l1 = l2.
Proof.
  intros H1 H2 Hel. apply (StronglySorted_unique Z.le).
  - by apply ascending_le.
  - by apply ascending_le.
  - apply NoDup_Permutation; [by apply ascending_NoDup..|done].
Qed.

(** ** Leaf bucket: [intersect] *)

Lemma OnesCount64_0 : OnesCount64 0 = 0.
Proof. reflexivity. Qed.

Lemma intersect_words_spec bws aws :
  length bws = length aws -> Forall u64 bws ->
  intersect_words bws aws
  = (sum_ones (zip_with Z.land bws aws), zip_with Z.land bws aws).
Proof.
  revert aws. induction bws as [|bx bws IH]; intros [|ax aws] Hl Hu;
    try done.
  apply Forall_cons in Hu as [Hbx Hu]. cbn [intersect_words zip_with].
  rewrite IH by (simpl in Hl; lia || done). f_equal.
  unfold sum_ones. cbn [foldr]. f_equal.
  pose proof (u64_land bx ax Hbx) as [H0 _].
  destruct (Z.ltb_spec 0 (Z.land bx ax)); [done|].
  replace (Z.land bx ax) with 0 by lia. by rewrite OnesCount64_0.
Qed.

Lemma bm_test_land bws aws v :
  length bws = length aws ->
  bm_test (zip_with Z.land bws aws) v = bm_test bws v && bm_test aws v.
Proof.
  intros Hl. unfold bm_test, word_at. rewrite lookup_zip_with.
  destruct (bws !! _) as [bx|] eqn:Eb; simpl.
  - destruct (aws !! _) as [ax|] eqn:Ea; simpl; [apply Z.land_spec|].
    apply lookup_ge_None in Ea. apply lookup_lt_Some in Eb. lia.
  - by rewrite Z.bits_0.
Qed.

Lemma Forall_u64_land bws aws :
  Forall u64 bws -> Forall u64 (zip_with Z.land bws aws).
Proof.
  intros Hu. revert aws. induction Hu as [|bx bws Hbx Hu IH]; intros [|ax aws];
    simpl; try constructor; [by apply u64_land|apply IH].
Qed.

Lemma to_u16_small v : u16 v -> to_u16 v = v.
Proof. intros Hv. by apply Z.mod_small. Qed.

Lemma intersect_slow_spec l a : forall b c,
  wf16 b -> Forall u16 l -> NoDup l ->
  (forall v, v ∈ l -> bucket16_has b v = true) ->
  wf16 (snd (intersect_slow l a b c)) /\
  (forall v, u16 v ->
     bucket16_has (snd (intersect_slow l a b c)) v
     = bucket16_has b v && (negb (bool_decide (v ∈ l)) || bucket16_has a v)) /\
  fst (intersect_slow l a b c) - count16 (snd (intersect_slow l a b c))
  = c - count16 b.
Proof.
  induction l as [|x l IH]; intros b c Hwf Hu Hnd Hin.
  - simpl. split_and!; [done| |done]. intros v _. by rewrite andb_true_r.
  - apply Forall_cons in Hu as [Hx Hu]. apply NoDup_cons in Hnd as [Hxl Hnd].
    cbn [intersect_slow]. rewrite (to_u16_small x Hx).
    destruct (bucket16_has a x) eqn:Ha.
    + destruct (IH b c Hwf Hu Hnd) as (Hwf' & Hhas & Hcnt).
      { intros v Hv. apply Hin. by right. }
      split_and!; [done| |done]. intros v Hv. rewrite Hhas by done. f_equal.
      destruct (Z.eq_dec v x) as [->|Hne].
      * rewrite Ha, !orb_true_r. done.
      * f_equal. f_equal. apply bool_decide_ext. rewrite elem_of_cons.
        split; [by right|]. by intros [?|?].
    + destruct (bucket16_del_spec b x Hwf Hx) as (_ & Hwf2 & Hcnt2 & Hhas2).
      rewrite (Hin x ltac:(left)) in Hcnt2.
      destruct (IH (snd (bucket16_del b x)) (c - 1) Hwf2 Hu Hnd)
        as (Hwf' & Hhas & Hcnt).
      { intros v Hv. rewrite Hhas2.
        - rewrite (Hin v ltac:(by right)).
          destruct (Z.eqb_spec x v) as [->|]; done.
        - by eapply Forall_forall in Hu. }
      split_and!; [done| |lia]. intros v Hv.
      rewrite Hhas, Hhas2 by done.
      destruct (Z.eqb_spec x v) as [<-|Hne]; simpl.
      * rewrite Ha, orb_false_r.
        rewrite bool_decide_eq_true_2 by left. simpl. by rewrite andb_false_r.
      * f_equal. f_equal. f_equal. apply bool_decide_ext. rewrite elem_of_cons.
        split; [by right|]. intros [?|?]; [congruence|done].
Qed.

Lemma base_of_0 v : base_of 0 0 + v = v.
Proof. unfold base_of. lia. Qed.

Lemma intersect16_slow b a :
  wf16 b -> wf16 a ->
  let ap := bucket16_appendTo b [] 0 0 in
  let r := intersect_slow (fst ap) a (snd ap) (Z.of_nat (length (fst ap))) in
  wf16 (snd r) /\
  fst r = count16 (snd r) /\
  forall v, u16 v -> bucket16_has (snd r) v = bucket16_has b v && bucket16_has a v.
Proof.
  intros Hwfb Hwfa. cbv zeta.
  destruct (bucket16_appendTo_spec b [] 0 0 Hwfb ltac:(unfold u16; lia))
    as (Hdst & Hwf1 & Hel & Hcnt & Hhas1).
  assert (fst (bucket16_appendTo b [] 0 0) = elems16 b) as Hbuf.
  { rewrite Hdst. simpl. rewrite (map_ext _ id) by apply base_of_0.
    apply map_id. }
  rewrite Hbuf. set (b1 := snd (bucket16_appendTo b [] 0 0)) in *.
  clearbody b1.
  destruct (intersect_slow_spec (elems16 b) a b1
              (Z.of_nat (length (elems16 b))) Hwf1)
    as (Hwf' & Hhas & Hc).
  { by apply elems16_u16. }
  { by apply ascending_NoDup, elems16_ascending. }
  { intros v Hv. rewrite Hhas1. by apply elems16_elem in Hv as [_ ?]. }
  split_and!; [done| |].
  - pose proof (elems16_length b Hwfb) as Hl. lia.
  - intros v Hv. rewrite Hhas, Hhas1 by done.
    destruct (bucket16_has b v) eqn:Hb; [|done]. simpl.
    rewrite bool_decide_eq_true_2; [done|]. by apply elems16_elem.
Qed.

Theorem bucket16_intersect_spec b a :
  wf16 b -> wf16 a ->
  wf16 (snd (bucket16_intersect b a)) /\
  fst (bucket16_intersect b a) = count16 (snd (bucket16_intersect b a)) /\
  forall v, u16 v ->
    bucket16_has (snd (bucket16_intersect b a)) v
    = bucket16_has b v && bucket16_has a v.
Proof.
  intros Hwfb Hwfa. pose proof (intersect16_slow b a Hwfb Hwfa) as Hslow.
  cbv zeta in Hslow. unfold bucket16_intersect.
  destruct (bucket16_appendTo b [] 0 0) as [buf b1]. simp_rec.
  destruct (bits a) as [aws|] eqn:Ea; [|done].
  destruct (bits b) as [bws|] eqn:Eb; [|done].
  clear Hslow.
  pose proof Hwfb as (Hlen & Hpool & Hrep). rewrite Eb in Hrep.
  pose proof Hwfa as (_ & _ & Hrepa). rewrite Ea in Hrepa.
  destruct Hrep as [Hlb Hub], Hrepa as [Hla Hua].
  rewrite intersect_words_spec by (done || congruence). simp_rec.
  split_and!.
  - unfold wf16; simp_rec. split_and!; try done.
    + rewrite length_zip_with. lia.
    + by apply Forall_u64_land.
  - done.
  - intros v Hv. rewrite has_Bits, (bucket16_has_bits b bws),
      (bucket16_has_bits a aws) by done.
    apply bm_test_land. congruence.
Qed.
(** ** Mid bucket: [intersect] *)

Lemma assoc_get_below (ps : list (Z * bucket16)) k0 k :
  ascending (k0 :: ps.*1) -> k < k0 -> assoc_get ps k = None.
Proof.
  intros [Hall _]%StronglySorted_cons Hlt. apply assoc_get_None.
  intros Hin. eapply Forall_forall in Hall; [|done]. lia.
Qed.

Lemma assoc_get_below_all (ps : list (Z * bucket16)) k :
  Forall (fun k' => k < k') ps.*1 -> assoc_get ps k = None.
Proof.
  intros Hall. apply assoc_get_None.
  intros Hin. eapply Forall_forall in Hall; [|done]. lia.
Qed.

Lemma has_entry_zeros (ks : list Z) (n : nat) k lo :
  has_entry (assoc_get (zip ks (replicate n bucket16_zero)) k) lo = false.
Proof.
  revert n. induction ks as [|k0 ks IH]; intros [|n]; simpl; try done.
  destruct (k0 =? k); [done|apply IH].
Qed.

Lemma fmap_const_replicate {A B : Type} (x : B) (l : list A) :
  (fun _ => x) <$> l = replicate (length l) x.
Proof. induction l as [|a l IH]; [done|]. by rewrite fmap_cons, IH. Qed.

Lemma count_buckets16_zeros n :
  count_buckets16 (replicate n bucket16_zero) = 0.
Proof.
  unfold count_buckets16. induction n as [|n IH]; simpl; [done|].
  rewrite IH. done.
Qed.

Lemma intersect16_loop_spec : forall fuel bps aps,
  ascending bps.*1 -> ascending aps.*1 ->
  Forall wf16 bps.*2 -> Forall wf16 aps.*2 ->
  (length bps + length aps <= fuel)%nat ->
  length (snd (intersect16_loop fuel bps aps)) = length bps /\
  Forall wf16 (snd (intersect16_loop fuel bps aps)) /\
  fst (intersect16_loop fuel bps aps)
    = count_buckets16 (snd (intersect16_loop fuel bps aps)) /\
  forall k lo, u16 lo ->
    has_entry (assoc_get (zip bps.*1 (snd (intersect16_loop fuel bps aps))) k) lo
    = has_entry (assoc_get bps k) lo && has_entry (assoc_get aps k) lo.
Proof.
  induction fuel as [|fuel IH]; intros bps aps Hsb Hsa Hwb Hwa Hf.
  - destruct bps; [|simpl in Hf; lia]. simpl. by split_and!.
  - destruct bps as [|[kb bb] bps']; [simpl; by split_and!|].
    destruct aps as [|[ka ab] aps'].
    { cbn [intersect16_loop]. simp_rec. rewrite fmap_const_replicate.
      split_and!.
      - by rewrite length_replicate.
      - apply Forall_replicate, bucket16_zero_wf.
      - by rewrite count_buckets16_zeros.
      - intros k lo _. rewrite has_entry_zeros. by rewrite andb_false_r. }
    rewrite !fmap_cons in *. simp_rec.
    pose proof Hsb as [Hb1 Hsb']%StronglySorted_cons.
    pose proof Hsa as [Ha1 Hsa']%StronglySorted_cons.
    apply Forall_cons in Hwb as [Hwbb Hwb'], Hwa as [Hwab Hwa'].
    cbn [intersect16_loop length] in *.
    destruct (Z.ltb_spec kb ka) as [Hlt|Hge].
    + (* the receiver's entry has no partner *)
      destruct (IH bps' ((ka, ab) :: aps')) as (Hl & Hw & Hc & Hh);
        [done|by rewrite fmap_cons|done|by rewrite fmap_cons; constructor
        |simpl; lia|].
      destruct (intersect16_loop fuel bps' ((ka, ab) :: aps')) as [n r].
      simp_rec. split_and!.
      * simpl. by rewrite Hl.
      * constructor; [apply bucket16_zero_wf|done].
      * unfold count_buckets16 in *. simpl. rewrite Hc. done.
      * intros k lo Hlo. simpl. destruct (Z.eqb_spec kb k) as [<-|Hne].
        -- simpl. destruct (Z.eqb_spec ka kb); [lia|].
           rewrite (assoc_get_below_all aps' kb); [by rewrite andb_false_r|].
           eapply Forall_impl; [exact Ha1|]. simpl. intros; lia.
        -- by apply Hh.
    + destruct (Z.ltb_spec ka kb) as [Hlt|Hge'].
      * (* the operand's entry is skipped *)
        destruct (IH ((kb, bb) :: bps') aps') as (Hl & Hw & Hc & Hh);
          [by rewrite fmap_cons|done|by rewrite fmap_cons; constructor|done
          |simpl; lia|].
        destruct (intersect16_loop fuel ((kb, bb) :: bps') aps') as [n r].
        simp_rec. rewrite fmap_cons in Hh. simp_rec. split_and!; try done.
        intros k lo Hlo. rewrite Hh by done.
        simpl. destruct (Z.eqb_spec ka k) as [<-|Hne]; [|done].
        destruct (Z.eqb_spec kb ka); [lia|].
        rewrite (assoc_get_below_all bps' ka); [done|].
        eapply Forall_impl; [exact Hb1|]. simpl. intros; lia.
      * (* matching keys *)
        assert (ka = kb) as -> by lia.
        destruct (bucket16_intersect_spec bb ab Hwbb Hwab) as (Hwi & Hci & Hhi).
        destruct (bucket16_intersect bb ab) as [c bb'].
        destruct (IH bps' aps') as (Hl & Hw & Hc & Hh); [done..|simpl; lia|].
        destruct (intersect16_loop fuel bps' aps') as [n r].
        simp_rec. split_and!.
        -- simpl. by rewrite Hl.
        -- by constructor.
        -- unfold count_buckets16 in *. simpl. by rewrite Hci, Hc.
        -- intros k lo Hlo. simpl.
           destruct (Z.eqb_spec kb k) as [<-|Hne]; [by apply Hhi|by apply Hh].
Qed.

Theorem bucket32_intersect_spec b a :
  wf32 b -> wf32 a ->
  wf32 (snd (bucket32_intersect b a)) /\
  hi (snd (bucket32_intersect b a)) = hi b /\
  fst (bucket32_intersect b a) = count32 (snd (bucket32_intersect b a)) /\
  forall y,
    bucket32_has (snd (bucket32_intersect b a)) y
    = bucket32_has b y && bucket32_has a y.
Proof.
  intros Hwfb Hwfa. unfold bucket32_intersect.
  destruct (bucket32_sort_view b Hwfb) as (Hwb1 & Hhb & Hab & Heb).
  destruct (bucket32_sort_view a Hwfa) as (Hwa1 & Hha & Haa & Hea).
  set (b1 := bucket32_sort b) in *. set (a1 := bucket32_sort a) in *.
  clearbody b1 a1.
  pose proof Hwb1 as (Hh1 & Hlb & Hkb & Hndb & Hbsb & _).
  pose proof Hwa1 as (_ & Hla & Hka & Hnda & Hbsa & _).
  pose proof Hwfb as (_ & Hlb0 & _ & Hndb0 & _).
  pose proof Hwfa as (_ & Hla0 & _ & Hnda0 & _).
  fold (entries b1) (entries a1).
  destruct (intersect16_loop_spec (length (entries b1) + length (entries a1))
              (entries b1) (entries a1)) as (Hl & Hw & Hc & Hh);
    [by rewrite entries_fst|by rewrite entries_fst|by rewrite entries_snd
    |by rewrite entries_snd|done|].
  destruct (intersect16_loop _ (entries b1) (entries a1)) as [n bs'].
  simp_rec. rewrite entries_fst in Hh by done.
  assert (length (b16his b1) = length bs') as Hlen'.
  { rewrite Hl. unfold entries. rewrite length_zip_with. lia. }
  assert (wf32 (Bucket32 (hi b1) (b16his b1) bs' (hint b1))) as Hwf'.
  { unfold wf32; simp_rec. by split_and!. }
  split_and!; try done.
  intros y. rewrite !bucket32_has_spec by done.
  unfold get16 at 1. unfold entries at 1; simp_rec.
  rewrite Hh by apply to_u16_range. unfold get16.
  assert (forall k, assoc_get (entries b1) k = assoc_get (entries b) k) as ->.
  { intros k. rewrite Heb. apply assoc_get_perm; [|apply sort_by_perm].
    by rewrite sort_by_perm, entries_fst. }
  assert (forall k, assoc_get (entries a1) k = assoc_get (entries a) k) as ->.
  { intros k. rewrite Hea. apply assoc_get_perm; [|apply sort_by_perm].
    by rewrite sort_by_perm, entries_fst. }
  done.
Qed.
(** ** Top-level set: the merge loop of [Intersect] *)



Lemma count_buckets32_zeros n :
  count_buckets32 (replicate n bucket32_zero) = 0.
Proof.
  unfold count_buckets32. induction n as [|n IH]; simpl; [done|].
  by rewrite IH.
Qed.








Lemma ascending_cons_above (h : Z) (hs : list Z) :
  ascending (h :: hs) -> Forall (fun h' => h < h') hs /\ ascending hs.
Proof. apply StronglySorted_cons. Qed.



(** ** Top-level set: [Intersect] *)


Lemma wfSet_empty s :
  wfSet s -> itemsCount s = 0 ->
  elemsSet s = [] /\ forall x, u64 x -> Set_Has s x = false.
Proof.
  intros Hwf H0. pose proof (elemsSet_length s Hwf) as Hl. rewrite H0 in Hl.
  assert (elemsSet s = []) as He by (destruct (elemsSet s); [done|simpl in Hl; lia]).
  split; [done|]. intros x Hx. destruct (Set_Has s x) eqn:E; [|done].
  assert (x ∈ elemsSet s) as Hin by by apply elemsSet_elem.
  rewrite He in Hin. by apply elem_of_nil in Hin.
Qed.




(** ** Adding a sequence of values *)

Lemma foldl_Set_Add_spec l : forall s,
  wfSet s -> Forall u64 l ->
  wfSet (foldl Set_Add s l) /\
  (forall y, u64 y ->
     Set_Has (foldl Set_Add s l) y = Set_Has s y || bool_decide (y ∈ l)) /\
  itemsCount s <= itemsCount (foldl Set_Add s l).
Proof.
  induction l as [|x l IH]; intros s Hwf Hl.
  - simpl. split_and!; [done| |lia]. intros y _. by rewrite orb_false_r.
  - apply Forall_cons in Hl as [Hx Hl]. cbn [foldl].
    destruct (Set_Add_spec s x Hwf Hx) as (Hwf1 & Hc1 & Hh1).
    destruct (IH (Set_Add s x) Hwf1 Hl) as (Hwf2 & Hh2 & Hc2).
    split_and!; [done| |destruct (Set_Has s x); lia].
    intros y Hy. rewrite Hh2, Hh1 by done.
    assert (bool_decide (y ∈ x :: l) = (x =? y) || bool_decide (y ∈ l)) as ->.
    { destruct (Z.eqb_spec x y) as [->|Hne]; simpl.
      - apply bool_decide_eq_true. left.
      - apply bool_decide_ext. rewrite elem_of_cons.
        split; [|by right]. intros [?|?]; [congruence|done]. }
    by destruct (x =? y), (Set_Has s y), (bool_decide (y ∈ l)).
Qed.

(** ** [ForEach] with the callback of [union] *)

Lemma forEach_buckets_add hi32 ps : forall s,
  Forall u16 ps.*1 -> Forall wf16 ps.*2 ->
  exists bs',
    forEach_buckets add_part hi32 ps s
    = (true, bs', foldl Set_Add s (elems_entries hi32 ps)) /\
    Forall2 same16 ps.*2 bs'.
Proof.
  induction ps as [|[k b16] ps IH]; intros s Hk Hwf.
  - exists []. by split.
  - rewrite fmap_cons in Hk. rewrite fmap_cons in Hwf.
    apply Forall_cons in Hk as [Hk1 Hk], Hwf as [Hw1 Hwf]. simp_rec.
    cbn [forEach_buckets].
    destruct (bucket16_appendTo_spec b16 [] hi32 k Hw1 Hk1)
      as (Hdst & Hwf' & Hel & Hcnt & Hhas).
    destruct (bucket16_appendTo b16 [] hi32 k) as [buf b16'] eqn:E1.
    simp_rec. unfold add_part at 1. subst buf. rewrite app_nil_l.
    destruct (IH (foldl Set_Add s (map (fun v => base_of hi32 k + v) (elems16 b16)))
                Hk Hwf) as (bs' & -> & Hsame).
    exists (b16' :: bs'). split.
    + unfold elems_entries. cbn [flat_map]. rewrite foldl_app. done.
    + rewrite fmap_cons. constructor; [|done]. by split_and!.
Qed.


Lemma stored32_perm b : stored32 b ≡ₚ elems32 b.
Proof.
  unfold stored32, elems32, elems_entries.
  apply Permutation_flat_map. symmetry. apply sort_by_perm.
Qed.

(** Replacing the leaf buckets of a mid bucket by ones with the same
    members. *)
Lemma same_leaves b bs' h :
  wf32 b -> Forall2 same16 (buckets b) bs' ->
  same32 b (Bucket32 (hi b) (b16his b) bs' h).
Proof.
  intros Hwf Hsame. pose proof Hwf as (Hh & Hlen & Hk & Hnd & Hbs & Hs).
  destruct (zip_same16 (hi b) (b16his b) _ _ Hsame) as (_ & Hcnt & Hwf' & Hhas).
  pose proof (Forall2_length _ _ _ Hsame) as Hl'.
  set (b' := Bucket32 (hi b) (b16his b) bs' h).
  assert (wf32 b') as Hwfb'.
  { unfold wf32, b'; simp_rec. split_and!; try done; [congruence|].
    rewrite <- Hl'. done. }
  assert (forall y, bucket32_has b' y = bucket32_has b y) as Hhas'.
  { intros y. rewrite !bucket32_has_spec by done. apply Hhas. }
  unfold same32. split_and!; try done.
  apply ascending_unique; [by apply elems32_ascending..|].
  intros x. rewrite !elems32_elem by done.
  split; intros (y & Hy & Hx & Hy'); exists y; split_and!; try done;
    [by rewrite <- Hhas'|by rewrite Hhas'].
Qed.

Lemma bucket32_forEach_add b s :
  wf32 b ->
  exists b',
    bucket32_forEach add_part b s = (true, b', foldl Set_Add s (stored32 b)) /\
    same32 b b'.
Proof.
  intros Hwf. pose proof Hwf as (_ & Hlen & Hk & _ & Hbs & _).
  unfold bucket32_forEach. fold (entries b).
  destruct (forEach_buckets_add (hi b) (entries b) s) as (bs' & -> & Hsame).
  { by rewrite entries_fst. }
  { by rewrite entries_snd. }
  rewrite entries_snd in Hsame by done.
  eexists. split; [done|]. by apply same_leaves.
Qed.

Lemma ForEach_loop_add bs : forall s,
  Forall wf32 bs ->
  exists bs',
    ForEach_loop add_part bs s = (bs', foldl Set_Add s (flat_map stored32 bs)) /\
    Forall2 same32 bs bs'.
Proof.
  induction bs as [|b bs IH]; intros s Hwf.
  - exists []. by split.
  - apply Forall_cons in Hwf as [Hb Hwf]. cbn [ForEach_loop].
    destruct (bucket32_forEach_add b s Hb) as (b' & -> & Hsame).
    destruct (IH (foldl Set_Add s (stored32 b)) Hwf) as (bs' & -> & Hsame').
    exists (b' :: bs'). split; [|by constructor].
    cbn [flat_map]. by rewrite foldl_app.
Qed.

Lemma stored_all_perm s :
  flat_map stored32 (buckets32 s) ≡ₚ elemsSet s.
Proof.
  unfold elemsSet.
  transitivity (flat_map elems32 (buckets32 s)).
  - induction (buckets32 s) as [|b bs IH]; [done|].
    cbn [flat_map]. by rewrite IH, stored32_perm.
  - apply Permutation_flat_map. symmetry. apply sort_by_perm.
Qed.

(** Walking a set with [ForEach] keeps its members. *)
Lemma same32_set a bs' :
  wfSet a -> Forall2 same32 (buckets32 a) bs' ->
  wfSet (MkSet (itemsCount a) bs') /\
  forall x, Set_Has (MkSet (itemsCount a) bs') x = Set_Has a x.
Proof.
  intros (Hnd & Hwf & Hcnt) Hsame.
  destruct (same32_find 0 _ _ 0 Hsame) as (Hhis & Hwf' & Hcnt' & _).
  split.
  - unfold wfSet; simp_rec. split_and!; [by rewrite Hhis|done|congruence].
  - intros x. rewrite !Set_Has_find; simp_rec.
    by destruct (same32_find (hi32_of x) _ _ (lo32_of x) Hsame)
      as (_ & _ & _ & _ & ->).
Qed.
(** ** Top-level set: [union] *)

Lemma union_walk_spec s a :
  wfSet s -> wfSet a ->
  wfSet (snd (Set_ForEach add_part a s)) /\
  (forall x, u64 x ->
     Set_Has (snd (Set_ForEach add_part a s)) x = Set_Has s x || Set_Has a x) /\
  itemsCount s <= itemsCount (snd (Set_ForEach add_part a s)) /\
  wfSet (fst (Set_ForEach add_part a s)) /\
  itemsCount (fst (Set_ForEach add_part a s)) = itemsCount a /\
  forall x, Set_Has (fst (Set_ForEach add_part a s)) x = Set_Has a x.
Proof.
  intros Hwfs Hwfa. pose proof Hwfa as (_ & Hwf32 & _).
  unfold Set_ForEach.
  destruct (ForEach_loop_add (buckets32 a) s Hwf32) as (bs' & -> & Hsame).
  simp_rec.
  assert (Forall u64 (flat_map stored32 (buckets32 a))) as Hu.
  { apply Forall_forall. intros x Hx. rewrite stored_all_perm in Hx.
    by apply elemsSet_elem in Hx as [? _]. }
  destruct (foldl_Set_Add_spec _ s Hwfs Hu) as (Hwf' & Hhas & Hc).
  destruct (same32_set a bs' Hwfa Hsame) as [Hwfa' Hhasa].
  split_and!; try done.
  intros x Hx. rewrite Hhas by done. f_equal.
  destruct (Set_Has a x) eqn:E.
  - apply bool_decide_eq_true. rewrite stored_all_perm.
    by apply elemsSet_elem.
  - apply bool_decide_eq_false. rewrite stored_all_perm.
    intros [_ H]%elemsSet_elem; [congruence|done].
Qed.

(** A set that holds all the members of another is at least as long. *)
Lemma subset_len a r :
  wfSet a -> wfSet r ->
  (forall x, u64 x -> Set_Has a x = true -> Set_Has r x = true) ->
  itemsCount a <= itemsCount r.
Proof.
  intros Hwfa Hwfr Hsub.
  rewrite <- (elemsSet_length a Hwfa), <- (elemsSet_length r Hwfr).
  apply inj_le, submseteq_length, NoDup_submseteq.
  - by apply ascending_NoDup, elemsSet_ascending.
  - intros x [Hx Hh]%elemsSet_elem; [|done]. apply elemsSet_elem; [done|].
    split; [done|]. by apply Hsub.
Qed.

Lemma union_core s a :
  wfSet s -> wfSet a ->
  let r := if itemsCount a =? 0 then (s, a)
           else if itemsCount s =? 0 then (Clone (Some a), a)
           else let '(a', s') := Set_ForEach add_part a s in (s', a') in
  wfSet (fst r) /\
  (forall x, u64 x -> Set_Has (fst r) x = Set_Has s x || Set_Has a x) /\
  wfSet (snd r) /\ itemsCount (snd r) = itemsCount a /\
  (forall x, Set_Has (snd r) x = Set_Has a x).
Proof.
  intros Hwfs Hwfa. cbv zeta.
  destruct (Z.eqb_spec (itemsCount a) 0) as [Ha0|Ha0].
  - destruct (wfSet_empty a Hwfa Ha0) as [_ Hno]. simp_rec.
    split_and!; try done.
    intros x Hx. by rewrite (Hno x Hx), orb_false_r.
  - destruct (Z.eqb_spec (itemsCount s) 0) as [Hs0|Hs0].
    + destruct (wfSet_empty s Hwfs Hs0) as [_ Hno]. simp_rec.
      unfold Clone. destruct (Z.eqb_spec (itemsCount a) 0); [done|].
      split_and!; try done.
      intros x Hx. by rewrite (Hno x Hx).
    + destruct (union_walk_spec s a Hwfs Hwfa)
        as (H1 & H2 & H3 & H4 & H5 & H6).
      destruct (Set_ForEach add_part a s) as [a' s']. simp_rec.
      by split_and!.
Qed.

(** [union] makes the receiver hold the members of both sets, with or
    without the swap of [UnionMayOwn]. *)
Theorem Set_union_spec s a mayOwn :
  wfSet s -> wfSet a ->
  wfSet (fst (Set_union s a mayOwn)) /\
  (forall x, u64 x ->
     Set_Has (fst (Set_union s a mayOwn)) x = Set_Has s x || Set_Has a x) /\
  itemsCount s <= itemsCount (fst (Set_union s a mayOwn)) /\
  itemsCount a <= itemsCount (fst (Set_union s a mayOwn)).
Proof.
  intros Hwfs Hwfa.
  assert (wfSet (fst (Set_union s a mayOwn)) /\
          forall x, u64 x ->
            Set_Has (fst (Set_union s a mayOwn)) x = Set_Has s x || Set_Has a x)
    as [Hwf Hhas].
  { unfold Set_union.
    destruct (mayOwn && (itemsCount s <? itemsCount a)).
    - destruct (union_core a s Hwfa Hwfs) as (H1 & H2 & _). cbv zeta in *.
      split; [done|]. intros x Hx. rewrite orb_comm. by apply H2.
    - by destruct (union_core s a Hwfs Hwfa) as (H1 & H2 & _). }
  split_and!; try done.
  - apply subset_len; try done. intros x Hx Hh. by rewrite Hhas, Hh.
  - apply subset_len; try done. intros x Hx Hh.
    by rewrite Hhas, Hh, orb_true_r.
Qed.

(** [Union] leaves the operand's members and length as they were. *)
Theorem Set_Union_operand s a :
  wfSet s -> wfSet a ->
  wfSet (snd (Set_Union s a)) /\
  itemsCount (snd (Set_Union s a)) = itemsCount a /\
  forall x, Set_Has (snd (Set_Union s a)) x = Set_Has a x.
Proof.
  intros Hwfs Hwfa. unfold Set_Union, Set_union. cbn [andb].
  by destruct (union_core s a Hwfs Hwfa) as (_ & _ & H3 & H4 & H5).
Qed.
(** ** Adding a value that is already a member *)

Lemma lor_bit_set w k :
  0 <= k -> Z.testbit w k = true -> Z.lor w (Z.shiftl 1 k) = w.
Proof.
  intros Hk Hb. apply Z.bits_inj'. intros n Hn.
  rewrite Z.lor_spec, shiftl1_testbit by done.
  destruct (Z.eqb_spec k n) as [->|]; [by rewrite Hb|by rewrite orb_false_r].
Qed.

Lemma add_bit_member ws x :
  length ws = wordsPerBucket -> u16 x -> bm_test ws x = true ->
  snd (add_bit ws x) = ws.
Proof.
  intros Hl Hx Hb. unfold add_bit, getWordNumBitMask, bm_test in *. simpl.
  rewrite land_63. rewrite lor_bit_set; [|apply Z.mod_pos_bound; lia|done].
  apply list_insert_id. unfold word_at.
  destruct (ws !! Z.to_nat (x / 64)) as [w|] eqn:E; [done|].
  apply lookup_ge_None in E. pose proof (u16_word x Hx). lia.
Qed.

(** [add] of a member leaves a leaf bucket as it is. *)
Lemma bucket16_add_member b x :
  wf16 b -> u16 x -> bucket16_has b x = true -> snd (bucket16_add b x) = b.
Proof.
  intros (_ & _ & Hrep) Hx Hh. destruct b as [[ws|] n pool]; simp_rec.
  - rewrite (bucket16_add_bits _ ws) by done. simp_rec.
    rewrite has_Bits in Hh. destruct Hrep as [Hl _].
    by rewrite add_bit_member.
  - unfold bucket16_add, addToSmallPool; simp_rec.
    unfold bucket16_has in Hh; simp_rec. by rewrite Hh.
Qed.

Lemma add_at_member b i k lo :
  wf32 b -> u16 lo -> b16his b !! i = Some k ->
  has_entry (get16 b k) lo = true ->
  same_arrays (snd (add_at b i lo)) b.
Proof.
  intros Hwf Hlo Hi Hh.
  destruct (wf32_lookup b i k Hwf Hi) as (b16 & Hb & Hg & Hw16).
  rewrite Hg in Hh. simpl in Hh.
  pose proof (bucket16_add_member b16 lo Hw16 Hlo Hh) as Hid.
  unfold add_at, same_arrays. rewrite Hb.
  destruct (bucket16_add b16 lo) as [ok b16']. simp_rec. subst b16'.
  split_and!; try done. by apply list_insert_id.
Qed.

(** [add] of a member changes at most the hint of a mid bucket. *)
Lemma bucket32_add_member b x :
  wf32 b -> bucket32_has b x = true ->
  same_arrays (snd (bucket32_add b x)) b.
Proof.
  intros Hwf Hh. rewrite bucket32_has_spec in Hh by done.
  pose proof Hwf as (_ & Hlen & _).
  destruct (get16 b (hi16_of x)) as [b16|] eqn:Eg; [|done].
  assert (exists i, b16his b !! i = Some (hi16_of x)) as [i Hi].
  { rewrite get16_index in Eg by done.
    destruct (index_of (b16his b) (hi16_of x)) as [i|] eqn:E; [|done].
    exists i. by apply index_of_Some. }
  destruct (add_hint_free b x Hwf) as [_ Hsa].
  eapply same_arrays_trans; [exact Hsa|].
  pose proof (slow_index b _ _ Hwf Hi) as Hslow. unfold addSlow.
  assert (same_arrays (snd (add_at (set_hint b i) i (lo16_of x))) b) as Hat.
  { change (same_arrays (snd (add_at (set_hint b i) i (lo16_of x)))
                        (set_hint b i)).
    apply (add_at_member _ i (hi16_of x)); try done.
    - apply to_u16_range.
    - change (get16 (set_hint b i) (hi16_of x)) with (get16 b (hi16_of x)).
      by rewrite Eg. }
  destruct (maxUnsortedBuckets <? length (buckets b))%nat.
  - rewrite Hslow. change (b16his (set_hint b i)) with (b16his b).
    by rewrite Hi, Z.eqb_refl.
  - by rewrite Hslow.
Qed.

(** ** States with the same layout *)

Lemma Forall2_trans_rel {A : Type} (R : A -> A -> Prop) l1 l2 l3 :
  (forall a b c, R a b -> R b c -> R a c) ->
  Forall2 R l1 l2 -> Forall2 R l2 l3 -> Forall2 R l1 l3.
Proof.
  intros HR H12. revert l3. induction H12 as [|a b l1 l2 Hab _ IH];
    intros l3 H23; inversion H23; subst; constructor; eauto.
Qed.

Lemma same16_trans a b c : same16 a b -> same16 b c -> same16 a c.
Proof.
  intros (_ & H2 & H3 & H4) (H5 & H6 & H7 & H8).
  split_and!; [done|congruence..|]. intros v. by rewrite H8.
Qed.

Lemma Forall2_same16_refl bs : Forall wf16 bs -> Forall2 same16 bs bs.
Proof. induction 1; constructor; [by apply same16_refl|done]. Qed.

Lemma sim32_refl b : wf32 b -> sim32 b b.
Proof.
  intros Hwf. split_and!; try done. pose proof Hwf as (_ & _ & _ & _ & Hbs & _).
  by apply Forall2_same16_refl.
Qed.

Lemma sim32_trans a b c : sim32 a b -> sim32 b c -> sim32 a c.
Proof.
  intros (_ & H2 & H3 & H4) (H5 & H6 & H7 & H8).
  split_and!; [done|congruence..|].
  eapply Forall2_trans_rel; [apply same16_trans|done..].
Qed.

Lemma sim32_same_arrays b b' : wf32 b -> same_arrays b' b -> sim32 b b'.
Proof.
  intros Hwf (H1 & H2 & H3). destruct b, b'. simp_rec. subst.
  split_and!; try done. pose proof Hwf as (_ & _ & _ & _ & Hbs & _).
  simp_rec. by apply Forall2_same16_refl.
Qed.

Lemma sim32_same32 b b' : wf32 b -> sim32 b b' -> same32 b b'.
Proof.
  intros Hwf (_ & H2 & H3 & H4).
  pose proof (same_leaves b (buckets b') (hint b') Hwf H4) as Hs.
  destruct b'. simp_rec. by subst.
Qed.

Lemma sim_intro s bs' :
  wfSet s -> Forall2 sim32 (buckets32 s) bs' ->
  sim s (MkSet (itemsCount s) bs').
Proof.
  intros Hwf Hsim. pose proof Hwf as (_ & Hwf32 & _).
  assert (Forall2 same32 (buckets32 s) bs') as Hsame.
  { clear Hwf. induction Hsim as [|b b' bs bs' Hb _ IH]; [constructor|].
    apply Forall_cons in Hwf32 as [Hwb Hwf32].
    constructor; [by apply sim32_same32|by apply IH]. }
  destruct (same32_set s bs' Hwf Hsame) as [Hwf' _]. by split_and!.
Qed.

Lemma sim_refl s : wfSet s -> sim s s.
Proof.
  intros Hwf. split_and!; try done. pose proof Hwf as (_ & Hwf32 & _).
  clear Hwf. induction Hwf32; constructor; [by apply sim32_refl|done].
Qed.

Lemma sim_trans a b c : sim a b -> sim b c -> sim a c.
Proof.
  intros (_ & H2 & H3) (H4 & H5 & H6). split_and!; [done|congruence|].
  eapply Forall2_trans_rel; [apply sim32_trans|done..].
Qed.

Lemma sim_has s s' x : wfSet s -> sim s s' -> Set_Has s' x = Set_Has s x.
Proof.
  intros Hwf (_ & _ & Hsim). pose proof Hwf as (_ & Hwf32 & _).
  assert (Forall2 same32 (buckets32 s) (buckets32 s')) as Hsame.
  { clear Hwf. induction Hsim as [|b b' bs bs' Hb _ IH]; [constructor|].
    apply Forall_cons in Hwf32 as [Hwb Hwf32].
    constructor; [by apply sim32_same32|by apply IH]. }
  rewrite !Set_Has_find.
  by destruct (same32_find (hi32_of x) _ _ (lo32_of x) Hsame)
    as (_ & _ & _ & _ & ->).
Qed.
(** ** The walk of [s.Union(s)] *)

Lemma Forall2_sim32_refl bs : Forall wf32 bs -> Forall2 sim32 bs bs.
Proof. induction 1; constructor; [by apply sim32_refl|done]. Qed.

Lemma Add_loop_member bs h lo :
  Forall wf32 bs -> has32_opt (find32 bs h) lo = true ->
  exists bs', Add_loop bs h lo = Some (false, bs') /\ Forall2 sim32 bs bs'.
Proof.
  induction 1 as [|b bs Hb Hbs IH]; intros Hh; [done|]. simpl in *.
  destruct (hi b =? h).
  - simpl in Hh. pose proof (bucket32_add_fst b lo Hb) as Hf.
    pose proof (bucket32_add_member b lo Hb Hh) as Hsa.
    rewrite Hh in Hf. destruct (bucket32_add b lo) as [ok b']. simp_rec.
    subst ok. eexists. split; [done|].
    constructor; [by apply sim32_same_arrays|by apply Forall2_sim32_refl].
  - destruct (IH Hh) as (bs' & -> & Hsim). eexists. split; [done|].
    constructor; [by apply sim32_refl|done].
Qed.

Lemma Set_Add_member s x :
  wfSet s -> Set_Has s x = true ->
  sim s (Set_Add s x) /\ self_add x s = Some (Set_Add s x).
Proof.
  intros Hwf Hh. pose proof Hwf as (_ & Hwf32 & _).
  rewrite Set_Has_find in Hh.
  destruct (Add_loop_member _ _ _ Hwf32 Hh) as (bs' & Hadd & Hsim).
  assert (Set_Add s x = MkSet (itemsCount s) bs') as Heq
    by (unfold Set_Add; by rewrite Hadd).
  split.
  - rewrite Heq. by apply sim_intro.
  - unfold self_add. rewrite Heq; simp_rec.
    rewrite <- (Forall2_length _ _ _ Hsim). by rewrite Nat.eqb_refl.
Qed.

Lemma get_leaf_Some s i j b32 k b16 :
  get_leaf s i j = Some (b32, k, b16) <->
  buckets32 s !! i = Some b32 /\ b16his b32 !! j = Some k /\
  buckets b32 !! j = Some b16.
Proof.
  unfold get_leaf. destruct (buckets32 s !! i) as [b|]; simpl;
    [|split; [done|by intros (? & _)]].
  destruct (b16his b !! j) as [k'|] eqn:Ek; simpl;
    [|split; [done|intros ([= ->] & ? & _); congruence]].
  destruct (buckets b !! j) as [b'|] eqn:Eb; simpl.
  - split; [by intros [= -> -> ->]|].
    intros ([= ->] & ? & ?). congruence.
  - split; [done|intros ([= ->] & _ & ?); congruence].
Qed.

Lemma set_leaf_sim s i j b32 k b16 b16' :
  wfSet s -> get_leaf s i j = Some (b32, k, b16) -> same16 b16 b16' ->
  sim s (set_leaf s i j b16').
Proof.
  intros Hwf (Hi & Hk & Hj)%get_leaf_Some Hsame.
  pose proof Hwf as (_ & Hwf32 & _).
  assert (wf32 b32) as Hb by by eapply Forall_lookup_1.
  pose proof Hb as (_ & _ & _ & _ & Hbs & _).
  unfold set_leaf. rewrite Hi. apply sim_intro; [done|]. simp_rec.
  rewrite <- (list_insert_id (buckets32 s) i b32) at 1 by done.
  apply Forall2_insert; [by apply Forall2_sim32_refl|].
  assert (Forall2 same16 (buckets b32) (<[j := b16']> (buckets b32))) as Hf2.
  { rewrite <- (list_insert_id (buckets b32) j b16) at 1 by done.
    apply Forall2_insert; [by apply Forall2_same16_refl|done]. }
  destruct (same_leaves b32 _ (hint b32) Hb Hf2) as (Hwf' & _).
  by split_and!.
Qed.

Lemma leaf_members s i j b32 k b16 v :
  wfSet s -> get_leaf s i j = Some (b32, k, b16) -> v ∈ elems16 b16 ->
  u64 (base_of (hi b32) k + v) /\ Set_Has s (base_of (hi b32) k + v) = true.
Proof.
  intros Hwf (Hi & Hk & Hj)%get_leaf_Some Hv.
  apply elemsSet_elem; [done|]. rewrite <- stored_all_perm.
  apply elem_of_flat_map. exists b32. split; [by eapply list_elem_of_lookup_2|].
  unfold stored32, elems_entries. apply elem_of_flat_map.
  exists (k, b16). split.
  - eapply list_elem_of_lookup_2. by apply lookup_zip_Some.
  - unfold elems_entry; simp_rec. apply list_elem_of_fmap. by exists v.
Qed.

Lemma self_adds_ok part : forall s,
  wfSet s -> Forall (fun x => Set_Has s x = true) part ->
  exists s', self_adds part s = Some s' /\ sim s s'.
Proof.
  induction part as [|x part IH]; intros s Hwf Hall.
  - exists s. split; [done|by apply sim_refl].
  - apply Forall_cons in Hall as [Hx Hall]. cbn [self_adds].
    destruct (Set_Add_member s x Hwf Hx) as [Hsim ->]. simpl.
    destruct (IH (Set_Add s x)) as (s' & -> & Hsim').
    + by destruct Hsim.
    + eapply Forall_impl; [exact Hall|]. intros y Hy. simpl.
      by rewrite (sim_has s).
    + exists s'. split; [done|]. by eapply sim_trans.
Qed.

(** The number of leaf buckets of the mid bucket at index [i]. *)
Lemma sim_lookup s s' i b :
  sim s s' -> buckets32 s !! i = Some b ->
  exists b', buckets32 s' !! i = Some b' /\
             length (buckets b') = length (buckets b) /\
             length (b16his b') = length (b16his b).
Proof.
  intros (_ & _ & Hsim) Hi.
  destruct (Forall2_lookup_l _ _ _ _ _ Hsim Hi) as (b' & Hi' & (_ & _ & Hk & Hf)).
  exists b'. split_and!; [done| |by rewrite Hk].
  symmetry. by eapply Forall2_length.
Qed.

Lemma self_forEach32_ok i js : forall s b,
  wfSet s -> buckets32 s !! i = Some b ->
  Forall (fun j => (j < length (buckets b))%nat) js ->
  exists s', self_forEach32 i js s = Some s' /\ sim s s'.
Proof.
  induction js as [|j js IH]; intros s b Hwf Hi Hjs.
  - exists s. split; [done|by apply sim_refl].
  - apply Forall_cons in Hjs as [Hj Hjs]. cbn [self_forEach32].
    pose proof Hwf as (_ & Hwf32 & _).
    assert (wf32 b) as Hb by by eapply Forall_lookup_1.
    pose proof Hb as (_ & Hlen & Hkeys & _ & Hbs & _).
    destruct (lookup_lt_is_Some_2 (buckets b) j Hj) as [b16 Hb16].
    destruct (lookup_lt_is_Some_2 (b16his b) j ltac:(lia)) as [k Hk].
    assert (get_leaf s i j = Some (b, k, b16)) as Hleaf
      by by apply get_leaf_Some.
    rewrite Hleaf. simpl.
    assert (wf16 b16) as Hw16 by by eapply Forall_lookup_1.
    assert (u16 k) as Hku by by eapply Forall_lookup_1.
    destruct (bucket16_appendTo_spec b16 [] (hi b) k Hw16 Hku)
      as (Hbuf & Hwf' & Hel & Hcnt & Hhas).
    destruct (bucket16_appendTo b16 [] (hi b) k) as [buf b16']. simp_rec.
    rewrite app_nil_l in Hbuf. subst buf.
    pose proof (set_leaf_sim s i j b k b16 b16' Hwf Hleaf
                  ltac:(by split_and!)) as Hsim1.
    destruct (self_adds_ok (map (fun v => base_of (hi b) k + v) (elems16 b16))
                (set_leaf s i j b16')) as (s1 & -> & Hsim2).
    + by destruct Hsim1.
    + apply Forall_forall. intros x (v & -> & Hv)%list_elem_of_fmap.
      rewrite (sim_has s) by done.
      by destruct (leaf_members s i j b k b16 v Hwf Hleaf Hv).
    + simpl. pose proof (sim_trans _ _ _ Hsim1 Hsim2) as Hsim.
      destruct (sim_lookup s s1 i b Hsim Hi) as (b1 & Hi1 & Hl1 & _).
      destruct (IH s1 b1) as (s' & -> & Hsim'); [by destruct Hsim|done| |].
      * by rewrite Hl1.
      * exists s'. split; [done|]. by eapply sim_trans.
Qed.

Lemma self_ForEach_ok idxs : forall s,
  wfSet s -> Forall (fun i => (i < length (buckets32 s))%nat) idxs ->
  exists s', self_ForEach idxs s = Some s' /\ sim s s'.
Proof.
  induction idxs as [|i idxs IH]; intros s Hwf Hall.
  - exists s. split; [done|by apply sim_refl].
  - apply Forall_cons in Hall as [Hi Hall]. cbn [self_ForEach].
    destruct (lookup_lt_is_Some_2 (buckets32 s) i Hi) as [b Hb].
    rewrite Hb. simpl.
    destruct (self_forEach32_ok i (seq 0 (length (buckets b))) s b Hwf Hb)
      as (s1 & -> & Hsim1).
    { apply Forall_forall. intros j Hj%list_elem_of_In%in_seq. lia. }
    simpl. destruct (IH s1) as (s' & -> & Hsim'); [by destruct Hsim1| |].
    + destruct Hsim1 as (_ & _ & Hf). rewrite <- (Forall2_length _ _ _ Hf).
      done.
    + exists s'. split; [done|]. by eapply sim_trans.
Qed.

Theorem Set_Union_self_spec s :
  wfSet s ->
  exists s', Set_Union_self s = Some s' /\ sim s s'.
Proof.
  intros Hwf. unfold Set_Union_self.
  destruct (itemsCount s =? 0).
  - exists s. split; [done|by apply sim_refl].
  - apply self_ForEach_ok; [done|].
    apply Forall_forall. intros j Hj%list_elem_of_In%in_seq. lia.
Qed.
(** ** Claim C6 *)

(** C6: for well-formed sets [s] and [a], after [s.Union(a)] the receiver
    holds exactly the members of [s] and of [a]; [s.Union(a)] and
    [a.Union(s)] give receivers with the same members; and [s.Union(s)],
    where the walk reads the very object it adds to, runs to completion
    and leaves the members and [Len] of [s] as they were. *)
Theorem C6_union_membership s a :
  wfSet s -> wfSet a ->
  (forall x, u64 x ->
     Set_Has (fst (Set_Union s a)) x = Set_Has s x || Set_Has a x) /\
  (forall x, u64 x ->
     Set_Has (fst (Set_Union s a)) x = Set_Has (fst (Set_Union a s)) x) /\
  (exists s', Set_Union_self s = Some s' /\
              Len (Some s') = Len (Some s) /\
              forall x, Set_Has s' x = Set_Has s x).
Proof.
  intros Hs Ha.
  destruct (Set_union_spec s a false Hs Ha) as (_ & Hsa & _).
  destruct (Set_union_spec a s false Ha Hs) as (_ & Has & _).
  split_and!.
  - exact Hsa.
  - intros x Hx. unfold Set_Union. rewrite Hsa, Has by done. apply orb_comm.
  - destruct (Set_Union_self_spec s Hs) as (s' & Heq & Hsim).
    exists s'. split_and!; [done| |].
    + destruct Hsim as (_ & Hc & _). unfold Len. by rewrite Hc.
    + intros x. by apply sim_has.
Qed.

Lemma C6_union_witness :
  wfSet ex_setA /\ wfSet ex_setB /\
  (forall x, u64 x ->
     Set_Has (fst (Set_Union ex_setA ex_setB)) x =
     Set_Has ex_setA x || Set_Has ex_setB x) /\
  (forall x, u64 x ->
     Set_Has (fst (Set_Union ex_setA ex_setB)) x =
     Set_Has (fst (Set_Union ex_setB ex_setA)) x) /\
  (exists s', Set_Union_self ex_setA = Some s' /\
              Len (Some s') = Len (Some ex_setA) /\
              forall x, Set_Has s' x = Set_Has ex_setA x).
Proof.
  assert (wfSet ex_setA) as HA by by_eval.
  assert (wfSet ex_setB) as HB by by_eval.
  split; [exact HA|]. split; [exact HB|].
  exact (C6_union_membership ex_setA ex_setB HA HB).
Defined.
(** ** Heap computations: shapes and totality *)

Lemma total_ret {A} h (a : A) (Q : A -> heap -> Prop) :
  Q a h -> total h (hret a) Q.
Proof. intros HQ. by exists a, h. Qed.

Lemma total_bind {A B} h (m : M A) (k : A -> M B) Q :
  total h m (fun a h' => total h' (k a) Q) -> total h (hbind m k) Q.
Proof.
  intros (a & h' & Hm & b & h'' & Hk & HQ). exists b, h''.
  unfold hbind. by rewrite Hm.
Qed.

Lemma total_mono {A} h (m : M A) (Q Q' : A -> heap -> Prop) :
  total h m Q -> (forall a h', Q a h' -> Q' a h') -> total h m Q'.
Proof. intros (a & h' & Hm & HQ) Himp. exists a, h'. eauto. Qed.

Lemma ext_refl h : ext h h.
Proof. by intros p s. Qed.

Lemma ext_trans h1 h2 h3 : ext h1 h2 -> ext h2 h3 -> ext h1 h3.
Proof. intros H12 H23 p s Hp. eauto. Qed.

Lemma shape_at_Some h (p : nat) c :
  h !! p = Some c -> shape_at h p = Some (shape c).
Proof. intros H. unfold shape_at. by rewrite H. Qed.

Lemma shape_at_lt h p s : shape_at h p = Some s -> (p < length h)%nat.
Proof.
  unfold shape_at. destruct (h !! p) as [c|] eqn:E; [|done].
  intros _. by eapply lookup_lt_Some.
Qed.

Lemma ext_length h h' : ext h h' -> (length h <= length h')%nat.
Proof.
  intros Hext. destruct (decide (length h = O)) as [->|Hne]; [lia|].
  assert (is_Some (h !! (length h - 1)%nat)) as [c Hc]
    by (apply lookup_lt_is_Some; lia).
  pose proof (shape_at_Some _ _ _ Hc) as Hs.
  apply Hext, shape_at_lt in Hs. lia.
Qed.

Lemma ext_insert h p c c0 :
  h !! p = Some c0 -> shape c = shape c0 -> ext h (<[p := c]> h).
Proof.
  intros Hp Hs q s. unfold shape_at.
  destruct (decide (q = p)) as [->|Hne].
  - rewrite list_lookup_insert_eq by by eapply lookup_lt_Some.
    rewrite Hp. simpl. by rewrite Hs.
  - by rewrite list_lookup_insert_ne.
Qed.

Lemma ext_app h c : ext h (h ++ [c]).
Proof.
  intros q s Hq. pose proof (shape_at_lt _ _ _ Hq).
  unfold shape_at in *. by rewrite lookup_app_l.
Qed.

Lemma slice_len_ext h h' k o n :
  ext h h' -> slice_len h k o n -> slice_len h' k o n.
Proof. intros Hext. destruct o; simpl; [apply Hext|done]. Qed.

Lemma ok_leaf_ext h h' l : ext h h' -> ok_leaf h l -> ok_leaf h' l.
Proof. intros Hext. unfold ok_leaf. destruct (h_bits l); [apply Hext|done]. Qed.

Lemma ok_mid_ext h h' b : ext h h' -> ok_mid h b -> ok_mid h' b.
Proof.
  intros Hext (n & H1 & H2). exists n. split; by eapply slice_len_ext.
Qed.

Lemma ok_cell_ext h h' c : ext h h' -> ok_cell h c -> ok_cell h' c.
Proof.
  intros Hext. destruct c; simpl; try done.
  - intros (n & Hn). exists n. by eapply slice_len_ext.
  - intros H. eapply Forall_impl; [exact H|]. intros b. by apply ok_mid_ext.
  - intros H. eapply Forall_impl; [exact H|]. intros b. by apply ok_leaf_ext.
Qed.

Lemma wt_lookup h p c : wt h -> h !! p = Some c -> ok_cell h c.
Proof. intros Hwt Hp. by eapply Forall_lookup_1. Qed.

Lemma wt_insert h p c c0 :
  wt h -> h !! p = Some c0 -> shape c = shape c0 -> ok_cell h c ->
  wt (<[p := c]> h).
Proof.
  intros Hwt Hp Hs Hc. pose proof (ext_insert h p c c0 Hp Hs) as Hext.
  unfold wt. apply Forall_insert.
  - eapply Forall_impl; [exact Hwt|]. intros c'. by apply ok_cell_ext.
  - by eapply ok_cell_ext.
Qed.

Lemma wt_app h c : wt h -> ok_cell h c -> wt (h ++ [c]).
Proof.
  intros Hwt Hc. pose proof (ext_app h c) as Hext.
  unfold wt. apply Forall_app. split.
  - eapply Forall_impl; [exact Hwt|]. intros c'. by apply ok_cell_ext.
  - constructor; [by eapply ok_cell_ext|constructor].
Qed.

(** Typed reads of well-shaped slices. *)
Lemma shape_at_kind h p k n :
  shape_at h p = Some (k, n) ->
  exists c, h !! p = Some c /\ shape c = (k, n).
Proof.
  unfold shape_at. destruct (h !! p) as [c|]; [|done].
  intros [= Hs]. by exists c.
Qed.

Lemma heap_keys_len h o n :
  slice_len h KKeys o n ->
  exists ks, heap_keys h o = Some ks /\ length ks = n.
Proof.
  destruct o as [p|]; simpl.
  - intros (c & Hc & Hs)%shape_at_kind. rewrite Hc.
    destruct c; simplify_eq/=. by eexists.
  - intros ->. by exists [].
Qed.

Lemma heap_leaves_len h o n :
  slice_len h KLeaves o n ->
  exists ls, heap_leaves h o = Some ls /\ length ls = n.
Proof.
  destruct o as [p|]; simpl.
  - intros (c & Hc & Hs)%shape_at_kind. rewrite Hc.
    destruct c; simplify_eq/=. by eexists.
  - intros ->. by exists [].
Qed.

Lemma heap_mids_len h o n :
  slice_len h KMids o n ->
  exists bs, heap_mids h o = Some bs /\ length bs = n.
Proof.
  destruct o as [p|]; simpl.
  - intros (c & Hc & Hs)%shape_at_kind. rewrite Hc.
    destruct c; simplify_eq/=. by eexists.
  - intros ->. by exists [].
Qed.

Lemma loadKeys_run h o ks :
  heap_keys h o = Some ks -> loadKeys o h = Some (ks, h).
Proof.
  destruct o as [p|]; simpl; [|by intros [= <-]].
  unfold hbind, load. destruct (h !! p) as [[]|]; simpl; try done.
  by intros [= ->].
Qed.

Lemma loadLeaves_run h o ls :
  heap_leaves h o = Some ls -> loadLeaves o h = Some (ls, h).
Proof.
  destruct o as [p|]; simpl; [|by intros [= <-]].
  unfold hbind, load. destruct (h !! p) as [[]|]; simpl; try done.
  by intros [= ->].
Qed.

Lemma loadMids_run h o bs :
  heap_mids h o = Some bs -> loadMids o h = Some (bs, h).
Proof.
  destruct o as [p|]; simpl; [|by intros [= <-]].
  unfold hbind, load. destruct (h !! p) as [[]|]; simpl; try done.
  by intros [= ->].
Qed.

Lemma loadBits_run h p :
  shape_at h p = Some (KBits, O) ->
  exists ws, h !! p = Some (CBits ws) /\ loadBits p h = Some (ws, h).
Proof.
  intros (c & Hc & Hs)%shape_at_kind. destruct c; simplify_eq/=.
  eexists. split; [done|]. unfold loadBits, hbind, load. by rewrite Hc.
Qed.

Lemma loadSet_run h p :
  shape_at h p = Some (KSet, O) ->
  exists s, h !! p = Some (CSet s) /\ loadSet p h = Some (s, h).
Proof.
  intros (c & Hc & Hs)%shape_at_kind. destruct c; simplify_eq/=.
  eexists. split; [done|]. unfold loadSet, hbind, load. by rewrite Hc.
Qed.

(** What well-typedness says about the elements of an array cell. *)
Lemma heap_mids_ok h o bs b :
  wt h -> heap_mids h o = Some bs -> b ∈ bs -> ok_mid h b.
Proof.
  intros Hwt Ho Hb. destruct o as [p|]; simpl in Ho.
  - destruct (h !! p) as [[]|] eqn:Hp; simplify_eq.
    pose proof (wt_lookup _ _ _ Hwt Hp) as Hok. simpl in Hok.
    by eapply Forall_forall in Hok.
  - simplify_eq. by apply elem_of_nil in Hb.
Qed.

Lemma heap_leaves_ok h o ls l :
  wt h -> heap_leaves h o = Some ls -> l ∈ ls -> ok_leaf h l.
Proof.
  intros Hwt Ho Hb. destruct o as [p|]; simpl in Ho.
  - destruct (h !! p) as [[]|] eqn:Hp; simplify_eq.
    pose proof (wt_lookup _ _ _ Hwt Hp) as Hok. simpl in Hok.
    by eapply Forall_forall in Hok.
  - simplify_eq. by apply elem_of_nil in Hb.
Qed.
(** ** Writes stay inside the receiver's storage *)

Lemma elem_of_flat_map_gen {A B} (f : A -> list B) l y :
  y ∈ flat_map f l <-> exists x, x ∈ l /\ y ∈ f x.
Proof.
  rewrite list_elem_of_In, in_flat_map. split.
  - intros (x & Hx & Hy). exists x. by rewrite !list_elem_of_In.
  - intros (x & Hx & Hy). exists x. by rewrite <- !list_elem_of_In.
Qed.

Section Frame.
Variables (h0 : list cell) (F : list nat).

Local Abbreviation Inv' := (Inv h0 F).
Local Abbreviation kept h := (fun h' => Inv h0 F h' /\ ext h h').

Lemma Fo_Wo o : Fo F o -> Wo h0 F o.
Proof. intros H p Hp. left. by apply H. Qed.

Lemma store_rule h p c c0 :
  Inv' h -> W h0 F p -> h !! p = Some c0 -> shape c = shape c0 ->
  ok_cell h c -> (p ∈ F -> ptrs c ⊆ F) ->
  total h (store p c) (fun _ => kept h).
Proof.
  intros (Hlen & Hfr & HF & Hwt & Hcl) HW Hp Hs Hok Hptr.
  pose proof (lookup_lt_Some _ _ _ Hp) as Hlt.
  exists tt, (<[p := c]> h). split.
  { unfold store. by rewrite decide_True. }
  split; [|by eapply ext_insert].
  split_and!.
  - by rewrite length_insert.
  - intros q Hq Hq0. rewrite list_lookup_insert_ne; [by apply Hfr|].
    intros ->. destruct HW as [HW|HW]; [done|lia].
  - done.
  - by eapply wt_insert.
  - intros q c' Hq Hc'. destruct (decide (q = p)) as [->|Hne].
    + rewrite list_lookup_insert_eq in Hc' by done. simplify_eq.
      by apply Hptr.
    + rewrite list_lookup_insert_ne in Hc' by done. by eapply Hcl.
Qed.

Lemma alloc_rule h c :
  Inv' h -> ok_cell h c ->
  total h (alloc c)
    (fun p h' => kept h h' /\ (length h0 <= p)%nat /\
                 shape_at h' p = Some (shape c)).
Proof.
  intros (Hlen & Hfr & HF & Hwt & Hcl) Hok.
  exists (length h), (h ++ [c]). split; [done|].
  assert (length (h ++ [c]) = S (length h)) as Hl
    by (rewrite length_app; simpl; lia).
  split; [split; [|apply ext_app]|split; [lia|]].
  - split_and!.
    + lia.
    + intros q Hq Hq0. rewrite lookup_app_l by lia. by apply Hfr.
    + done.
    + by apply wt_app.
    + intros q c' Hq Hc'. rewrite lookup_app_l in Hc'; [by eapply Hcl|].
      apply HF in Hq. lia.
  - apply shape_at_Some. rewrite lookup_app_r by lia.
    by rewrite Nat.sub_diag.
Qed.

Lemma alloc_slice_rule {A} h (mk : list A -> cell) (l : list A) k :
  Inv' h -> ok_cell h (mk l) -> shape (mk l) = (k, length l) ->
  total h (alloc_slice mk l)
    (fun o h' => kept h h' /\ Wo h0 F o /\ slice_len h' k o (length l)).
Proof.
  intros HI Hok Hs. destruct l as [|x l].
  - apply total_ret. split_and!; [done|apply ext_refl| |done].
    by intros p.
  - unfold alloc_slice. apply total_bind.
    eapply total_mono; [by apply alloc_rule|].
    intros p h' ((HI' & Hext) & Hp & Hsh). apply total_ret.
    split_and!; [done|done| |].
    + intros q [= <-]. by right.
    + simpl. by rewrite Hsh, Hs.
Qed.

Lemma store_slice_rule h o c k n :
  Inv' h -> Wo h0 F o -> slice_len h k o n -> shape c = (k, n) ->
  ok_cell h c ->
  (forall p, o = Some p -> p ∈ F -> ptrs c ⊆ F) ->
  total h (store_slice o c) (fun _ => kept h).
Proof.
  intros HI HW Hsl Hs Hok Hptr. destruct o as [p|]; simpl.
  - simpl in Hsl. destruct (shape_at_kind _ _ _ _ Hsl) as (c0 & Hc0 & Hs0).
    eapply store_rule; try done; [by apply HW|congruence|].
    by apply Hptr.
  - apply total_ret. split; [done|apply ext_refl].
Qed.

Lemma flat_map_insert_subseteq {A} (f : A -> list nat) l i x (X : list nat) :
  flat_map f l ⊆ X -> f x ⊆ X -> flat_map f (<[i := x]> l) ⊆ X.
Proof.
  intros Hl Hx p (y & Hy & Hp)%elem_of_flat_map_gen.
  apply list_elem_of_lookup in Hy as [j Hj].
  destruct (decide (j = i)) as [->|Hne].
  - destruct (decide (i < length l)%nat).
    + rewrite list_lookup_insert_eq in Hj by done. simplify_eq.
      by apply Hx.
    + rewrite list_insert_ge in Hj by lia. apply Hl.
      apply elem_of_flat_map_gen. exists y. split; [|done].
      by eapply list_elem_of_lookup_2.
  - rewrite list_lookup_insert_ne in Hj by done. apply Hl.
    apply elem_of_flat_map_gen. exists y. split; [|done].
    by eapply list_elem_of_lookup_2.
Qed.

Lemma storeLeaf_rule h o i l n :
  Inv' h -> Fo F o -> slice_len h KLeaves o n -> (i < n)%nat ->
  ok_leaf h l -> fp16 l ⊆ F ->
  total h (storeLeaf o i l) (fun _ => kept h).
Proof.
  intros HI HF Hsl Hi Hok Hfp.
  destruct (heap_leaves_len _ _ _ Hsl) as (ls & Hls & Hlen).
  destruct o as [p|]; [|simpl in Hsl; lia].
  unfold storeLeaf. apply total_bind.
  exists ls, h. split; [by apply loadLeaves_run|].
  rewrite decide_True by lia.
  simpl in Hls. destruct (h !! p) as [[]|] eqn:Hp; simplify_eq.
  pose proof HI as (_ & _ & _ & Hwt & Hcl).
  eapply store_rule; try done.
  - left. by apply HF.
  - simpl. by rewrite length_insert.
  - simpl. apply Forall_insert; [|done].
    by apply (wt_lookup _ _ _ Hwt Hp).
  - intros Hin. simpl. apply flat_map_insert_subseteq; [|done].
    by apply (Hcl _ _ Hin Hp).
Qed.

Lemma storeMid_rule h o i b n :
  Inv' h -> Fo F o -> slice_len h KMids o n -> (i < n)%nat ->
  ok_mid h b -> option_list (h_b16his b) ++ option_list (h_buckets b) ⊆ F ->
  total h (storeMid o i b) (fun _ => kept h).
Proof.
  intros HI HF Hsl Hi Hok Hfp.
  destruct (heap_mids_len _ _ _ Hsl) as (ls & Hls & Hlen).
  destruct o as [p|]; [|simpl in Hsl; lia].
  unfold storeMid. apply total_bind.
  exists ls, h. split; [by apply loadMids_run|].
  rewrite decide_True by lia.
  simpl in Hls. destruct (h !! p) as [[]|] eqn:Hp; simplify_eq.
  pose proof HI as (_ & _ & _ & Hwt & Hcl).
  eapply store_rule; try done.
  - left. by apply HF.
  - simpl. by rewrite length_insert.
  - simpl. apply Forall_insert; [|done].
    by apply (wt_lookup _ _ _ Hwt Hp).
  - intros Hin. simpl.
    apply (flat_map_insert_subseteq
             (fun b => option_list (h_b16his b) ++ option_list (h_buckets b)));
      [|done].
    by apply (Hcl _ _ Hin Hp).
Qed.
End Frame.
(** ** The leaf level on the heap *)

Lemma loadLeaf_run h o i ls l :
  heap_leaves h o = Some ls -> ls !! i = Some l ->
  loadLeaf o i h = Some (l, h).
Proof.
  intros Hls Hl. unfold loadLeaf, hbind.
  rewrite (loadLeaves_run _ _ _ Hls). by rewrite Hl.
Qed.

Lemma loadMid_run h o i bs b :
  heap_mids h o = Some bs -> bs !! i = Some b ->
  loadMid o i h = Some (b, h).
Proof.
  intros Hls Hl. unfold loadMid, hbind.
  rewrite (loadMids_run _ _ _ Hls). by rewrite Hl.
Qed.

Lemma leaf_value_run h l :
  ok_leaf h l -> exists v, leaf_value l h = Some (v, h).
Proof.
  unfold ok_leaf, leaf_value. destruct (h_bits l) as [p|]; [|by eexists].
  intros (ws & Hp & Hrun)%loadBits_run. eexists. unfold hbind.
  by rewrite Hrun.
Qed.

Lemma total_run {A} h (m : M A) a (Q : A -> list cell -> Prop) :
  m h = Some (a, h) -> Q a h -> total h m Q.
Proof. intros Hm HQ. by exists a, h. Qed.

Section FrameLeaf.
Variables (h0 : list cell) (F : list nat).

Local Abbreviation kept h := (fun h' => Inv h0 F h' /\ ext h h').

Lemma kept_seq {A B} h (m : M A) (k : A -> M B) :
  total h m (fun _ => kept h) ->
  (forall a h1, Inv h0 F h1 -> ext h h1 ->
     total h1 (k a) (fun _ => kept h1)) ->
  total h (hbind m k) (fun _ => kept h).
Proof.
  intros Hm Hk. apply total_bind. eapply total_mono; [exact Hm|].
  intros a h1 (HI & Hext). cbn beta.
  eapply total_mono; [by apply Hk|].
  intros b h2 (HI2 & Hext2). cbn beta.
  split; [done|by eapply ext_trans].
Qed.

Lemma kept_ret {A} h (a : A) : Inv h0 F h -> total h (hret a) (fun _ => kept h).
Proof. intros HI. apply total_ret. split; [done|apply ext_refl]. Qed.

Lemma leaf_in_F h o ls l :
  Inv h0 F h -> Fo F o -> heap_leaves h o = Some ls -> l ∈ ls ->
  fp16 l ⊆ F.
Proof.
  intros (_ & _ & _ & _ & Hcl) HF Hls Hl. destruct o as [p|]; simpl in Hls.
  - destruct (h !! p) as [[]|] eqn:Hp; simplify_eq.
    pose proof (Hcl p _ (HF p eq_refl) Hp) as Hsub. simpl in Hsub.
    intros q Hq. apply Hsub, elem_of_flat_map_gen. by exists l.
  - simplify_eq. by apply elem_of_nil in Hl.
Qed.

Lemma leaf_write_rule h o i l v n :
  Inv h0 F h -> Fo F o -> slice_len h KLeaves o n -> (i < n)%nat ->
  ok_leaf h l -> fp16 l ⊆ F ->
  total h (leaf_write o i l v) (fun _ => kept h).
Proof.
  intros HI HF Hsl Hi Hok Hfp. unfold leaf_write.
  assert (total h
            (storeLeaf o i (HBucket16 (h_bits l) (smallPoolLen v) (smallPool v)))
            (fun _ => kept h)) as Hplain
    by (by eapply storeLeaf_rule).
  destruct (h_bits l) as [p|] eqn:Hp; [|done].
  destruct (bits v) as [ws|]; [|done].
  assert (shape_at h p = Some (KBits, O)) as Hsh
    by (unfold ok_leaf in Hok; by rewrite Hp in Hok).
  assert (p ∈ F) as HpF.
  { apply Hfp. unfold fp16. rewrite Hp. simpl. by left. }
  destruct (shape_at_kind _ _ _ _ Hsh) as (c0 & Hc0 & Hs0).
  apply kept_seq.
  - eapply (store_rule h0 F h p _ c0);
      [done|by left|done|simpl; by rewrite Hs0|done|].
    intros _ q Hq. by apply elem_of_nil in Hq.
  - intros _ h1 HI1 Hext. eapply storeLeaf_rule; try done.
    + by eapply slice_len_ext.
    + unfold ok_leaf. simpl. by apply Hext.
    + unfold fp16. simpl. intros q Hq. apply Hfp. unfold fp16.
      by rewrite Hp.
Qed.

Lemma h_bucket16_intersect_rule h bl i al j n m :
  Inv h0 F h -> Fo F bl ->
  slice_len h KLeaves bl n -> (i < n)%nat ->
  slice_len h KLeaves al m -> (j < m)%nat ->
  total h (h_bucket16_intersect bl i al j) (fun _ => kept h).
Proof.
  intros HI HF Hbl Hi Hal Hj.
  pose proof HI as (_ & _ & _ & Hwt & _).
  destruct (heap_leaves_len _ _ _ Hbl) as (bls & Hbls & Hblen).
  destruct (heap_leaves_len _ _ _ Hal) as (als & Hals & Halen).
  destruct (lookup_lt_is_Some_2 bls i) as [b Hb]; [lia|].
  destruct (lookup_lt_is_Some_2 als j) as [a Ha]; [lia|].
  pose proof (list_elem_of_lookup_2 _ _ _ Hb) as Hbin.
  pose proof (list_elem_of_lookup_2 _ _ _ Ha) as Hain.
  pose proof (heap_leaves_ok h bl bls b Hwt Hbls Hbin) as Hokb.
  pose proof (heap_leaves_ok h al als a Hwt Hals Hain) as Hoka.
  pose proof (leaf_in_F h bl bls b HI HF Hbls Hbin) as HbF.
  unfold h_bucket16_intersect.
  apply total_bind. eapply total_run; [by eapply loadLeaf_run|].
  apply total_bind. eapply total_run; [by eapply loadLeaf_run|].
  assert (total h
    (av <- leaf_value a ;;
     bv <- leaf_value b ;;
     let '(buf, b1) := bucket16_appendTo bv [] 0 0 in
     let '(n, b2) := intersect_slow buf av b1 (Z.of_nat (length buf)) in
     _ <- leaf_write bl i b b2 ;; hret n) (fun _ => kept h)) as Hslow.
  { destruct (leaf_value_run h a Hoka) as (av & Hav).
    destruct (leaf_value_run h b Hokb) as (bv & Hbv).
    apply total_bind. eapply total_run; [done|].
    apply total_bind. eapply total_run; [done|].
    destruct (bucket16_appendTo bv [] 0 0) as [buf b1].
    destruct (intersect_slow buf av b1 _) as [c b2].
    apply kept_seq; [by eapply leaf_write_rule|].
    intros _ h1 HI1 _. by apply kept_ret. }
  destruct (h_bits a) as [ap|] eqn:Hap; [|done].
  destruct (h_bits b) as [bp|] eqn:Hbp; [|done].
  clear Hslow.
  assert (shape_at h ap = Some (KBits, O)) as Hsa
    by (unfold ok_leaf in Hoka; by rewrite Hap in Hoka).
  assert (shape_at h bp = Some (KBits, O)) as Hsb
    by (unfold ok_leaf in Hokb; by rewrite Hbp in Hokb).
  destruct (loadBits_run _ _ Hsa) as (aws & _ & Hra).
  destruct (loadBits_run _ _ Hsb) as (bws & Hbws & Hrb).
  apply total_bind. eapply total_run; [done|].
  apply total_bind. eapply total_run; [done|].
  destruct (intersect_words bws aws) as [c r].
  apply kept_seq.
  - eapply (store_rule h0 F h bp _ (CBits bws)); [done| |done..|].
    + left. apply HbF. unfold fp16. rewrite Hbp. simpl. by left.
    + intros _ q Hq. by apply elem_of_nil in Hq.
  - intros _ h1 HI1 _. by apply kept_ret.
Qed.
End FrameLeaf.
(** ** The mid level on the heap *)

Lemma sorted_pairs_length {A} (ks : list Z) (ls : list A) :
  length ks = length ls ->
  length ((sort_by fst (zip ks ls)).*1) = length ks /\
  length ((sort_by fst (zip ks ls)).*2) = length ks.
Proof.
  intros Hl. rewrite !length_fmap, sort_by_length, length_zip. lia.
Qed.

Lemma sorted_pairs_snd {A} (ks : list Z) (ls : list A) x :
  x ∈ (sort_by fst (zip ks ls)).*2 -> x ∈ ls.
Proof.
  intros ([k y] & -> & Hin)%list_elem_of_fmap.
  rewrite sort_by_perm in Hin. simpl.
  apply list_elem_of_lookup in Hin as [i Hi].
  apply lookup_zip_Some in Hi as [_ Hi]. by eapply list_elem_of_lookup_2.
Qed.

Section FrameMid.
Variables (h0 : list cell) (F : list nat).

Local Abbreviation kept h := (fun h' => Inv h0 F h' /\ ext h h').

Lemma h_bucket32_cloneShallow_rule h b :
  Inv h0 F h -> ok_mid h b ->
  total h (h_bucket32_cloneShallow b)
    (fun a h' => kept h h' /\ ok_mid h' a /\
                 Wo h0 F (h_b16his a) /\ Wo h0 F (h_buckets a)).
Proof.
  intros HI (n & Hk & Hl). pose proof HI as (_ & _ & _ & Hwt & _).
  destruct (heap_keys_len _ _ _ Hk) as (ks & Hks & Hklen).
  destruct (heap_leaves_len _ _ _ Hl) as (ls & Hls & Hllen).
  unfold h_bucket32_cloneShallow.
  apply total_bind. eapply total_run; [by apply loadKeys_run|].
  apply total_bind. eapply total_run; [by apply loadLeaves_run|].
  apply total_bind.
  eapply total_mono; [by apply (alloc_slice_rule h0 F h CKeys ks KKeys)|].
  intros kq h1 ((HI1 & Hext1) & HWk & Hsk). cbn beta.
  apply total_bind.
  eapply total_mono.
  { apply (alloc_slice_rule h0 F h1 CLeaves ls KLeaves); [done| |done].
    simpl. apply Forall_forall. intros l Hin.
    eapply ok_leaf_ext; [done|]. by eapply heap_leaves_ok. }
  intros lq h2 ((HI2 & Hext2) & HWl & Hsl). cbn beta.
  apply total_ret. split_and!; [done|by eapply ext_trans| |done|done].
  exists n. simpl. split.
  - eapply slice_len_ext; [done|]. by rewrite <- Hklen.
  - by rewrite <- Hllen.
Qed.

Lemma h_bucket32_sort_rule h b :
  Inv h0 F h -> ok_mid h b ->
  Wo h0 F (h_b16his b) -> Wo h0 F (h_buckets b) ->
  total h (h_bucket32_sort b) (fun _ => kept h).
Proof.
  intros HI (n & Hk & Hl) HWk HWl.
  pose proof HI as (_ & _ & _ & Hwt & Hcl).
  destruct (heap_keys_len _ _ _ Hk) as (ks & Hks & Hklen).
  destruct (heap_leaves_len _ _ _ Hl) as (ls & Hls & Hllen).
  unfold h_bucket32_sort.
  apply total_bind. eapply total_run; [by apply loadKeys_run|].
  apply total_bind. eapply total_run; [by apply loadLeaves_run|].
  destruct (is_sorted_by id ks); [by apply kept_ret|].
  destruct (sorted_pairs_length ks ls) as [Hl1 Hl2]; [congruence|].
  apply kept_seq.
  - eapply store_slice_rule; [done|done|exact Hk| |done|].
    + simpl. by rewrite Hl1, Hklen.
    + intros p _ _ q Hq. by apply elem_of_nil in Hq.
  - intros _ h1 HI1 Hext.
    eapply store_slice_rule;
      [done|done|by eapply slice_len_ext| | |].
    + simpl. by rewrite Hl2, Hklen.
    + simpl. apply Forall_forall. intros l Hin%sorted_pairs_snd.
      eapply ok_leaf_ext; [done|]. by eapply heap_leaves_ok.
    + intros p Hp HpF. simpl. intros q (l & Hin%sorted_pairs_snd & Hq)%elem_of_flat_map_gen.
      eapply (leaf_in_F h0 F h (h_buckets b) ls l); try done.
      intros p' Hp'. congruence.
Qed.

Lemma h_intersect16_loop_rule bk bl ak al n m fuel :
  forall h i j cnt,
  Inv h0 F h -> Fo F bl ->
  slice_len h KKeys bk n -> slice_len h KLeaves bl n ->
  slice_len h KKeys ak m -> slice_len h KLeaves al m ->
  ((n - i) + (m - j) < fuel)%nat ->
  total h (h_intersect16_loop fuel bk bl ak al i j cnt) (fun _ => kept h).
Proof.
  induction fuel as [|fuel IH]; intros h i j cnt HI HF Hbk Hbl Hak Hal Hfuel;
    [lia|].
  destruct (heap_keys_len _ _ _ Hbk) as (bks & Hbks & Hbklen).
  destruct (heap_keys_len _ _ _ Hak) as (aks & Haks & Haklen).
  cbn [h_intersect16_loop].
  apply total_bind. eapply total_run; [by apply loadKeys_run|].
  apply total_bind. eapply total_run; [by apply loadKeys_run|].
  destruct (bks !! i) as [kb|] eqn:Hi; [|by apply kept_ret].
  apply lookup_lt_Some in Hi.
  assert (forall h1, Inv h0 F h1 -> ext h h1 -> forall j' cnt',
            (j <= j')%nat ->
            total h1 (h_intersect16_loop fuel bk bl ak al (S i) j' cnt')
                  (fun _ => kept h1)) as Hnext.
  { intros h1 HI1 Hext j' cnt' Hjj. apply IH; try done;
      try (by eapply slice_len_ext). lia. }
  assert (total h
            (_ <- storeLeaf bl i hbucket16_zero ;;
             h_intersect16_loop fuel bk bl ak al (S i) j cnt)
            (fun _ => kept h)) as Hzero.
  { apply kept_seq.
    - eapply storeLeaf_rule; [done|done|done|lia|done|].
      intros q Hq. by apply elem_of_nil in Hq.
    - intros _ h1 HI1 Hext. by apply Hnext. }
  destruct (aks !! j) as [ka|] eqn:Hj; [|done].
  apply lookup_lt_Some in Hj.
  destruct (kb <? ka); [done|].
  destruct (ka <? kb).
  - apply IH; try done. lia.
  - apply kept_seq.
    + eapply h_bucket16_intersect_rule; [done|done|done|lia|done|lia].
    + intros c h1 HI1 Hext. apply Hnext; [done|done|lia].
Qed.
End FrameMid.
(** ** The top level on the heap *)

Lemma elem_of_sort_by {A} (key : A -> Z) (l : list A) x :
  x ∈ sort_by key l <-> x ∈ l.
Proof. by rewrite sort_by_perm. Qed.

Section FrameTop.
Variables (h0 : list cell) (F : list nat).

Local Abbreviation kept h := (fun h' => Inv h0 F h' /\ ext h h').

Lemma kept_weaken {A} h h1 (m : M A) :
  ext h h1 -> total h1 m (fun _ => kept h1) -> total h1 m (fun _ => kept h).
Proof.
  intros Hext Hm. eapply total_mono; [exact Hm|].
  intros _ h2 (HI & Hext2). split; [done|by eapply ext_trans].
Qed.

Lemma mid_in_F h o bs b :
  Inv h0 F h -> Fo F o -> heap_mids h o = Some bs -> b ∈ bs ->
  Fo F (h_b16his b) /\ Fo F (h_buckets b).
Proof.
  intros (_ & _ & _ & _ & Hcl) HF Hbs Hb. destruct o as [p|]; simpl in Hbs.
  - destruct (h !! p) as [[]|] eqn:Hp; simplify_eq.
    pose proof (Hcl p _ (HF p eq_refl) Hp) as Hsub. simpl in Hsub.
    split; intros q Hq; apply Hsub, elem_of_flat_map_gen; exists b;
      (split; [done|]); rewrite Hq; apply elem_of_app; simpl.
    + left. by left.
    + right. by left.
  - simplify_eq. by apply elem_of_nil in Hb.
Qed.

Lemma h_bucket32_intersect_rule h sb i ab j n m :
  Inv h0 F h -> Fo F sb ->
  slice_len h KMids sb n -> (i < n)%nat ->
  slice_len h KMids ab m -> (j < m)%nat ->
  total h (h_bucket32_intersect sb i ab j) (fun _ => kept h).
Proof.
  intros HI HF Hsb Hi Hab Hj.
  pose proof HI as (_ & _ & _ & Hwt & _).
  destruct (heap_mids_len _ _ _ Hab) as (abs & Habs & Hablen).
  destruct (lookup_lt_is_Some_2 abs j) as [a0 Ha0]; [lia|].
  pose proof (heap_mids_ok h ab abs a0 Hwt Habs
                (list_elem_of_lookup_2 _ _ _ Ha0)) as Hoka0.
  unfold h_bucket32_intersect.
  apply total_bind. eapply total_run; [by eapply loadMid_run|].
  apply total_bind.
  eapply total_mono; [by apply (h_bucket32_cloneShallow_rule h0 F)|].
  intros a h1 ((HI1 & Hext1) & Hoka & HWk & HWl). cbn beta.
  apply kept_weaken; [done|]. apply kept_seq.
  { by apply h_bucket32_sort_rule. }
  intros _ h2 HI2 Hext2.
  pose proof HI2 as (_ & _ & _ & Hwt2 & _).
  assert (ext h h2) as Hext02 by by eapply ext_trans.
  pose proof (slice_len_ext _ _ _ _ _ Hext02 Hsb) as Hsb2.
  destruct (heap_mids_len _ _ _ Hsb2) as (sbs & Hsbs & Hsblen).
  destruct (lookup_lt_is_Some_2 sbs i) as [b Hb]; [lia|].
  pose proof (list_elem_of_lookup_2 _ _ _ Hb) as Hbin.
  pose proof (heap_mids_ok h2 sb sbs b Hwt2 Hsbs Hbin) as Hokb.
  destruct (mid_in_F h2 sb sbs b HI2 HF Hsbs Hbin) as [HFk HFl].
  apply total_bind. eapply total_run; [by eapply loadMid_run|].
  apply kept_seq.
  { apply h_bucket32_sort_rule; [done|done|by apply Fo_Wo..]. }
  intros _ h3 HI3 Hext3.
  destruct (ok_mid_ext _ _ _ Hext3 Hokb) as (nb & Hbk & Hbl).
  destruct (ok_mid_ext _ _ _ (ext_trans _ _ _ Hext2 Hext3) Hoka)
    as (na & Hak & Hal).
  destruct (heap_keys_len _ _ _ Hbk) as (bks & Hbks & Hbklen).
  destruct (heap_keys_len _ _ _ Hak) as (aks & Haks & Haklen).
  apply total_bind. eapply total_run; [by apply loadKeys_run|].
  apply total_bind. eapply total_run; [by apply loadKeys_run|].
  eapply (h_intersect16_loop_rule h0 F _ _ _ _ nb na); try done. lia.
Qed.

Lemma h_Set_cloneShallow_rule h s n :
  Inv h0 F h -> slice_len h KMids (h_buckets32 s) n ->
  total h (h_Set_cloneShallow s)
    (fun ac h' => kept h h' /\ Wo h0 F (h_buckets32 ac) /\
                  slice_len h' KMids (h_buckets32 ac) n).
Proof.
  intros HI Hs. pose proof HI as (_ & _ & _ & Hwt & _).
  destruct (heap_mids_len _ _ _ Hs) as (bs & Hbs & Hlen).
  unfold h_Set_cloneShallow.
  apply total_bind. eapply total_run; [by apply loadMids_run|].
  apply total_bind. eapply total_mono.
  { apply (alloc_slice_rule h0 F h CMids bs KMids); [done| |done].
    simpl. apply Forall_forall. intros b Hin. by eapply heap_mids_ok. }
  intros q h1 ((HI1 & Hext1) & HW & Hsl). cbn beta.
  apply total_ret. simpl. by rewrite <- Hlen.
Qed.

Lemma h_Set_sort_rule h s n :
  Inv h0 F h -> slice_len h KMids (h_buckets32 s) n ->
  Wo h0 F (h_buckets32 s) ->
  total h (h_Set_sort s) (fun _ => kept h).
Proof.
  intros HI Hs HW. pose proof HI as (_ & _ & _ & Hwt & Hcl).
  destruct (heap_mids_len _ _ _ Hs) as (bs & Hbs & Hlen).
  unfold h_Set_sort.
  apply total_bind. eapply total_run; [by apply loadMids_run|].
  destruct (is_sorted_by h_hi bs); [by apply kept_ret|].
  eapply store_slice_rule; [done|done|done| | |].
  - simpl. by rewrite sort_by_length, Hlen.
  - simpl. apply Forall_forall. intros b Hin%elem_of_sort_by.
    by eapply heap_mids_ok.
  - intros p Hp HpF. rewrite Hp in Hbs. simpl in Hbs.
    destruct (h !! p) as [[]|] eqn:Hhp; simplify_eq.
    pose proof (Hcl p _ HpF Hhp) as Hsub. simpl in *.
    intros q (b & Hin%elem_of_sort_by & Hq)%elem_of_flat_map_gen.
    apply Hsub, elem_of_flat_map_gen. by exists b.
Qed.

Lemma h_Intersect_loop_rule sb ab n m fuel :
  forall h i j cnt,
  Inv h0 F h -> Fo F sb ->
  slice_len h KMids sb n -> slice_len h KMids ab m ->
  ((n - i) + (m - j) < fuel)%nat ->
  total h (h_Intersect_loop fuel sb ab i j cnt) (fun _ => kept h).
Proof.
  induction fuel as [|fuel IH]; intros h i j cnt HI HF Hsb Hab Hfuel;
    [lia|].
  destruct (heap_mids_len _ _ _ Hsb) as (sbs & Hsbs & Hsblen).
  destruct (heap_mids_len _ _ _ Hab) as (abs & Habs & Hablen).
  cbn [h_Intersect_loop].
  apply total_bind. eapply total_run; [by apply loadMids_run|].
  apply total_bind. eapply total_run; [by apply loadMids_run|].
  destruct (sbs !! i) as [bi|] eqn:Hi; [|by apply kept_ret].
  apply lookup_lt_Some in Hi.
  assert (forall h1, Inv h0 F h1 -> ext h h1 -> forall j' cnt',
            (j <= j')%nat ->
            total h1 (h_Intersect_loop fuel sb ab (S i) j' cnt')
                  (fun _ => kept h1)) as Hnext.
  { intros h1 HI1 Hext j' cnt' Hjj. apply IH; try done;
      try (by eapply slice_len_ext). lia. }
  assert (total h
            (_ <- storeMid sb i hbucket32_zero ;;
             h_Intersect_loop fuel sb ab (S i) j cnt)
            (fun _ => kept h)) as Hzero.
  { apply kept_seq.
    - eapply storeMid_rule; [done|done|done|lia| |].
      + by exists O.
      + intros q Hq. by apply elem_of_nil in Hq.
    - intros _ h1 HI1 Hext. by apply Hnext. }
  destruct (abs !! j) as [aj|] eqn:Hj; [|done].
  apply lookup_lt_Some in Hj.
  destruct (h_hi bi <? h_hi aj); [done|].
  destruct (h_hi aj <? h_hi bi).
  - apply IH; try done. lia.
  - apply kept_seq.
    + eapply h_bucket32_intersect_rule; [done|done|done|lia|done|lia].
    + intros c h1 HI1 Hext. apply Hnext; [done|done|lia].
Qed.
End FrameTop.
(** ** [Set.Intersect] on the heap *)

Section FrameIntersect.
Variables (h0 : list cell) (F : list nat).

Local Abbreviation kept h := (fun h' => Inv h0 F h' /\ ext h h').

Lemma set_cell_ok h p s :
  Inv h0 F h -> h !! p = Some (CSet s) ->
  exists n, slice_len h KMids (h_buckets32 s) n.
Proof.
  intros (_ & _ & _ & Hwt & _) Hp. exact (wt_lookup _ _ _ Hwt Hp).
Qed.

Lemma set_cell_in_F h p s :
  Inv h0 F h -> p ∈ F -> h !! p = Some (CSet s) -> Fo F (h_buckets32 s).
Proof.
  intros (_ & _ & _ & _ & Hcl) HpF Hp q Hq.
  apply (Hcl p _ HpF Hp). simpl. rewrite Hq. by left.
Qed.

Lemma store_set_rule h p s c o :
  Inv h0 F h -> p ∈ F -> h !! p = Some (CSet s) ->
  (exists n, slice_len h KMids o n) -> Fo F o ->
  total h (store p (CSet (HSet c o))) (fun _ => kept h).
Proof.
  intros HI HpF Hp Hok HF.
  eapply (store_rule h0 F h p _ (CSet s)); [done|by left|done..|].
  intros _ q Hq. simpl in Hq. destruct o as [r|]; simpl in Hq.
  - apply list_elem_of_singleton in Hq as ->. by apply HF.
  - by apply elem_of_nil in Hq.
Qed.

Lemma h_Intersect_rule h sp ap :
  Inv h0 F h -> sp ∈ F ->
  shape_at h sp = Some (KSet, O) -> shape_at h ap = Some (KSet, O) ->
  total h (h_Intersect (Some sp) (Some ap)) (fun _ => kept h).
Proof.
  intros HI HsF Hs Ha.
  destruct (loadSet_run _ _ Hs) as (s0 & Hs0 & Hrs).
  destruct (loadSet_run _ _ Ha) as (a0 & Ha0 & Hra).
  unfold h_Intersect, h_Len.
  apply total_bind. apply total_bind. eapply total_run; [done|].
  apply total_ret.
  apply total_bind. apply total_bind. eapply total_run; [done|].
  apply total_ret.
  assert (total h (store sp (CSet (HSet 0 None))) (fun _ => kept h))
    as Hempty.
  { eapply store_set_rule; [done..|by exists O|by intros q]. }
  destruct ((h_itemsCount s0 =? 0) || (h_itemsCount a0 =? 0)); [done|].
  clear Hempty.
  destruct (set_cell_ok _ _ _ HI Ha0) as (m & Hm).
  apply total_bind. eapply total_run; [done|].
  apply total_bind.
  eapply total_mono; [by apply (h_Set_cloneShallow_rule h0 F h a0 m)|].
  intros ac h1 ((HI1 & Hext1) & HWac & Hac). cbn beta.
  apply kept_weaken; [done|]. apply kept_seq.
  { by eapply h_Set_sort_rule. }
  intros _ h2 HI2 Hext2.
  assert (ext h h2) as Hext02 by by eapply ext_trans.
  destruct (loadSet_run _ _ (Hext02 _ _ Hs)) as (s2 & Hs2 & Hrs2).
  destruct (set_cell_ok _ _ _ HI2 Hs2) as (n & Hn).
  pose proof (set_cell_in_F _ _ _ HI2 HsF Hs2) as HFs.
  apply total_bind. eapply total_run; [done|].
  apply kept_seq.
  { eapply h_Set_sort_rule; [done|done|by apply Fo_Wo]. }
  intros _ h3 HI3 Hext3.
  pose proof (slice_len_ext _ _ _ _ _ Hext3 Hn) as Hn3.
  pose proof (slice_len_ext _ _ _ _ _ (ext_trans _ _ _ Hext2 Hext3) Hac)
    as Hac3.
  destruct (heap_mids_len _ _ _ Hn3) as (sbs & Hsbs & Hsblen).
  destruct (heap_mids_len _ _ _ Hac3) as (abs & Habs & Hablen).
  apply total_bind. eapply total_run; [by apply loadMids_run|].
  apply total_bind. eapply total_run; [by apply loadMids_run|].
  apply kept_seq.
  { eapply (h_Intersect_loop_rule h0 F _ _ n m); try done. lia. }
  intros cnt h4 HI4 Hext4.
  assert (ext h h4) as Hext04
    by (eapply ext_trans; [exact Hext02|by eapply ext_trans]).
  destruct (loadSet_run _ _ (Hext04 _ _ Hs)) as (s4 & Hs4 & Hrs4).
  apply total_bind. eapply total_run; [done|].
  eapply store_set_rule; [done..| |].
  - by eapply set_cell_ok.
  - by eapply set_cell_in_F.
Qed.
End FrameIntersect.

(** *** What a set reads *)

Lemma mapM_ext_in {A B} (f g : A -> option B) l :
  (forall x, x ∈ l -> f x = g x) -> mapM f l = mapM g l.
Proof.
  induction l as [|x l IH]; intros Hfg; [done|]. simpl.
  rewrite (Hfg x) by by left. rewrite IH; [done|].
  intros y Hy. apply Hfg. by right.
Qed.

Lemma read16_agree h h' l :
  (forall q, q ∈ fp16 l -> h' !! q = h !! q) -> read16 h' l = read16 h l.
Proof.
  unfold read16, fp16. destruct (h_bits l) as [p|]; [|done].
  intros H. rewrite (H p); [done|]. simpl. by left.
Qed.

Lemma read32_agree h h' b :
  (forall q, q ∈ fp32 h b -> h' !! q = h !! q) -> read32 h' b = read32 h b.
Proof.
  unfold fp32. intros H.
  assert (heap_keys h' (h_b16his b) = heap_keys h (h_b16his b)) as Hk.
  { unfold heap_keys. destruct (h_b16his b) as [p|]; [|done].
    rewrite (H p); [done|]. apply elem_of_app. left. simpl. by left. }
  assert (heap_leaves h' (h_buckets b) = heap_leaves h (h_buckets b)) as Hl.
  { unfold heap_leaves. destruct (h_buckets b) as [p|]; [|done].
    rewrite (H p); [done|]. apply elem_of_app. right.
    apply elem_of_app. left. simpl. by left. }
  unfold read32. rewrite Hk, Hl.
  destruct (heap_keys h (h_b16his b)) as [ks|]; [|done]. simpl.
  destruct (heap_leaves h (h_buckets b)) as [ls|]; [|done]. simpl.
  rewrite (mapM_ext_in (read16 h') (read16 h)); [done|].
  intros l Hin. apply read16_agree. intros q Hq. apply H.
  apply elem_of_app. right. apply elem_of_app. right.
  apply elem_of_flat_map_gen. by exists l.
Qed.

Lemma fp32_agree h h' b :
  (forall q, q ∈ fp32 h b -> h' !! q = h !! q) -> fp32 h' b = fp32 h b.
Proof.
  unfold fp32. intros H.
  assert (heap_leaves h' (h_buckets b) = heap_leaves h (h_buckets b)) as Hl.
  { unfold heap_leaves. destruct (h_buckets b) as [p|]; [|done].
    rewrite (H p); [done|]. apply elem_of_app. right.
    apply elem_of_app. left. simpl. by left. }
  by rewrite Hl.
Qed.

Lemma flat_map_fp32_agree h h' ms :
  (forall b, b ∈ ms -> forall q, q ∈ fp32 h b -> h' !! q = h !! q) ->
  flat_map (fp32 h') ms = flat_map (fp32 h) ms.
Proof.
  induction ms as [|b ms IH]; intros Hb; [done|]. simpl.
  rewrite (fp32_agree h h' b) by (apply Hb; by left).
  rewrite IH; [done|]. intros b' Hin. apply Hb. by right.
Qed.

Lemma fpSet_head h p : p ∈ fpSet h p.
Proof. unfold fpSet. destruct (h !! p) as [[]|]; by left. Qed.

Lemma readSet_agree h h' p :
  (forall q, q ∈ fpSet h p -> h' !! q = h !! q) ->
  readSet h' p = readSet h p /\ fpSet h' p = fpSet h p.
Proof.
  intros H. pose proof (H p (fpSet_head h p)) as Hp.
  unfold readSet, fpSet in *. rewrite Hp.
  destruct (h !! p) as [[s| | | |]|]; try done.
  assert (heap_mids h' (h_buckets32 s) = heap_mids h (h_buckets32 s)) as Hm.
  { unfold heap_mids. destruct (h_buckets32 s) as [r|]; [|done].
    rewrite (H r); [done|]. right. apply elem_of_app. left. simpl. by left. }
  rewrite Hm.
  assert (forall b, b ∈ default [] (heap_mids h (h_buckets32 s)) ->
            forall q, q ∈ fp32 h b -> h' !! q = h !! q) as Hb.
  { intros b Hin q Hq. apply H. right. apply elem_of_app. right.
    apply elem_of_flat_map_gen. by exists b. }
  split.
  - destruct (heap_mids h (h_buckets32 s)) as [ms|]; [|done]. simpl in *.
    rewrite (mapM_ext_in (read32 h') (read32 h)); [done|].
    intros b Hin. apply read32_agree. by apply Hb.
  - do 2 f_equal. by apply flat_map_fp32_agree.
Qed.
(** ** The storage of a set *)

Lemma lookup_shape h p c k n :
  h !! p = Some c -> shape_at h p = Some (k, n) -> shape c = (k, n).
Proof. intros Hp Hs. rewrite (shape_at_Some _ _ _ Hp) in Hs. congruence. Qed.

Lemma fpSet_cells h s p :
  wt h -> shape_at h s = Some (KSet, O) -> p ∈ fpSet h s ->
  exists c, h !! p = Some c /\ ptrs c ⊆ fpSet h s.
Proof.
  intros Hwt Hs Hp.
  destruct (loadSet_run _ _ Hs) as (v & Hv & _).
  destruct (wt_lookup _ _ _ Hwt Hv) as (n & Hn).
  destruct (heap_mids_len _ _ _ Hn) as (ms & Hms & _).
  unfold fpSet in *. rewrite Hv in *. rewrite Hms in *. simpl in *.
  assert (forall b q, b ∈ ms -> q ∈ fp32 h b ->
            q ∈ s :: option_list (h_buckets32 v) ++ flat_map (fp32 h) ms)
    as Hmid.
  { intros b q Hb Hq. right. apply elem_of_app. right.
    apply elem_of_flat_map_gen. by exists b. }
  apply elem_of_cons in Hp as [->|Hp].
  { exists (CSet v). split; [done|]. simpl. intros q Hq.
    right. apply elem_of_app. by left. }
  apply elem_of_app in Hp as [Hp|Hp].
  { destruct (h_buckets32 v) as [r|] eqn:Hr; simpl in Hp;
      [|by apply elem_of_nil in Hp].
    apply list_elem_of_singleton in Hp as ->. simpl in Hms.
    destruct (h !! r) as [[]|] eqn:Hhr; simplify_eq.
    eexists. split; [done|]. simpl.
    intros q (b & Hb & Hq)%elem_of_flat_map_gen.
    apply (Hmid b q Hb). unfold fp32.
    apply elem_of_app in Hq as [Hq|Hq]; apply elem_of_app; [by left|].
    right. apply elem_of_app. by left. }
  apply elem_of_flat_map_gen in Hp as (b & Hb & Hp).
  pose proof (heap_mids_ok _ _ _ _ Hwt Hms Hb) as (nb & Hk & Hl).
  destruct (heap_leaves_len _ _ _ Hl) as (ls & Hls & _).
  pose proof (fun q => Hmid b q Hb) as Hsub. clear Hmid.
  unfold fp32 in Hp, Hsub. rewrite Hls in Hp, Hsub. simpl in Hp, Hsub.
  apply elem_of_app in Hp as [Hp|Hp].
  { destruct (h_b16his b) as [r|] eqn:Hr; simpl in Hp;
      [|by apply elem_of_nil in Hp].
    apply list_elem_of_singleton in Hp as ->. simpl in Hk.
    destruct (shape_at_kind _ _ _ _ Hk) as (c & Hc & Hsc).
    exists c. split; [done|]. destruct c; simplify_eq/=.
    intros q Hq. by apply elem_of_nil in Hq. }
  apply elem_of_app in Hp as [Hp|Hp].
  { destruct (h_buckets b) as [r|] eqn:Hr; simpl in Hp;
      [|by apply elem_of_nil in Hp].
    apply list_elem_of_singleton in Hp as ->. simpl in Hls.
    destruct (h !! r) as [[]|] eqn:Hhr; simplify_eq.
    eexists. split; [done|]. simpl. intros q Hq. apply Hsub.
    apply elem_of_app. right. by right. }
  apply elem_of_flat_map_gen in Hp as (l & Hl' & Hp).
  pose proof (heap_leaves_ok _ _ _ _ Hwt Hls Hl') as Hok.
  unfold fp16 in Hp. unfold ok_leaf in Hok.
  destruct (h_bits l) as [r|]; simpl in Hp; [|by apply elem_of_nil in Hp].
  apply list_elem_of_singleton in Hp as ->.
  destruct (shape_at_kind _ _ _ _ Hok) as (c & Hc & Hsc).
  exists c. split; [done|]. destruct c; simplify_eq/=.
  intros q Hq. by apply elem_of_nil in Hq.
Qed.

Lemma fpSet_closed h s :
  wt h -> shape_at h s = Some (KSet, O) -> closed (fpSet h s) h.
Proof.
  intros Hwt Hs p c Hp Hc.
  destruct (fpSet_cells h s p Hwt Hs Hp) as (c' & Hc' & Hsub).
  by simplify_eq.
Qed.

Lemma fpSet_allocated h s p :
  wt h -> shape_at h s = Some (KSet, O) -> p ∈ fpSet h s ->
  (p < length h)%nat.
Proof.
  intros Hwt Hs Hp.
  destruct (fpSet_cells h s p Hwt Hs Hp) as (c' & Hc' & _).
  by eapply lookup_lt_Some.
Qed.

Lemma Inv_start h s :
  wt h -> shape_at h s = Some (KSet, O) -> Inv h (fpSet h s) h.
Proof.
  intros Hwt Hs. split_and!; [done|done| |done|by apply fpSet_closed].
  intros p. by apply fpSet_allocated.
Qed.

(** ** Claim C10 *)

(** C10: on a well-typed heap where the pointers [s] and [a] lead to
    sets that share no storage, [s.Intersect(a)] runs to completion and
    leaves every cell of the operand as it was: the [Set] struct of
    [a], its bucket arrays with their contents and order, and the
    bitmaps of its leaves.  The set read through [a], hence its
    members and its [Len], is the same after the call.  The shallow
    copies the call sorts are cells of their own. *)
Theorem C10_intersect_keeps_operand h s a :
  wt h ->
  shape_at h s = Some (KSet, O) -> shape_at h a = Some (KSet, O) ->
  Forall (fun p => p ∉ fpSet h s) (fpSet h a) ->
  exists h',
    h_Intersect (Some s) (Some a) h = Some (tt, h') /\
    (forall p, p ∈ fpSet h a -> h' !! p = h !! p) /\
    fpSet h' a = fpSet h a /\
    readSet h' a = readSet h a.
Proof.
  intros Hwt Hs Ha Hdisj.
  destruct (h_Intersect_rule h (fpSet h s) h s a (Inv_start h s Hwt Hs)
              (fpSet_head h s) Hs Ha) as ([] & h' & Hrun & HI & _).
  exists h'. split; [done|].
  assert (forall p, p ∈ fpSet h a -> h' !! p = h !! p) as Hsame.
  { intros p Hp. destruct HI as (_ & Hfr & _). apply Hfr.
    - by eapply Forall_forall in Hdisj.
    - by eapply fpSet_allocated. }
  split; [done|].
  by destruct (readSet_agree h h' a Hsame).
Qed.

Lemma ex_heap_wt : wt ex_heap.
Proof.
  unfold wt, ex_heap.
  repeat (apply Forall_cons; split); try apply Forall_nil; simpl;
    try done; try (by exists 1%nat).
Qed.

Lemma C10_intersect_witness :
  wt ex_heap /\
  shape_at ex_heap 0 = Some (KSet, O) /\
  shape_at ex_heap 4 = Some (KSet, O) /\
  Forall (fun p => p ∉ fpSet ex_heap 0) (fpSet ex_heap 4) /\
  exists h',
    h_Intersect (Some 0%nat) (Some 4%nat) ex_heap = Some (tt, h') /\
    (forall p, p ∈ fpSet ex_heap 4 -> h' !! p = ex_heap !! p) /\
    fpSet h' 4 = fpSet ex_heap 4 /\
    readSet h' 4 = readSet ex_heap 4.
Proof.
  assert (Forall (fun p => p ∉ fpSet ex_heap 0) (fpSet ex_heap 4)) as Hd
    by by_eval.
  split; [exact ex_heap_wt|]. split; [reflexivity|]. split; [reflexivity|].
  split; [exact Hd|].
  exact (C10_intersect_keeps_operand ex_heap 0%nat 4%nat ex_heap_wt
           eq_refl eq_refl Hd).
Defined.
(** ** [ForEach] with any callback *)

Lemma run_parts_app {St} (f : list Z -> St -> bool * St) l1 l2 st :
  run_parts f (l1 ++ l2) st =
  let '(go, st1) := run_parts f l1 st in
  if go then run_parts f l2 st1 else (false, st1).
Proof.
  revert st. induction l1 as [|p l1 IH]; intros st; simpl.
  - by destruct (run_parts f l2 st).
  - destruct (f p st) as [[] st1]; [apply IH|done].
Qed.

Lemma forEach_buckets_run {St} (f : list Z -> St -> bool * St) hi32 ps :
  forall st,
  Forall u16 ps.*1 -> Forall wf16 ps.*2 ->
  exists bs',
    forEach_buckets f hi32 ps st
    = ((run_parts f (elems_entry hi32 <$> ps) st).1, bs',
       (run_parts f (elems_entry hi32 <$> ps) st).2) /\
    Forall2 same16 ps.*2 bs'.
Proof.
  induction ps as [|[k b16] ps IH]; intros st Hk Hwf.
  - exists []. by split.
  - rewrite fmap_cons in Hk. rewrite fmap_cons in Hwf.
    apply Forall_cons in Hk as [Hk1 Hk], Hwf as [Hw1 Hwf]. simp_rec.
    cbn [forEach_buckets]. rewrite fmap_cons. cbn [run_parts].
    destruct (bucket16_appendTo_spec b16 [] hi32 k Hw1 Hk1)
      as (Hdst & Hwf' & Hel & Hcnt & Hhas).
    destruct (bucket16_appendTo b16 [] hi32 k) as [buf b16'] eqn:E1.
    simp_rec. subst buf. rewrite app_nil_l.
    change (map (fun v => base_of hi32 k + v) (elems16 b16))
      with (elems_entry hi32 (k, b16)).
    destruct (f (elems_entry hi32 (k, b16)) st) as [[] st1].
    + destruct (IH st1 Hk Hwf) as (bs' & -> & Hsame).
      exists (b16' :: bs'). split; [done|].
      rewrite fmap_cons. constructor; [by split_and!|done].
    + exists (b16' :: ps.*2). split; [done|].
      rewrite fmap_cons. constructor; [by split_and!|].
      by apply Forall2_same16_refl.
Qed.

Lemma bucket32_forEach_run {St} (f : list Z -> St -> bool * St) b st :
  wf32 b ->
  exists b',
    bucket32_forEach f b st
    = ((run_parts f (parts32 b) st).1, b', (run_parts f (parts32 b) st).2) /\
    same32 b b'.
Proof.
  intros Hwf. pose proof Hwf as (_ & Hlen & Hk & _ & Hbs & _).
  unfold bucket32_forEach, parts32. fold (entries b).
  destruct (forEach_buckets_run f (hi b) (entries b) st) as (bs' & -> & Hsame).
  { by rewrite entries_fst. }
  { by rewrite entries_snd. }
  rewrite entries_snd in Hsame by done.
  eexists. split; [done|]. by apply same_leaves.
Qed.

Lemma Forall2_same32_refl bs : Forall wf32 bs -> Forall2 same32 bs bs.
Proof. induction 1; constructor; [by split_and!|done]. Qed.

Lemma ForEach_loop_run {St} (f : list Z -> St -> bool * St) bs :
  forall st,
  Forall wf32 bs ->
  exists bs',
    ForEach_loop f bs st = (bs', (run_parts f (flat_map parts32 bs) st).2) /\
    Forall2 same32 bs bs'.
Proof.
  induction bs as [|b bs IH]; intros st Hwf.
  - exists []. by split.
  - apply Forall_cons in Hwf as [Hb Hwf]. cbn [ForEach_loop flat_map].
    destruct (bucket32_forEach_run f b st Hb) as (b' & -> & Hsame).
    rewrite run_parts_app.
    destruct (run_parts f (parts32 b) st) as [[] st1]; simp_rec.
    + destruct (IH st1 Hwf) as (bs' & -> & Hsame').
      exists (b' :: bs'). split; [done|by constructor].
    + exists (b' :: bs). split; [done|].
      constructor; [done|by apply Forall2_same32_refl].
Qed.

Lemma Set_ForEach_run {St} (f : list Z -> St -> bool * St) s st :
  wfSet s ->
  snd (Set_ForEach f s st) = (run_parts f (partsSet s) st).2 /\
  wfSet (fst (Set_ForEach f s st)) /\
  itemsCount (fst (Set_ForEach f s st)) = itemsCount s /\
  forall x, Set_Has (fst (Set_ForEach f s st)) x = Set_Has s x.
Proof.
  intros Hwf. pose proof Hwf as (_ & Hwf32 & _).
  unfold Set_ForEach, partsSet.
  destruct (ForEach_loop_run f (buckets32 s) st Hwf32) as (bs' & -> & Hsame).
  simp_rec. destruct (same32_set s bs' Hwf Hsame) as [Hwf' Hhas].
  by split_and!.
Qed.

Lemma concat_parts32 b : concat (parts32 b) = stored32 b.
Proof.
  unfold parts32, stored32, elems_entries.
  induction (entries b) as [|p ps IH]; [done|].
  rewrite fmap_cons. simpl. by rewrite IH.
Qed.

Lemma concat_partsSet s : concat (partsSet s) ≡ₚ elemsSet s.
Proof.
  rewrite <- stored_all_perm. unfold partsSet.
  induction (buckets32 s) as [|b bs IH]; [done|].
  cbn [flat_map]. by rewrite concat_app, concat_parts32, IH.
Qed.

(** A callback that folds a step over the items and never stops. *)
Lemma run_parts_fold {St} (g : St -> Z -> St) parts st :
  run_parts (fun part st => (true, foldl g st part)) parts st
  = (true, foldl g st (concat parts)).
Proof.
  revert st. induction parts as [|p ps IH]; intros st; [done|].
  simpl. by rewrite IH, foldl_app.
Qed.
(** ** [Subtract] *)

Lemma foldl_Set_Del_spec l : forall s,
  wfSet s -> Forall u64 l ->
  wfSet (foldl Set_Del s l) /\
  (forall y, u64 y ->
     Set_Has (foldl Set_Del s l) y = Set_Has s y && negb (bool_decide (y ∈ l))) /\
  itemsCount (foldl Set_Del s l) <= itemsCount s.
Proof.
  induction l as [|x l IH]; intros s Hwf Hl.
  - simpl. split_and!; [done| |lia]. intros y _. by rewrite andb_true_r.
  - apply Forall_cons in Hl as [Hx Hl]. cbn [foldl].
    destruct (Set_Del_spec s x Hwf Hx) as (Hwf1 & Hc1 & Hh1).
    destruct (IH (Set_Del s x) Hwf1 Hl) as (Hwf2 & Hh2 & Hc2).
    split_and!; [done| |destruct (Set_Has s x); lia].
    intros y Hy. rewrite Hh2, Hh1 by done.
    destruct (Z.eqb_spec x y) as [->|Hne].
    + rewrite (bool_decide_eq_true_2 (y ∈ y :: l)) by by left.
      by rewrite andb_false_r.
    + simpl. destruct (Set_Has s y); [|done]. simpl. f_equal.
      apply bool_decide_ext. rewrite elem_of_cons.
      split; [by right|]. intros [?|?]; [congruence|done].
Qed.

Lemma partsSet_elem a y :
  wfSet a -> y ∈ concat (partsSet a) <-> u64 y /\ Set_Has a y = true.
Proof. intros Hwf. rewrite concat_partsSet. by apply elemsSet_elem. Qed.

(** The members of a set determine its ascending list and its count. *)
Lemma elemsSet_filter r s (P : Z -> bool) :
  wfSet r -> wfSet s ->
  (forall x, u64 x -> Set_Has r x = Set_Has s x && P x) ->
  elemsSet r = filter (fun x => P x = true) (elemsSet s) /\
  itemsCount r = Z.of_nat (length (filter (fun x => P x = true) (elemsSet s))).
Proof.
  intros Hr Hs Hhas.
  assert (elemsSet r = filter (fun x => P x = true) (elemsSet s)) as Heq.
  { apply ascending_unique.
    - by apply elemsSet_ascending.
    - by apply ascending_filter, elemsSet_ascending.
    - intros x. rewrite list_elem_of_filter, !elemsSet_elem by done.
      split.
      + intros [Hx Hx']. rewrite Hhas in Hx' by done.
        apply andb_true_iff in Hx' as [? ?]. done.
      + intros (HP & Hx & Hx'). split; [done|]. rewrite Hhas by done.
        by rewrite Hx', HP. }
  split; [done|]. by rewrite <- Heq, elemsSet_length.
Qed.

Theorem Set_Subtract_spec s a :
  wfSet s -> wfSet a ->
  wfSet (Set_Subtract s a).1 /\
  (forall x, u64 x ->
     Set_Has (Set_Subtract s a).1 x = Set_Has s x && negb (Set_Has a x)) /\
  wfSet (Set_Subtract s a).2 /\
  itemsCount (Set_Subtract s a).2 = itemsCount a /\
  (forall x, Set_Has (Set_Subtract s a).2 x = Set_Has a x).
Proof.
  intros Hs Ha. unfold Set_Subtract.
  destruct (Z.eqb_spec (itemsCount s) 0) as [Hs0|Hs0].
  { simpl. split_and!; try done. intros x Hx.
    destruct (wfSet_empty s Hs Hs0) as [_ Hno]. by rewrite Hno. }
  destruct (Z.eqb_spec (itemsCount a) 0) as [Ha0|Ha0].
  { simpl. split_and!; try done. intros x Hx.
    destruct (wfSet_empty a Ha Ha0) as [_ Hno].
    by rewrite (Hno x Hx), andb_true_r. }
  simpl.
  destruct (Set_ForEach_run del_part a s Ha) as (Hst & Hwf' & Hcnt & Hhas).
  destruct (Set_ForEach del_part a s) as [a' s']. simp_rec.
  unfold del_part in Hst. rewrite run_parts_fold in Hst. simpl in Hst.
  assert (Forall u64 (concat (partsSet a))) as Hall.
  { apply Forall_forall. intros y Hy. by apply partsSet_elem in Hy as [? _]. }
  destruct (foldl_Set_Del_spec _ s Hs Hall) as (Hwfs & Hh & _).
  rewrite <- Hst in Hwfs, Hh.
  split_and!; try done.
  intros x Hx. rewrite Hh by done. f_equal.
  destruct (Set_Has a x) eqn:E.
  - rewrite bool_decide_eq_true_2; [done|]. by apply partsSet_elem.
  - rewrite bool_decide_eq_false_2; [done|].
    intros [_ Hin]%partsSet_elem; [congruence|done].
Qed.
(** ** [Equal] *)

Lemma run_parts_has s parts : forall eq,
  (run_parts (has_part s) parts eq).2
  = eq && forallb (Set_Has s) (concat parts).
Proof.
  induction parts as [|p ps IH]; intros eq; simpl.
  - by rewrite andb_true_r.
  - unfold has_part at 1. rewrite forallb_app.
    destruct (forallb (Set_Has s) p); simpl; [apply IH|].
    by rewrite andb_false_r.
Qed.

Lemma Set_Equal_fst s a :
  wfSet a ->
  (Set_Equal s a).1
  = (itemsCount s =? itemsCount a) && forallb (Set_Has s) (concat (partsSet a)).
Proof.
  intros Ha. unfold Set_Equal.
  destruct (itemsCount s =? itemsCount a); [|done]. simpl.
  destruct (Set_ForEach_run (has_part s) a true Ha) as (Hst & _).
  destruct (Set_ForEach (has_part s) a true) as [a' eq]. simp_rec.
  by rewrite Hst, run_parts_has.
Qed.

Lemma same_members_elems s a :
  wfSet s -> wfSet a ->
  (forall x, u64 x -> Set_Has s x = Set_Has a x) -> elemsSet s = elemsSet a.
Proof.
  intros Hs Ha Hsame. apply ascending_unique; [by apply elemsSet_ascending..|].
  intros x. rewrite !elemsSet_elem by done. split.
  - intros [Hx Hh]. split; [done|]. by rewrite <- Hsame.
  - intros [Hx Hh]. split; [done|]. by rewrite Hsame.
Qed.

Theorem Set_Equal_spec s a :
  wfSet s -> wfSet a ->
  ((Set_Equal s a).1 = true <->
   forall x, u64 x -> Set_Has s x = Set_Has a x) /\
  wfSet (Set_Equal s a).2 /\
  itemsCount (Set_Equal s a).2 = itemsCount a /\
  (forall x, Set_Has (Set_Equal s a).2 x = Set_Has a x).
Proof.
  intros Hs Ha. split.
  - rewrite Set_Equal_fst by done. rewrite andb_true_iff, Z.eqb_eq.
    rewrite forallb_forall. split.
    + intros [Hcnt Hall].
      assert (forall x, x ∈ elemsSet a -> x ∈ elemsSet s) as Hsub.
      { intros x Hx. pose proof Hx as [Hu _]%elemsSet_elem; [|done].
        apply elemsSet_elem; [done|]. split; [done|].
        apply Hall, list_elem_of_In. rewrite concat_partsSet. done. }
      assert (elemsSet a ≡ₚ elemsSet s) as Hperm.
      { apply submseteq_length_Permutation.
        - apply NoDup_submseteq; [|done].
          by apply ascending_NoDup, elemsSet_ascending.
        - pose proof (elemsSet_length s Hs). pose proof (elemsSet_length a Ha).
          lia. }
      intros x Hx. destruct (Set_Has a x) eqn:Ea.
      * assert (x ∈ elemsSet s) as Hin
          by (apply Hsub; by apply elemsSet_elem).
        by apply elemsSet_elem in Hin as [_ ?].
      * destruct (Set_Has s x) eqn:Es; [|done].
        assert (x ∈ elemsSet a) as Hin
          by (rewrite Hperm; by apply elemsSet_elem).
        apply elemsSet_elem in Hin as [_ ?]; [congruence|done].
    + intros Hsame. split.
      * rewrite <- (elemsSet_length s Hs), <- (elemsSet_length a Ha).
        by rewrite (same_members_elems s a).
      * intros x Hx%list_elem_of_In.
        apply partsSet_elem in Hx as [Hu Hh]; [|done]. by rewrite Hsame.
  - unfold Set_Equal. destruct (itemsCount s =? itemsCount a); [|done].
    simpl.
    destruct (Set_ForEach_run (has_part s) a true Ha) as (_ & H1 & H2 & H3).
    by destruct (Set_ForEach (has_part s) a true) as [a' eq].
Qed.
(** ** [Clone] on the heap: runs with their results *)

Lemma hbind_run {A B} (m : M A) (k : A -> M B) h a h1 :
  m h = Some (a, h1) -> hbind m k h = k a h1.
Proof. intros Hm. unfold hbind. by rewrite Hm. Qed.

Lemma Inv_store h0 F h p c c0 :
  Inv h0 F h -> W h0 F p -> h !! p = Some c0 -> shape c = shape c0 ->
  ok_cell h c -> (p ∈ F -> ptrs c ⊆ F) ->
  store p c h = Some (tt, <[p := c]> h) /\
  Inv h0 F (<[p := c]> h) /\ ext h (<[p := c]> h).
Proof.
  intros HI HW Hp Hs Hok Hptr.
  destruct (store_rule h0 F h p c c0 HI HW Hp Hs Hok Hptr)
    as ([] & h' & Heq & HI' & Hext).
  unfold store in *. rewrite decide_True in * by by eapply lookup_lt_Some.
  by simplify_eq.
Qed.

Lemma Inv_alloc h0 F h c :
  Inv h0 F h -> ok_cell h c ->
  Inv h0 F (h ++ [c]) /\ ext h (h ++ [c]) /\ (length h0 <= length h)%nat.
Proof.
  intros HI Hok.
  destruct (alloc_rule h0 F h c HI Hok) as (p & h' & Heq & (HI' & Hext) & Hp & _).
  unfold alloc in Heq. by simplify_eq.
Qed.

Lemma storeLeaf_run h q i l ls :
  h !! q = Some (CLeaves ls) -> (i < length ls)%nat ->
  storeLeaf (Some q) i l h = store q (CLeaves (<[i := l]> ls)) h.
Proof.
  intros Hq Hi. unfold storeLeaf.
  rewrite (hbind_run _ _ h ls h) by (apply loadLeaves_run; simpl; by rewrite Hq).
  by rewrite decide_True.
Qed.

Lemma storeMid_run h q i b bs :
  h !! q = Some (CMids bs) -> (i < length bs)%nat ->
  storeMid (Some q) i b h = store q (CMids (<[i := b]> bs)) h.
Proof.
  intros Hq Hi. unfold storeMid.
  rewrite (hbind_run _ _ h bs h) by (apply loadMids_run; simpl; by rewrite Hq).
  by rewrite decide_True.
Qed.

Lemma Inv_old h0 F h p :
  Inv h0 F h -> p ∉ F -> (p < length h0)%nat -> h !! p = h0 !! p.
Proof. intros (_ & Hfr & _). apply Hfr. Qed.

Lemma not_in_nil (p : nat) : p ∉ ([] : list nat).
Proof. apply not_elem_of_nil. Qed.

Lemma W_fresh h0 (p : nat) : (length h0 <= p)%nat -> W h0 [] p.
Proof. intros. by right. Qed.

Section CloneLeaf.
Variable h0 : list cell.

Local Abbreviation I0 := (Inv h0 []).

Lemma h_bucket16_copyTo_spec h b q i ls :
  I0 h -> ok_leaf h0 b -> (length h0 <= q)%nat ->
  h !! q = Some (CLeaves ls) -> (i < length ls)%nat ->
  exists h' l,
    h_bucket16_copyTo b (Some q) i h = Some (tt, h') /\
    I0 h' /\ ext h h' /\
    (forall p, (p < length h)%nat -> p <> q -> h' !! p = h !! p) /\
    h' !! q = Some (CLeaves (<[i := l]> ls)) /\
    read16 h' l = read16 h0 b /\
    (forall p, p ∈ fp16 l -> (length h <= p < length h')%nat).
Proof.
  intros HI Hok Hq0 Hq Hi. pose proof HI as (Hlen & _ & _ & Hwt & _).
  pose proof (lookup_lt_Some _ _ _ Hq) as Hqlt.
  pose proof (wt_lookup _ _ _ Hwt Hq) as Hokls. simpl in Hokls.
  unfold h_bucket16_copyTo, ok_leaf, read16 in *.
  destruct (h_bits b) as [p|] eqn:Hp.
  - destruct (shape_at_kind _ _ _ _ Hok) as (c & Hc & Hs).
    destruct c; try discriminate Hs. clear Hs.
    pose proof (lookup_lt_Some _ _ _ Hc) as Hplt.
    assert (h !! p = Some (CBits ws)) as Hhp
      by (rewrite (Inv_old h0 [] h p HI (not_in_nil p) Hplt); done).
    destruct (Inv_alloc h0 [] h (CBits ws) HI I) as (HI1 & Hext1 & _).
    set (l := HBucket16 (Some (length h)) (h_smallPoolLen b) (h_smallPool b)).
    set (h1 := h ++ [CBits ws]) in *.
    assert (h1 !! q = Some (CLeaves ls)) as Hq1
      by (unfold h1; by rewrite lookup_app_l).
    assert (h1 !! length h = Some (CBits ws)) as Hnew.
    { unfold h1. rewrite lookup_app_r by lia. by rewrite Nat.sub_diag. }
    destruct (Inv_store h0 [] h1 q (CLeaves (<[i := l]> ls)) (CLeaves ls))
      as (Hst & HI2 & Hext2); try done.
    { by apply W_fresh. }
    { simpl. by rewrite length_insert. }
    { simpl. apply Forall_insert.
      - eapply Forall_impl; [exact Hokls|]. intros l'. by apply ok_leaf_ext.
      - unfold ok_leaf. simpl. by apply shape_at_Some in Hnew. }
    { intros Hin. by apply elem_of_nil in Hin. }
    exists (<[q := CLeaves (<[i := l]> ls)]> h1), l. split_and!.
    + assert (loadBits p h = Some (ws, h)) as Hlb
        by (unfold loadBits, hbind, load; by rewrite Hhp).
      rewrite (hbind_run _ _ h ws h Hlb).
      rewrite (hbind_run _ _ h (length h) h1) by done.
      rewrite (storeLeaf_run h1 q i _ ls) by done. exact Hst.
    + done.
    + by eapply ext_trans.
    + intros r Hr Hrq. rewrite list_lookup_insert_ne by done.
      unfold h1. by rewrite lookup_app_l.
    + rewrite list_lookup_insert_eq; [done|]. unfold h1.
      rewrite length_app. lia.
    + simpl. rewrite list_lookup_insert_ne by lia. rewrite Hnew.
      by rewrite Hc.
    + intros r Hr. unfold fp16 in Hr. simpl in Hr.
      apply list_elem_of_singleton in Hr as ->.
      rewrite length_insert. unfold h1. rewrite length_app. simpl. lia.
  - set (l := HBucket16 None (h_smallPoolLen b) (h_smallPool b)).
    destruct (Inv_store h0 [] h q (CLeaves (<[i := l]> ls)) (CLeaves ls))
      as (Hst & HI2 & Hext2); try done.
    { by apply W_fresh. }
    { simpl. by rewrite length_insert. }
    { simpl. by apply Forall_insert. }
    { intros Hin. by apply elem_of_nil in Hin. }
    exists (<[q := CLeaves (<[i := l]> ls)]> h), l. split_and!; try done.
    + rewrite (storeLeaf_run h q i _ ls) by done. exact Hst.
    + intros r Hr Hrq. by rewrite list_lookup_insert_ne.
    + by rewrite list_lookup_insert_eq.
    + intros r Hr. by apply elem_of_nil in Hr.
Qed.
End CloneLeaf.
(** ** [Clone] on the heap: the loops *)

Lemma mapM_Forall2_eq {A B C} (f : A -> option C) (g : B -> option C) l k :
  Forall2 (fun a b => g b = f a) l k -> mapM g k = mapM f l.
Proof.
  induction 1 as [|a b l k Hab _ IH]; [done|].
  simpl. by rewrite Hab, IH.
Qed.

Section CloneLoops.
Variable h0 : list cell.

Local Abbreviation I0 := (Inv h0 []).

Lemma h_copy_leaves_spec q src : forall h i ls,
  I0 h -> Forall (ok_leaf h0) src -> (length h0 <= q)%nat ->
  h !! q = Some (CLeaves ls) -> (i + length src <= length ls)%nat ->
  exists h' news,
    h_copy_leaves src (Some q) i h = Some (tt, h') /\
    I0 h' /\ ext h h' /\
    (forall p, (p < length h)%nat -> p <> q -> h' !! p = h !! p) /\
    h' !! q = Some (CLeaves (take i ls ++ news ++ drop (i + length src) ls)) /\
    Forall2 (fun b l => read16 h' l = read16 h0 b /\
                        forall p, p ∈ fp16 l -> (length h <= p < length h')%nat)
            src news.
Proof.
  induction src as [|b src IH]; intros h i ls HI Hok Hq0 Hq Hlen.
  - exists h, []. split_and!.
    + done.
    + done.
    + apply ext_refl.
    + done.
    + simpl. by rewrite Nat.add_0_r, take_drop.
    + constructor.
  - apply Forall_cons in Hok as [Hb Hok]. simpl in Hlen.
    destruct (h_bucket16_copyTo_spec h0 h b q i ls HI Hb Hq0 Hq)
      as (h1 & l & Hrun1 & HI1 & Hext1 & Hsame1 & Hq1 & Hr1 & Hfp1); [lia|].
    pose proof (lookup_lt_Some _ _ _ Hq) as Hqlt.
    pose proof (ext_length _ _ Hext1) as Hl1.
    destruct (IH h1 (S i) (<[i := l]> ls) HI1 Hok Hq0 Hq1)
      as (h' & news & Hrun & HI' & Hext' & Hsame' & Hq' & Hall).
    { rewrite length_insert. lia. }
    pose proof (ext_length _ _ Hext') as Hl'.
    exists h', (l :: news). split_and!.
    + cbn [h_copy_leaves]. by rewrite (hbind_run _ _ h tt h1 Hrun1).
    + done.
    + by eapply ext_trans.
    + intros p Hp Hpq. rewrite Hsame' by (done || lia). by apply Hsame1.
    + rewrite Hq'. do 2 f_equal.
      rewrite (take_S_r _ _ l) by (apply list_lookup_insert_eq; lia).
      rewrite take_insert_ge by lia.
      rewrite drop_insert_lt by lia.
      rewrite <- app_assoc. simpl.
      by replace (i + S (length src))%nat with (S (i + length src)) by lia.
    + constructor.
      * split.
        -- rewrite <- Hr1. apply read16_agree. intros p Hp.
           apply Hfp1 in Hp. apply Hsame'; lia.
        -- intros p Hp%Hfp1. lia.
      * eapply Forall2_impl; [exact Hall|]. intros b' l' [Hr Hfp].
        split; [done|]. intros p Hp%Hfp. lia.
Qed.

Lemma heap_keys_old h o ks :
  I0 h -> heap_keys h0 o = Some ks -> heap_keys h o = Some ks.
Proof.
  intros HI. destruct o as [p|]; [|done]. simpl.
  destruct (h0 !! p) as [c|] eqn:Hp; [|done].
  rewrite (Inv_old h0 [] h p HI (not_in_nil p) (lookup_lt_Some _ _ _ Hp)).
  by rewrite Hp.
Qed.

Lemma heap_leaves_old h o ls :
  I0 h -> heap_leaves h0 o = Some ls -> heap_leaves h o = Some ls.
Proof.
  intros HI. destruct o as [p|]; [|done]. simpl.
  destruct (h0 !! p) as [c|] eqn:Hp; [|done].
  rewrite (Inv_old h0 [] h p HI (not_in_nil p) (lookup_lt_Some _ _ _ Hp)).
  by rewrite Hp.
Qed.

Lemma heap_mids_old h o ms :
  I0 h -> heap_mids h0 o = Some ms -> heap_mids h o = Some ms.
Proof.
  intros HI. destruct o as [p|]; [|done]. simpl.
  destruct (h0 !! p) as [c|] eqn:Hp; [|done].
  rewrite (Inv_old h0 [] h p HI (not_in_nil p) (lookup_lt_Some _ _ _ Hp)).
  by rewrite Hp.
Qed.

Lemma alloc_slice_exact {A} (mk : list A -> cell) h l :
  I0 h -> ok_cell h (mk l) ->
  exists o h1,
    alloc_slice mk l h = Some (o, h1) /\ I0 h1 /\ ext h h1 /\
    (forall p, (p < length h)%nat -> h1 !! p = h !! p) /\
    ((l = [] /\ o = None /\ h1 = h) \/
     (o = Some (length h) /\ h1 = h ++ [mk l])).
Proof.
  intros HI Hok. destruct l as [|x l].
  - exists None, h. split_and!; [done|done|apply ext_refl|done|by left].
  - destruct (Inv_alloc h0 [] h (mk (x :: l)) HI Hok) as (HI1 & Hext1 & _).
    exists (Some (length h)), (h ++ [mk (x :: l)]).
    split_and!; [done|done|done| |by right].
    intros p Hp. by rewrite lookup_app_l.
Qed.

Lemma ok_leaf_zero h : ok_leaf h hbucket16_zero.
Proof. done. Qed.

Lemma copy_leaves_array_spec h ls :
  I0 h -> Forall (ok_leaf h0) ls ->
  exists lq h3 news,
    (match ls with
     | [] => hret None
     | _ =>
         q <- alloc (CLeaves (replicate (length ls) hbucket16_zero)) ;;
         _ <- h_copy_leaves ls (Some q) 0 ;;
         hret (Some q)
     end) h = Some (lq, h3) /\
    I0 h3 /\ ext h h3 /\
    (forall p, (p < length h)%nat -> h3 !! p = h !! p) /\
    heap_leaves h3 lq = Some news /\
    Forall2 (fun b l => read16 h3 l = read16 h0 b /\
                        forall p, p ∈ fp16 l -> (length h <= p < length h3)%nat)
            ls news /\
    (forall p, lq = Some p -> (length h <= p < length h3)%nat).
Proof.
  intros HI Hok. destruct ls as [|b ls].
  - exists None, h, []. split_and!; try done; apply ext_refl.
  - set (src := b :: ls) in *.
    set (zs := replicate (length src) hbucket16_zero).
    assert (ok_cell h (CLeaves zs)) as Hokz.
    { simpl. apply Forall_forall. intros l Hl.
      apply elem_of_replicate in Hl as [-> _]. apply ok_leaf_zero. }
    destruct (Inv_alloc h0 [] h (CLeaves zs) HI Hokz) as (HI1 & Hext1 & Hlen0).
    destruct (h_copy_leaves_spec (length h) src (h ++ [CLeaves zs]) O zs)
      as (h3 & news & Hrun & HI3 & Hext3 & Hsame & Hq & Hall); try done.
    { rewrite lookup_app_r by lia. by rewrite Nat.sub_diag. }
    { unfold zs. rewrite length_replicate. lia. }
    pose proof (ext_length _ _ Hext3) as Hl3.
    rewrite length_app in Hl3. simpl in Hl3.
    exists (Some (length h)), h3, news. split_and!.
    + rewrite (hbind_run _ _ h (length h) (h ++ [CLeaves zs])) by done.
      by rewrite (hbind_run _ _ _ tt h3 Hrun).
    + done.
    + by eapply ext_trans.
    + intros p Hp. rewrite Hsame; [by rewrite lookup_app_l| |lia].
      rewrite length_app. lia.
    + simpl. rewrite Hq. simpl. rewrite drop_ge, app_nil_r; [done|].
      unfold zs. rewrite length_replicate. lia.
    + eapply Forall2_impl; [exact Hall|]. intros b' l' [Hr Hfp].
      split; [done|]. intros p Hp%Hfp. rewrite length_app in Hp. lia.
    + intros p [= <-]. lia.
Qed.
End CloneLoops.
(** ** [Clone] on the heap: mid buckets *)

Section CloneMid.
Variable h0 : list cell.

Local Abbreviation I0 := (Inv h0 []).

Lemma h_bucket32_copyTo_spec h b Q i ms :
  wt h0 -> I0 h -> ok_mid h0 b -> (length h0 <= Q)%nat ->
  h !! Q = Some (CMids ms) -> (i < length ms)%nat ->
  exists h' m,
    h_bucket32_copyTo b (Some Q) i h = Some (tt, h') /\
    I0 h' /\ ext h h' /\
    (forall p, (p < length h)%nat -> p <> Q -> h' !! p = h !! p) /\
    h' !! Q = Some (CMids (<[i := m]> ms)) /\
    read32 h' m = read32 h0 b /\
    (forall p, p ∈ fp32 h' m -> (length h <= p < length h')%nat).
Proof.
  intros Hwt0 HI (n & Hk & Hl) HQ0 HQ Hi.
  pose proof (lookup_lt_Some _ _ _ HQ) as HQlt.
  destruct (heap_keys_len _ _ _ Hk) as (ks & Hks & Hklen).
  destruct (heap_leaves_len _ _ _ Hl) as (ls & Hls & Hllen).
  assert (Forall (ok_leaf h0) ls) as Hokls.
  { apply Forall_forall. intros l Hin. by eapply heap_leaves_ok. }
  destruct (alloc_slice_exact h0 CKeys h ks HI I)
    as (kq & h1 & Hrun1 & HI1 & Hext1 & Hsame1 & Hcase1).
  destruct (copy_leaves_array_spec h0 h1 ls HI1 Hokls)
    as (lq & h3 & news & Hrun3 & HI3 & Hext3 & Hsame3 & Hlq & Hall & Hlqfresh).
  pose proof (ext_length _ _ Hext1) as Hlen1.
  pose proof (ext_length _ _ Hext3) as Hlen3.
  pose proof (Forall2_length _ _ _ Hall) as Hnews.
  set (m := HBucket32 (h_hi b) kq lq (h_hint b)).
  assert (heap_keys h1 kq = Some ks /\
          forall p, kq = Some p -> (length h <= p < length h1)%nat)
    as [Hkq1 Hkqfresh].
  { destruct Hcase1 as [(-> & -> & ->)|(-> & ->)].
    - split; [done|]. by intros p.
    - split.
      + simpl. rewrite lookup_app_r by lia. by rewrite Nat.sub_diag.
      + intros p [= <-]. rewrite length_app. simpl. lia. }
  assert (heap_keys h3 kq = Some ks) as Hkq3.
  { destruct kq as [p|]; [|done]. simpl in *.
    rewrite Hsame3; [done|]. specialize (Hkqfresh p eq_refl). lia. }
  assert (h3 !! Q = Some (CMids ms)) as HQ3.
  { rewrite Hsame3 by lia. by rewrite Hsame1. }
  pose proof HI3 as (_ & _ & _ & Hwt3 & _).
  destruct (Inv_store h0 [] h3 Q (CMids (<[i := m]> ms)) (CMids ms))
    as (Hst & HI' & Hext'); try done.
  { by apply W_fresh. }
  { simpl. by rewrite length_insert. }
  { simpl. apply Forall_insert; [exact (wt_lookup _ _ _ Hwt3 HQ3)|].
    exists n. split.
    - unfold m. simpl. destruct kq as [p|]; simpl in *.
      + destruct (h3 !! p) as [[]|] eqn:Hp; simplify_eq.
        rewrite (shape_at_Some _ _ _ Hp). simpl. congruence.
      + simplify_eq. simpl in *. congruence.
    - unfold m. simpl. destruct lq as [p|]; simpl in *.
      + destruct (h3 !! p) as [[]|] eqn:Hp; simplify_eq.
        rewrite (shape_at_Some _ _ _ Hp). simpl. congruence.
      + simplify_eq. simpl in *. congruence. }
  { intros Hin. by apply elem_of_nil in Hin. }
  set (h' := <[Q := CMids (<[i := m]> ms)]> h3) in *.
  assert (forall p, (length h <= p)%nat -> h' !! p = h3 !! p) as Hnew.
  { intros p Hp. unfold h'. rewrite list_lookup_insert_ne; [done|lia]. }
  assert (heap_keys h' kq = Some ks) as Hkq'.
  { destruct kq as [p|]; [|done]. simpl in *. rewrite Hnew; [done|].
    specialize (Hkqfresh p eq_refl). lia. }
  assert (heap_leaves h' lq = Some news) as Hlq'.
  { destruct lq as [p|]; [|done]. simpl in *. rewrite Hnew; [done|].
    specialize (Hlqfresh p eq_refl). lia. }
  exists h', m. split_and!.
  - unfold h_bucket32_copyTo.
    rewrite (hbind_run _ _ h ks h)
      by (apply loadKeys_run; by apply (heap_keys_old h0)).
    rewrite (hbind_run _ _ h kq h1 Hrun1).
    rewrite (hbind_run _ _ h1 ls h1)
      by (apply loadLeaves_run; by apply (heap_leaves_old h0)).
    rewrite (hbind_run _ _ h1 lq h3 Hrun3).
    rewrite (storeMid_run h3 Q i _ ms) by done. exact Hst.
  - done.
  - eapply ext_trans; [exact Hext1|]. by eapply ext_trans.
  - intros p Hp HpQ. unfold h'. rewrite list_lookup_insert_ne by done.
    rewrite Hsame3 by lia. by apply Hsame1.
  - unfold h'. by rewrite list_lookup_insert_eq by lia.
  - unfold read32. unfold m. cbn [h_b16his h_buckets h_hi h_hint].
    rewrite Hkq', Hlq', Hks, Hls. simpl.
    rewrite (mapM_Forall2_eq (read16 h0) (read16 h') ls news); [done|].
    eapply Forall2_impl; [exact Hall|]. intros b' l' [Hr Hfp]. simpl.
    rewrite <- Hr. apply read16_agree. intros p Hp%Hfp. apply Hnew. lia.
  - unfold fp32, m. cbn [h_b16his h_buckets]. rewrite Hlq'. simpl.
    unfold h'. rewrite length_insert.
    intros p [Hp|[Hp|Hp]%elem_of_app]%elem_of_app.
    + destruct kq as [r|]; simpl in Hp; [|by apply elem_of_nil in Hp].
      apply list_elem_of_singleton in Hp as ->.
      specialize (Hkqfresh r eq_refl). lia.
    + destruct lq as [r|]; simpl in Hp; [|by apply elem_of_nil in Hp].
      apply list_elem_of_singleton in Hp as ->.
      specialize (Hlqfresh r eq_refl). lia.
    + apply elem_of_flat_map_gen in Hp as (l & Hl' & Hp).
      apply list_elem_of_lookup in Hl' as [j Hj].
      destruct (Forall2_lookup_r _ _ _ _ _ Hall Hj) as (b' & _ & _ & Hfp).
      apply Hfp in Hp. lia.
Qed.

Lemma h_copy_mids_spec Q src : forall h i ms,
  wt h0 -> I0 h -> Forall (ok_mid h0) src -> (length h0 <= Q)%nat ->
  h !! Q = Some (CMids ms) -> (i + length src <= length ms)%nat ->
  exists h' news,
    h_copy_mids src (Some Q) i h = Some (tt, h') /\
    I0 h' /\ ext h h' /\
    (forall p, (p < length h)%nat -> p <> Q -> h' !! p = h !! p) /\
    h' !! Q = Some (CMids (take i ms ++ news ++ drop (i + length src) ms)) /\
    Forall2 (fun b m => read32 h' m = read32 h0 b /\
                        forall p, p ∈ fp32 h' m -> (length h <= p < length h')%nat)
            src news.
Proof.
  induction src as [|b src IH]; intros h i ms Hwt0 HI Hok HQ0 HQ Hlen.
  - exists h, []. split_and!.
    + done.
    + done.
    + apply ext_refl.
    + done.
    + simpl. by rewrite Nat.add_0_r, take_drop.
    + constructor.
  - apply Forall_cons in Hok as [Hb Hok]. simpl in Hlen.
    destruct (h_bucket32_copyTo_spec h b Q i ms Hwt0 HI Hb HQ0 HQ)
      as (h1 & m & Hrun1 & HI1 & Hext1 & Hsame1 & HQ1 & Hr1 & Hfp1); [lia|].
    pose proof (lookup_lt_Some _ _ _ HQ) as HQlt.
    pose proof (ext_length _ _ Hext1) as Hl1.
    destruct (IH h1 (S i) (<[i := m]> ms) Hwt0 HI1 Hok HQ0 HQ1)
      as (h' & news & Hrun & HI' & Hext' & Hsame' & HQ' & Hall).
    { rewrite length_insert. lia. }
    pose proof (ext_length _ _ Hext') as Hl'.
    assert (forall p, p ∈ fp32 h1 m -> h' !! p = h1 !! p) as Hagree.
    { intros p Hp%Hfp1. apply Hsame'; lia. }
    exists h', (m :: news). split_and!.
    + cbn [h_copy_mids]. by rewrite (hbind_run _ _ h tt h1 Hrun1).
    + done.
    + by eapply ext_trans.
    + intros p Hp Hpq. rewrite Hsame' by (done || lia). by apply Hsame1.
    + rewrite HQ'. do 2 f_equal.
      rewrite (take_S_r _ _ m) by (apply list_lookup_insert_eq; lia).
      rewrite take_insert_ge by lia.
      rewrite drop_insert_lt by lia.
      rewrite <- app_assoc. simpl.
      by replace (i + S (length src))%nat with (S (i + length src)) by lia.
    + constructor.
      * split.
        -- rewrite <- Hr1. by apply read32_agree.
        -- rewrite (fp32_agree h1 h' m Hagree). intros p Hp%Hfp1. lia.
      * eapply Forall2_impl; [exact Hall|]. intros b' l' [Hr Hfp].
        split; [done|]. intros p Hp%Hfp. lia.
Qed.
End CloneMid.
(** ** [Clone] on the heap: the set *)

Lemma read16_Some h l : ok_leaf h l -> is_Some (read16 h l).
Proof.
  unfold ok_leaf, read16. destruct (h_bits l) as [p|]; [|by eexists].
  intros (c & Hc & Hs)%shape_at_kind. rewrite Hc.
  destruct c; try discriminate Hs. by eexists.
Qed.

Lemma read32_Some h b : wt h -> ok_mid h b -> is_Some (read32 h b).
Proof.
  intros Hwt (n & Hk & Hl).
  destruct (heap_keys_len _ _ _ Hk) as (ks & Hks & _).
  destruct (heap_leaves_len _ _ _ Hl) as (ls & Hls & _).
  unfold read32. rewrite Hks, Hls. simpl.
  assert (is_Some (mapM (read16 h) ls)) as [bs Hbs].
  { apply mapM_is_Some, Forall_forall. intros l Hin.
    apply read16_Some. by eapply heap_leaves_ok. }
  rewrite Hbs. by eexists.
Qed.

Lemma readSet_Some h s :
  wt h -> shape_at h s = Some (KSet, O) -> is_Some (readSet h s).
Proof.
  intros Hwt Hs. destruct (loadSet_run _ _ Hs) as (v & Hv & _).
  destruct (wt_lookup _ _ _ Hwt Hv) as (n & Hn).
  destruct (heap_mids_len _ _ _ Hn) as (ms & Hms & _).
  unfold readSet. rewrite Hv, Hms. simpl.
  assert (is_Some (mapM (read32 h) ms)) as [bs Hbs].
  { apply mapM_is_Some, Forall_forall. intros b Hin.
    apply read32_Some; [done|]. by eapply heap_mids_ok. }
  rewrite Hbs. by eexists.
Qed.

Lemma Inv_nil h : wt h -> Inv h [] h.
Proof.
  intros Hwt. split_and!; try done.
  - intros p Hp. by apply elem_of_nil in Hp.
  - intros p c Hp. by apply elem_of_nil in Hp.
Qed.

Lemma ok_mid_zero h : ok_mid h hbucket32_zero.
Proof. by exists O. Qed.

Lemma Clone_empty_spec h :
  wt h ->
  wt (h ++ [CSet (HSet 0 None)]) /\
  readSet (h ++ [CSet (HSet 0 None)]) (length h) = Some Set_zero /\
  shape_at (h ++ [CSet (HSet 0 None)]) (length h) = Some (KSet, O) /\
  fpSet (h ++ [CSet (HSet 0 None)]) (length h) = [length h].
Proof.
  intros Hwt.
  assert ((h ++ [CSet (HSet 0 None)]) !! length h = Some (CSet (HSet 0 None)))
    as Hc by (rewrite lookup_app_r by lia; by rewrite Nat.sub_diag).
  split_and!.
  - apply wt_app; [done|]. by exists O.
  - unfold readSet. by rewrite Hc.
  - by rewrite (shape_at_Some _ _ _ Hc).
  - unfold fpSet. by rewrite Hc.
Qed.

Theorem h_Clone_spec h s :
  wt h -> shape_at h s = Some (KSet, O) ->
  exists c h' v,
    h_Clone (Some s) h = Some (c, h') /\
    readSet h s = Some v /\
    readSet h' c = Some (Clone (Some v)) /\
    wt h' /\ shape_at h' c = Some (KSet, O) /\
    (forall p, (p < length h)%nat -> h' !! p = h !! p) /\
    Forall (fun p => (length h <= p)%nat) (fpSet h' c).
Proof.
  intros Hwt Hs. destruct (loadSet_run _ _ Hs) as (v & Hv & Hrun).
  destruct (readSet_Some h s Hwt Hs) as [v' Hv'].
  destruct (wt_lookup _ _ _ Hwt Hv) as (n & Hn).
  destruct (heap_mids_len _ _ _ Hn) as (ms & Hms & _).
  assert ((bs ← mapM (read32 h) ms; Some (MkSet (h_itemsCount v) bs))
          = Some v') as Hread.
  { rewrite <- Hv'. unfold readSet. rewrite Hv, Hms. done. }
  unfold h_Clone. rewrite (hbind_run _ _ h v h Hrun).
  destruct (Z.eqb_spec (h_itemsCount v) 0) as [H0|H0].
  { destruct (Clone_empty_spec h Hwt) as (Hwt' & Hr & Hsh & Hfp).
    exists (length h), (h ++ [CSet (HSet 0 None)]), v'.
    split_and!; try done.
    - rewrite Hr. f_equal. destruct (mapM (read32 h) ms); simplify_eq/=.
      by rewrite H0.
    - intros p Hp. by rewrite lookup_app_l.
    - rewrite Hfp. by repeat constructor. }
  set (d := length h).
  set (h1 := h ++ [CSet (HSet 0 None)]).
  set (zs := replicate (length ms) hbucket32_zero).
  set (q := length h1).
  set (h2 := h1 ++ [CMids zs]).
  destruct (Inv_alloc h [] h (CSet (HSet 0 None)) (Inv_nil h Hwt))
    as (HI1 & Hext1 & _); [by exists O|]. fold h1 in HI1, Hext1.
  destruct (Inv_alloc h [] h1 (CMids zs) HI1) as (HI2 & Hext2 & _).
  { simpl. apply Forall_forall. intros b Hb.
    apply elem_of_replicate in Hb as [-> _]. apply ok_mid_zero. }
  fold h2 in HI2, Hext2.
  assert (length h1 = S (length h)) as Hl1
    by (unfold h1; rewrite length_app; simpl; lia).
  assert (length h2 = S (S (length h))) as Hl2
    by (unfold h2; rewrite length_app; simpl; lia).
  assert (Forall (ok_mid h) ms) as Hokms.
  { apply Forall_forall. intros b Hb. by eapply heap_mids_ok. }
  destruct (h_copy_mids_spec h q ms h2 O zs Hwt HI2 Hokms)
    as (h3 & news & Hrun3 & HI3 & Hext3 & Hsame3 & Hq3 & Hall).
  { unfold q. lia. }
  { unfold h2, q. rewrite lookup_app_r by lia. by rewrite Nat.sub_diag. }
  { unfold zs. rewrite length_replicate. lia. }
  simpl in Hq3. rewrite drop_ge, app_nil_r in Hq3
    by (unfold zs; rewrite length_replicate; lia).
  assert (h3 !! d = Some (CSet (HSet 0 None))) as Hd3.
  { rewrite Hsame3 by (unfold d, q; lia). unfold h2.
    rewrite lookup_app_l by lia. unfold h1, d.
    rewrite lookup_app_r by lia. by rewrite Nat.sub_diag. }
  set (cs := CSet (HSet (h_itemsCount v) (Some q))).
  destruct (Inv_store h [] h3 d cs (CSet (HSet 0 None)))
    as (Hst & HI' & Hext'); try done.
  { apply W_fresh. unfold d. lia. }
  { exists (length news). simpl. by rewrite (shape_at_Some _ _ _ Hq3). }
  { intros Hin. by apply elem_of_nil in Hin. }
  set (h' := <[d := cs]> h3) in *.
  pose proof (ext_length _ _ Hext3) as Hl3.
  assert (forall p, p <> d -> h' !! p = h3 !! p) as Hnew.
  { intros p Hp. unfold h'. by rewrite list_lookup_insert_ne. }
  assert (h' !! d = Some cs) as Hd'.
  { unfold h'. rewrite list_lookup_insert_eq; [done|]. unfold d. lia. }
  assert (h' !! q = Some (CMids news)) as Hq'.
  { rewrite Hnew by (unfold d, q; lia). done. }
  assert (Forall2 (fun b m => read32 h' m = read32 h b /\
                     fp32 h' m = fp32 h3 m /\
                     forall p, p ∈ fp32 h3 m -> (length h2 <= p)%nat)
            ms news) as Hall'.
  { eapply Forall2_impl; [exact Hall|]. intros b m [Hr Hfp]. cbn beta.
    assert (forall p, p ∈ fp32 h3 m -> h' !! p = h3 !! p) as Hagree.
    { intros p Hp%Hfp. apply Hnew. unfold d. lia. }
    split_and!.
    - rewrite <- Hr. by apply read32_agree.
    - by apply fp32_agree.
    - intros p Hp%Hfp. lia. }
  exists d, h', v'. split_and!.
  - rewrite (hbind_run _ _ h ms h) by by apply loadMids_run.
    rewrite (hbind_run _ _ h d h1) by done.
    rewrite (hbind_run _ _ h1 q h2) by done.
    rewrite (hbind_run _ _ h2 tt h3 Hrun3).
    by rewrite (hbind_run _ _ h3 tt h' Hst).
  - done.
  - unfold readSet. rewrite Hd'. unfold cs. simpl. rewrite Hq'. simpl.
    rewrite (mapM_Forall2_eq (read32 h) (read32 h') ms news).
    + rewrite Hread. f_equal. unfold Clone.
      destruct (mapM (read32 h) ms); simplify_eq/=.
      by destruct (Z.eqb_spec (h_itemsCount v) 0).
    + eapply Forall2_impl; [exact Hall'|]. by intros b m (? & _).
  - by destruct HI' as (_ & _ & _ & ? & _).
  - by rewrite (shape_at_Some _ _ _ Hd').
  - intros p Hp. rewrite Hnew by (unfold d; lia).
    rewrite Hsame3 by (unfold q; lia). unfold h2, h1.
    by rewrite !lookup_app_l by (rewrite ?length_app; simpl; lia).
  - unfold fpSet. rewrite Hd'. unfold cs. simpl. rewrite Hq'. simpl.
    constructor; [unfold d; lia|]. constructor; [unfold q; lia|].
    apply Forall_forall. intros p (m & Hm & Hp)%elem_of_flat_map_gen.
    apply list_elem_of_lookup in Hm as [j Hj].
    destruct (Forall2_lookup_r _ _ _ _ _ Hall' Hj) as (b & _ & _ & Hfp & Hge).
    rewrite Hfp in Hp. apply Hge in Hp. lia.
Qed.
(** * Further properties of the package *)

Lemma run_parts_collect parts : forall acc : list Z,
  run_parts (fun part acc => (true, acc ++ part)) parts acc
  = (true, acc ++ concat parts).
Proof.
  induction parts as [|p ps IH]; intros acc; simpl.
  - by rewrite app_nil_r.
  - by rewrite IH, app_assoc.
Qed.

(** X1: [Set.ForEach] on a well-formed set calls [f] on the parts of the
    leaf buckets in storage order and stops after the first call that
    returns false; the parts together hold every member exactly once;
    the walk leaves the members and [Len] of the set as they were; on a
    nil set [f] is not called. *)
Theorem X1_forEach_walk {St : Type} (f : list Z -> St -> bool * St) s st :
  wfSet s ->
  snd (ForEach f (Some s) st) = (run_parts f (partsSet s) st).2 /\
  concat (partsSet s) ≡ₚ elemsSet s /\
  Len (fst (ForEach f (Some s) st)) = Len (Some s) /\
  (forall x, Has (fst (ForEach f (Some s) st)) x = Has (Some s) x) /\
  ForEach f None st = (None, st).
Proof.
  intros Hwf. unfold ForEach.
  destruct (Set_ForEach_run f s st Hwf) as (Hst & _ & Hcnt & Hhas).
  destruct (Set_ForEach f s st) as [s' st']. simp_rec.
  split_and!; try done. apply concat_partsSet.
Qed.

Lemma X1_forEach_witness :
  wfSet ex_set /\
  snd (ForEach (fun part n => (false, n + 1)) (Some ex_set) 0)
  = (run_parts (fun part n => (false, n + 1)) (partsSet ex_set) 0).2.
Proof.
  assert (wfSet ex_set) as Hwf by by_eval.
  split; [exact Hwf|].
  by destruct (X1_forEach_walk (fun part n => (false, n + 1)) ex_set 0 Hwf)
    as (H & _).
Defined.

(** X2: a callback that collects the parts and never stops receives
    every member of the set exactly once: the collected list is a
    permutation of the sorted member list and has [Len] entries. *)
Theorem X2_forEach_collects s :
  wfSet s ->
  snd (ForEach (fun part acc => (true, acc ++ part)) (Some s) []) ≡ₚ elemsSet s /\
  Z.of_nat (length (snd (ForEach (fun part acc => (true, acc ++ part))
                           (Some s) []))) = Len (Some s).
Proof.
  intros Hwf. unfold ForEach.
  destruct (Set_ForEach_run (fun part acc => (true, acc ++ part)) s [] Hwf)
    as (Hst & _).
  destruct (Set_ForEach _ s []) as [s' st']. simp_rec.
  rewrite Hst, run_parts_collect. simpl.
  split; [apply concat_partsSet|].
  rewrite concat_partsSet. by apply elemsSet_length.
Qed.

Lemma X2_forEach_collects_witness :
  wfSet ex_set /\
  Z.of_nat (length (snd (ForEach (fun part acc => (true, acc ++ part))
                           (Some ex_set) []))) = Len (Some ex_set).
Proof.
  assert (wfSet ex_set) as Hwf by by_eval.
  split; [exact Hwf|]. by destruct (X2_forEach_collects ex_set Hwf).
Defined.

(** X3: [s.Subtract(a)] removes from [s] exactly the members of [a]:
    afterwards a value is in [s] when it was in [s] and is not in [a],
    [Len] is the number of members left, and [a] has its members and
    [Len] as before.  A nil receiver or operand makes the call a
    no-op. *)
Theorem X3_subtract_members s a :
  wfSet s -> wfSet a ->
  exists s' a',
    Subtract (Some s) (Some a) = (Some s', Some a') /\
    wfSet s' /\
    (forall x, u64 x ->
       Has (Some s') x = Has (Some s) x && negb (Has (Some a) x)) /\
    Len (Some s')
    = Z.of_nat (length (filter (fun x => negb (Set_Has a x) = true)
                               (elemsSet s))) /\
    (forall x, Has (Some a') x = Has (Some a) x) /\
    Len (Some a') = Len (Some a) /\
    (forall q, Subtract None q = (None, q)) /\
    (forall p, Subtract p None = (p, None)).
Proof.
  intros Hs Ha. unfold Subtract.
  destruct (Set_Subtract_spec s a Hs Ha) as (Hwf & Hhas & Hwfa & Hca & Hha).
  destruct (Set_Subtract s a) as [s' a']. simp_rec.
  exists s', a'. split_and!; try done.
  - by destruct (elemsSet_filter s' s (fun x => negb (Set_Has a x)) Hwf Hs Hhas).
  - by intros [p|].
Qed.

Lemma X3_subtract_witness :
  wfSet ex_setA /\ wfSet ex_setB /\
  exists s' a',
    Subtract (Some ex_setA) (Some ex_setB) = (Some s', Some a') /\
    Len (Some s')
    = Z.of_nat (length (filter (fun x => negb (Set_Has ex_setB x) = true)
                               (elemsSet ex_setA))).
Proof.
  assert (wfSet ex_setA) as HA by by_eval.
  assert (wfSet ex_setB) as HB by by_eval.
  split; [exact HA|]. split; [exact HB|].
  destruct (X3_subtract_members ex_setA ex_setB HA HB)
    as (s' & a' & H1 & _ & _ & H2 & _).
  by exists s', a'.
Defined.

(** X4: [s.Equal(a)] is true exactly when the two sets have the same
    members; two nil sets are equal. *)
Theorem X4_equal_iff_same_members s a :
  wfSet s -> wfSet a ->
  (Equal (Some s) (Some a) = true <->
   forall x, u64 x -> Has (Some s) x = Has (Some a) x) /\
  Equal None None = true.
Proof.
  intros Hs Ha. split; [|done].
  by destruct (Set_Equal_spec s a Hs Ha) as [H _].
Qed.

Lemma X4_equal_witness :
  wfSet ex_setA /\ wfSet ex_setB /\
  (Equal (Some ex_setA) (Some ex_setB) = true <->
   forall x, u64 x -> Has (Some ex_setA) x = Has (Some ex_setB) x).
Proof.
  assert (wfSet ex_setA) as HA by by_eval.
  assert (wfSet ex_setB) as HB by by_eval.
  split; [exact HA|]. split; [exact HB|].
  by destruct (X4_equal_iff_same_members ex_setA ex_setB HA HB).
Defined.

(** X5: [s.UnionMayOwn(a)] leaves in [s] the members of both sets.  When
    [s] has fewer items than [a] the two structs are exchanged first,
    so that afterwards [a] holds the former members of [s]; otherwise
    [a] keeps its own. *)
Theorem X5_unionMayOwn s a :
  wfSet s -> wfSet a ->
  wfSet (Set_union s a true).1 /\
  (forall x, u64 x ->
     Set_Has (Set_union s a true).1 x = Set_Has s x || Set_Has a x) /\
  (forall x, Set_Has (Set_union s a true).2 x
             = if itemsCount s <? itemsCount a then Set_Has s x
               else Set_Has a x).
Proof.
  intros Hs Ha.
  destruct (Set_union_spec s a true Hs Ha) as (Hwf & Hhas & _).
  split; [done|]. split; [done|].
  unfold Set_union. cbn [andb].
  destruct (itemsCount s <? itemsCount a).
  - by destruct (union_core a s Ha Hs) as (_ & _ & _ & _ & H).
  - by destruct (union_core s a Hs Ha) as (_ & _ & _ & _ & H).
Qed.

Lemma X5_unionMayOwn_witness :
  wfSet ex_setA /\ wfSet ex_setB /\
  forall x, u64 x ->
    Set_Has (Set_union ex_setA ex_setB true).1 x
    = Set_Has ex_setA x || Set_Has ex_setB x.
Proof.
  assert (wfSet ex_setA) as HA by by_eval.
  assert (wfSet ex_setB) as HB by by_eval.
  split; [exact HA|]. split; [exact HB|].
  by destruct (X5_unionMayOwn ex_setA ex_setB HA HB) as (_ & H & _).
Defined.
(** X6: [Set.Clone] returns an independent copy.  On a well-typed heap
    the call runs to completion and returns the address of a new set
    that reads as the source (as the empty set when the source has no
    items); every cell of the new set was allocated by the call, and
    no cell that existed before is changed.  A nil source gives a new
    empty set. *)
Theorem X6_clone_is_independent h s :
  wt h -> shape_at h s = Some (KSet, O) ->
  (exists c h' v,
     h_Clone (Some s) h = Some (c, h') /\
     readSet h s = Some v /\
     readSet h' c = Some (Clone (Some v)) /\
     wt h' /\
     (forall p, (p < length h)%nat -> h' !! p = h !! p) /\
     Forall (fun p => (length h <= p)%nat) (fpSet h' c)) /\
  (exists c h',
     h_Clone None h = Some (c, h') /\ readSet h' c = Some Set_zero /\
     (forall p, (p < length h)%nat -> h' !! p = h !! p)).
Proof.
  intros Hwt Hs. split.
  - destruct (h_Clone_spec h s Hwt Hs)
      as (c & h' & v & H1 & H2 & H3 & H4 & _ & H5 & H6).
    by exists c, h', v.
  - destruct (Clone_empty_spec h Hwt) as (_ & Hr & _).
    exists (length h), (h ++ [CSet (HSet 0 None)]). split_and!; try done.
    intros p Hp. by rewrite lookup_app_l.
Qed.

Lemma X6_clone_witness :
  wt ex_heap /\ shape_at ex_heap 4 = Some (KSet, O) /\
  exists c h' v,
    h_Clone (Some 4%nat) ex_heap = Some (c, h') /\
    readSet ex_heap 4 = Some v /\
    readSet h' c = Some (Clone (Some v)).
Proof.
  split; [exact ex_heap_wt|]. split; [reflexivity|].
  destruct (X6_clone_is_independent ex_heap 4%nat ex_heap_wt eq_refl)
    as [(c & h' & v & H1 & H2 & H3 & _) _].
  by exists c, h', v.
Defined.

(** X7: intersecting a clone with its original, [c := s.Clone();
    c.Intersect(s)], runs to completion and changes no cell that
    existed before the two calls; [s] reads as before. *)
Theorem X7_clone_then_intersect h s :
  wt h -> shape_at h s = Some (KSet, O) ->
  exists c h1 h2,
    h_Clone (Some s) h = Some (c, h1) /\
    h_Intersect (Some c) (Some s) h1 = Some (tt, h2) /\
    (forall p, (p < length h)%nat -> h2 !! p = h !! p) /\
    readSet h2 s = readSet h s /\ wt h2.
Proof.
  intros Hwt Hs.
  destruct (h_Clone_spec h s Hwt Hs)
    as (c & h1 & v & Hrun1 & _ & _ & Hwt1 & Hc1 & Hold1 & Hfresh).
  assert (shape_at h1 s = Some (KSet, O)) as Hs1.
  { unfold shape_at in *. rewrite Hold1; [done|].
    apply lookup_lt_is_Some. destruct (h !! s); [by eexists|done]. }
  destruct (h_Intersect_rule h1 (fpSet h1 c) h1 c s
              (Inv_start h1 c Hwt1 Hc1) (fpSet_head h1 c) Hc1 Hs1)
    as ([] & h2 & Hrun2 & HI & _).
  assert (forall p, (p < length h)%nat -> h2 !! p = h !! p) as Hold.
  { intros p Hp. rewrite <- Hold1 by done.
    destruct HI as (_ & Hfr & _). apply Hfr.
    - intros Hin. eapply Forall_forall in Hfresh; [|exact Hin]. lia.
    - apply lookup_lt_is_Some. rewrite Hold1 by done.
      by apply lookup_lt_is_Some. }
  exists c, h1, h2. split_and!; try done.
  - apply readSet_agree. intros q Hq. apply Hold.
    by eapply fpSet_allocated.
  - by destruct HI as (_ & _ & _ & ? & _).
Qed.

Lemma X7_clone_then_intersect_witness :
  wt ex_heap /\ shape_at ex_heap 0 = Some (KSet, O) /\
  exists c h1 h2,
    h_Clone (Some 0%nat) ex_heap = Some (c, h1) /\
    h_Intersect (Some c) (Some 0%nat) h1 = Some (tt, h2) /\
    readSet h2 0 = readSet ex_heap 0.
Proof.
  split; [exact ex_heap_wt|]. split; [reflexivity|].
  destruct (X7_clone_then_intersect ex_heap 0%nat ex_heap_wt eq_refl)
    as (c & h1 & h2 & H1 & H2 & _ & H3 & _).
  by exists c, h1, h2.
Defined.

(** X8: on an ascending slice [binarySearch16] returns the lower bound
    of [x]: an index not beyond the length, with every element before
    it less than [x] and every element from it on at least [x]; when
    [x] is in the slice, this is its index. *)
Theorem X8_binarySearch16_lower_bound l x :
  ascending l ->
  (binarySearch16 l x <= length l)%nat /\
  (forall k v, (k < binarySearch16 l x)%nat -> l !! k = Some v -> v < x) /\
  (forall k v, (binarySearch16 l x <= k)%nat -> l !! k = Some v -> x <= v) /\
  (forall i, l !! i = Some x -> binarySearch16 l x = i).
Proof.
  intros Hs. destruct (binarySearch16_spec l x Hs) as (H1 & H2 & H3).
  split_and!; try done. intros i Hi. by apply binarySearch16_found.
Qed.

Lemma X8_binarySearch16_witness :
  ascending [2; 5; 9; 40] /\ binarySearch16 [2; 5; 9; 40] 9 = 2%nat.
Proof.
  assert (ascending [2; 5; 9; 40]) as Hs by by_eval.
  split; [exact Hs|].
  destruct (X8_binarySearch16_lower_bound [2; 5; 9; 40] 9 Hs)
    as (_ & _ & _ & H).
  by apply H.
Defined.

(** X9: the bit loop of [bucket16.appendTo] emits, for a 64-bit word,
    one value per set bit in ascending bit order, as many as
    [bits.OnesCount64] counts; it has left after at most 64 rounds. *)
Theorem X9_emit_bits_lists_set_bits x64 w dst fuel :
  u64 w -> (64 <= fuel)%nat ->
  emit_bits fuel x64 w dst
  = dst ++ map (fun t => Z.lor x64 t) (bits_from 64 0 w) /\
  ascending (bits_from 64 0 w) /\
  (forall t, t ∈ bits_from 64 0 w <-> 0 <= t < 64 /\ Z.testbit w t = true) /\
  Z.of_nat (length (bits_from 64 0 w)) = OnesCount64 w.
Proof.
  intros Hw Hf. split_and!.
  - rewrite emit_bits_fuel by done. by apply emit_bits_spec.
  - apply bits_from_ascending.
  - intros t. rewrite bits_from_elem. simpl. lia.
  - apply bits_from_length.
Qed.

Lemma X9_emit_bits_witness :
  u64 10 /\ (64 <= 64)%nat /\ emit_bits 64 4096 10 [7] = [7; 4097; 4099].
Proof.
  assert (u64 10) as Hw by by_eval.
  split; [exact Hw|]. split; [lia|].
  destruct (X9_emit_bits_lists_set_bits 4096 10 [7] 64 Hw (Nat.le_refl _))
    as (H & _).
  rewrite H. reflexivity.
Defined.
(** X10: [bucket16.del] reports whether the value was present; after it
    the value is absent, every other value is as before, and the count
    of the bucket drops by one exactly when the value was present. *)
Theorem X10_leaf_del b x :
  wf16 b -> u16 x ->
  fst (bucket16_del b x) = bucket16_has b x /\
  wf16 (snd (bucket16_del b x)) /\
  bucket16_has (snd (bucket16_del b x)) x = false /\
  (forall y, u16 y -> y <> x ->
     bucket16_has (snd (bucket16_del b x)) y = bucket16_has b y) /\
  count16 (snd (bucket16_del b x))
  = count16 b - (if bucket16_has b x then 1 else 0).
Proof.
  intros Hwf Hx.
  destruct (bucket16_del_spec b x Hwf Hx) as (H1 & H2 & H3 & H4).
  split_and!; try done.
  - rewrite H4 by done. by rewrite Z.eqb_refl.
  - intros y Hy Hne. rewrite H4 by done.
    by destruct (Z.eqb_spec x y) as [->|].
Qed.

Lemma X10_leaf_del_witness :
  wf16 (fresh16 7) /\ u16 7 /\
  bucket16_has (snd (bucket16_del (fresh16 7) 7)) 7 = false.
Proof.
  assert (wf16 (fresh16 7)) as Hwf by by_eval.
  assert (u16 7) as Hx by by_eval.
  split; [exact Hwf|]. split; [exact Hx|].
  by destruct (X10_leaf_del (fresh16 7) 7 Hwf Hx) as (_ & _ & H & _).
Defined.

(** X11: adding a value that is already a member changes nothing:
    [bucket16.add] returns false and leaves the bucket as it is, and
    [Set.Add] keeps [Len], the members and the number of mid
    buckets. *)
Theorem X11_add_member_is_noop s b x lo :
  wfSet s -> Set_Has s x = true ->
  wf16 b -> u16 lo -> bucket16_has b lo = true ->
  bucket16_add b lo = (false, b) /\
  itemsCount (Set_Add s x) = itemsCount s /\
  (forall y, Set_Has (Set_Add s x) y = Set_Has s y) /\
  length (buckets32 (Set_Add s x)) = length (buckets32 s).
Proof.
  intros Hs Hx Hb Hlo Hhas. split_and!.
  - pose proof (bucket16_add_member b lo Hb Hlo Hhas) as Hsnd.
    destruct (bucket16_add_spec b lo Hb Hlo) as (Hfst & _).
    rewrite Hhas in Hfst. destruct (bucket16_add b lo) as [r b'].
    simpl in Hfst, Hsnd. by subst.
  - by destruct (Set_Add_member s x Hs Hx) as [(_ & ? & _) _].
  - intros y. destruct (Set_Add_member s x Hs Hx) as [Hsim _].
    by apply sim_has.
  - destruct (Set_Add_member s x Hs Hx) as [(_ & _ & Hf) _].
    symmetry. by eapply Forall2_length.
Qed.

Lemma X11_add_member_witness :
  wfSet ex_set /\ Set_Has ex_set 2 = true /\
  wf16 (fresh16 7) /\ u16 7 /\ bucket16_has (fresh16 7) 7 = true /\
  itemsCount (Set_Add ex_set 2) = itemsCount ex_set.
Proof.
  assert (wfSet ex_set) as Hwf by by_eval.
  assert (wf16 (fresh16 7)) as Hb by by_eval.
  assert (u16 7) as Hlo by by_eval.
  split; [exact Hwf|]. split; [reflexivity|]. split; [exact Hb|].
  split; [exact Hlo|]. split; [reflexivity|].
  by destruct (X11_add_member_is_noop ex_set (fresh16 7) 2 7 Hwf eq_refl Hb Hlo
                 eq_refl) as (_ & H & _).
Defined.

(** X12: [getWordNumBitMask] addresses each 16-bit value by a word
    index below 1024 and a mask with the single bit [x mod 64]; two
    values with the same word and mask are equal. *)
Theorem X12_word_and_mask x y :
  u16 x -> u16 y ->
  (fst (getWordNumBitMask x) < wordsPerBucket)%nat /\
  snd (getWordNumBitMask x) = 2 ^ (x mod 64) /\
  u64 (snd (getWordNumBitMask x)) /\
  (getWordNumBitMask x = getWordNumBitMask y -> x = y).
Proof.
  intros Hx Hy. unfold getWordNumBitMask. simpl.
  pose proof (mask_range x) as Hmx. pose proof (mask_range y) as Hmy.
  split_and!.
  - by apply u16_word.
  - rewrite Z.shiftl_1_l. by rewrite land_63.
  - by apply u64_mask.
  - intros [= Hw Hm]. unfold u16 in *.
    rewrite !Z.shiftl_1_l in Hm.
    apply Z.pow_inj_r in Hm; [|lia..].
    rewrite !land_63 in Hm.
    apply split_eq; [|done].
    apply Z2Nat.inj in Hw; [done|apply Z.div_pos; lia..].
Qed.

Lemma X12_word_and_mask_witness :
  u16 130 /\ snd (getWordNumBitMask 130) = 2 ^ (130 mod 64).
Proof.
  assert (u16 130) as Hx by by_eval.
  split; [exact Hx|].
  by destruct (X12_word_and_mask 130 130 Hx Hx) as (_ & H & _).
Defined.

(** X13: adding a value that is not a member and deleting it again
    gives back a set with the same members and the same [Len]. *)
Theorem X13_add_then_del s x :
  wfSet s -> u64 x -> Set_Has s x = false ->
  wfSet (Set_Del (Set_Add s x) x) /\
  itemsCount (Set_Del (Set_Add s x) x) = itemsCount s /\
  forall y, u64 y -> Set_Has (Set_Del (Set_Add s x) x) y = Set_Has s y.
Proof.
  intros Hwf Hx Hno.
  destruct (Set_Add_spec s x Hwf Hx) as (Hwf1 & Hc1 & Hh1).
  destruct (Set_Del_spec (Set_Add s x) x Hwf1 Hx) as (Hwf2 & Hc2 & Hh2).
  split; [done|]. split.
  - rewrite Hc2, Hc1, Hh1, Hno, Z.eqb_refl by done. simpl. lia.
  - intros y Hy. rewrite Hh2, Hh1 by done.
    destruct (Z.eqb_spec x y) as [->|]; [by rewrite Hno|done].
Qed.

Lemma X13_add_then_del_witness :
  wfSet ex_set /\ u64 77 /\ Set_Has ex_set 77 = false /\
  itemsCount (Set_Del (Set_Add ex_set 77) 77) = itemsCount ex_set.
Proof.
  assert (wfSet ex_set) as Hwf by by_eval.
  assert (u64 77) as Hx by by_eval.
  split; [exact Hwf|]. split; [exact Hx|]. split; [reflexivity|].
  by destruct (X13_add_then_del ex_set 77 Hwf Hx eq_refl) as (_ & H & _).
Defined.

(** X14: after a batch of [Add] calls on the empty set, [Has] is true
    exactly for the added values and [Len] is the number of distinct
    values among them. *)
Theorem X14_len_counts_distinct l :
  Forall u64 l ->
  wfSet (foldl Set_Add Set_zero l) /\
  (forall y, u64 y ->
     Set_Has (foldl Set_Add Set_zero l) y = bool_decide (y ∈ l)) /\
  itemsCount (foldl Set_Add Set_zero l) = Z.of_nat (length (remove_dups l)).
Proof.
  intros Hl.
  destruct (foldl_Set_Add_spec l Set_zero Set_zero_wf Hl) as (Hwf & Hhas & _).
  assert (forall y, u64 y ->
            Set_Has (foldl Set_Add Set_zero l) y = bool_decide (y ∈ l)) as Hhas'.
  { intros y Hy. by rewrite Hhas. }
  split; [done|]. split; [done|].
  rewrite <- (elemsSet_length _ Hwf). f_equal. apply Permutation_length.
  apply NoDup_Permutation.
  - by apply ascending_NoDup, elemsSet_ascending.
  - apply NoDup_remove_dups.
  - intros y. rewrite elem_of_remove_dups, elemsSet_elem by done. split.
    + intros [Hy Hin]. rewrite Hhas' in Hin by done.
      by apply bool_decide_eq_true in Hin.
    + intros Hin. assert (u64 y) as Hy by by eapply Forall_forall in Hl.
      split; [done|]. rewrite Hhas' by done. by apply bool_decide_eq_true.
Qed.

Lemma X14_len_counts_distinct_witness :
  Forall u64 [5; 9; 5; 4294967296; 9] /\
  itemsCount (foldl Set_Add Set_zero [5; 9; 5; 4294967296; 9]) = 3.
Proof.
  assert (Forall u64 [5; 9; 5; 4294967296; 9]) as Hl by by_eval.
  split; [exact Hl|].
  destruct (X14_len_counts_distinct _ Hl) as (_ & _ & H).
  rewrite H. reflexivity.
Defined.
(** X15: [s.Intersect(a)] on a well-typed heap never panics, whether or
    not the two sets share storage; it writes only to cells of the
    receiver's own storage and to cells it allocates, so every other
    cell, of [a] or of any third set, is as before, and the heap stays
    well-typed.  A nil operand empties the receiver; a nil receiver
    panics. *)
Theorem X15_intersect_writes_receiver_only h s a :
  wt h -> shape_at h s = Some (KSet, O) -> shape_at h a = Some (KSet, O) ->
  (exists h',
     h_Intersect (Some s) (Some a) h = Some (tt, h') /\
     wt h' /\ (length h <= length h')%nat /\
     forall p, p ∉ fpSet h s -> (p < length h)%nat -> h' !! p = h !! p) /\
  h_Intersect (Some s) None h = Some (tt, <[s := CSet (HSet 0 None)]> h) /\
  h_Intersect None (Some a) h = None.
Proof.
  intros Hwt Hs Ha. split_and!.
  - destruct (h_Intersect_rule h (fpSet h s) h s a (Inv_start h s Hwt Hs)
                (fpSet_head h s) Hs Ha) as ([] & h' & Hrun & HI & _).
    destruct HI as (Hlen & Hfr & _ & Hwt' & _). by exists h'.
  - destruct (loadSet_run _ _ Hs) as (v & Hv & Hrun).
    unfold h_Intersect, h_Len.
    rewrite (hbind_run _ _ h (h_itemsCount v) h)
      by (by rewrite (hbind_run _ _ h v h Hrun)).
    rewrite (hbind_run _ _ h 0 h) by done.
    unfold store. rewrite decide_True; [done|]. by eapply lookup_lt_Some.
  - unfold h_Intersect, h_Len.
    rewrite (hbind_run _ _ h 0 h) by done.
    destruct (loadSet_run _ _ Ha) as (v & Hv & Hrun).
    by rewrite (hbind_run _ _ h (h_itemsCount v) h)
      by (by rewrite (hbind_run _ _ h v h Hrun)).
Qed.

Lemma X15_intersect_self_witness :
  wt ex_heap /\ shape_at ex_heap 0 = Some (KSet, O) /\
  exists h', h_Intersect (Some 0%nat) (Some 0%nat) ex_heap = Some (tt, h') /\
             wt h'.
Proof.
  split; [exact ex_heap_wt|]. split; [reflexivity|].
  destruct (X15_intersect_writes_receiver_only ex_heap 0%nat 0%nat ex_heap_wt
              eq_refl eq_refl) as [(h' & H1 & H2 & _) _].
  by exists h'.
Defined.

(** X16: [bucket16.intersect] keeps in the receiver exactly the values
    both buckets hold, whichever of the two representations (small
    pool or bitmap) each of them has, and returns the number of values
    it keeps. *)
Theorem X16_leaf_intersect b a :
  wf16 b -> wf16 a ->
  wf16 (snd (bucket16_intersect b a)) /\
  fst (bucket16_intersect b a) = count16 (snd (bucket16_intersect b a)) /\
  (forall v, u16 v ->
     bucket16_has (snd (bucket16_intersect b a)) v
     = bucket16_has b v && bucket16_has a v) /\
  elems16 (snd (bucket16_intersect b a))
  = filter (fun v => bucket16_has a v = true) (elems16 b).
Proof.
  intros Hb Ha.
  destruct (bucket16_intersect_spec b a Hb Ha) as (Hwf & Hcnt & Hhas).
  split_and!; try done.
  apply ascending_unique.
  - by apply elems16_ascending.
  - by apply ascending_filter, elems16_ascending.
  - intros v. rewrite list_elem_of_filter, !elems16_elem by done. split.
    + intros [Hv Hh]. rewrite Hhas in Hh by done.
      apply andb_true_iff in Hh as [? ?]. done.
    + intros (Hh & Hv & Hh'). split; [done|]. rewrite Hhas by done.
      by rewrite Hh, Hh'.
Qed.

Lemma X16_leaf_intersect_witness :
  wf16 (fresh16 7) /\
  wf16 (Bucket16 (Some (128 :: replicate 1023 0)) 0 (replicate 56 0)) /\
  fst (bucket16_intersect (fresh16 7)
         (Bucket16 (Some (128 :: replicate 1023 0)) 0 (replicate 56 0)))
  = count16 (snd (bucket16_intersect (fresh16 7)
         (Bucket16 (Some (128 :: replicate 1023 0)) 0 (replicate 56 0)))).
Proof.
  assert (wf16 (fresh16 7)) as Hb by by_eval.
  assert (wf16 (Bucket16 (Some (128 :: replicate 1023 0)) 0 (replicate 56 0)))
    as Ha by by_eval.
  split; [exact Hb|]. split; [exact Ha|].
  by destruct (X16_leaf_intersect _ _ Hb Ha) as (_ & H & _).
Defined.



(** X18: [bucket16.appendTo] appends the members of the bucket in
    ascending order, each joined with the two prefixes, one value per
    member; it may reorder the small pool but keeps the members. *)
Theorem X18_leaf_appendTo b dst hi32 hi16 :
  wf16 b -> u16 hi16 ->
  fst (bucket16_appendTo b dst hi32 hi16)
  = dst ++ map (fun v => base_of hi32 hi16 + v) (elems16 b) /\
  ascending (elems16 b) /\
  (forall v, v ∈ elems16 b <-> u16 v /\ bucket16_has b v = true) /\
  Z.of_nat (length (elems16 b)) = count16 b /\
  wf16 (snd (bucket16_appendTo b dst hi32 hi16)) /\
  (forall v, bucket16_has (snd (bucket16_appendTo b dst hi32 hi16)) v
             = bucket16_has b v).
Proof.
  intros Hwf Hk.
  destruct (bucket16_appendTo_spec b dst hi32 hi16 Hwf Hk)
    as (H1 & H2 & _ & _ & H3).
  split_and!; try done.
  - by apply elems16_ascending.
  - intros v. by apply elems16_elem.
  - by apply elems16_length.
Qed.

Lemma X18_leaf_appendTo_witness :
  wf16 (snd (bucket16_add (fresh16 9) 3)) /\ u16 2 /\
  fst (bucket16_appendTo (snd (bucket16_add (fresh16 9) 3)) [1] 1 2)
  = [1; 4295098371; 4295098377].
Proof.
  assert (wf16 (snd (bucket16_add (fresh16 9) 3))) as Hwf by by_eval.
  assert (u16 2) as Hk by by_eval.
  split; [exact Hwf|]. split; [exact Hk|].
  destruct (X18_leaf_appendTo _ [1] 1 2 Hwf Hk) as (H & _).
  rewrite H. reflexivity.
Defined.
(** ** The bucket layout after [Intersect] and [Del] *)

Lemma Intersect_loop_layout : forall fuel sbs abs,
  ascending (hi <$> sbs) -> ascending (hi <$> abs) ->
  Forall wf32 sbs -> Forall wf32 abs ->
  (length sbs + length abs <= fuel)%nat ->
  hi <$> (Intersect_loop fuel sbs abs).2
  = (fun b => if bool_decide (hi b ∈ hi <$> abs) then hi b else 0) <$> sbs.
Proof.
  induction fuel as [|fuel IH]; intros sbs abs Hss Hsa Hws Hwa Hf.
  - destruct sbs; [|simpl in Hf; lia]. by simpl.
  - destruct sbs as [|sb sbs']; [by simpl|].
    destruct abs as [|ab abs'].
    { cbn [Intersect_loop]. simp_rec. rewrite <- list_fmap_compose.
      apply Forall_fmap_ext_1, Forall_forall. intros b _.
      rewrite fmap_nil.
      by rewrite bool_decide_eq_false_2 by apply not_elem_of_nil. }
    pose proof Hss as Hss0. pose proof Hsa as Hsa0.
    pose proof Hws as Hws0. pose proof Hwa as Hwa0.
    rewrite fmap_cons in Hss. rewrite fmap_cons in Hsa.
    apply ascending_cons_above in Hss as [Hs1 Hss'].
    apply ascending_cons_above in Hsa as [Ha1 Hsa'].
    apply Forall_cons in Hws as [Hwsb Hws'], Hwa as [Hwab Hwa'].
    cbn [Intersect_loop length] in *.
    destruct (Z.ltb_spec (hi sb) (hi ab)) as [Hlt|Hge].
    + pose proof (IH sbs' (ab :: abs') Hss' Hsa0 Hws' Hwa0
                    ltac:(simpl; lia)) as Hrec.
      destruct (Intersect_loop fuel sbs' (ab :: abs')) as [n r]. simp_rec.
      rewrite !fmap_cons, Hrec. f_equal.
      rewrite bool_decide_eq_false_2; [done|].
      intros [Heq|Hin]%elem_of_cons; [lia|].
      eapply Forall_forall in Ha1; [|exact Hin]. lia.
    + destruct (Z.ltb_spec (hi ab) (hi sb)) as [Hlt|Hge'].
      * pose proof (IH (sb :: sbs') abs' Hss0 Hsa' Hws0 Hwa'
                      ltac:(simpl; lia)) as Hrec.
        rewrite Hrec.
        apply Forall_fmap_ext_1, Forall_forall. intros b Hb.
        assert (hi ab < hi b) as Hab.
        { apply elem_of_cons in Hb as [->|Hb]; [done|].
          assert (hi b ∈ hi <$> sbs') as Hin
            by (apply list_elem_of_fmap; by exists b).
          eapply Forall_forall in Hs1; [|exact Hin]. lia. }
        assert (bool_decide (hi b ∈ hi <$> abs')
                = bool_decide (hi b ∈ hi <$> ab :: abs')) as Hbd.
        { apply bool_decide_ext. rewrite fmap_cons, elem_of_cons.
          split; [by right|]. intros [?|?]; [lia|done]. }
        rewrite ?fmap_cons in Hbd |- *. by rewrite Hbd.
      * assert (hi sb = hi ab) as Heq by lia.
        destruct (bucket32_intersect_spec sb ab Hwsb Hwab) as (_ & Hhi & _).
        destruct (bucket32_intersect sb ab) as [c sb'].
        pose proof (IH sbs' abs' Hss' Hsa' Hws' Hwa' ltac:(lia)) as Hrec.
        destruct (Intersect_loop fuel sbs' abs') as [n r]. simp_rec.
        rewrite !fmap_cons, Hrec, Hhi. f_equal.
        -- rewrite bool_decide_eq_true_2; [done|]. rewrite Heq. by left.
        -- apply Forall_fmap_ext_1, Forall_forall. intros b Hb.
           assert (hi ab < hi b) as Hab.
           { assert (hi b ∈ hi <$> sbs') as Hin
               by (apply list_elem_of_fmap; by exists b).
             eapply Forall_forall in Hs1; [|exact Hin]. lia. }
        assert (bool_decide (hi b ∈ hi <$> abs')
                = bool_decide (hi b ∈ hi <$> ab :: abs')) as Hbd.
        { apply bool_decide_ext. rewrite fmap_cons, elem_of_cons.
          split; [by right|]. intros [?|?]; [lia|done]. }
        rewrite ?fmap_cons in Hbd |- *. by rewrite Hbd.
Qed.

(** X19: [Set.Intersect] keeps the number of mid buckets: every mid
    bucket of the receiver whose prefix the operand lacks is replaced
    by a zero bucket, which carries the prefix 0; the others keep
    their prefix.  So the prefixes after the call are those of the
    sorted receiver with the dropped ones set to 0. *)
Theorem X19_intersect_layout s a :
  wfSet s -> wfSet a -> itemsCount s <> 0 -> itemsCount a <> 0 ->
  hi <$> buckets32 (Set_Intersect s a)
  = (fun b => if bool_decide (hi b ∈ hi <$> buckets32 a) then hi b else 0)
      <$> sort_by hi (buckets32 s) /\
  length (buckets32 (Set_Intersect s a)) = length (buckets32 s).
Proof.
  intros Hs Ha Hs0 Ha0.
  destruct (Set_sort_view s Hs) as [Hbs _].
  destruct (Set_sort_view a Ha) as [Hba _].
  destruct (sorted_buckets_facts s Hs) as [Hascs Hwfs].
  destruct (sorted_buckets_facts a Ha) as [Hasca Hwfa].
  assert (hi <$> buckets32 (Set_Intersect s a)
          = (fun b => if bool_decide (hi b ∈ hi <$> buckets32 a) then hi b else 0)
              <$> sort_by hi (buckets32 s)) as Hlay.
  { unfold Set_Intersect.
    destruct (Z.eqb_spec (itemsCount s) 0); [done|].
    destruct (Z.eqb_spec (itemsCount a) 0); [done|]. simpl.
    rewrite Hbs, Hba.
    pose proof (Intersect_loop_layout
                  (length (sort_by hi (buckets32 s)) +
                   length (sort_by hi (buckets32 a)))
                  (sort_by hi (buckets32 s)) (sort_by hi (buckets32 a))
                  Hascs Hasca Hwfs Hwfa (Nat.le_refl _)) as Hl.
    destruct (Intersect_loop _ _ _) as [cnt r]. simp_rec. rewrite Hl.
    apply Forall_fmap_ext_1, Forall_forall. intros b _.
    assert (bool_decide (hi b ∈ hi <$> sort_by hi (buckets32 a))
            = bool_decide (hi b ∈ hi <$> buckets32 a)) as Hbd
      by (apply bool_decide_ext; by rewrite sort_by_perm).
    by rewrite Hbd. }
  split; [done|].
  apply (f_equal length) in Hlay.
  by rewrite !length_fmap, sort_by_length in Hlay.
Qed.

Lemma X19_intersect_layout_witness :
  wfSet (foldl Set_Add Set_zero [4294967296; 8589934592; 12884901889]) /\
  wfSet (foldl Set_Add Set_zero [12884901889]) /\
  hi <$> buckets32
           (Set_Intersect
              (foldl Set_Add Set_zero [4294967296; 8589934592; 12884901889])
              (foldl Set_Add Set_zero [12884901889]))
  = [0; 0; 3].
Proof.
  assert (wfSet (foldl Set_Add Set_zero [4294967296; 8589934592; 12884901889]))
    as Hs by by_eval.
  assert (wfSet (foldl Set_Add Set_zero [12884901889])) as Ha by by_eval.
  split; [exact Hs|]. split; [exact Ha|].
  destruct (X19_intersect_layout _ _ Hs Ha) as [H _]; [done|done|].
  rewrite H. reflexivity.
Defined.

(** X20: [Set.Del] never removes a bucket: the mid buckets keep their
    prefixes and their order, also when the deleted value was the last
    one of its bucket. *)
Theorem X20_del_keeps_buckets s x :
  wfSet s -> u64 x ->
  hi <$> buckets32 (Set_Del s x) = hi <$> buckets32 s.
Proof.
  intros (Hnd & Hwf & Hcnt) Hx. unfold Set_Del. rewrite Del_loop_upd.
  pose proof (upd_loop_spec bucket32_del (buckets32 s) (hi32_of x) (lo32_of x)
                (fun b => del_keeps b (lo32_of x)) Hwf) as Hupd.
  destruct (find32 (buckets32 s) (hi32_of x)) as [b|] eqn:Ef.
  - destruct Hupd as (bs' & -> & Hhis & _). by destruct (bucket32_del b _).1.
  - by rewrite Hupd.
Qed.

Lemma X20_del_keeps_buckets_witness :
  wfSet ex_set /\ u64 281474976710665 /\
  hi <$> buckets32 (Set_Del ex_set 281474976710665) = hi <$> buckets32 ex_set.
Proof.
  assert (wfSet ex_set) as Hwf by by_eval.
  assert (u64 281474976710665) as Hx by by_eval.
  split; [exact Hwf|]. split; [exact Hx|].
  exact (X20_del_keeps_buckets ex_set 281474976710665 Hwf Hx).
Defined.
(** ** [SizeBytes] *)

Lemma foldl_const_length {A} (g : Z -> Z) (l l' : list A) n :
  length l = length l' ->
  foldl (fun n _ => g n) n l = foldl (fun n _ => g n) n l'.
Proof.
  revert l' n. induction l as [|x l IH]; intros [|y l'] n Hl;
    simpl in *; try done; try lia.
  apply IH. lia.
Qed.

Lemma bucket32_sizeBytes_shape σ b b' :
  same_shape b b' -> bucket32_sizeBytes σ b = bucket32_sizeBytes σ b'.
Proof.
  intros [Hk Hl]. unfold bucket32_sizeBytes, bucket16_sizeBytes.
  rewrite Hk.
  apply (foldl_const_length
           (fun n => to_u64 (to_u64 (n + size_ptr σ)
                             + to_u64 (size_bucket16 σ + size_bits σ)))).
  done.
Qed.

Lemma Set_SizeBytes_shape σ bs bs' : forall n,
  Forall2 same_shape bs bs' ->
  foldl (fun n b32 => to_u64 (to_u64 (n + size_ptr σ) + bucket32_sizeBytes σ b32))
        n bs
  = foldl (fun n b32 => to_u64 (to_u64 (n + size_ptr σ) + bucket32_sizeBytes σ b32))
          n bs'.
Proof.
  intros n H. revert n. induction H as [|b b' bs bs' Hb _ IH]; intros n; [done|].
  simpl. rewrite (bucket32_sizeBytes_shape σ b b' Hb). apply IH.
Qed.

Lemma same_shape_refl b : same_shape b b.
Proof. done. Qed.

Lemma Forall2_same_shape_refl bs : Forall2 same_shape bs bs.
Proof. induction bs; constructor; done. Qed.

Lemma del_at_shape b n lo : same_shape (del_at b n lo).2 b.
Proof.
  unfold del_at. destruct (buckets b !! n); [|done].
  destruct (bucket16_del _ _). unfold same_shape. simpl.
  by rewrite length_insert.
Qed.

Lemma bucket32_del_shape b x : same_shape (bucket32_del b x).2 b.
Proof.
  unfold bucket32_del. destruct (hint_hits b _); [apply del_at_shape|].
  unfold delSlow. destruct (_ <? _)%nat.
  - destruct (b16his _ !! _); [|done].
    destruct (_ =? _); [|done]. apply (del_at_shape (set_hint b _)).
  - destruct (index_of _ _); [|done]. apply (del_at_shape (set_hint b _)).
Qed.

Lemma Del_loop_shape bs h lo :
  match Del_loop bs h lo with
  | Some (_, bs') => Forall2 same_shape bs' bs
  | None => True
  end.
Proof.
  induction bs as [|b bs IH]; [done|]. simpl.
  destruct (hi b =? h).
  - pose proof (bucket32_del_shape b lo) as Hb.
    destruct (bucket32_del b lo) as [ok b']. simpl in Hb.
    constructor; [done|apply Forall2_same_shape_refl].
  - destruct (Del_loop bs h lo) as [[ok bs']|]; [|done]. simpl.
    by constructor.
Qed.

(** X21: [SizeBytes] is 0 for a nil set; otherwise it depends only on
    how many mid buckets, keys and leaf buckets the set has: a leaf
    counts the size of the bitmap array whether it has one or not, and
    [Del], which never removes a bucket, never lowers the estimate. *)
Theorem X21_sizeBytes_layout σ s s' x b b' :
  Forall2 same_shape (buckets32 s) (buckets32 s') ->
  SizeBytes σ None = 0 /\
  SizeBytes σ (Some s) = SizeBytes σ (Some s') /\
  bucket16_sizeBytes σ b = bucket16_sizeBytes σ b' /\
  SizeBytes σ (Some (Set_Del s x)) = SizeBytes σ (Some s).
Proof.
  intros Hsh. split_and!; try done.
  - by apply Set_SizeBytes_shape.
  - simpl. unfold Set_SizeBytes. apply Set_SizeBytes_shape.
    unfold Set_Del. pose proof (Del_loop_shape (buckets32 s) (hi32_of x) (lo32_of x)) as H.
    destruct (Del_loop _ _ _) as [[ok bs']|]; [done|].
    apply Forall2_same_shape_refl.
Qed.

Lemma X21_sizeBytes_witness :
  Forall2 same_shape (buckets32 ex_setA) (buckets32 (Set_Del ex_setA 2)) /\
  SizeBytes sizes64 (Some ex_setA) = SizeBytes sizes64 (Some (Set_Del ex_setA 2)) /\
  SizeBytes sizes64 (Some ex_setA) = 8434.
Proof.
  assert (Forall2 same_shape (buckets32 ex_setA) (buckets32 (Set_Del ex_setA 2)))
    as Hsh by (repeat constructor).
  split; [exact Hsh|].
  destruct (X21_sizeBytes_layout sizes64 ex_setA (Set_Del ex_setA 2) 2
              bucket16_zero bucket16_zero Hsh) as (_ & H & _).
  split; [exact H|]. reflexivity.
Defined.
